(** * drgn [dwarfindex.c]: a shallow embedding and its verified properties

    The C file maps ELF object files, relocates their debug sections,
    compiles the DWARF abbreviation tables into skip programs, walks the
    DIE tree of every compilation unit and records named top-level DIEs in
    an open-addressed hash table.

    Modelling conventions.
    - A file's mapping ([file->map]) is a [list byte] together with the
      address it is mapped at; a C pointer is the [Z] offset of its address
      from the start of the mapping (negative below the mapping), a
      nullable pointer is an [option Z].  Offsets compare as the addresses
      do.  Where the code adds an unchecked 64-bit number to a pointer, the
      address is computed modulo [2^64] ([ptr_add]); the other additions
      come after a bounds check and are plain additions.
    - An access outside the mapping is the outcome [Fault].
    - [uintN_t] values are [Z] in [0, 2^N); every place where C truncates
      or wraps has its [mod] written out.
    - A function returning [-1] with a Python exception set is the outcome
      [Raise e]; the exception carries the message (format arguments are
      left out of the text).
    - [malloc]/[realloc] are assumed to succeed; the capacity bookkeeping of
      the growable buffers is therefore not part of the state. *)

From Stdlib Require Import ZArith List Lia Bool String.
From Stdlib Require Import Strings.Byte.
From stdpp Require Import base list gmap.
Import ListNotations.

Local Open Scope Z_scope.

(* ===================================================================== *)
(** * Part I: definitions *)
(* ===================================================================== *)

(** ** Outcomes *)

Inductive exn : Type :=
| EOFError
| OverflowError (msg : string)
| NotImplementedError (msg : string)
| ElfFormatError (msg : string)
| DwarfFormatError (msg : string)
| MemoryError
| ValueError (msg : string).

Inductive result (A : Type) : Type :=
| Ok (a : A)
| Raise (e : exn)
| Fault
| OutOfFuel.

Arguments Ok {A} a.
Arguments Raise {A} e.
Arguments Fault {A}.
Arguments OutOfFuel {A}.

(** Errors propagate: [x ← m; k] runs [k] only when [m] succeeded. *)
#[global] Instance result_bind : MBind result := fun A B k m =>
  match m with
  | Ok a => k a
  | Raise e => Raise e
  | Fault => Fault
  | OutOfFuel => OutOfFuel
  end.

(** ** Integer widths *)

Definition UINT8_MOD : Z := 2 ^ 8.
Definition UINT32_MOD : Z := 2 ^ 32.
Definition UINT64_MOD : Z := 2 ^ 64.
Definition SIZE_MAX : Z := 2 ^ 64 - 1.

(** ** The mapping *)

Definition u8 (b : byte) : Z := Z.of_N (Byte.to_N b).

Definition byte_of_Z (z : Z) : byte :=
  match Byte.of_N (Z.to_N (z mod 256)) with
  | Some b => b
  | None => x00
  end.

(** The bytes of the mapping from address [a] on. *)
Definition bytes_from (m : list byte) (a : Z) : list byte :=
  drop (Z.to_nat a) m.

(** [n] bytes little-endian, lowest address first. *)
Fixpoint le_decode (bs : list byte) : Z :=
  match bs with
  | [] => 0
  | b :: bs' => u8 b + 256 * le_decode bs'
  end.

Fixpoint le_encode (n : nat) (v : Z) : list byte :=
  match n with
  | O => []
  | S n' => byte_of_Z v :: le_encode n' (v / 256)
  end.

(** [*(const uintN_t * )p] for [N = 8 * n]. *)
Definition load (m : list byte) (p : Z) (n : nat) : result Z :=
  if (p <? 0) || (Z.of_nat (length m) <? p + Z.of_nat n) then Fault
  else Ok (le_decode (take n (bytes_from m p))).

(** [*(uintN_t * )p = v]: the bytes at [p] are replaced in place. *)
Fixpoint store_bytes (m : list byte) (p : nat) (bs : list byte) : list byte :=
  match bs with
  | [] => m
  | b :: bs' => store_bytes (<[p := b]> m) (S p) bs'
  end.

Definition store (m : list byte) (p : Z) (n : nat) (v : Z) : result (list byte) :=
  if (p <? 0) || (Z.of_nat (length m) <? p + Z.of_nat n) then Fault
  else Ok (store_bytes m (Z.to_nat p) (le_encode n v)).

(** ** Bounded readers (lines 37-163) *)

Definition in_bounds (ptr end_ size : Z) : bool :=
  (ptr <=? end_) && (end_ - ptr >=? size).

(** [read_u8], [read_u16], [read_u32], [read_u64] with [n] the byte
    width: the value and the advanced pointer. *)
Definition read_u (n : nat) (m : list byte) (ptr end_ : Z) : result (Z * Z) :=
  if negb (in_bounds ptr end_ (Z.of_nat n)) then Raise EOFError
  else
    v ← load m ptr n;
    Ok (v, ptr + Z.of_nat n).

Definition read_u8 := read_u 1.
Definition read_u16 := read_u 2.
Definition read_u32 := read_u 4.
Definition read_u64 := read_u 8.

Definition read_u_into_size_t (n : nat) (m : list byte) (ptr end_ : Z)
  : result (Z * Z) :=
  '(tmp, ptr') ← read_u n m ptr end_;
  if tmp >? SIZE_MAX then Raise EOFError else Ok (tmp, ptr').

Definition ULEB128_OVERFLOW : string :=
  "ULEB128 overflowed unsigned 64-bit integer".

(** The [for (;;)] of [read_uleb128]; [bs] are the bytes of the mapping
    from [ptr] on, so the recursion follows the pointer. *)
Fixpoint read_uleb128_loop (bs : list byte) (ptr end_ shift value : Z)
  : result (Z * Z) :=
  if ptr >=? end_ then Raise EOFError
  else
    match bs with
    | [] => Fault
    | b :: bs' =>
        let byte := u8 b in
        let ptr := ptr + 1 in
        if (shift =? 63) && (byte >? 1) then
          Raise (OverflowError ULEB128_OVERFLOW)
        else
          let value :=
            Z.lor value (Z.shiftl (Z.land byte 0x7f) shift mod UINT64_MOD) in
          let shift := shift + 7 in
          if Z.land byte 0x80 =? 0 then Ok (value, ptr)
          else read_uleb128_loop bs' ptr end_ shift value
    end.

Definition read_uleb128 (m : list byte) (ptr end_ : Z) : result (Z * Z) :=
  if ptr <? 0 then (if ptr >=? end_ then Raise EOFError else Fault)
  else read_uleb128_loop (bytes_from m ptr) ptr end_ 0 0.

Definition read_uleb128_into_size_t (m : list byte) (ptr end_ : Z)
  : result (Z * Z) :=
  '(tmp, ptr') ← read_uleb128 m ptr end_;
  if tmp >? SIZE_MAX then Raise EOFError else Ok (tmp, ptr').

(** The value a ULEB128 encoding denotes, with the number of bytes it
    occupies: the standard unbounded base-128 little-endian reading, which
    stops at the first byte whose high bit is clear.  [None] when the bytes
    end before such a byte. *)
Fixpoint uleb128_value (bs : list byte) : option (Z * Z) :=
  match bs with
  | [] => None
  | b :: bs' =>
      if Z.land (u8 b) 0x80 =? 0 then Some (u8 b, 1)
      else
        match uleb128_value bs' with
        | Some (v, n) => Some (Z.land (u8 b) 0x7f + 128 * v, n + 1)
        | None => None
        end
  end.

(** The bytes in [[ptr, end_)]. *)
Definition bytes_between (m : list byte) (ptr end_ : Z) : list byte :=
  take (Z.to_nat (end_ - ptr)) (bytes_from m ptr).

(** The byte carries the continuation bit. *)
Definition cont_bit (c : byte) : Prop := Z.land (u8 c) 0x80 <> 0.

(** After [j] bytes with the continuation bit comes a byte above 1. *)
Definition byte_above_1_after (j : nat) (bs : list byte) : Prop :=
  exists pre b rest,
    bs = pre ++ b :: rest /\ length pre = j /\ Forall cont_bit pre /\ 1 < u8 b.

(** The first nine bytes all carry the continuation bit and a tenth byte
    above 1 follows: what [read_uleb128] reports as an overflow. *)
Definition tenth_byte_above_1 (bs : list byte) : Prop :=
  byte_above_1_after 9 bs.

(** ** ELF structures

    The layouts of [Elf64_Rela] and [Elf64_Sym] and the relocation type
    numbers are those of the system header [<elf.h>] for ELF-64:
    [Elf64_Rela] is [r_offset], [r_info], [r_addend], eight bytes each;
    [Elf64_Sym] is [st_name] (4), [st_info] (1), [st_other] (1),
    [st_shndx] (2), [st_value] (8), [st_size] (8). *)

Definition sizeof_Elf64_Rela : Z := 24.
Definition sizeof_Elf64_Sym : Z := 24.
Definition offsetof_st_value : Z := 8.

Definition R_X86_64_NONE : Z := 0.
Definition R_X86_64_64 : Z := 1.
Definition R_X86_64_32 : Z := 10.

Record Elf64_Rela : Type := {
  r_offset : Z;
  r_info : Z;
  r_addend : Z  (* Elf64_Sxword: signed *)
}.

(** [struct section]: [sec_buffer] is the offset of the section in the
    mapping.  A section that was not found has size 0. *)
Record section : Type := {
  shdr_index : Z;
  sec_buffer : Z;
  sec_size : Z
}.

Definition to_int64 (v : Z) : Z :=
  if v <? 2 ^ 63 then v else v - UINT64_MOD.

(** [relocs[i]] *)
Definition reloc_entry (m : list byte) (rela_section : section) (i : Z)
  : result Elf64_Rela :=
  let a := sec_buffer rela_section + i * sizeof_Elf64_Rela in
  off ← load m a 8;
  info ← load m (a + 8) 8;
  addend ← load m (a + 16) 8;
  Ok {| r_offset := off; r_info := info; r_addend := to_int64 addend |}.

(** [syms[r_sym].st_value] *)
Definition sym_st_value (m : list byte) (symtab : section) (r_sym : Z)
  : result Z :=
  load m (sec_buffer symtab + r_sym * sizeof_Elf64_Sym + offsetof_st_value) 8.

Definition INVALID_RELOCATION_SYMBOL : string := "invalid relocation symbol".
Definition INVALID_RELOCATION_OFFSET : string := "invalid relocation offset".
Definition UNIMPLEMENTED_RELOCATION : string := "unimplemented relocation type".

(** ** [apply_relocations] (lines 467-528) *)

Definition reloc_sym (r : Elf64_Rela) : Z := Z.shiftr (r_info r) 32.
Definition reloc_type (r : Elf64_Rela) : Z := Z.land (r_info r) 0xffffffff.

(** [num_syms], as the source computes it: with [sizeof(Elf64_Rela)]. *)
Definition num_syms (symtab : section) : Z :=
  sec_size symtab / sizeof_Elf64_Rela.

Definition num_relocs (rela_section : section) : Z :=
  sec_size rela_section / sizeof_Elf64_Rela.

(** The [case R_X86_64_32] and [case R_X86_64_64] arms, [w] the width of
    the write in bytes. *)
Definition relocate (w : nat) (m : list byte) (sec symtab : section)
    (r : Elf64_Rela) : result (list byte) :=
  let p := sec_buffer sec + r_offset r in
  if reloc_sym r >=? num_syms symtab then
    Raise (ElfFormatError INVALID_RELOCATION_SYMBOL)
  else if (r_offset r >? SIZE_MAX - Z.of_nat w)
          || (r_offset r + Z.of_nat w >? sec_size sec) then
    Raise (ElfFormatError INVALID_RELOCATION_OFFSET)
  else
    st_value ← sym_st_value m symtab (reloc_sym r);
    store m p w ((st_value + r_addend r) mod UINT64_MOD).

(** The body of the [for] loop: the [switch (r_type)]. *)
Definition apply_relocation (m : list byte) (sec symtab : section)
    (r : Elf64_Rela) : result (list byte) :=
  if reloc_type r =? R_X86_64_NONE then Ok m
  else if reloc_type r =? R_X86_64_32 then relocate 4 m sec symtab r
  else if reloc_type r =? R_X86_64_64 then relocate 8 m sec symtab r
  else Raise (NotImplementedError UNIMPLEMENTED_RELOCATION).

(** [for (i = ...; i < num_relocs; i++)] with [n] iterations left. *)
Fixpoint apply_relocations_loop (n : nat) (i : Z) (m : list byte)
    (sec rela_section symtab : section) : result (list byte) :=
  match n with
  | O => Ok m
  | S n' =>
      r ← reloc_entry m rela_section i;
      m' ← apply_relocation m sec symtab r;
      apply_relocations_loop n' (i + 1) m' sec rela_section symtab
  end.

Definition apply_relocations (m : list byte) (sec rela_section symtab : section)
  : result (list byte) :=
  apply_relocations_loop (Z.to_nat (num_relocs rela_section)) 0 m
    sec rela_section symtab.

(** The width a relocation of type [t] writes: 4 for [R_X86_64_32], 8 for
    [R_X86_64_64]. *)
Definition reloc_width (t : Z) : option nat :=
  if t =? R_X86_64_32 then Some 4%nat
  else if t =? R_X86_64_64 then Some 8%nat
  else None.

(** The address ranges [[a, a + n)] and [[b, b + k)] do not meet. *)
Definition disjoint_ranges (a n b k : Z) : Prop :=
  a + n <= b \/ b + k <= a.

Definition sections_disjoint (s t : section) : Prop :=
  disjoint_ranges (sec_buffer s) (sec_size s) (sec_buffer t) (sec_size t).

(** The section lies in the mapping (what [validate_shdr] checked). *)
Definition section_in_map (m : list byte) (s : section) : Prop :=
  0 <= sec_buffer s /\ 0 <= sec_size s /\
  sec_buffer s + sec_size s <= Z.of_nat (length m).

(** [m'] differs from [m] at most inside section [s]. *)
Definition same_outside (s : section) (m m' : list byte) : Prop :=
  length m' = length m /\
  forall k : nat,
    ~ (sec_buffer s <= Z.of_nat k < sec_buffer s + sec_size s) ->
    m' !! k = m !! k.

(** Entry [j] of the RELA section, read from [m0], is of type 32 or 64 and
    so writes the [w] bytes at address [a]. *)
Definition writes_of (sec rela : section) (m0 : list byte) (j a w : Z) : Prop :=
  exists r wn,
    reloc_entry m0 rela j = Ok r /\
    reloc_width (reloc_type r) = Some wn /\
    a = sec_buffer sec + r_offset r /\ w = Z.of_nat wn.

(** A small object file for the relocation examples: the relocated section
    is the 8 bytes at 0, the symbol table the one [Elf64_Sym] at 8 (its
    [st_value] is [0x11223344]), the RELA section the entries at 32. *)
Definition example_sym : list byte :=
  le_encode 8 0 ++ le_encode 8 0x11223344 ++ le_encode 8 0.

Definition example_rela (off info addend : Z) : list byte :=
  le_encode 8 off ++ le_encode 8 info ++ le_encode 8 addend.

Definition example_sec : section :=
  {| shdr_index := 1; sec_buffer := 0; sec_size := 8 |}.
Definition example_symtab : section :=
  {| shdr_index := 2; sec_buffer := 8; sec_size := 24 |}.
Definition example_rela_sec (n : Z) : section :=
  {| shdr_index := 3; sec_buffer := 32; sec_size := 24 * n |}.

(** Two [R_X86_64_32] entries for the same four bytes, addends 1 and 2. *)
Definition example_map_overlap : list byte :=
  le_encode 8 0 ++ example_sym
  ++ example_rela 0 R_X86_64_32 1 ++ example_rela 0 R_X86_64_32 2.

(** The relocated section is the symbol table's own bytes.  The first
    entry relocates the [st_value] field of the symbol (offset 8) with
    addend 1, the second the [st_size] field (offset 16) with addend 0;
    both are [R_X86_64_64] against symbol 0. *)
Definition example_sec_alias : section :=
  {| shdr_index := 1; sec_buffer := 8; sec_size := 24 |}.

Definition example_map_alias : list byte :=
  le_encode 8 0 ++ example_sym
  ++ example_rela 8 R_X86_64_64 1 ++ example_rela 16 R_X86_64_64 0.

(** One [R_X86_64_64] entry whose [r_offset] is the last byte of the
    8-byte section. *)
Definition example_map_past_end : list byte :=
  le_encode 8 0 ++ example_sym ++ example_rela 7 R_X86_64_64 0.

(** ** The DIE hash table (lines 20-22, 251-264, 856-890, 1178-1214) *)

Definition DIE_HASH_SHIFT : Z := 17.
Definition DIE_HASH_SIZE : Z := Z.shiftl 1 DIE_HASH_SHIFT.
Definition DIE_HASH_MASK : Z := Z.shiftl 1 DIE_HASH_SHIFT - 1.

#[global] Instance byte_eq_dec : EqDecision byte := Byte.byte_eq_dec.

(** [struct die_hash_entry].  [e_name] is the string the [name] pointer
    addresses, without its terminating NUL: the mappings are not written
    once relocation is done, so for hashing and [strcmp] the pointer
    stands for that string.  [e_file], [e_cu] identify the compilation
    unit ([files[e_file].cus[e_cu]]); [e_ptr] is the address of the DIE. *)
Record die_hash_entry : Type := {
  e_name : list byte;
  e_tag : Z;
  e_file : nat;
  e_cu : nat;
  e_ptr : Z
}.

(** [self->die_hash]: slot [i] of the array is [die_hash !! i]; a slot
    whose [name] is [NULL] is absent from the map. *)
Abbreviation die_hash_t := (gmap Z die_hash_entry).

Fixpoint name_hash_loop (p : list byte) (hash : Z) : Z :=
  match p with
  | [] => hash
  | b :: p' => name_hash_loop p' ((Z.shiftl hash 5 + hash + u8 b) mod UINT32_MOD)
  end.

Definition name_hash (name : list byte) : Z := name_hash_loop name 5381.

(** [entry->tag == tag && strcmp(entry->name, name) == 0] *)
Definition entry_matches (entry : die_hash_entry) (name : list byte) (tag : Z)
  : bool :=
  (e_tag entry =? tag) && bool_decide (e_name entry = name).

Fixpoint add_die_hash_entry_loop (fuel : nat) (die_hash : die_hash_t)
    (i orig_i : Z) (new : die_hash_entry) : result die_hash_t :=
  match fuel with
  | O => OutOfFuel
  | S fuel' =>
      match die_hash !! i with
      | None => Ok (<[i := new]> die_hash)
      | Some entry =>
          if entry_matches entry (e_name new) (e_tag new) then Ok die_hash
          else
            let i := Z.land (i + 1) DIE_HASH_MASK in
            if i =? orig_i then Raise MemoryError
            else add_die_hash_entry_loop fuel' die_hash i orig_i new
      end
  end.

(** At most [DIE_HASH_SIZE] slots are visited before [i == orig_i]. *)
Definition add_die_hash_entry (die_hash : die_hash_t) (new : die_hash_entry)
  : result die_hash_t :=
  let i := Z.land (name_hash (e_name new)) DIE_HASH_MASK in
  add_die_hash_entry_loop (Z.to_nat DIE_HASH_SIZE) die_hash i i new.

Definition DIE_NOT_FOUND : string := "DIE not found".

(** The probe loop of [DwarfIndex_find]: the entry, or [None] for
    [entry = NULL]. *)
Fixpoint find_loop (fuel : nat) (die_hash : die_hash_t) (i orig_i : Z)
    (name : list byte) (tag : Z) : result (option die_hash_entry) :=
  match fuel with
  | O => OutOfFuel
  | S fuel' =>
      match die_hash !! i with
      | None => Ok None
      | Some entry =>
          if entry_matches entry name tag then Ok (Some entry)
          else
            let i := Z.land (i + 1) DIE_HASH_MASK in
            if i =? orig_i then Ok None
            else find_loop fuel' die_hash i orig_i name tag
      end
  end.

(** [DwarfIndex_find] up to the entry it locates; what follows in the
    source hands the entry's CU and DIE offsets to the Python objects. *)
Definition DwarfIndex_find (die_hash : die_hash_t) (name : list byte) (tag : Z)
  : result die_hash_entry :=
  let i := Z.land (name_hash name) DIE_HASH_MASK in
  entry ← find_loop (Z.to_nat DIE_HASH_SIZE) die_hash i i name tag;
  match entry with
  | None => Raise (ValueError DIE_NOT_FOUND)
  | Some e => Ok e
  end.

(** The insertions of a construction, in order. *)
Fixpoint add_entries (die_hash : die_hash_t) (l : list die_hash_entry)
  : result die_hash_t :=
  match l with
  | [] => Ok die_hash
  | new :: l' =>
      die_hash' ← add_die_hash_entry die_hash new;
      add_entries die_hash' l'
  end.

(** Slot [k] of the linear-probe sequence of [name]. *)
Definition probe_slot (name : list byte) (k : Z) : Z :=
  (name_hash name + k) mod DIE_HASH_SIZE.

(** The probe sequence of [name] meets [k] occupied slots, none of them
    holding [(name, tag)], and then an empty slot or the end of the table. *)
Definition probe_misses (die_hash : die_hash_t) (name : list byte) (tag : Z)
  : Prop :=
  exists k,
    0 <= k <= DIE_HASH_SIZE /\
    (forall j, 0 <= j < k ->
       exists e, die_hash !! probe_slot name j = Some e /\
                 entry_matches e name tag = false) /\
    (k = DIE_HASH_SIZE \/ die_hash !! probe_slot name k = None).

(** The probe sequence of [name] meets [entry], holding [(name, tag)], at
    its slot [k], after occupied slots that do not hold [(name, tag)]. *)
Definition probe_hits (die_hash : die_hash_t) (name : list byte) (tag : Z)
    (entry : die_hash_entry) : Prop :=
  exists k,
    0 <= k < DIE_HASH_SIZE /\
    (forall j, 0 <= j < k ->
       exists e, die_hash !! probe_slot name j = Some e /\
                 entry_matches e name tag = false) /\
    die_hash !! probe_slot name k = Some entry /\
    entry_matches entry name tag = true.

(** The first entry of [l] with the name and tag of [x]. *)
Definition first_inserted (l : list die_hash_entry) (name : list byte) (tag : Z)
  : option die_hash_entry :=
  List.find (fun e => entry_matches e name tag) l.

(** *** The table as the specification words it

    The DJB2 polynomial (start 5381, times 33 plus the byte), here without
    any reduction, the 32-bit hash it gives, and the probe sequence, the
    match and the first insertion stated with these and with the fields of
    the entries. *)
Fixpoint djb2 (p : list byte) (hash : Z) : Z :=
  match p with
  | [] => hash
  | b :: p' => djb2 p' (hash * 33 + u8 b)
  end.

Definition DJB2 (name : list byte) : Z := djb2 name 5381 mod 2 ^ 32.

(** Slot [k] of the linear-probe sequence that starts at [DJB2 name] masked
    to 17 bits and wraps around at the end of the table. *)
Definition spec_probe_slot (name : list byte) (k : Z) : Z :=
  (Z.land (DJB2 name) (2 ^ 17 - 1) + k) mod 2 ^ 17.

(** The sequence passes [k] occupied slots, none with tag [tag] and name
    [name], and then reaches an empty slot or has walked the whole table. *)
Definition spec_probe_misses (die_hash : die_hash_t) (name : list byte)
    (tag : Z) : Prop :=
  exists k,
    0 <= k <= 2 ^ 17 /\
    (forall j, 0 <= j < k ->
       exists e, die_hash !! spec_probe_slot name j = Some e /\
                 ~ (e_tag e = tag /\ e_name e = name)) /\
    (k = 2 ^ 17 \/ die_hash !! spec_probe_slot name k = None).

(** The sequence meets [entry], with tag [tag] and name [name], after
    occupied slots that hold other pairs. *)
Definition spec_probe_hits (die_hash : die_hash_t) (name : list byte)
    (tag : Z) (entry : die_hash_entry) : Prop :=
  exists k,
    0 <= k < 2 ^ 17 /\
    (forall j, 0 <= j < k ->
       exists e, die_hash !! spec_probe_slot name j = Some e /\
                 ~ (e_tag e = tag /\ e_name e = name)) /\
    die_hash !! spec_probe_slot name k = Some entry /\
    e_tag entry = tag /\ e_name entry = name.

(** [e] is the first entry of [l] with tag [tag] and name [name]. *)
Definition first_with (l : list die_hash_entry) (name : list byte) (tag : Z)
    (e : die_hash_entry) : Prop :=
  exists l1 l2,
    l = l1 ++ e :: l2 /\
    e_tag e = tag /\ e_name e = name /\
    forall x, In x l1 -> ~ (e_tag x = tag /\ e_name x = name).

(** The common shape of the two probe loops: where the walk from slot [i]
    stops. *)
Inductive walk_result : Type :=
| WalkEmpty (i : Z)
| WalkMatch (i : Z) (entry : die_hash_entry)
| WalkFull
| WalkOutOfFuel.

Fixpoint walk (fuel : nat) (die_hash : die_hash_t) (i orig_i : Z)
    (name : list byte) (tag : Z) : walk_result :=
  match fuel with
  | O => WalkOutOfFuel
  | S fuel' =>
      match die_hash !! i with
      | None => WalkEmpty i
      | Some entry =>
          if entry_matches entry name tag then WalkMatch i entry
          else
            let i := Z.land (i + 1) DIE_HASH_MASK in
            if i =? orig_i then WalkFull
            else walk fuel' die_hash i orig_i name tag
      end
  end.

(** The first [k] slots of the probe sequence are occupied by entries that
    are not [(name, tag)]. *)
Definition probe_passes (die_hash : die_hash_t) (name : list byte) (tag : Z)
    (k : Z) : Prop :=
  forall j, 0 <= j < k ->
    exists e, die_hash !! probe_slot name j = Some e /\
              entry_matches e name tag = false.

Definition walk_spec (die_hash : die_hash_t) (name : list byte) (tag : Z)
    (r : walk_result) : Prop :=
  match r with
  | WalkEmpty i =>
      exists k, 0 <= k < DIE_HASH_SIZE /\ i = probe_slot name k /\
                probe_passes die_hash name tag k /\
                die_hash !! probe_slot name k = None
  | WalkMatch i entry =>
      exists k, 0 <= k < DIE_HASH_SIZE /\ i = probe_slot name k /\
                probe_passes die_hash name tag k /\
                die_hash !! probe_slot name k = Some entry /\
                entry_matches entry name tag = true
  | WalkFull => probe_passes die_hash name tag DIE_HASH_SIZE
  | WalkOutOfFuel => False
  end.

(** What the table holds after the insertions [l]: every entry sits on the
    probe sequence of its name with no empty slot before it, is the first
    of [l] with its name and tag, no name and tag is held twice, and every
    inserted name and tag is held. *)
Record table_inv (die_hash : die_hash_t) (l : list die_hash_entry) : Prop := {
  inv_reachable :
    forall i e, die_hash !! i = Some e ->
      exists k, 0 <= k < DIE_HASH_SIZE /\ i = probe_slot (e_name e) k /\
                forall j, 0 <= j < k ->
                  is_Some (die_hash !! probe_slot (e_name e) j);
  inv_first :
    forall i e, die_hash !! i = Some e ->
      first_inserted l (e_name e) (e_tag e) = Some e;
  inv_unique :
    forall i i' e e', die_hash !! i = Some e -> die_hash !! i' = Some e' ->
      entry_matches e (e_name e') (e_tag e') = true -> i = i';
  inv_complete :
    forall x, In x l ->
      exists i e, die_hash !! i = Some e /\
                  entry_matches e (e_name x) (e_tag x) = true
}.

(** Example names and entries. *)
Definition name_foo : list byte := [x66; x6f; x6f].
Definition name_bar : list byte := [x62; x61; x72].
Definition example_entry (name : list byte) (tag : Z) (cu : nat) (ptr : Z)
  : die_hash_entry :=
  {| e_name := name; e_tag := tag; e_file := 0%nat; e_cu := cu; e_ptr := ptr |}.

Definition example_entries : list die_hash_entry :=
  [example_entry name_foo 0x34 0 11; example_entry name_bar 0x13 0 20;
   example_entry name_foo 0x34 1 45; example_entry name_bar 0x13 1 60].

Definition example_table : die_hash_t :=
  Eval vm_compute in
    match add_entries ∅ example_entries with Ok h => h | _ => ∅ end.

(** ** DWARF constants

    Tags, attribute names and forms are those of [<dwarf.h>]. *)

Definition DW_TAG_class_type : Z := 0x02.
Definition DW_TAG_enumeration_type : Z := 0x04.
Definition DW_TAG_compile_unit : Z := 0x11.
Definition DW_TAG_structure_type : Z := 0x13.
Definition DW_TAG_typedef : Z := 0x16.
Definition DW_TAG_union_type : Z := 0x17.
Definition DW_TAG_base_type : Z := 0x24.
Definition DW_TAG_variable : Z := 0x34.

Definition DW_AT_sibling : Z := 0x01.
Definition DW_AT_name : Z := 0x03.
Definition DW_AT_byte_size : Z := 0x0b.
Definition DW_AT_low_pc : Z := 0x11.
Definition DW_AT_declaration : Z := 0x3c.

Definition DW_FORM_addr : Z := 0x01.
Definition DW_FORM_block2 : Z := 0x03.
Definition DW_FORM_block4 : Z := 0x04.
Definition DW_FORM_data2 : Z := 0x05.
Definition DW_FORM_data4 : Z := 0x06.
Definition DW_FORM_data8 : Z := 0x07.
Definition DW_FORM_string : Z := 0x08.
Definition DW_FORM_block1 : Z := 0x0a.
Definition DW_FORM_data1 : Z := 0x0b.
Definition DW_FORM_flag : Z := 0x0c.
Definition DW_FORM_sdata : Z := 0x0d.
Definition DW_FORM_strp : Z := 0x0e.
Definition DW_FORM_udata : Z := 0x0f.
Definition DW_FORM_ref_addr : Z := 0x10.
Definition DW_FORM_ref1 : Z := 0x11.
Definition DW_FORM_ref2 : Z := 0x12.
Definition DW_FORM_ref4 : Z := 0x13.
Definition DW_FORM_ref8 : Z := 0x14.
Definition DW_FORM_ref_udata : Z := 0x15.
Definition DW_FORM_indirect : Z := 0x16.
Definition DW_FORM_sec_offset : Z := 0x17.
Definition DW_FORM_exprloc : Z := 0x18.
Definition DW_FORM_flag_present : Z := 0x19.
Definition DW_FORM_ref_sig8 : Z := 0x20.

(** ** Skip programs (lines 193-229) *)

Definition ATTRIB_BLOCK1 : Z := 243.
Definition ATTRIB_BLOCK2 : Z := 244.
Definition ATTRIB_BLOCK4 : Z := 245.
Definition ATTRIB_EXPRLOC : Z := 246.
Definition ATTRIB_LEB128 : Z := 247.
Definition ATTRIB_STRING : Z := 248.
Definition ATTRIB_SIBLING_REF1 : Z := 249.
Definition ATTRIB_SIBLING_REF2 : Z := 250.
Definition ATTRIB_SIBLING_REF4 : Z := 251.
Definition ATTRIB_SIBLING_REF8 : Z := 252.
Definition ATTRIB_SIBLING_REF_UDATA : Z := 253.
Definition ATTRIB_NAME_STRP : Z := 254.
Definition ATTRIB_NAME_STRING : Z := 255.
Definition ATTRIB_MIN_CMD : Z := ATTRIB_BLOCK1.

(** [struct abbrev_decl]: the [uint8_t] buffer [cmds]. *)
Record abbrev_decl : Type := { cmds : list Z }.

(** [struct compilation_unit]; [num_abbrev_decls] is the length of
    [abbrev_decls], [cu_ptr] the address of the unit's header. *)
Record compilation_unit : Type := {
  cu_ptr : Z;
  unit_length : Z;
  version : Z;
  debug_abbrev_offset : Z;
  address_size : Z;
  is_64_bit : bool;
  abbrev_decls : list abbrev_decl
}.

Definition num_abbrev_decls (cu : compilation_unit) : Z :=
  Z.of_nat (length (abbrev_decls cu)).

Definition set_abbrev_decls (cu : compilation_unit) (ds : list abbrev_decl)
  : compilation_unit :=
  {| cu_ptr := cu_ptr cu; unit_length := unit_length cu;
     version := version cu; debug_abbrev_offset := debug_abbrev_offset cu;
     address_size := address_size cu; is_64_bit := is_64_bit cu;
     abbrev_decls := ds |}.

(** ** The abbreviation compiler: [read_abbrev_decl] (lines 602-796) *)

(** The tags that are kept (lines 637-644). *)
Definition indexed_tag (tag : Z) : bool :=
  (tag =? DW_TAG_base_type) || (tag =? DW_TAG_class_type)
  || (tag =? DW_TAG_enumeration_type) || (tag =? DW_TAG_structure_type)
  || (tag =? DW_TAG_typedef) || (tag =? DW_TAG_union_type)
  || (tag =? DW_TAG_variable).

(** [switch (form)] under [name == DW_AT_sibling] (lines 667-685). *)
Definition sibling_cmd (form : Z) : option Z :=
  if form =? DW_FORM_ref1 then Some ATTRIB_SIBLING_REF1
  else if form =? DW_FORM_ref2 then Some ATTRIB_SIBLING_REF2
  else if form =? DW_FORM_ref4 then Some ATTRIB_SIBLING_REF4
  else if form =? DW_FORM_ref8 then Some ATTRIB_SIBLING_REF8
  else if form =? DW_FORM_ref_udata then Some ATTRIB_SIBLING_REF_UDATA
  else None.

(** [switch (form)] under [name == DW_AT_name && tag] (lines 687-696). *)
Definition name_cmd (form : Z) : option Z :=
  if form =? DW_FORM_strp then Some ATTRIB_NAME_STRP
  else if form =? DW_FORM_string then Some ATTRIB_NAME_STRING
  else None.

(** The [if / else if] chain on the attribute name (lines 666-705): the
    command to append at once ([goto append_cmd]), if any, and the tag. *)
Definition attr_special (name form tag : Z) : option Z * Z :=
  if name =? DW_AT_sibling then (sibling_cmd form, tag)
  else if (name =? DW_AT_name) && negb (tag =? 0) then (name_cmd form, tag)
  else if (name =? DW_AT_declaration) && negb (tag =? DW_TAG_variable) then
    (None, 0)
  else (None, tag).

(** How [switch (form)] (lines 707-764) leaves: [break] with a
    fixed-length skip, [goto append_cmd], [continue], or an error. *)
Inductive form_action : Type :=
| FormSkip (cmd : Z)
| FormAppend (cmd : Z)
| FormContinue
| FormRaise (e : exn).

Definition INDIRECT_NOT_IMPLEMENTED : string :=
  "DW_FORM_indirect is not implemented".
Definition UNKNOWN_ATTRIBUTE_FORM : string := "unknown attribute form".

Definition form_cmd (cu : compilation_unit) (form : Z) : form_action :=
  if form =? DW_FORM_addr then FormSkip (address_size cu)
  else if (form =? DW_FORM_data1) || (form =? DW_FORM_ref1)
          || (form =? DW_FORM_flag) then FormSkip 1
  else if (form =? DW_FORM_data2) || (form =? DW_FORM_ref2) then FormSkip 2
  else if (form =? DW_FORM_data4) || (form =? DW_FORM_ref4) then FormSkip 4
  else if (form =? DW_FORM_data8) || (form =? DW_FORM_ref8)
          || (form =? DW_FORM_ref_sig8) then FormSkip 8
  else if form =? DW_FORM_block1 then FormAppend ATTRIB_BLOCK1
  else if form =? DW_FORM_block2 then FormAppend ATTRIB_BLOCK2
  else if form =? DW_FORM_block4 then FormAppend ATTRIB_BLOCK4
  else if form =? DW_FORM_exprloc then FormAppend ATTRIB_EXPRLOC
  else if (form =? DW_FORM_sdata) || (form =? DW_FORM_udata)
          || (form =? DW_FORM_ref_udata) then FormAppend ATTRIB_LEB128
  else if (form =? DW_FORM_ref_addr) || (form =? DW_FORM_sec_offset)
          || (form =? DW_FORM_strp) then
    FormSkip (if is_64_bit cu then 8 else 4)
  else if form =? DW_FORM_string then FormAppend ATTRIB_STRING
  else if form =? DW_FORM_flag_present then FormContinue
  else if form =? DW_FORM_indirect then
    FormRaise (NotImplementedError INDIRECT_NOT_IMPLEMENTED)
  else FormRaise (DwarfFormatError UNKNOWN_ATTRIBUTE_FORM).

(** [decl->cmds[num_cmds - 1]], when [num_cmds] is not 0. *)
Definition last_cmd (cmds : list Z) : option Z :=
  match length cmds with
  | O => None
  | S n => cmds !! n
  end.

(** [decl->cmds[num_cmds - 1] = v] *)
Definition set_last_cmd (cmds : list Z) (v : Z) : list Z :=
  <[Nat.pred (length cmds) := v]> cmds.

(** [append_cmd:] (lines 776-789). *)
Definition append_cmd (cmds : list Z) (cmd : Z) : list Z := cmds ++ [cmd].

(** A fixed-length skip [cmd] leaves the [switch]: lines 766-774, then
    [append_cmd] unless the skip was absorbed ([continue]). *)
Definition emit_skip (cmds : list Z) (cmd : Z) : list Z :=
  match last_cmd cmds with
  | Some prev =>
      if prev <? ATTRIB_MIN_CMD then
        if prev + cmd <? ATTRIB_MIN_CMD then
          set_last_cmd cmds ((prev + cmd) mod UINT8_MOD)
        else
          append_cmd (set_last_cmd cmds (ATTRIB_MIN_CMD - 1))
            ((prev + cmd - ATTRIB_MIN_CMD + 1) mod UINT8_MOD)
      else append_cmd cmds cmd
  | None => append_cmd cmds cmd
  end.

(** The [for (;;)] over the attribute specifications (lines 655-790):
    the pointer, the filtered tag and the commands when [(0, 0)] is read. *)
Fixpoint read_attribs (fuel : nat) (m : list byte) (ptr end_ : Z)
    (cu : compilation_unit) (tag : Z) (cmds : list Z)
  : result (Z * Z * list Z) :=
  match fuel with
  | O => OutOfFuel
  | S fuel' =>
      '(name, ptr) ← read_uleb128 m ptr end_;
      '(form, ptr) ← read_uleb128 m ptr end_;
      if (name =? 0) && (form =? 0) then Ok (ptr, tag, cmds)
      else
        let '(special, tag) := attr_special name form tag in
        match special with
        | Some cmd =>
            read_attribs fuel' m ptr end_ cu tag (append_cmd cmds cmd)
        | None =>
            match form_cmd cu form with
            | FormSkip cmd =>
                read_attribs fuel' m ptr end_ cu tag (emit_skip cmds cmd)
            | FormAppend cmd =>
                read_attribs fuel' m ptr end_ cu tag (append_cmd cmds cmd)
            | FormContinue => read_attribs fuel' m ptr end_ cu tag cmds
            | FormRaise e => Raise e
            end
        end
  end.

Definition NOT_SEQUENTIAL : string := "abbreviation table is not sequential".

(** The return value (0: end of the table, 1: a declaration was read),
    the pointer and the compilation unit. *)
Definition read_abbrev_decl (fuel : nat) (m : list byte) (ptr end_ : Z)
    (cu : compilation_unit) : result (Z * Z * compilation_unit) :=
  '(code, ptr) ← read_uleb128 m ptr end_;
  if code =? 0 then Ok (0, ptr, cu)
  else if negb (code =? num_abbrev_decls cu + 1) then
    Raise (NotImplementedError NOT_SEQUENTIAL)
  else
    '(tag, ptr) ← read_uleb128 m ptr end_;
    let tag := if indexed_tag tag then tag else 0 in
    '(children, ptr) ← read_u8 m ptr end_;
    '(ptr, tag, cmds) ← read_attribs fuel m ptr end_ cu tag [];
    let decl := {| cmds := cmds ++ [0; tag mod UINT8_MOD; children] |} in
    Ok (1, ptr, set_abbrev_decls cu (abbrev_decls cu ++ [decl])).

(** [read_abbrev_table]: [n] bounds the declarations, [fuel] the
    attributes of each. *)
Fixpoint read_abbrev_table_loop (n fuel : nat) (m : list byte) (ptr end_ : Z)
    (cu : compilation_unit) : result compilation_unit :=
  match n with
  | O => OutOfFuel
  | S n' =>
      '(ret, ptr, cu) ← read_abbrev_decl fuel m ptr end_ cu;
      if ret =? 1 then read_abbrev_table_loop n' fuel m ptr end_ cu
      else Ok cu
  end.

Definition read_abbrev_table (fuel : nat) (m : list byte) (ptr end_ : Z)
    (cu : compilation_unit) : result compilation_unit :=
  read_abbrev_table_loop fuel fuel m ptr end_ (set_abbrev_decls cu []).

(** ** Compilation units (lines 549-581, 815-854) *)

Definition UNKNOWN_DWARF_VERSION : string := "unknown DWARF version".

(** The header at [ptr]; [cu_ptr] is set as [read_cus] does right after
    the call (line 840), the abbreviation table is still empty. *)
Definition read_compilation_unit_header (m : list byte) (ptr end_ : Z)
  : result compilation_unit :=
  let start := ptr in
  '(tmp, ptr) ← read_u32 m ptr end_;
  let is64 := tmp =? 0xffffffff in
  '(len, ptr) ← (if is64 then read_u64 m ptr end_ else Ok (tmp, ptr));
  '(ver, ptr) ← read_u16 m ptr end_;
  if negb ((ver =? 2) || (ver =? 3) || (ver =? 4)) then
    Raise (DwarfFormatError UNKNOWN_DWARF_VERSION)
  else
    '(off, ptr) ← (if is64 then read_u64 m ptr end_ else read_u32 m ptr end_);
    '(asize, ptr) ← read_u8 m ptr end_;
    Ok {| cu_ptr := start; unit_length := len; version := ver;
          debug_abbrev_offset := off; address_size := asize;
          is_64_bit := is64; abbrev_decls := [] |}.

Inductive debug_section_id : Type := DEBUG_ABBREV | DEBUG_INFO | DEBUG_STR.

(** [struct file] once [read_sections] has filled it in: [file_addr] is
    the address in [file->map], [file_map] the bytes mapped there. *)
Record file : Type := {
  file_addr : Z;
  file_map : list byte;
  symtab : section;
  debug_sections : debug_section_id -> section;
  rela_sections : debug_section_id -> section
}.

(** [DwarfIndex]: the hash table and the [address_size] of the last
    compilation unit read. *)
Record DwarfIndex : Type := {
  die_hash : die_hash_t;
  index_address_size : Z
}.

Definition section_end (s : section) : Z := sec_buffer s + sec_size s.

(** [&p[n]] for a pointer [p] into the mapping at address [map_addr] and an
    unchecked [uint64_t] [n]: the address [map_addr + p + n] is computed
    modulo [2^64], and the result is again an offset from the start of the
    mapping. *)
Definition ptr_add (map_addr p n : Z) : Z :=
  if map_addr + p + n <? UINT64_MOD then p + n else p + n - UINT64_MOD.

(** [(cu->is_64_bit ? 12 : 4) + cu->unit_length], a [uint64_t]. *)
Definition unit_size (cu : compilation_unit) : Z :=
  ((if is_64_bit cu then 12 else 4) + unit_length cu) mod UINT64_MOD.

(** The [while (ptr < debug_info_end)] of [read_cus]: the units read so
    far are [cus], in order.  The table is at
    [&debug_abbrev->buffer[cu->debug_abbrev_offset]] (line 847) and the next
    unit at [ptr + ((cu->is_64_bit ? 12 : 4) + cu->unit_length)] (line
    851); neither sum is checked, so both go through [ptr_add].  The growth
    of [file->cus] (lines 826-833) is left out, [realloc] being assumed to
    succeed: a unit that does not move the pointer makes the loop go on for
    ever. *)
Fixpoint read_cus_loop (n fuel : nat) (self : DwarfIndex) (m : list byte)
    (f : file) (ptr : Z) (cus : list compilation_unit)
  : result (DwarfIndex * list compilation_unit) :=
  match n with
  | O => OutOfFuel
  | S n' =>
      let debug_info_end := section_end (debug_sections f DEBUG_INFO) in
      let debug_abbrev := debug_sections f DEBUG_ABBREV in
      if negb (ptr <? debug_info_end) then Ok (self, cus)
      else
        cu ← read_compilation_unit_header m ptr debug_info_end;
        let self := {| die_hash := die_hash self;
                       index_address_size := address_size cu |} in
        cu ← read_abbrev_table fuel m
               (ptr_add (file_addr f) (sec_buffer debug_abbrev)
                  (debug_abbrev_offset cu))
               (section_end debug_abbrev) cu;
        let ptr := ptr_add (file_addr f) ptr (unit_size cu) in
        read_cus_loop n' fuel self m f ptr (cus ++ [cu])
  end.

Definition read_cus (fuel : nat) (self : DwarfIndex) (m : list byte) (f : file)
  : result (DwarfIndex * list compilation_unit) :=
  read_cus_loop fuel fuel self m f (sec_buffer (debug_sections f DEBUG_INFO)) [].

(** ** The DIE walk: [index_cu] (lines 892-1053) *)

(** The inner loop of [ATTRIB_LEB128]: past the first byte whose high bit
    is clear. *)
Fixpoint skip_leb128_loop (bs : list byte) (ptr end_ : Z) : result Z :=
  if ptr >=? end_ then Raise EOFError
  else
    match bs with
    | [] => Fault
    | b :: bs' =>
        if Z.land (u8 b) 0x80 =? 0 then Ok (ptr + 1)
        else skip_leb128_loop bs' (ptr + 1) end_
    end.

Definition skip_leb128 (m : list byte) (ptr end_ : Z) : result Z :=
  if ptr >=? end_ then Raise EOFError
  else if ptr <? 0 then Fault
  else skip_leb128_loop (bytes_from m ptr) ptr end_.

(** [memchr(ptr, 0, end - ptr)]: the address of the first NUL in
    [[ptr, end_)], if any. *)
Fixpoint memchr_nul (bs : list byte) (ptr end_ : Z) : result (option Z) :=
  if ptr >=? end_ then Ok None
  else
    match bs with
    | [] => Fault
    | b :: bs' =>
        if u8 b =? 0 then Ok (Some ptr) else memchr_nul bs' (ptr + 1) end_
    end.

(** [case ATTRIB_STRING]: past the terminating NUL. *)
Definition skip_string (m : list byte) (ptr end_ : Z) : result Z :=
  if ptr >=? end_ then Raise EOFError
  else if ptr <? 0 then Fault
  else
    nul ← memchr_nul (bytes_from m ptr) ptr end_;
    match nul with
    | None => Raise EOFError
    | Some p => Ok (p + 1)
    end.

(** The NUL-terminated string at [p], without the NUL, as [name_hash] and
    [strcmp] read it. *)
Fixpoint cstring_from (bs : list byte) : result (list byte) :=
  match bs with
  | [] => Fault
  | b :: bs' =>
      if u8 b =? 0 then Ok []
      else s ← cstring_from bs'; Ok (b :: s)
  end.

Definition cstring (m : list byte) (p : Z) : result (list byte) :=
  if p <? 0 then Fault else cstring_from (bytes_from m p).

(** The locals [ptr], [name] and [sibling] of one DIE. *)
Record die_cursor : Type := {
  cur_ptr : Z;
  cur_name : option Z;
  cur_sibling : option Z
}.

(** [skip:] (lines 1024-1030). *)
Definition do_skip (end_ skip : Z) (st : die_cursor) : result die_cursor :=
  if negb (in_bounds (cur_ptr st) end_ skip) then Raise EOFError
  else Ok {| cur_ptr := cur_ptr st + skip; cur_name := cur_name st;
             cur_sibling := cur_sibling st |}.

(** [sibling_ref:] (lines 999-1006), [ptr] already past the offset. *)
Definition do_sibling_ref (cu : compilation_unit) (end_ tmp ptr : Z)
    (st : die_cursor) : result die_cursor :=
  if negb (in_bounds (cu_ptr cu) end_ tmp) then Raise EOFError
  else Ok {| cur_ptr := ptr; cur_name := cur_name st;
             cur_sibling := Some (cu_ptr cu + tmp) |}.

Definition set_ptr (st : die_cursor) (ptr : Z) : die_cursor :=
  {| cur_ptr := ptr; cur_name := cur_name st; cur_sibling := cur_sibling st |}.

(** The [switch (cmd)] of the interpreter (lines 934-1031), for a non-zero
    command. *)
Definition exec_cmd (m : list byte) (cu : compilation_unit) (end_ : Z)
    (debug_str : section) (cmd : Z) (st : die_cursor) : result die_cursor :=
  let ptr := cur_ptr st in
  if cmd =? ATTRIB_BLOCK1 then
    '(skip, ptr) ← read_u_into_size_t 1 m ptr end_;
    do_skip end_ skip (set_ptr st ptr)
  else if cmd =? ATTRIB_BLOCK2 then
    '(skip, ptr) ← read_u_into_size_t 2 m ptr end_;
    do_skip end_ skip (set_ptr st ptr)
  else if cmd =? ATTRIB_BLOCK4 then
    '(skip, ptr) ← read_u_into_size_t 4 m ptr end_;
    do_skip end_ skip (set_ptr st ptr)
  else if cmd =? ATTRIB_EXPRLOC then
    '(skip, ptr) ← read_uleb128_into_size_t m ptr end_;
    do_skip end_ skip (set_ptr st ptr)
  else if cmd =? ATTRIB_LEB128 then
    ptr ← skip_leb128 m ptr end_;
    Ok (set_ptr st ptr)
  else if cmd =? ATTRIB_NAME_STRING then
    ptr' ← skip_string m ptr end_;
    Ok {| cur_ptr := ptr'; cur_name := Some ptr;
          cur_sibling := cur_sibling st |}
  else if cmd =? ATTRIB_STRING then
    ptr ← skip_string m ptr end_;
    Ok (set_ptr st ptr)
  else if cmd =? ATTRIB_SIBLING_REF1 then
    '(tmp, ptr) ← read_u_into_size_t 1 m ptr end_;
    do_sibling_ref cu end_ tmp ptr st
  else if cmd =? ATTRIB_SIBLING_REF2 then
    '(tmp, ptr) ← read_u_into_size_t 2 m ptr end_;
    do_sibling_ref cu end_ tmp ptr st
  else if cmd =? ATTRIB_SIBLING_REF4 then
    '(tmp, ptr) ← read_u_into_size_t 4 m ptr end_;
    do_sibling_ref cu end_ tmp ptr st
  else if cmd =? ATTRIB_SIBLING_REF8 then
    '(tmp, ptr) ← read_u_into_size_t 8 m ptr end_;
    do_sibling_ref cu end_ tmp ptr st
  else if cmd =? ATTRIB_SIBLING_REF_UDATA then
    '(tmp, ptr) ← read_uleb128_into_size_t m ptr end_;
    do_sibling_ref cu end_ tmp ptr st
  else if cmd =? ATTRIB_NAME_STRP then
    '(tmp, ptr) ← (if is_64_bit cu then read_u_into_size_t 8 m ptr end_
                   else read_u_into_size_t 4 m ptr end_);
    if negb (in_bounds (sec_buffer debug_str) (section_end debug_str) tmp) then
      Raise EOFError
    else
      Ok {| cur_ptr := ptr; cur_name := Some (sec_buffer debug_str + tmp);
            cur_sibling := cur_sibling st |}
  else do_skip end_ cmd st.

(** [while ((cmd = *cmdp++))]: the cursor and [cmdp] after the zero
    command. *)
Fixpoint exec_cmds (m : list byte) (cu : compilation_unit) (end_ : Z)
    (debug_str : section) (cmdp : list Z) (st : die_cursor)
  : result (die_cursor * list Z) :=
  match cmdp with
  | [] => Fault
  | cmd :: cmdp' =>
      if cmd =? 0 then Ok (st, cmdp')
      else
        st' ← exec_cmd m cu end_ debug_str cmd st;
        exec_cmds m cu end_ debug_str cmdp' st'
  end.

(** [*cmdp] *)
Definition deref_cmdp (cmdp : list Z) : result Z :=
  match cmdp with
  | [] => Fault
  | c :: _ => Ok c
  end.

(** How one turn of the [for (;;)] of [index_cu] ends. *)
Inductive loop_ctl : Type :=
| LoopBreak
| LoopContinue (ptr : Z) (depth : Z).

Definition UNKNOWN_ABBREVIATION_CODE : string := "unknown abbreviation code".

(** Lines 1035-1038: the indexing rule. *)
Definition index_entry (self : DwarfIndex) (m : list byte) (file_idx cu_idx : nat)
    (depth : Z) (name : option Z) (tag : Z) (die_ptr : Z) : result DwarfIndex :=
  match name with
  | Some name_ptr =>
      if (depth =? 1) && negb (tag =? 0) then
        s ← cstring m name_ptr;
        h ← add_die_hash_entry (die_hash self)
              {| e_name := s; e_tag := tag; e_file := file_idx;
                 e_cu := cu_idx; e_ptr := die_ptr |};
        Ok {| die_hash := h; index_address_size := index_address_size self |}
      else Ok self
  | None => Ok self
  end.

(** One turn of the [for (;;)] (lines 902-1050). *)
Definition index_die (self : DwarfIndex) (m : list byte) (file_idx cu_idx : nat)
    (debug_str : section) (cu : compilation_unit) (end_ ptr depth : Z)
  : result (DwarfIndex * loop_ctl) :=
  let die_ptr := ptr in
  '(code, ptr) ← read_uleb128 m ptr end_;
  if code =? 0 then
    let depth := (depth - 1) mod UINT32_MOD in
    if depth =? 0 then Ok (self, LoopBreak)
    else Ok (self, LoopContinue ptr depth)
  else if (code <? 1) || (code >? num_abbrev_decls cu) then
    Raise (DwarfFormatError UNKNOWN_ABBREVIATION_CODE)
  else
    match abbrev_decls cu !! Z.to_nat (code - 1) with
    | None => Fault
    | Some decl =>
        '(st, cmdp) ← exec_cmds m cu end_ debug_str (cmds decl)
                        {| cur_ptr := ptr; cur_name := None;
                           cur_sibling := None |};
        tag ← deref_cmdp cmdp;
        self ← index_entry self m file_idx cu_idx depth (cur_name st) tag
                 die_ptr;
        children ← deref_cmdp (tail cmdp);
        if negb (children =? 0) then
          match cur_sibling st with
          | Some sibling => Ok (self, LoopContinue sibling depth)
          | None =>
              Ok (self, LoopContinue (cur_ptr st) ((depth + 1) mod UINT32_MOD))
          end
        else if depth =? 0 then Ok (self, LoopBreak)
        else Ok (self, LoopContinue (cur_ptr st) depth)
    end.

Fixpoint index_cu_loop (fuel : nat) (self : DwarfIndex) (m : list byte)
    (file_idx cu_idx : nat) (debug_str : section) (cu : compilation_unit)
    (end_ ptr depth : Z) : result DwarfIndex :=
  match fuel with
  | O => OutOfFuel
  | S fuel' =>
      '(self, ctl) ← index_die self m file_idx cu_idx debug_str cu end_
                       ptr depth;
      match ctl with
      | LoopBreak => Ok self
      | LoopContinue ptr depth =>
          index_cu_loop fuel' self m file_idx cu_idx debug_str cu end_
            ptr depth
      end
  end.

(** [index_cu] on a unit of the file mapped at [map_addr]. *)
Definition index_cu (fuel : nat) (self : DwarfIndex) (map_addr : Z)
    (m : list byte) (file_idx cu_idx : nat) (debug_str : section)
    (cu : compilation_unit) : result DwarfIndex :=
  let ptr := cu_ptr cu + (if is_64_bit cu then 23 else 11) in
  let end_ := ptr_add map_addr (cu_ptr cu) (unit_size cu) in
  index_cu_loop fuel self m file_idx cu_idx debug_str cu end_ ptr 0.

(** ** [DwarfIndex_init], one file (lines 1113-1138) *)

Definition DEBUG_STR_NOT_TERMINATED : string :=
  ".debug_str is not null terminated".

(** Lines 1123-1129. *)
Definition check_debug_str (m : list byte) (debug_str : section) : result unit :=
  if sec_size debug_str =? 0 then
    Raise (DwarfFormatError DEBUG_STR_NOT_TERMINATED)
  else
    last ← load m (sec_buffer debug_str + sec_size debug_str - 1) 1;
    if negb (last =? 0) then Raise (DwarfFormatError DEBUG_STR_NOT_TERMINATED)
    else Ok tt.

(** Lines 1116-1121: the three debug sections in order. *)
Definition relocate_file (f : file) : result (list byte) :=
  m ← apply_relocations (file_map f) (debug_sections f DEBUG_ABBREV)
        (rela_sections f DEBUG_ABBREV) (symtab f);
  m ← apply_relocations m (debug_sections f DEBUG_INFO)
        (rela_sections f DEBUG_INFO) (symtab f);
  apply_relocations m (debug_sections f DEBUG_STR)
    (rela_sections f DEBUG_STR) (symtab f).

(** Lines 1134-1138: [index_cu] on every unit of the file. *)
Fixpoint index_cus (fuel : nat) (self : DwarfIndex) (map_addr : Z)
    (m : list byte) (file_idx cu_idx : nat) (debug_str : section)
    (cus : list compilation_unit) : result DwarfIndex :=
  match cus with
  | [] => Ok self
  | cu :: cus' =>
      self ← index_cu fuel self map_addr m file_idx cu_idx debug_str cu;
      index_cus fuel self map_addr m file_idx (S cu_idx) debug_str cus'
  end.

(** The body of the loop over the files, from [apply_relocations] on. *)
Definition index_file (fuel : nat) (self : DwarfIndex) (file_idx : nat) (f : file)
  : result DwarfIndex :=
  m ← relocate_file f;
  _ ← check_debug_str m (debug_sections f DEBUG_STR);
  '(self, cus) ← read_cus fuel self m f;
  index_cus fuel self (file_addr f) m file_idx 0 (debug_sections f DEBUG_STR)
    cus.

(** [DwarfIndex_init] (lines 1093-1139) over the files, each opened and its
    sections read; the object starts zeroed, so the table starts empty. *)
Fixpoint DwarfIndex_init_loop (fuel : nat) (self : DwarfIndex) (file_idx : nat)
    (files : list file) : result DwarfIndex :=
  match files with
  | [] => Ok self
  | f :: files' =>
      self ← index_file fuel self file_idx f;
      DwarfIndex_init_loop fuel self (S file_idx) files'
  end.

Definition empty_index : DwarfIndex :=
  {| die_hash := ∅; index_address_size := 0 |}.

Definition DwarfIndex_init (fuel : nat) (files : list file) : result DwarfIndex :=
  DwarfIndex_init_loop fuel empty_index 0 files.

(** [self'] comes from [self] by the insertions [l]. *)
Definition inserted_by (self self' : DwarfIndex) (l : list die_hash_entry)
  : Prop :=
  add_entries (die_hash self) l = Ok (die_hash self').

(** ** The attribute loop, specification by specification *)

(** The [(name, form)] pairs at [ptr] up to the [(0, 0)] pair, and the
    address after that pair. *)
Fixpoint attr_specs (fuel : nat) (m : list byte) (ptr end_ : Z)
  : result (list (Z * Z) * Z) :=
  match fuel with
  | O => OutOfFuel
  | S fuel' =>
      '(name, ptr) ← read_uleb128 m ptr end_;
      '(form, ptr) ← read_uleb128 m ptr end_;
      if (name =? 0) && (form =? 0) then Ok ([], ptr)
      else
        '(specs, ptr) ← attr_specs fuel' m ptr end_;
        Ok ((name, form) :: specs, ptr)
  end.

(** What one pass through the body of the loop does to the tag and the
    commands, for a pair that is not [(0, 0)]. *)
Definition compile_attr (cu : compilation_unit) (name form tag : Z)
    (cmds : list Z) : result (Z * list Z) :=
  let '(special, tag) := attr_special name form tag in
  match special with
  | Some cmd => Ok (tag, append_cmd cmds cmd)
  | None =>
      match form_cmd cu form with
      | FormSkip cmd => Ok (tag, emit_skip cmds cmd)
      | FormAppend cmd => Ok (tag, append_cmd cmds cmd)
      | FormContinue => Ok (tag, cmds)
      | FormRaise e => Raise e
      end
  end.

Fixpoint compile_attrs (cu : compilation_unit) (specs : list (Z * Z))
    (tag : Z) (cmds : list Z) : result (Z * list Z) :=
  match specs with
  | [] => Ok (tag, cmds)
  | (name, form) :: specs' =>
      '(tag, cmds) ← compile_attr cu name form tag cmds;
      compile_attrs cu specs' tag cmds
  end.

(** A pair that compiles to a fixed-length skip of [n] bytes whatever the
    tag is: its form is of fixed size and it is not one of the pairs the
    compiler turns into a sibling or name command. *)
Definition fixed_skip (cu : compilation_unit) (spec : Z * Z) : option Z :=
  let '(name, form) := spec in
  match form_cmd cu form with
  | FormSkip n =>
      if (name =? DW_AT_sibling) && bool_decide (is_Some (sibling_cmd form))
      then None
      else if (name =? DW_AT_name) && bool_decide (is_Some (name_cmd form))
      then None
      else Some n
  | _ => None
  end.

(** A pair whose form is a LEB128 and that compiles to [ATTRIB_LEB128]
    (so not [DW_AT_sibling] with [DW_FORM_ref_udata]). *)
Definition leb128_spec (spec : Z * Z) : bool :=
  let '(name, form) := spec in
  ((form =? DW_FORM_sdata) || (form =? DW_FORM_udata)
   || (form =? DW_FORM_ref_udata))
  && negb ((name =? DW_AT_sibling) && (form =? DW_FORM_ref_udata)).

Fixpoint sum_Z (l : list Z) : Z :=
  match l with
  | [] => 0
  | x :: l' => x + sum_Z l'
  end.

(** The declaration stored at index [k - 1] came from a declaration whose
    code, read at some [ptr], was [k]. *)
Definition stored_from_code (fuel : nat) (m : list byte) (end_ : Z) (k : Z)
    (decl : abbrev_decl) : Prop :=
  exists ptr p ptr' cu,
    read_uleb128 m ptr end_ = Ok (k, p) /\
    num_abbrev_decls cu = k - 1 /\
    read_abbrev_decl fuel m ptr end_ cu
    = Ok (1, ptr', set_abbrev_decls cu (abbrev_decls cu ++ [decl])).

(** Example abbreviation tables.  [example_abbrev_var] declares
    abbreviation 1: [DW_TAG_variable], no children, [(DW_AT_name,
    DW_FORM_strp)], [(DW_AT_type, DW_FORM_ref4)]; the second table
    continues with code 3. *)
Definition example_cu (asize : Z) : compilation_unit :=
  {| cu_ptr := 0; unit_length := 0; version := 4; debug_abbrev_offset := 0;
     address_size := asize; is_64_bit := false; abbrev_decls := [] |}.

Definition example_abbrev_var : list byte :=
  [x01; x34; x00; x03; x0e; x49; x13; x00; x00; x00].

Definition example_abbrev_gap : list byte :=
  [x01; x34; x00; x03; x0e; x49; x13; x00; x00;
   x03; x34; x00; x00; x00; x00].

(** Abbreviation 1 of a unit with 8-byte addresses: [DW_TAG_variable], no
    children, ten attributes of fixed size (8, 8, 4, 2, 1, 4, 4, 1, 8 and 8
    bytes) and then one of form [DW_FORM_udata]. *)
Definition example_skip_specs : list (Z * Z) :=
  [(DW_AT_low_pc, DW_FORM_addr); (0x12, DW_FORM_data8); (0x0b, DW_FORM_data4);
   (0x3a, DW_FORM_data2); (0x3b, DW_FORM_data1); (0x49, DW_FORM_ref4);
   (0x10, DW_FORM_sec_offset); (0x3f, DW_FORM_flag); (0x1d, DW_FORM_ref8);
   (0x55, DW_FORM_data8)].

Definition example_abbrev_skips : list byte :=
  [x01; x34; x00;
   x11; x01; x12; x07; x0b; x06; x3a; x05; x3b; x0b; x49; x13;
   x10; x17; x3f; x0c; x1d; x14; x55; x07;
   x1c; x0f;
   x00; x00; x00].

(** ** Example object files

    The sections of each example follow one another in the mapping:
    [.debug_abbrev], [.debug_info], [.debug_str]; there is no symbol and no
    RELA section. *)

Definition no_section : section :=
  {| shdr_index := 0; sec_buffer := 0; sec_size := 0 |}.

Definition EXAMPLE_MAP_ADDR : Z := 0x7f0000000000.

Definition example_file (debug_abbrev debug_info debug_str : list byte) : file :=
  let a := Z.of_nat (length debug_abbrev) in
  let i := Z.of_nat (length debug_info) in
  let s := Z.of_nat (length debug_str) in
  {| file_addr := EXAMPLE_MAP_ADDR;
     file_map := debug_abbrev ++ debug_info ++ debug_str;
     symtab := {| shdr_index := 4; sec_buffer := a + i + s; sec_size := 0 |};
     debug_sections := fun id =>
       match id with
       | DEBUG_ABBREV => {| shdr_index := 1; sec_buffer := 0; sec_size := a |}
       | DEBUG_INFO => {| shdr_index := 2; sec_buffer := a; sec_size := i |}
       | DEBUG_STR => {| shdr_index := 3; sec_buffer := a + i; sec_size := s |}
       end;
     rela_sections := fun _ => no_section |}.

(** A 32-bit-format version 4 unit header followed by the DIE bytes. *)
Definition example_unit (asize : Z) (dies : list byte) : list byte :=
  le_encode 4 (7 + Z.of_nat (length dies)) ++ le_encode 2 4 ++ le_encode 4 0
  ++ le_encode 1 asize ++ dies.

(** The unit DIE has children and a [DW_AT_sibling] of form [DW_FORM_ref1]
    whose value, 11, is the offset of that DIE itself. *)
Definition self_sibling_file : file :=
  example_file
    [x01; x11; x01; x01; x11; x00; x00; x00]
    (example_unit 8 [x01; x0b])
    [x00].

Definition self_sibling_cu : compilation_unit :=
  {| cu_ptr := 8; unit_length := 9; version := 4; debug_abbrev_offset := 0;
     address_size := 8; is_64_bit := false;
     abbrev_decls := [{| cmds := [ATTRIB_SIBLING_REF1; 0; 0; 1] |}] |}.

(** A unit whose [address_size] is 0.  Abbreviation 1 is the unit DIE (with
    children, no attributes).  Abbreviation 2 is a [DW_TAG_structure_type]
    without children with [(DW_AT_name, DW_FORM_strp)] and [(DW_AT_low_pc,
    DW_FORM_addr)].  The unit DIE has one child, named "foo", and the two
    null entries that close the levels the walk opens. *)
Definition zero_address_size_file : file :=
  example_file
    [x01; x11; x01; x00; x00;
     x02; x13; x00; x03; x0e; x11; x01; x00; x00;
     x00]
    (example_unit 0 [x01; x02; x00; x00; x00; x00; x00; x00])
    [x66; x6f; x6f; x00].

(** The same with abbreviation 2 a declaration: [(DW_AT_name, DW_FORM_strp)],
    [(DW_AT_low_pc, DW_FORM_addr)], [(DW_AT_byte_size, DW_FORM_udata)],
    [(DW_AT_declaration, DW_FORM_flag_present)]; the child's [udata] is 0. *)
Definition zero_address_size_declaration_file : file :=
  example_file
    [x01; x11; x01; x00; x00;
     x02; x13; x00; x03; x0e; x11; x01; x0b; x0f; x3c; x19; x00; x00;
     x00]
    (example_unit 0 [x01; x02; x00; x00; x00; x00; x00])
    [x66; x6f; x6f; x00].

(** Scenario 1 of the specification: one variable "foo". *)
Definition variable_foo_file : file :=
  example_file
    [x01; x11; x01; x00; x00;
     x02; x34; x00; x03; x0e; x49; x13; x00; x00;
     x00]
    (example_unit 8 [x01; x02; x00; x00; x00; x00; x2a; x00; x00; x00; x00])
    [x66; x6f; x6f; x00].

(** [.debug_str] holds "foo" without a terminating NUL. *)
Definition unterminated_str_file : file :=
  example_file [x00] (example_unit 8 [x00]) [x66; x6f; x6f].

(** ** The indexing rule, stated on a compiled abbreviation *)

(** Every command before the terminator is a non-zero byte. *)
Definition commands_nonzero (body : list Z) : Prop :=
  Forall (fun c => 0 < c < UINT8_MOD) body.

(** No pair of the abbreviation has the name [DW_AT_declaration]. *)
Definition no_declaration (specs : list (Z * Z)) : Prop :=
  Forall (fun spec => fst spec <> DW_AT_declaration) specs.

(** [decl] is what [read_abbrev_decl] stores for a declaration with the
    declared tag [dtag], the children byte [children] and the attribute
    pairs [specs]: [body], then 0, the filtered tag [ftag] and [children]. *)
Definition compiled_from (cu : compilation_unit) (dtag children : Z)
    (specs : list (Z * Z)) (body : list Z) (ftag : Z) (decl : abbrev_decl)
  : Prop :=
  compile_attrs cu specs (if indexed_tag dtag then dtag else 0) []
  = Ok (ftag, body) /\
  cmds decl = body ++ [0; ftag mod UINT8_MOD; children].


(* ===================================================================== *)
(** * Part I, continued: the rest of the file *)
(* ===================================================================== *)

(** ** [read_sleb128] (lines 165-191)

    [*value] is an [int64_t] that is only ever combined with [|=] and
    [uint64_t] operands; the model carries its 64-bit pattern and converts
    to the signed value once, at the end. *)

Definition SLEB128_OVERFLOW : string :=
  "SLEB128 overflowed signed 64-bit integer".

(** The [for (;;)]: the pattern of [*value], the pointer, [shift] and the
    last [byte] at the [break]. *)
Fixpoint read_sleb128_loop (bs : list byte) (ptr end_ shift value : Z)
  : result (Z * Z * Z * Z) :=
  if ptr >=? end_ then Raise EOFError
  else
    match bs with
    | [] => Fault
    | b :: bs' =>
        let byte := u8 b in
        let ptr := ptr + 1 in
        if (shift =? 63) && negb (byte =? 0) && negb (byte =? 0x7f) then
          Raise (OverflowError SLEB128_OVERFLOW)
        else
          let value :=
            Z.lor value (Z.shiftl (Z.land byte 0x7f) shift mod UINT64_MOD) in
          let shift := shift + 7 in
          if Z.land byte 0x80 =? 0 then Ok (value, ptr, shift, byte)
          else read_sleb128_loop bs' ptr end_ shift value
    end.

(** [~(UINT64_C(1) << shift) + 1] *)
Definition sign_bits (shift : Z) : Z :=
  (Z.lnot (Z.shiftl 1 shift) mod UINT64_MOD + 1) mod UINT64_MOD.

Definition read_sleb128 (m : list byte) (ptr end_ : Z) : result (Z * Z) :=
  if ptr <? 0 then (if ptr >=? end_ then Raise EOFError else Fault)
  else
    '(value, ptr, shift, byte) ←
      read_sleb128_loop (bytes_from m ptr) ptr end_ 0 0;
    let value :=
      if (shift <? 64) && negb (Z.land byte 0x40 =? 0) then
        Z.lor value (sign_bits shift)
      else value in
    Ok (to_int64 value, ptr).

(** What the pattern left by the loop denotes once the sign is extended
    (lines 188-189) and the result is read as an [int64_t]. *)
Definition sleb128_finish (value shift byte : Z) : Z :=
  to_int64
    (if (shift <? 64) && negb (Z.land byte 0x40 =? 0) then
       Z.lor value (sign_bits shift)
     else value).

(** The value a SLEB128 encoding denotes, with the number of bytes it
    occupies: the unbounded base-128 little-endian reading in two's
    complement, the sign being bit 6 of the last byte. *)
Fixpoint sleb128_value (bs : list byte) : option (Z * Z) :=
  match bs with
  | [] => None
  | b :: bs' =>
      if Z.land (u8 b) 0x80 =? 0 then
        Some (if Z.land (u8 b) 0x40 =? 0 then u8 b else u8 b - 128, 1)
      else
        match sleb128_value bs' with
        | Some (v, n) => Some (Z.land (u8 b) 0x7f + 128 * v, n + 1)
        | None => None
        end
  end.

(** The shortest ULEB128 encoding of [v]; [fuel] bounds its length. *)
Fixpoint uleb128_encode (fuel : nat) (v : Z) : list byte :=
  match fuel with
  | O => []
  | S fuel' =>
      if v <? 128 then [byte_of_Z v]
      else byte_of_Z (v mod 128 + 128) :: uleb128_encode fuel' (v / 128)
  end.

(** ** ELF header and section headers (lines 295-465)

    The layouts and constants are those of [<elf.h>].  [Elf64_Ehdr] is 64
    bytes: [e_ident] (16), [e_type] (2), [e_machine] (2), [e_version] (4),
    [e_entry] (8), [e_phoff] (8), [e_shoff] (8, at 40), [e_flags] (4),
    [e_ehsize], [e_phentsize], [e_phnum], [e_shentsize] (2 each), [e_shnum]
    (2, at 60), [e_shstrndx] (2, at 62).  [Elf64_Shdr] is 64 bytes:
    [sh_name] (4), [sh_type] (4), [sh_flags] (8), [sh_addr] (8),
    [sh_offset] (8, at 24), [sh_size] (8, at 32), [sh_link] (4, at 40),
    [sh_info] (4, at 44), [sh_addralign] (8), [sh_entsize] (8).

    [file->size] is the length of the mapping.  The machine is little
    endian (the branch of the [#if] that is compiled on x86-64, whose
    relocation types [apply_relocations] knows). *)

Definition EI_NIDENT : Z := 16.
Definition EI_CLASS : Z := 4.
Definition EI_DATA : Z := 5.
Definition EI_VERSION : Z := 6.
Definition ELFMAG0 : Z := 0x7f.
Definition ELFMAG1 : Z := 0x45.
Definition ELFMAG2 : Z := 0x4c.
Definition ELFMAG3 : Z := 0x46.
Definition ELFCLASS32 : Z := 1.
Definition ELFCLASS64 : Z := 2.
Definition ELFDATA2LSB : Z := 1.
Definition EV_CURRENT : Z := 1.
Definition SHN_UNDEF : Z := 0.
Definition SHN_XINDEX : Z := 0xffff.
Definition SHT_PROGBITS : Z := 1.
Definition SHT_SYMTAB : Z := 2.
Definition SHT_RELA : Z := 4.

Definition sizeof_Elf64_Ehdr : Z := 64.
Definition sizeof_Elf64_Shdr : Z := 64.
Definition offsetof_e_shoff : Z := 40.
Definition offsetof_e_shnum : Z := 60.
Definition offsetof_e_shstrndx : Z := 62.

Definition NOT_AN_ELF_FILE : string := "not an ELF file".
Definition NOT_EV_CURRENT : string := "ELF version is not EV_CURRENT".
Definition ENDIANNESS_MISMATCH : string :=
  "ELF file endianness does not match machine".
Definition ELF32_NOT_IMPLEMENTED : string := "32-bit ELF is not implemented".
Definition UNKNOWN_ELF_CLASS : string := "unknown ELF class".
Definition EHDR_TRUNCATED : string := "ELF header is truncated".
Definition NO_SECTIONS : string := "ELF file has no sections".
Definition SHDRS_BEYOND_EOF : string :=
  "ELF section header table is beyond EOF".
Definition SECTION_BEYOND_EOF : string := "ELF section is beyond EOF".
Definition INVALID_SHSTRNDX : string :=
  "invalid ELF section header string table index".
Definition MISSING_SYMTAB : string := "missing .symtab".
(** ["missing %s"] with [section_names[i]]. *)
Definition missing_section (id : debug_section_id) : string :=
  match id with
  | DEBUG_ABBREV => "missing .debug_abbrev"
  | DEBUG_INFO => "missing .debug_info"
  | DEBUG_STR => "missing .debug_str"
  end.
Definition RELA_NOT_SYMTAB : string :=
  "relocation symbol table section is not .symtab".

(** [file->size] *)
Definition file_size (m : list byte) : Z := Z.of_nat (length m).

(** [ehdr->e_ident[i]] *)
Definition e_ident (m : list byte) (i : Z) : result Z := load m i 1.

(** The first condition of [validate_ehdr] (lines 297-301), with the
    short circuit of [||]. *)
Definition has_elf_magic (m : list byte) : result bool :=
  if file_size m <? EI_NIDENT then Ok false
  else
    b ← e_ident m 0;
    if negb (b =? ELFMAG0) then Ok false
    else
      b ← e_ident m 1;
      if negb (b =? ELFMAG1) then Ok false
      else
        b ← e_ident m 2;
        if negb (b =? ELFMAG2) then Ok false
        else
          b ← e_ident m 3;
          Ok (b =? ELFMAG3).

(** [validate_ehdr] (lines 295-347) on the header at the start of the
    mapping. *)
Definition validate_ehdr (m : list byte) : result unit :=
  magic ← has_elf_magic m;
  if negb (magic : bool) then Raise (ElfFormatError NOT_AN_ELF_FILE)
  else
    ei_version ← e_ident m EI_VERSION;
    if negb (ei_version =? EV_CURRENT) then Raise (ElfFormatError NOT_EV_CURRENT)
    else
      data ← e_ident m EI_DATA;
      if negb (data =? ELFDATA2LSB) then
        Raise (NotImplementedError ENDIANNESS_MISMATCH)
      else
        class ← e_ident m EI_CLASS;
        if class =? ELFCLASS32 then
          Raise (NotImplementedError ELF32_NOT_IMPLEMENTED)
        else if negb (class =? ELFCLASS64) then
          Raise (ElfFormatError UNKNOWN_ELF_CLASS)
        else if file_size m <? sizeof_Elf64_Ehdr then
          Raise (ElfFormatError EHDR_TRUNCATED)
        else
          e_shnum ← load m offsetof_e_shnum 2;
          if e_shnum =? 0 then Raise (ElfFormatError NO_SECTIONS)
          else
            e_shoff ← load m offsetof_e_shoff 8;
            if (e_shoff >? SIZE_MAX - sizeof_Elf64_Shdr * e_shnum)
               || (e_shoff + sizeof_Elf64_Shdr * e_shnum >? file_size m) then
              Raise (ElfFormatError SHDRS_BEYOND_EOF)
            else Ok tt.

(** The fields of [Elf64_Shdr] that [read_sections] uses. *)
Record Elf64_Shdr : Type := {
  sh_name : Z;
  sh_type : Z;
  sh_offset : Z;
  sh_size : Z;
  sh_link : Z;
  sh_info : Z
}.

(** [shdrs[i]] with [shdrs = file->map + e_shoff]. *)
Definition shdr_entry (m : list byte) (e_shoff i : Z) : result Elf64_Shdr :=
  let a := e_shoff + i * sizeof_Elf64_Shdr in
  name ← load m a 4;
  type ← load m (a + 4) 4;
  offset ← load m (a + 24) 8;
  size ← load m (a + 32) 8;
  link ← load m (a + 40) 4;
  info ← load m (a + 44) 4;
  Ok {| sh_name := name; sh_type := type; sh_offset := offset;
        sh_size := size; sh_link := link; sh_info := info |}.

(** [validate_shdr] (lines 349-357). *)
Definition validate_shdr (m : list byte) (shdr : Elf64_Shdr) : result unit :=
  if (sh_offset shdr >? SIZE_MAX - sh_size shdr)
     || (sh_offset shdr + sh_size shdr >? file_size m) then
    Raise (ElfFormatError SECTION_BEYOND_EOF)
  else Ok tt.

(** [section_names] (lines 31-35). *)
Definition section_names (id : debug_section_id) : list byte :=
  match id with
  | DEBUG_ABBREV => list_byte_of_string ".debug_abbrev"
  | DEBUG_INFO => list_byte_of_string ".debug_info"
  | DEBUG_STR => list_byte_of_string ".debug_str"
  end.

(** [strcmp(name, lit) == 0] for a literal [lit] without NUL: [bs] are the
    bytes of the mapping from [name] on.  The comparison stops at the first
    difference. *)
Fixpoint strcmp_eq (bs lit : list byte) : result bool :=
  match lit, bs with
  | _, [] => Fault
  | [], b :: _ => Ok (u8 b =? 0)
  | c :: lit', b :: bs' =>
      if u8 b =? u8 c then strcmp_eq bs' lit' else Ok false
  end.

(** [max_name_len > strlen(lit) && strcmp(name, lit) == 0] *)
Definition name_is (m : list byte) (name max_name_len : Z) (lit : list byte)
  : result bool :=
  if max_name_len >? Z.of_nat (length lit) then
    if name <? 0 then Fault else strcmp_eq (bytes_from m name) lit
  else Ok false.

(** The [if / else if] chain of lines 404-414. *)
Definition debug_section_of_name (m : list byte) (name max_name_len : Z)
  : result (option debug_section_id) :=
  is_abbrev ← name_is m name max_name_len (section_names DEBUG_ABBREV);
  if (is_abbrev : bool) then Ok (Some DEBUG_ABBREV)
  else
    is_info ← name_is m name max_name_len (section_names DEBUG_INFO);
    if (is_info : bool) then Ok (Some DEBUG_INFO)
    else
      is_str ← name_is m name max_name_len (section_names DEBUG_STR);
      if (is_str : bool) then Ok (Some DEBUG_STR) else Ok None.

(** The [struct section]s of a file while [read_sections] fills them in:
    [None] is the zeroed structure [calloc] left, whose [buffer] is
    [NULL]. *)
Record section_table : Type := {
  t_symtab : option section;
  t_debug : debug_section_id -> option section;
  t_rela : debug_section_id -> option section
}.

Definition empty_table : section_table :=
  {| t_symtab := None; t_debug := fun _ => None; t_rela := fun _ => None |}.

#[global] Instance debug_section_id_eq_dec : EqDecision debug_section_id.
Proof. solve_decision. Defined.

Definition update_slot (slots : debug_section_id -> option section)
    (id : debug_section_id) (s : section) : debug_section_id -> option section :=
  fun id' => if decide (id' = id) then Some s else slots id'.

(** Which [struct section] a header selects in the first loop. *)
Inductive section_slot : Type :=
| SlotSymtab
| SlotDebug (id : debug_section_id).

#[global] Instance section_slot_eq_dec : EqDecision section_slot.
Proof. solve_decision. Defined.

Definition set_slot (t : section_table) (slot : section_slot) (s : section)
  : section_table :=
  match slot with
  | SlotSymtab =>
      {| t_symtab := Some s; t_debug := t_debug t; t_rela := t_rela t |}
  | SlotDebug id =>
      {| t_symtab := t_symtab t; t_debug := update_slot (t_debug t) id s;
         t_rela := t_rela t |}
  end.

(** [section->shdr_index = i; section->buffer = file->map + sh_offset;
    section->size = sh_size] *)
Definition section_of_shdr (i : Z) (shdr : Elf64_Shdr) : section :=
  {| shdr_index := i; sec_buffer := sh_offset shdr; sec_size := sh_size shdr |}.

(** Lines 397-419: the section the header is for, if any. *)
Definition select_slot (m : list byte) (shstrtab_shdr shdr : Elf64_Shdr)
  : result (option section_slot) :=
  if sh_type shdr =? SHT_PROGBITS then
    if (sh_name shdr =? 0) || (sh_name shdr >=? sh_size shstrtab_shdr) then
      Ok None
    else
      let max_name_len := sh_size shstrtab_shdr - sh_name shdr in
      let name := sh_offset shstrtab_shdr + sh_name shdr in
      id ← debug_section_of_name m name max_name_len;
      Ok (option_map SlotDebug id)
  else if sh_type shdr =? SHT_SYMTAB then Ok (Some SlotSymtab)
  else Ok None.

(** The body of the first [for] (lines 392-425). *)
Definition read_section (m : list byte) (e_shoff : Z) (shstrtab_shdr : Elf64_Shdr)
    (i : Z) (t : section_table) : result section_table :=
  shdr ← shdr_entry m e_shoff i;
  slot ← select_slot m shstrtab_shdr shdr;
  match slot with
  | None => Ok t
  | Some slot =>
      _ ← validate_shdr m shdr;
      Ok (set_slot t slot (section_of_shdr i shdr))
  end.

Fixpoint read_sections_loop (n : nat) (m : list byte) (e_shoff : Z)
    (shstrtab_shdr : Elf64_Shdr) (i : Z) (t : section_table)
  : result section_table :=
  match n with
  | O => Ok t
  | S n' =>
      t ← read_section m e_shoff shstrtab_shdr i t;
      read_sections_loop n' m e_shoff shstrtab_shdr (i + 1) t
  end.

(** Lines 445-452: the first debug section whose header index is
    [sh_info]. *)
Definition rela_target (debug : debug_section_id -> section) (info : Z)
  : option debug_section_id :=
  if info =? shdr_index (debug DEBUG_ABBREV) then Some DEBUG_ABBREV
  else if info =? shdr_index (debug DEBUG_INFO) then Some DEBUG_INFO
  else if info =? shdr_index (debug DEBUG_STR) then Some DEBUG_STR
  else None.

(** The body of the last [for] (lines 439-463). *)
Definition read_rela_section (m : list byte) (e_shoff : Z) (symtab : section)
    (debug : debug_section_id -> section) (i : Z)
    (rela : debug_section_id -> option section)
  : result (debug_section_id -> option section) :=
  shdr ← shdr_entry m e_shoff i;
  if negb (sh_type shdr =? SHT_RELA) then Ok rela
  else
    match rela_target debug (sh_info shdr) with
    | None => Ok rela
    | Some j =>
        if negb (sh_link shdr =? shdr_index symtab) then
          Raise (ElfFormatError RELA_NOT_SYMTAB)
        else
          _ ← validate_shdr m shdr;
          Ok (update_slot rela j (section_of_shdr i shdr))
    end.

Fixpoint read_rela_sections_loop (n : nat) (m : list byte) (e_shoff : Z)
    (symtab : section) (debug : debug_section_id -> section) (i : Z)
    (rela : debug_section_id -> option section)
  : result (debug_section_id -> option section) :=
  match n with
  | O => Ok rela
  | S n' =>
      rela ← read_rela_section m e_shoff symtab debug i rela;
      read_rela_sections_loop n' m e_shoff symtab debug (i + 1) rela
  end.

(** Lines 427-437. *)
Definition require_sections (t : section_table)
  : result (section * (debug_section_id -> section)) :=
  match t_symtab t with
  | None => Raise (DwarfFormatError MISSING_SYMTAB)
  | Some symtab =>
      match t_debug t DEBUG_ABBREV with
      | None => Raise (DwarfFormatError (missing_section DEBUG_ABBREV))
      | Some a =>
          match t_debug t DEBUG_INFO with
          | None => Raise (DwarfFormatError (missing_section DEBUG_INFO))
          | Some i =>
              match t_debug t DEBUG_STR with
              | None => Raise (DwarfFormatError (missing_section DEBUG_STR))
              | Some s =>
                  Ok (symtab,
                      fun id =>
                        match id with
                        | DEBUG_ABBREV => a
                        | DEBUG_INFO => i
                        | DEBUG_STR => s
                        end)
              end
          end
      end
  end.

(** A RELA section that was not found stays zeroed. *)
Definition section_or_zero (s : option section) : section :=
  match s with
  | Some s => s
  | None => no_section
  end.

(** [read_sections] (lines 359-465) on a file that [open_file] mapped at
    address [map_addr]. *)
Definition read_sections (map_addr : Z) (m : list byte) : result file :=
  _ ← validate_ehdr m;
  e_shoff ← load m offsetof_e_shoff 8;
  e_shnum ← load m offsetof_e_shnum 2;
  e_shstrndx ← load m offsetof_e_shstrndx 2;
  shstrndx ←
    (if e_shstrndx =? SHN_XINDEX then
       shdr0 ← shdr_entry m e_shoff 0;
       Ok (sh_link shdr0 mod 2 ^ 16)
     else Ok e_shstrndx);
  if (shstrndx =? SHN_UNDEF) || (shstrndx >=? e_shnum) then
    Raise (ElfFormatError INVALID_SHSTRNDX)
  else
    shstrtab_shdr ← shdr_entry m e_shoff shstrndx;
    _ ← validate_shdr m shstrtab_shdr;
    t ← read_sections_loop (Z.to_nat e_shnum) m e_shoff shstrtab_shdr 0
          empty_table;
    '(symtab, debug) ← require_sections t;
    rela ← read_rela_sections_loop (Z.to_nat e_shnum) m e_shoff symtab debug 0
             (t_rela t);
    Ok {| file_addr := map_addr; file_map := m; symtab := symtab;
          debug_sections := debug;
          rela_sections := fun id => section_or_zero (rela id) |}.

(** ** Outcomes of a call that ends

    The call returns, with a result or with a Python exception set: it
    neither accesses memory outside the mapping nor goes on for ever. *)
Definition returns {A : Type} (r : result A) : Prop :=
  match r with
  | Ok _ | Raise _ => True
  | Fault | OutOfFuel => False
  end.

(** The commands of the abbreviations are bytes, none of them a sibling
    command. *)
Definition no_sibling_commands (cu : compilation_unit) : Prop :=
  forall (i : nat) (decl : abbrev_decl),
    abbrev_decls cu !! i = Some decl ->
    Forall (fun c => 0 <= c /\
                     ~ (ATTRIB_SIBLING_REF1 <= c <= ATTRIB_SIBLING_REF_UDATA))
      (cmds decl).

(** Literal skip commands. *)
Definition literals (body : list Z) : Prop :=
  Forall (fun c => 0 < c < ATTRIB_MIN_CMD) body.

(** A compiled abbreviation as [index_cu] expects it: commands that are
    bytes, then the terminator 0, the filtered tag (0 or one of the seven
    indexed tags) and the children flag. *)
Definition wellformed_decl (decl : abbrev_decl) : Prop :=
  exists body tag children,
    cmds decl = body ++ [0; tag; children] /\
    Forall (fun c => 0 <= c < UINT8_MOD) body /\
    (tag = 0 \/ indexed_tag tag = true) /\
    0 <= children < UINT8_MOD.

(** The units [cus] follow one another from [ptr] as [read_cus] steps in
    the file mapped at [map_addr]: each starts before [end_], the end of
    [.debug_info], the next one where the 64-bit sum of line 851 lands, and
    the last step lands at or after [end_]. *)
Fixpoint units_from (map_addr ptr : Z) (cus : list compilation_unit) (end_ : Z)
  : Prop :=
  match cus with
  | [] => end_ <= ptr
  | cu :: cus' =>
      ptr < end_ /\ cu_ptr cu = ptr /\
      units_from map_addr (ptr_add map_addr ptr (unit_size cu)) cus' end_
  end.

(** The units [cus] tile the addresses from [ptr] to [end_]: each starts
    where the one before it ends according to its header, the first at
    [ptr], and the last ends at or after [end_]. *)
Fixpoint units_tile (ptr : Z) (cus : list compilation_unit) (end_ : Z) : Prop :=
  match cus with
  | [] => end_ <= ptr
  | cu :: cus' =>
      ptr < end_ /\ cu_ptr cu = ptr /\
      units_tile (ptr + (if is_64_bit cu then 12 else 4) + unit_length cu)
        cus' end_
  end.

(** The initial length of the unit as an address: the sum of line 851
    does not wrap for [cu] in the file mapped at [map_addr]. *)
Definition unit_fits (map_addr : Z) (cu : compilation_unit) : Prop :=
  0 <= map_addr + cu_ptr cu /\
  map_addr + cu_ptr cu + (if is_64_bit cu then 12 else 4) + unit_length cu
  < UINT64_MOD.

(** Wherever a unit header in the 64-bit format could start in section
    [s] (four bytes [0xff], then the 8-byte [unit_length], the version and
    the 8-byte [debug_abbrev_offset]), these two fields are below [2^63]. *)
Definition dwarf64_fields_sane (m : list byte) (s : section) : Prop :=
  forall p len off,
    sec_buffer s <= p -> p + 23 <= section_end s ->
    load m p 4 = Ok 0xffffffff ->
    load m (p + 4) 8 = Ok len ->
    load m (p + 14) 8 = Ok off ->
    len < 2 ^ 63 /\ off < 2 ^ 63.

(** ** What [read_sections] establishes *)

(** What a header that [validate_ehdr] accepts looks like. *)
Record valid_ehdr (m : list byte) (e_shoff e_shnum : Z) : Prop := {
  ehdr_size : sizeof_Elf64_Ehdr <= file_size m;
  ehdr_mag0 : e_ident m 0 = Ok ELFMAG0;
  ehdr_mag1 : e_ident m 1 = Ok ELFMAG1;
  ehdr_mag2 : e_ident m 2 = Ok ELFMAG2;
  ehdr_mag3 : e_ident m 3 = Ok ELFMAG3;
  ehdr_class : e_ident m EI_CLASS = Ok ELFCLASS64;
  ehdr_data : e_ident m EI_DATA = Ok ELFDATA2LSB;
  ehdr_version : e_ident m EI_VERSION = Ok EV_CURRENT;
  ehdr_shnum : load m offsetof_e_shnum 2 = Ok e_shnum;
  ehdr_shoff : load m offsetof_e_shoff 8 = Ok e_shoff;
  ehdr_shnum_pos : 0 < e_shnum < 2 ^ 16;
  ehdr_shoff_nonneg : 0 <= e_shoff;
  ehdr_table : e_shoff + sizeof_Elf64_Shdr * e_shnum <= file_size m
}.

(** Every section recorded so far lies inside the mapping. *)
Definition slots_in_map (m : list byte) (slots : debug_section_id -> option section)
  : Prop :=
  forall id s, slots id = Some s -> section_in_map m s.

Definition table_in_map (m : list byte) (t : section_table) : Prop :=
  (forall s, t_symtab t = Some s -> section_in_map m s) /\
  slots_in_map m (t_debug t) /\ slots_in_map m (t_rela t).

(** The sections of a file all lie inside its mapping. *)
Definition file_in_map (f : file) (m : list byte) : Prop :=
  section_in_map m (symtab f) /\
  forall id,
    section_in_map m (debug_sections f id) /\
    section_in_map m (rela_sections f id).

(** The section a slot holds. *)
Definition slot_of (t : section_table) (slot : section_slot) : option section :=
  match slot with
  | SlotSymtab => t_symtab t
  | SlotDebug id => t_debug t id
  end.

(** Among the first [n] headers, header [i] is the last that selects
    [slot], and [s] is the section it describes. *)
Definition last_selected (m : list byte) (e_shoff : Z) (shstrtab_shdr : Elf64_Shdr)
    (n : Z) (slot : section_slot) (s : section) : Prop :=
  exists i shdr,
    0 <= i < n /\
    shdr_entry m e_shoff i = Ok shdr /\
    select_slot m shstrtab_shdr shdr = Ok (Some slot) /\
    s = section_of_shdr i shdr /\
    forall j shdr',
      i < j < n -> shdr_entry m e_shoff j = Ok shdr' ->
      select_slot m shstrtab_shdr shdr' <> Ok (Some slot).

(** None of the first [n] headers selects [slot]. *)
Definition none_selected (m : list byte) (e_shoff : Z) (shstrtab_shdr : Elf64_Shdr)
    (n : Z) (slot : section_slot) : Prop :=
  forall j shdr',
    0 <= j < n -> shdr_entry m e_shoff j = Ok shdr' ->
    select_slot m shstrtab_shdr shdr' <> Ok (Some slot).

(** The table after the first [n] headers. *)
Definition table_tracks (m : list byte) (e_shoff : Z) (shstrtab_shdr : Elf64_Shdr)
    (n : Z) (t : section_table) : Prop :=
  forall slot,
    match slot_of t slot with
    | Some s => last_selected m e_shoff shstrtab_shdr n slot s
    | None => none_selected m e_shoff shstrtab_shdr n slot
    end.

(** [DwarfIndex_init] from the mappings [open_file] made: the loop of lines
    1093-1139 with [read_sections]. *)
Fixpoint DwarfIndex_init_maps_loop (fuel : nat) (self : DwarfIndex)
    (file_idx : nat) (maps : list (Z * list byte)) : result DwarfIndex :=
  match maps with
  | [] => Ok self
  | (map_addr, m) :: maps' =>
      f ← read_sections map_addr m;
      self ← index_file fuel self file_idx f;
      DwarfIndex_init_maps_loop fuel self (S file_idx) maps'
  end.

Definition DwarfIndex_init_maps (fuel : nat) (maps : list (Z * list byte))
  : result DwarfIndex :=
  DwarfIndex_init_maps_loop fuel empty_index 0 maps.

(** ** An example object file

    A relocatable ELF-64 file: the header, then the contents of
    [.shstrtab], [.debug_abbrev], [.debug_info], [.debug_str], [.symtab]
    and [.rela.debug_info], then the seven section headers.  The debug
    sections are those of scenario 1 (one variable "foo"), except that the
    [debug_abbrev_offset] field of the unit header holds [0xaa] in the
    file and is set to 0 by the one relocation. *)
Definition example_ehdr (e_shoff e_shnum e_shstrndx : Z) : list byte :=
  [x7f; x45; x4c; x46; x02; x01; x01; x00] ++ le_encode 8 0
  ++ le_encode 2 1 ++ le_encode 2 62 ++ le_encode 4 1 ++ le_encode 8 0
  ++ le_encode 8 0 ++ le_encode 8 e_shoff ++ le_encode 4 0
  ++ le_encode 2 64 ++ le_encode 2 0 ++ le_encode 2 0 ++ le_encode 2 64
  ++ le_encode 2 e_shnum ++ le_encode 2 e_shstrndx.

Definition example_shdr (name type offset size link info : Z) : list byte :=
  le_encode 4 name ++ le_encode 4 type ++ le_encode 8 0 ++ le_encode 8 0
  ++ le_encode 8 offset ++ le_encode 8 size ++ le_encode 4 link
  ++ le_encode 4 info ++ le_encode 8 0 ++ le_encode 8 0.

Definition example_shstrtab : list byte :=
  [x00] ++ list_byte_of_string ".shstrtab" ++ [x00]
  ++ list_byte_of_string ".debug_abbrev" ++ [x00]
  ++ list_byte_of_string ".debug_info" ++ [x00]
  ++ list_byte_of_string ".debug_str" ++ [x00]
  ++ list_byte_of_string ".symtab" ++ [x00]
  ++ list_byte_of_string ".rela.debug_info" ++ [x00].

Definition example_debug_abbrev : list byte :=
  [x01; x11; x01; x00; x00;
   x02; x34; x00; x03; x0e; x49; x13; x00; x00;
   x00].

Definition example_debug_info : list byte :=
  le_encode 4 18 ++ le_encode 2 4 ++ le_encode 4 0xaa ++ le_encode 1 8
  ++ [x01; x02; x00; x00; x00; x00; x2a; x00; x00; x00; x00].

Definition example_debug_str : list byte := [x66; x6f; x6f; x00].

Definition example_symbols : list byte :=
  le_encode 8 0 ++ le_encode 8 0 ++ le_encode 8 0
  ++ le_encode 8 0 ++ le_encode 8 0 ++ le_encode 8 0.

Definition example_relocations : list byte :=
  example_rela 6 (2 ^ 32 + R_X86_64_32) 0.

Definition example_elf : list byte :=
  example_ehdr 250 7 1
  ++ example_shstrtab ++ example_debug_abbrev ++ example_debug_info
  ++ example_debug_str ++ example_symbols ++ example_relocations
  ++ example_shdr 0 0 0 0 0 0
  ++ example_shdr 1 3 64 73 0 0
  ++ example_shdr 11 SHT_PROGBITS 137 15 0 0
  ++ example_shdr 25 SHT_PROGBITS 152 22 0 0
  ++ example_shdr 37 SHT_PROGBITS 174 4 0 0
  ++ example_shdr 48 SHT_SYMTAB 178 48 0 0
  ++ example_shdr 56 SHT_RELA 226 24 5 3.

(** A 64-bit-format version 4 unit header followed by the DIE bytes, and
    the file of scenario 1 with its unit in that format (the DIE of the
    variable then has an 8-byte [DW_FORM_strp]). *)
Definition example_unit64 (asize : Z) (dies : list byte) : list byte :=
  le_encode 4 0xffffffff ++ le_encode 8 (11 + Z.of_nat (length dies))
  ++ le_encode 2 4 ++ le_encode 8 0 ++ le_encode 1 asize ++ dies.

Definition variable_foo_file64 : file :=
  example_file
    [x01; x11; x01; x00; x00;
     x02; x34; x00; x03; x0e; x49; x13; x00; x00;
     x00]
    (example_unit64 8
       [x01; x02; x00; x00; x00; x00; x00; x00; x00; x00; x36; x00; x00; x00;
        x00])
    [x66; x6f; x6f; x00].

(** ** An abbreviation that is not indexed

    A unit whose only abbreviation is a [DW_TAG_subprogram] (0x2e) without
    children and with the one attribute [(DW_AT_name, DW_FORM_string)],
    and a DIE of that abbreviation named "foo". *)
Definition subprogram_cu : compilation_unit :=
  {| cu_ptr := 0; unit_length := 0; version := 4; debug_abbrev_offset := 0;
     address_size := 8; is_64_bit := false;
     abbrev_decls := [{| cmds := [ATTRIB_STRING; 0; 0; 0] |}] |}.

Definition subprogram_die : list byte := [x01; x66; x6f; x6f; x00].


(* ===================================================================== *)
(** * Part II: properties *)
(* ===================================================================== *)

(** ** Outcomes *)

Lemma bind_Ok {A B : Type} (m : result A) (k : A -> result B) (b : B) :
  m ≫= k = Ok b -> exists a, m = Ok a /\ k a = Ok b.
Proof. destruct m; cbn; try discriminate. eauto. Qed.

Lemma bind_of_Ok {A B : Type} (m : result A) (k : A -> result B) (a : A) :
  m = Ok a -> m ≫= k = k a.
Proof. now intros ->. Qed.

Lemma bind_of_Raise {A B : Type} (m : result A) (k : A -> result B) (e : exn) :
  m = Raise e -> m ≫= k = Raise e.
Proof. now intros ->. Qed.

(** ** Pointer additions *)

Lemma ptr_add_le (map_addr p n : Z) : ptr_add map_addr p n <= p + n.
Proof.
  unfold ptr_add, UINT64_MOD. destruct (_ <? _); lia.
Qed.

Lemma ptr_add_small (map_addr p n : Z) :
  map_addr + p + n < UINT64_MOD -> ptr_add map_addr p n = p + n.
Proof.
  intros H. unfold ptr_add. now apply Z.ltb_lt in H as ->.
Qed.

Lemma unit_size_range (cu : compilation_unit) :
  0 <= unit_size cu < UINT64_MOD.
Proof. unfold unit_size. apply Z.mod_pos_bound. reflexivity. Qed.

Lemma unit_size_le (cu : compilation_unit) :
  0 <= unit_length cu ->
  unit_size cu <= (if is_64_bit cu then 12 else 4) + unit_length cu.
Proof.
  intros H. unfold unit_size, UINT64_MOD.
  apply Z.mod_le; [destruct (is_64_bit cu); lia|lia].
Qed.

Lemma unit_size_small (cu : compilation_unit) :
  0 <= unit_length cu ->
  (if is_64_bit cu then 12 else 4) + unit_length cu < UINT64_MOD ->
  unit_size cu = (if is_64_bit cu then 12 else 4) + unit_length cu.
Proof.
  intros H0 H. unfold unit_size. apply Z.mod_small.
  destruct (is_64_bit cu); lia.
Qed.

(** A property of the integers of a short range, checked one by one. *)
Lemma forall_range (P : Z -> Prop) (lo : Z) (n : nat) :
  (forall k : nat, (k < n)%nat -> P (lo + Z.of_nat k)) ->
  forall p, lo <= p < lo + Z.of_nat n -> P p.
Proof.
  intros H p Hp. replace p with (lo + Z.of_nat (Z.to_nat (p - lo))) by lia.
  apply H. lia.
Qed.


(** ** Comparisons *)

Lemma geb_true_of_le (a b : Z) : b <= a -> (a >=? b) = true.
Proof. intros H. rewrite Z.geb_leb. now apply Z.leb_le. Qed.

Lemma geb_false_of_lt (a b : Z) : a < b -> (a >=? b) = false.
Proof. intros H. rewrite Z.geb_leb. now apply Z.leb_gt. Qed.

Lemma gtb_true_of_lt (a b : Z) : b < a -> (a >? b) = true.
Proof. intros H. rewrite Z.gtb_ltb. now apply Z.ltb_lt. Qed.

Lemma gtb_false_of_le (a b : Z) : a <= b -> (a >? b) = false.
Proof. intros H. rewrite Z.gtb_ltb. now apply Z.ltb_ge. Qed.

(** ** Bytes *)

Lemma u8_range (b : byte) : 0 <= u8 b < 256.
Proof.
  unfold u8. pose proof (Byte.to_N_bounded b) as H. lia.
Qed.

Lemma u8_byte_of_Z (z : Z) : u8 (byte_of_Z z) = z mod 256.
Proof.
  unfold byte_of_Z, u8.
  assert (Hr : 0 <= z mod 256 < 256) by (apply Z.mod_pos_bound; lia).
  destruct (Byte.of_N (Z.to_N (z mod 256))) as [b|] eqn:E.
  - apply Byte.to_of_N in E. rewrite E. lia.
  - apply Byte.of_N_None_iff in E. lia.
Qed.

Lemma low7_spec (b : byte) : Z.land (u8 b) 0x7f = u8 b mod 128.
Proof. change 0x7f with (Z.ones 7). now rewrite Z.land_ones by lia. Qed.

Lemma high_bit_clear (b : byte) : Z.land (u8 b) 0x80 = 0 <-> u8 b < 128.
Proof. destruct b; vm_compute; split; congruence. Qed.

(** ** Bit arithmetic of the accumulation step *)

Lemma lor_shiftl_add (a c n : Z) :
  0 <= n -> 0 <= a < 2 ^ n -> 0 <= c ->
  Z.lor a (Z.shiftl c n) = a + c * 2 ^ n.
Proof.
  intros Hn Ha Hc.
  assert (Hland : Z.land a (Z.shiftl c n) = 0).
  { apply Z.bits_inj'. intros i Hi. rewrite Z.land_spec, Z.bits_0.
    destruct (Z.lt_ge_cases i n) as [Hlt|Hge].
    - rewrite Z.shiftl_spec_low by lia. apply andb_false_r.
    - replace (Z.testbit a i) with false; [reflexivity|].
      symmetry. destruct (Z.eq_dec a 0) as [->|Hne]; [apply Z.bits_0|].
      apply Z.bits_above_log2; [lia|].
      apply Z.lt_le_trans with n; [|lia].
      apply Z.log2_lt_pow2; lia. }
  rewrite <- Z.lxor_lor by exact Hland.
  rewrite <- Z.add_nocarry_lxor by exact Hland.
  now rewrite Z.shiftl_mul_pow2 by lia.
Qed.

(** ** The loop of [read_uleb128] against the denoted value *)

Lemma byte_above_1_after_0 (b : byte) (bs : list byte) :
  byte_above_1_after 0 (b :: bs) <-> 1 < u8 b.
Proof.
  split.
  - intros (pre & c & rest & E & Hl & _ & Hc).
    destruct pre; [|discriminate]. simpl in E. now inversion E; subst.
  - intros H. exists [], b, bs. repeat split; auto.
Qed.

Lemma byte_above_1_after_S (j : nat) (b : byte) (bs : list byte) :
  byte_above_1_after (S j) (b :: bs) <-> cont_bit b /\ byte_above_1_after j bs.
Proof.
  split.
  - intros (pre & c & rest & E & Hl & Hf & Hc).
    destruct pre as [|p pre]; [discriminate|]. simpl in E. inversion E; subst.
    inversion Hf; subst. split; [assumption|].
    exists pre, c, rest. repeat split; auto.
  - intros [Hb (pre & c & rest & E & Hl & Hf & Hc)]. subst bs.
    exists (b :: pre), c, rest. repeat split; simpl; auto.
Qed.

Lemma byte_above_1_after_nil (j : nat) : ~ byte_above_1_after j [].
Proof. intros (pre & c & rest & E & _). destruct pre; discriminate. Qed.

Lemma tenth_byte_above_1_iff (bs : list byte) :
  tenth_byte_above_1 bs <-> byte_above_1_after 9 bs.
Proof. reflexivity. Qed.

Lemma read_uleb128_loop_spec (j : nat) :
  forall (bs : list byte) (ptr end_ value : Z),
    let shift := 63 - 7 * Z.of_nat j in
    (j <= 9)%nat ->
    Z.of_nat (length bs) = end_ - ptr ->
    0 <= value < 2 ^ shift ->
    let r := read_uleb128_loop bs ptr end_ shift value in
    (r = Raise (OverflowError ULEB128_OVERFLOW) <-> byte_above_1_after j bs) /\
    (~ byte_above_1_after j bs ->
     match uleb128_value bs with
     | Some (v, n) =>
         value + 2 ^ shift * v < UINT64_MOD /\
         r = Ok (value + 2 ^ shift * v, ptr + n)
     | None => r = Raise EOFError
     end) /\
    (forall v n, uleb128_value bs = Some (v, n) ->
                 UINT64_MOD <= value + 2 ^ shift * v ->
                 byte_above_1_after j bs).
Proof.
  induction j as [|j IH]; intros bs ptr end_ value shift Hj Hlen Hval r.
  - (* the tenth byte: shift = 63 *)
    subst r shift. change (63 - 7 * Z.of_nat 0) with 63 in *.
    destruct bs as [|b bs].
    + simpl in Hlen. simpl.
      rewrite geb_true_of_le by lia.
      pose proof (byte_above_1_after_nil 0).
      repeat split; try discriminate; try tauto.
    + simpl length in Hlen. simpl read_uleb128_loop.
      rewrite geb_false_of_lt by lia.
      pose proof (byte_above_1_after_0 b bs) as H0.
      pose proof (u8_range b) as Hb.
      destruct (u8 b >? 1) eqn:Egt.
      * apply Z.gtb_lt in Egt. simpl.
        split; [tauto|]. split; [tauto|]. intros. tauto.
      * assert (Hle : u8 b <= 1) by (rewrite Z.gtb_ltb in Egt; apply Z.ltb_ge in Egt; lia).
        simpl andb. cbv iota.
        assert (Hclr : Z.land (u8 b) 0x80 = 0) by (apply high_bit_clear; lia).
        simpl uleb128_value. rewrite Hclr. simpl Z.eqb. cbv iota.
        assert (Hlow : Z.land (u8 b) 0x7f = u8 b).
        { rewrite low7_spec. apply Z.mod_small. lia. }
        rewrite Hlow.
        assert (Hsh : Z.shiftl (u8 b) 63 mod UINT64_MOD = u8 b * 2 ^ 63).
        { rewrite Z.shiftl_mul_pow2 by lia. apply Z.mod_small.
          unfold UINT64_MOD. lia. }
        assert (Hlor : Z.lor value (Z.shiftl (u8 b) 63 mod UINT64_MOD)
                       = value + 2 ^ 63 * u8 b).
        { rewrite Z.mod_small.
          - rewrite lor_shiftl_add by lia. lia.
          - rewrite Z.shiftl_mul_pow2 by lia. unfold UINT64_MOD. lia. }
        rewrite Hlor.
        split; [split; [discriminate|intros; exfalso; apply H0 in H; lia]|].
        split.
        -- intros _. split; [unfold UINT64_MOD; lia|reflexivity].
        -- intros v n E Hov. inversion E; subst. unfold UINT64_MOD in Hov. lia.
  - (* an earlier byte: shift <= 56 *)
    subst r.
    assert (Hshift : 0 <= shift <= 56) by (subst shift; lia).
    assert (Hnext : shift + 7 = 63 - 7 * Z.of_nat j) by (subst shift; lia).
    destruct bs as [|b bs].
    + simpl in Hlen. simpl.
      rewrite geb_true_of_le by lia.
      pose proof (byte_above_1_after_nil (S j)).
      repeat split; try discriminate; try tauto.
    + simpl length in Hlen. simpl read_uleb128_loop.
      rewrite geb_false_of_lt by lia.
      replace (shift =? 63) with false by (symmetry; apply Z.eqb_neq; lia).
      simpl andb. cbv iota.
      pose proof (byte_above_1_after_S j b bs) as HS.
      pose proof (u8_range b) as Hb.
      assert (Hlow : 0 <= Z.land (u8 b) 0x7f < 128).
      { rewrite low7_spec. apply Z.mod_pos_bound. lia. }
      set (low := Z.land (u8 b) 0x7f) in *.
      assert (Hpow : 2 ^ (shift + 7) = 2 ^ shift * 128).
      { rewrite Z.pow_add_r by lia. reflexivity. }
      assert (Hpos : 0 < 2 ^ shift) by (apply Z.pow_pos_nonneg; lia).
      assert (Hp63 : 2 ^ (shift + 7) <= 2 ^ 63).
      { apply Z.pow_le_mono_r; lia. }
      assert (Hlor : Z.lor value (Z.shiftl low shift mod UINT64_MOD)
                     = value + 2 ^ shift * low).
      { rewrite Z.mod_small.
        - rewrite lor_shiftl_add by lia. lia.
        - rewrite Z.shiftl_mul_pow2 by lia. unfold UINT64_MOD.
          split; [lia|]. nia. }
      rewrite Hlor.
      assert (Hnew : 0 <= value + 2 ^ shift * low < 2 ^ (shift + 7)) by nia.
      simpl uleb128_value. fold low.
      destruct (Z.land (u8 b) 0x80 =? 0) eqn:Ehigh.
      * apply Z.eqb_eq in Ehigh.
        assert (Hnc : ~ cont_bit b) by (unfold cont_bit; lia).
        assert (Heq : low = u8 b).
        { subst low. rewrite low7_spec. apply Z.mod_small.
          apply high_bit_clear in Ehigh. lia. }
        split; [split; [discriminate|tauto]|].
        split.
        -- intros _. rewrite <- Heq. split; [unfold UINT64_MOD; lia|reflexivity].
        -- intros v n E Hov. inversion E; subst v n.
           rewrite <- Heq in Hov. unfold UINT64_MOD in Hov. lia.
      * apply Z.eqb_neq in Ehigh.
        assert (Hc : cont_bit b) by exact Ehigh.
        specialize (IH bs (ptr + 1) end_ (value + 2 ^ shift * low)).
        cbv zeta in IH. rewrite <- Hnext in IH.
        destruct IH as (IH1 & IH2 & IH3); [lia|lia|lia|].
        split; [rewrite IH1; tauto|].
        split.
        -- intros Hn. assert (Hn' : ~ byte_above_1_after j bs) by tauto.
           specialize (IH2 Hn').
           destruct (uleb128_value bs) as [[v n]|]; [|exact IH2].
           destruct IH2 as [Hlt Hr].
           replace (value + 2 ^ shift * (low + 128 * v))
             with (value + 2 ^ shift * low + 2 ^ (shift + 7) * v)
             by (rewrite Hpow; ring).
           split; [exact Hlt|]. rewrite Hr. f_equal. f_equal. lia.
        -- intros v n E Hov.
           destruct (uleb128_value bs) as [[v' n']|] eqn:E'; [|discriminate].
           inversion E; subst v n. apply HS. split; [exact Hc|].
           apply (IH3 v' n'); [reflexivity|].
           replace (value + 2 ^ shift * low + 2 ^ (shift + 7) * v')
             with (value + 2 ^ shift * (low + 128 * v'))
             by (rewrite Hpow; ring).
           exact Hov.
Qed.

(** Bytes of the mapping beyond [end_] play no part. *)
Lemma read_uleb128_loop_take :
  forall (bs : list byte) (ptr end_ shift value : Z),
    read_uleb128_loop bs ptr end_ shift value =
    read_uleb128_loop (take (Z.to_nat (end_ - ptr)) bs) ptr end_ shift value
    \/ Z.of_nat (length bs) < end_ - ptr.
Proof.
  induction bs as [|b bs IH]; intros ptr end_ shift value.
  - destruct (Z_lt_le_dec ptr end_) as [Hlt|Hge].
    + right. simpl. lia.
    + left. now rewrite take_nil.
  - destruct (Z_lt_le_dec ptr end_) as [Hlt|Hge].
    + replace (Z.to_nat (end_ - ptr)) with (S (Z.to_nat (end_ - (ptr + 1)))) by lia.
      simpl. rewrite geb_false_of_lt by lia.
      destruct ((shift =? 63) && (u8 b >? 1)); [now left|].
      destruct (Z.land (u8 b) 128 =? 0); [now left|].
      destruct (IH (ptr + 1) end_ (shift + 7)
                  (Z.lor value ((Z.land (u8 b) 127 ≪ shift) `mod` UINT64_MOD)))
        as [E|Hshort]; [now left|right; lia].
    + left. replace (Z.to_nat (end_ - ptr)) with 0%nat by lia.
      simpl. now rewrite geb_true_of_le by lia.
Qed.

Lemma bytes_between_length (m : list byte) (ptr end_ : Z) :
  0 <= ptr <= end_ -> end_ <= Z.of_nat (length m) ->
  Z.of_nat (length (bytes_between m ptr end_)) = end_ - ptr.
Proof.
  intros H1 H2. unfold bytes_between, bytes_from.
  rewrite length_take, length_drop. lia.
Qed.

Lemma read_uleb128_between (m : list byte) (ptr end_ : Z) :
  0 <= ptr <= end_ -> end_ <= Z.of_nat (length m) ->
  read_uleb128 m ptr end_ =
  read_uleb128_loop (bytes_between m ptr end_) ptr end_ 0 0.
Proof.
  intros H1 H2. unfold read_uleb128.
  replace (ptr <? 0) with false by (symmetry; apply Z.ltb_ge; lia).
  destruct (read_uleb128_loop_take (bytes_from m ptr) ptr end_ 0 0) as [E|Hshort].
  - exact E.
  - unfold bytes_from in Hshort. rewrite length_drop in Hshort. lia.
Qed.

(** C5 (as the claim states it, refuted): the eleven bytes
    [80 80 80 80 80 80 80 80 80 80 00] are a complete ULEB128 encoding
    that denotes 0, a value that fits in 64 bits, and [read_uleb128]
    raises the overflow error on them. *)
Lemma read_uleb128_overflow_on_padded_zero :
  uleb128_value
    (bytes_between [x80; x80; x80; x80; x80; x80; x80; x80; x80; x80; x00] 0 11)
  = Some (0, 11) /\
  read_uleb128 [x80; x80; x80; x80; x80; x80; x80; x80; x80; x80; x00] 0 11
  = Raise (OverflowError ULEB128_OVERFLOW).
Proof. split; vm_compute; reflexivity. Qed.

(** C5 (amended): on the bytes between the input position and [end_],
    [read_uleb128] raises the overflow error exactly when nine bytes with
    the high bit set are followed by a tenth byte greater than 1; every
    complete encoding whose value does not fit in 64 bits is of that kind.
    Otherwise it returns the standard base-128 little-endian value, which
    is below 2^64, with the pointer advanced past the first byte whose
    high bit is clear, and raises EOF when no such byte comes before
    [end_]. *)
Theorem read_uleb128_overflow_iff_tenth_byte (m : list byte) (ptr end_ : Z) :
  0 <= ptr <= end_ -> end_ <= Z.of_nat (length m) ->
  let bs := bytes_between m ptr end_ in
  (read_uleb128 m ptr end_ = Raise (OverflowError ULEB128_OVERFLOW)
   <-> tenth_byte_above_1 bs) /\
  (forall v n, uleb128_value bs = Some (v, n) -> UINT64_MOD <= v ->
               read_uleb128 m ptr end_ = Raise (OverflowError ULEB128_OVERFLOW)) /\
  (~ tenth_byte_above_1 bs ->
   match uleb128_value bs with
   | Some (v, n) =>
       v < UINT64_MOD /\ read_uleb128 m ptr end_ = Ok (v, ptr + n)
   | None => read_uleb128 m ptr end_ = Raise EOFError
   end).
Proof.
  intros H1 H2 bs. rewrite read_uleb128_between by assumption. fold bs.
  pose proof (bytes_between_length m ptr end_ H1 H2) as Hlen. fold bs in Hlen.
  destruct (read_uleb128_loop_spec 9 bs ptr end_ 0) as (S1 & S2 & S3);
    [lia | exact Hlen | simpl; lia |].
  change (63 - 7 * Z.of_nat 9) with 0 in *.
  change (2 ^ 0) with 1 in *.
  split; [exact S1|]. split.
  - intros v n E Hov. apply S1. apply (S3 v n E). lia.
  - intros Hn. specialize (S2 Hn).
    destruct (uleb128_value bs) as [[v n]|]; [|exact S2].
    destruct S2 as [Hlt Hr]. rewrite Hr.
    replace (0 + 1 * v) with v in * by lia. split; [exact Hlt|reflexivity].
Qed.

Lemma read_uleb128_overflow_iff_tenth_byte_witness :
  (0 <= 0 <= 3 /\ 3 <= Z.of_nat (length [xe5; x8e; x26])) /\
  let bs := bytes_between [xe5; x8e; x26] 0 3 in
  (read_uleb128 [xe5; x8e; x26] 0 3 = Raise (OverflowError ULEB128_OVERFLOW)
   <-> tenth_byte_above_1 bs) /\
  (forall v n, uleb128_value bs = Some (v, n) -> UINT64_MOD <= v ->
               read_uleb128 [xe5; x8e; x26] 0 3
               = Raise (OverflowError ULEB128_OVERFLOW)) /\
  (~ tenth_byte_above_1 bs ->
   match uleb128_value bs with
   | Some (v, n) =>
       v < UINT64_MOD /\ read_uleb128 [xe5; x8e; x26] 0 3 = Ok (v, 0 + n)
   | None => read_uleb128 [xe5; x8e; x26] 0 3 = Raise EOFError
   end).
Proof.
  split; [simpl; lia|].
  apply (read_uleb128_overflow_iff_tenth_byte [xe5; x8e; x26] 0 3); simpl; lia.
Defined.

Example read_uleb128_624485 :
  read_uleb128 [xe5; x8e; x26] 0 3 = Ok (624485, 3).
Proof. reflexivity. Qed.


(** ** Loads and stores *)

Lemma le_decode_nonneg (bs : list byte) : 0 <= le_decode bs.
Proof.
  induction bs as [|b bs IH]; simpl; [lia|].
  pose proof (u8_range b). lia.
Qed.

Lemma le_encode_length (n : nat) (v : Z) : length (le_encode n v) = n.
Proof. revert v. induction n; intros v; simpl; auto. Qed.

Lemma le_decode_encode (n : nat) (v : Z) :
  le_decode (le_encode n v) = v mod 2 ^ (8 * Z.of_nat n).
Proof.
  revert v. induction n as [|n IH]; intros v.
  - simpl. now rewrite Z.mod_1_r.
  - cbn [le_encode le_decode]. rewrite IH, u8_byte_of_Z.
    replace (8 * Z.of_nat (S n)) with (8 + 8 * Z.of_nat n) by lia.
    rewrite Z.pow_add_r by lia. change (2 ^ 8) with 256.
    rewrite Z.rem_mul_r by lia. reflexivity.
Qed.

Lemma byte_of_Z_add_mul (a b : Z) : byte_of_Z (a + 256 * b) = byte_of_Z a.
Proof.
  unfold byte_of_Z.
  replace ((a + 256 * b) mod 256) with (a mod 256); [reflexivity|].
  rewrite (Z.mul_comm 256 b), Z.mod_add by lia. reflexivity.
Qed.

Lemma byte_of_Z_mod (a : Z) : byte_of_Z (a mod 256) = byte_of_Z a.
Proof. unfold byte_of_Z. rewrite Z.mod_mod by lia. reflexivity. Qed.

Lemma le_encode_mod (n k : nat) (v : Z) :
  (n <= k)%nat -> le_encode n (v mod 2 ^ (8 * Z.of_nat k)) = le_encode n v.
Proof.
  revert k v. induction n as [|n IH]; intros k v Hle; [reflexivity|].
  destruct k as [|k]; [lia|].
  cbn [le_encode].
  replace (8 * Z.of_nat (S k)) with (8 + 8 * Z.of_nat k) by lia.
  rewrite Z.pow_add_r by lia. change (2 ^ 8) with 256.
  assert (Hpos : 0 < 2 ^ (8 * Z.of_nat k)) by (apply Z.pow_pos_nonneg; lia).
  rewrite Z.rem_mul_r by lia.
  f_equal.
  - rewrite byte_of_Z_add_mul. apply byte_of_Z_mod.
  - rewrite Z.add_comm, Z.mul_comm, Z.div_add_l by lia.
    rewrite (Z.div_small (v mod 256)) by (apply Z.mod_pos_bound; lia).
    rewrite Z.add_0_r. apply IH. lia.
Qed.

Lemma store_bytes_length (bs : list byte) :
  forall (m : list byte) (p : nat), length (store_bytes m p bs) = length m.
Proof.
  induction bs as [|b bs IH]; intros m p; simpl; [reflexivity|].
  now rewrite IH, length_insert.
Qed.

Lemma store_bytes_lookup_outside (bs : list byte) :
  forall (m : list byte) (p k : nat),
    (k < p \/ p + length bs <= k)%nat ->
    store_bytes m p bs !! k = m !! k.
Proof.
  induction bs as [|b bs IH]; intros m p k Hk; simpl; [reflexivity|].
  simpl in Hk. rewrite IH by lia. apply list_lookup_insert_ne. lia.
Qed.

Lemma store_bytes_lookup_inside (bs : list byte) :
  forall (m : list byte) (p k : nat),
    (p + length bs <= length m)%nat -> (k < length bs)%nat ->
    store_bytes m p bs !! (p + k)%nat = bs !! k.
Proof.
  induction bs as [|b bs IH]; intros m p k Hin Hk; simpl in *; [lia|].
  destruct k as [|k].
  - rewrite store_bytes_lookup_outside by lia.
    rewrite Nat.add_0_r. apply list_lookup_insert_eq. lia.
  - replace (p + S k)%nat with (S p + k)%nat by lia.
    apply IH; [rewrite length_insert; lia | lia].
Qed.

(** A load sees only the length of the mapping and the bytes it reads. *)
Lemma load_ext (m m' : list byte) (p : Z) (n : nat) :
  length m = length m' ->
  (forall k : nat, p <= Z.of_nat k < p + Z.of_nat n -> m' !! k = m !! k) ->
  load m' p n = load m p n.
Proof.
  intros Hlen Hsame. unfold load. rewrite Hlen.
  destruct ((p <? 0) || (Z.of_nat (length m') <? p + Z.of_nat n)) eqn:E;
    [reflexivity|].
  apply orb_false_elim in E as [E1 E2].
  apply Z.ltb_ge in E1. apply Z.ltb_ge in E2.
  f_equal. f_equal. unfold bytes_from. apply list_eq. intros i.
  destruct (decide (i < n)%nat) as [Hi|Hi].
  - rewrite !lookup_take_lt, !lookup_drop by lia. apply Hsame. lia.
  - rewrite !lookup_take_ge by lia. reflexivity.
Qed.

Lemma load_nonneg (m : list byte) (p : Z) (n : nat) (v : Z) :
  load m p n = Ok v -> 0 <= v.
Proof.
  unfold load. destruct (_ || _); [discriminate|].
  intros E. inversion E. apply le_decode_nonneg.
Qed.

Lemma load_not_Raise (m : list byte) (p : Z) (n : nat) (e : exn) :
  load m p n <> Raise e.
Proof. unfold load. destruct (_ || _); discriminate. Qed.

Lemma store_not_Raise (m : list byte) (p : Z) (n : nat) (v : Z) (e : exn) :
  store m p n v <> Raise e.
Proof. unfold store. destruct (_ || _); discriminate. Qed.

Lemma load_ok_in_map (m : list byte) (p : Z) (n : nat) :
  0 <= p -> p + Z.of_nat n <= Z.of_nat (length m) ->
  exists v, load m p n = Ok v.
Proof.
  intros H1 H2. unfold load.
  replace (p <? 0) with false by (symmetry; apply Z.ltb_ge; lia).
  replace (Z.of_nat (length m) <? p + Z.of_nat n) with false
    by (symmetry; apply Z.ltb_ge; lia).
  simpl. eauto.
Qed.

Lemma store_inv (m m' : list byte) (p : Z) (n : nat) (v : Z) :
  store m p n v = Ok m' ->
  0 <= p /\ p + Z.of_nat n <= Z.of_nat (length m) /\
  m' = store_bytes m (Z.to_nat p) (le_encode n v).
Proof.
  unfold store.
  destruct ((p <? 0) || (Z.of_nat (length m) <? p + Z.of_nat n)) eqn:E;
    [discriminate|].
  apply orb_false_elim in E as [E1 E2].
  apply Z.ltb_ge in E1. apply Z.ltb_ge in E2.
  intros H. inversion H. auto.
Qed.

Lemma bytes_between_store (m : list byte) (p : nat) (bs : list byte) :
  (p + length bs <= length m)%nat ->
  bytes_between (store_bytes m p bs) (Z.of_nat p)
    (Z.of_nat p + Z.of_nat (length bs)) = bs.
Proof.
  intros Hin. unfold bytes_between, bytes_from.
  replace (Z.to_nat (Z.of_nat p + Z.of_nat (length bs) - Z.of_nat p))
    with (length bs) by lia.
  rewrite Nat2Z.id. apply list_eq. intros i.
  destruct (decide (i < length bs)%nat) as [Hi|Hi].
  - rewrite lookup_take_lt, lookup_drop by lia.
    now apply store_bytes_lookup_inside.
  - rewrite lookup_take_ge by lia. symmetry. apply lookup_ge_None. lia.
Qed.

(** Two mappings that agree on [[a, a + n)] have the same bytes there. *)
Lemma bytes_between_ext (m m' : list byte) (a b : Z) :
  0 <= a ->
  (forall k : nat, a <= Z.of_nat k < b -> m' !! k = m !! k) ->
  bytes_between m' a b = bytes_between m a b.
Proof.
  intros Ha Hsame. unfold bytes_between, bytes_from. apply list_eq. intros i.
  destruct (decide (i < Z.to_nat (b - a))%nat) as [Hi|Hi].
  - rewrite !lookup_take_lt, !lookup_drop by lia. apply Hsame. lia.
  - rewrite !lookup_take_ge by lia. reflexivity.
Qed.

(** ** One relocation *)

Lemma same_outside_refl (s : section) (m : list byte) : same_outside s m m.
Proof. split; auto. Qed.

Lemma same_outside_trans (s : section) (m1 m2 m3 : list byte) :
  same_outside s m1 m2 -> same_outside s m2 m3 -> same_outside s m1 m3.
Proof.
  intros [L1 H1] [L2 H2]. split; [congruence|].
  intros k Hk. rewrite H2, H1 by assumption. reflexivity.
Qed.

Lemma reloc_width_cases (t : Z) (w : nat) :
  reloc_width t = Some w ->
  (t = R_X86_64_32 /\ w = 4%nat) \/ (t = R_X86_64_64 /\ w = 8%nat).
Proof.
  unfold reloc_width.
  destruct (t =? R_X86_64_32) eqn:E1; [apply Z.eqb_eq in E1; intros [= <-]; auto|].
  destruct (t =? R_X86_64_64) eqn:E2; [apply Z.eqb_eq in E2; intros [= <-]; auto|].
  discriminate.
Qed.

Lemma apply_relocation_width (m : list byte) (sec symtab : section)
    (r : Elf64_Rela) (w : nat) :
  reloc_width (reloc_type r) = Some w ->
  apply_relocation m sec symtab r = relocate w m sec symtab r.
Proof.
  intros H. unfold apply_relocation.
  destruct (reloc_width_cases _ _ H) as [[-> ->]|[-> ->]]; reflexivity.
Qed.

Lemma apply_relocation_no_width (m m' : list byte) (sec symtab : section)
    (r : Elf64_Rela) :
  reloc_width (reloc_type r) = None ->
  apply_relocation m sec symtab r = Ok m' -> m' = m.
Proof.
  unfold reloc_width, apply_relocation.
  destruct (reloc_type r =? R_X86_64_NONE); [intros _ [= ->]; reflexivity|].
  destruct (reloc_type r =? R_X86_64_32); [discriminate|].
  destruct (reloc_type r =? R_X86_64_64); discriminate.
Qed.

Lemma relocate_inv (w : nat) (m m' : list byte) (sec symtab : section)
    (r : Elf64_Rela) :
  (w <= 8)%nat ->
  relocate w m sec symtab r = Ok m' ->
  exists v,
    reloc_sym r < num_syms symtab /\
    r_offset r + Z.of_nat w <= sec_size sec /\
    sym_st_value m symtab (reloc_sym r) = Ok v /\
    0 <= sec_buffer sec + r_offset r /\
    sec_buffer sec + r_offset r + Z.of_nat w <= Z.of_nat (length m) /\
    m' = store_bytes m (Z.to_nat (sec_buffer sec + r_offset r))
           (le_encode w (v + r_addend r)).
Proof.
  intros Hw. unfold relocate.
  destruct (reloc_sym r >=? num_syms symtab) eqn:E1; [discriminate|].
  destruct ((r_offset r >? SIZE_MAX - Z.of_nat w)
            || (r_offset r + Z.of_nat w >? sec_size sec)) eqn:E2; [discriminate|].
  apply orb_false_elim in E2 as [_ E2].
  rewrite Z.geb_leb in E1. apply Z.leb_gt in E1.
  rewrite Z.gtb_ltb in E2. apply Z.ltb_ge in E2.
  intros Hst. apply bind_Ok in Hst as (v & Ev & Hst).
  apply store_inv in Hst as (Hp & Hq & ->).
  exists v. repeat split; try assumption.
  (* the low [w <= 8] bytes do not see the reduction modulo 2^64 *)
  change UINT64_MOD with (2 ^ (8 * Z.of_nat 8)).
  now rewrite le_encode_mod.
Qed.

Lemma reloc_entry_nonneg (m : list byte) (rela : section) (i : Z)
    (r : Elf64_Rela) :
  reloc_entry m rela i = Ok r -> 0 <= r_offset r /\ 0 <= r_info r.
Proof.
  unfold reloc_entry. intros H.
  apply bind_Ok in H as (off & E1 & H).
  apply bind_Ok in H as (info & E2 & H).
  apply bind_Ok in H as (addend & E3 & H).
  inversion H; subst r; cbn.
  apply load_nonneg in E1. apply load_nonneg in E2. auto.
Qed.

Lemma reloc_sym_nonneg (r : Elf64_Rela) : 0 <= r_info r -> 0 <= reloc_sym r.
Proof. intros H. unfold reloc_sym. now apply Z.shiftr_nonneg. Qed.

Section Relocations.

Variables sec rela symtab : section.

(** The relocated section shares no byte of the mapping with its RELA
    section or with the symbol table. *)
Hypothesis sec_rela : sections_disjoint sec rela.
Hypothesis sec_symtab : sections_disjoint sec symtab.

Lemma entry_in_rela (i : Z) :
  0 <= i < num_relocs rela ->
  sec_buffer rela <= sec_buffer rela + i * sizeof_Elf64_Rela /\
  sec_buffer rela + i * sizeof_Elf64_Rela + 24 <= sec_buffer rela + sec_size rela.
Proof.
  unfold num_relocs, sizeof_Elf64_Rela. intros Hi.
  pose proof (Z.mul_div_le (sec_size rela) 24 ltac:(lia)). lia.
Qed.

Lemma reloc_entry_same_outside (m m' : list byte) (i : Z) :
  same_outside sec m m' -> 0 <= i < num_relocs rela ->
  reloc_entry m' rela i = reloc_entry m rela i.
Proof.
  intros [Hlen Hsame] Hi. pose proof (entry_in_rela i Hi) as Hin.
  unfold reloc_entry.
  assert (Hload : forall d, 0 <= d <= 16 ->
            load m' (sec_buffer rela + i * sizeof_Elf64_Rela + d) 8 =
            load m (sec_buffer rela + i * sizeof_Elf64_Rela + d) 8).
  { intros d Hd. apply load_ext; [congruence|].
    intros k Hk. apply Hsame. red in sec_rela. unfold disjoint_ranges in sec_rela.
    lia. }
  pose proof (Hload 0 ltac:(lia)) as H0. rewrite Z.add_0_r in H0.
  rewrite H0, (Hload 8), (Hload 16) by lia. reflexivity.
Qed.

Lemma sym_st_value_same_outside (m m' : list byte) (s : Z) :
  same_outside sec m m' -> 0 <= s < num_syms symtab ->
  sym_st_value m' symtab s = sym_st_value m symtab s.
Proof.
  intros [Hlen Hsame] Hs. unfold sym_st_value.
  apply load_ext; [congruence|].
  intros k Hk. apply Hsame.
  unfold num_syms, sizeof_Elf64_Rela in Hs.
  unfold sizeof_Elf64_Sym, offsetof_st_value in Hk.
  pose proof (Z.mul_div_le (sec_size symtab) 24 ltac:(lia)).
  red in sec_symtab. unfold disjoint_ranges in sec_symtab.
  change (Z.of_nat 8) with 8 in Hk. lia.
Qed.

(** A successful relocation writes inside the section only. *)
Lemma apply_relocation_same_outside (m m' : list byte) (r : Elf64_Rela) :
  0 <= r_offset r ->
  apply_relocation m sec symtab r = Ok m' -> same_outside sec m m'.
Proof.
  intros Hoff Happ.
  destruct (reloc_width (reloc_type r)) as [w|] eqn:Ew.
  - rewrite (apply_relocation_width _ _ _ _ _ Ew) in Happ.
    assert (Hw : (w <= 8)%nat)
      by (destruct (reloc_width_cases _ _ Ew) as [[_ ->]|[_ ->]]; lia).
    apply relocate_inv in Happ as (v & _ & Hin & _ & Hp & Hq & ->); [|exact Hw].
    split; [apply store_bytes_length|].
    intros k Hk. apply store_bytes_lookup_outside.
    rewrite le_encode_length. lia.
  - apply apply_relocation_no_width in Happ; [|exact Ew]. subst m'.
    apply same_outside_refl.
Qed.

Lemma loop_same_outside (n : nat) :
  forall (i : Z) (m m' : list byte),
    apply_relocations_loop n i m sec rela symtab = Ok m' ->
    same_outside sec m m'.
Proof.
  induction n as [|n IH]; intros i m m' Hloop; simpl in Hloop.
  - inversion Hloop. apply same_outside_refl.
  - apply bind_Ok in Hloop as (r & Er & Hloop).
    apply bind_Ok in Hloop as (m1 & Ea & Hloop).
    apply same_outside_trans with m1.
    + apply (apply_relocation_same_outside m m1 r); [|exact Ea].
      pose proof (reloc_entry_nonneg _ _ _ _ Er); tauto.
    + now apply (IH (i + 1)).
Qed.

(** The entries are read from the mapping as it is when the loop reaches
    them; they are the entries of the mapping the loop started from. *)
Lemma loop_untouched (m0 : list byte) (n : nat) :
  forall (i : Z) (m m' : list byte) (a w : Z),
    same_outside sec m0 m ->
    apply_relocations_loop n i m sec rela symtab = Ok m' ->
    0 <= i -> i + Z.of_nat n <= num_relocs rela ->
    (forall j a' w', i <= j < i + Z.of_nat n -> writes_of sec rela m0 j a' w' ->
                     disjoint_ranges a w a' w') ->
    forall k : nat, a <= Z.of_nat k < a + w -> m' !! k = m !! k.
Proof.
  induction n as [|n IH]; intros i m m' a w Hm0 Hloop Hi Hn Hdis k Hk;
    simpl in Hloop.
  - now inversion Hloop.
  - apply bind_Ok in Hloop as (r & Er & Hloop).
    apply bind_Ok in Hloop as (m1 & Ea & Hloop).
    assert (Er0 : reloc_entry m0 rela i = Ok r).
    { rewrite <- Er. symmetry. apply reloc_entry_same_outside; [exact Hm0|lia]. }
    assert (Hm1 : same_outside sec m m1).
    { apply (apply_relocation_same_outside m m1 r); [|exact Ea].
      pose proof (reloc_entry_nonneg _ _ _ _ Er); tauto. }
    rewrite (IH (i + 1) m1 m' a w); try lia; try assumption.
    + destruct (reloc_width (reloc_type r)) as [wn|] eqn:Ew.
      * rewrite (apply_relocation_width _ _ _ _ _ Ew) in Ea.
        assert (Hw : (wn <= 8)%nat)
          by (destruct (reloc_width_cases _ _ Ew) as [[_ ->]|[_ ->]]; lia).
        apply relocate_inv in Ea as (v & _ & _ & _ & Hp & Hq & ->); [|exact Hw].
        apply store_bytes_lookup_outside. rewrite le_encode_length.
        assert (Hd : disjoint_ranges a w (sec_buffer sec + r_offset r) (Z.of_nat wn)).
        { apply (Hdis i); [lia|]. exists r, wn. auto. }
        unfold disjoint_ranges in Hd. lia.
      * apply apply_relocation_no_width in Ea; [|exact Ew]. now subst m1.
    + now apply same_outside_trans with m.
    + intros j a' w' Hj. apply Hdis. lia.
Qed.

Lemma loop_writes (m0 : list byte) (n : nat) :
  forall (i : Z) (m m' : list byte),
    same_outside sec m0 m ->
    apply_relocations_loop n i m sec rela symtab = Ok m' ->
    0 <= i -> i + Z.of_nat n <= num_relocs rela ->
    forall (j : Z) (r : Elf64_Rela) (w : nat),
      i <= j < i + Z.of_nat n ->
      reloc_entry m0 rela j = Ok r ->
      reloc_width (reloc_type r) = Some w ->
      (forall j' a' w', j < j' < i + Z.of_nat n ->
                        writes_of sec rela m0 j' a' w' ->
                        disjoint_ranges (sec_buffer sec + r_offset r)
                          (Z.of_nat w) a' w') ->
      exists v,
        sym_st_value m0 symtab (reloc_sym r) = Ok v /\
        bytes_between m' (sec_buffer sec + r_offset r)
          (sec_buffer sec + r_offset r + Z.of_nat w)
        = le_encode w (v + r_addend r).
Proof.
  induction n as [|n IH]; intros i m m' Hm0 Hloop Hi Hn j r w Hj Er Ew Hlater;
    [lia|].
  simpl in Hloop.
  apply bind_Ok in Hloop as (ri & Eri & Hloop).
  apply bind_Ok in Hloop as (m1 & Ea & Hloop).
  assert (Eri0 : reloc_entry m0 rela i = Ok ri).
  { rewrite <- Eri. symmetry. apply reloc_entry_same_outside; [exact Hm0|lia]. }
  assert (Hm1 : same_outside sec m0 m1).
  { apply same_outside_trans with m; [exact Hm0|].
    apply (apply_relocation_same_outside m m1 ri); [|exact Ea].
    pose proof (reloc_entry_nonneg _ _ _ _ Eri); tauto. }
  destruct (Z.eq_dec j i) as [->|Hne].
  - (* the entry the loop is at *)
    rewrite Er in Eri0. inversion Eri0; subst ri. clear Eri0.
    rewrite (apply_relocation_width _ _ _ _ _ Ew) in Ea.
    assert (Hw : (w <= 8)%nat)
      by (destruct (reloc_width_cases _ _ Ew) as [[_ ->]|[_ ->]]; lia).
    apply relocate_inv in Ea as (v & Hsym & Hin & Ev & Hp & Hq & Em1);
      [|exact Hw].
    exists v. split.
    + rewrite <- Ev. symmetry. apply sym_st_value_same_outside; [exact Hm0|].
      split; [|exact Hsym]. apply reloc_sym_nonneg.
      pose proof (reloc_entry_nonneg _ _ _ _ Er); tauto.
    + set (p := sec_buffer sec + r_offset r) in *.
      transitivity (bytes_between m1 p (p + Z.of_nat w)).
      * apply bytes_between_ext; [exact Hp|].
        intros k Hk.
        apply (loop_untouched m0 n (i + 1) m1 m' p (Z.of_nat w));
          try assumption; try lia.
        intros j' a' w' Hj'. apply Hlater. lia.
      * subst m1.
        pose proof (bytes_between_store m (Z.to_nat p)
                      (le_encode w (v + r_addend r))) as Hst.
        rewrite le_encode_length, Z2Nat.id in Hst by exact Hp.
        apply Hst. lia.
  - apply (IH (i + 1) m1 m' Hm1 Hloop ltac:(lia) ltac:(lia) j r w);
      try assumption; try lia.
    intros j' a' w' Hj'. apply Hlater. lia.
Qed.

Lemma loop_app (n1 n2 : nat) :
  forall (i : Z) (m : list byte),
    apply_relocations_loop (n1 + n2) i m sec rela symtab =
    apply_relocations_loop n1 i m sec rela symtab ≫= fun mi =>
    apply_relocations_loop n2 (i + Z.of_nat n1) mi sec rela symtab.
Proof.
  induction n1 as [|n1 IH]; intros i m.
  - cbn. now rewrite Z.add_0_r.
  - cbn [Nat.add apply_relocations_loop].
    destruct (reloc_entry m rela i) as [r| | |]; try reflexivity. cbn.
    destruct (apply_relocation m sec symtab r) as [m1| | |]; try reflexivity.
    cbn. rewrite IH. f_equal.
    replace (i + 1 + Z.of_nat n1) with (i + Z.of_nat (S n1)) by lia.
    reflexivity.
Qed.

(** An entry of type 32 or 64 that reaches past the end of the section
    stops the loop with an [ElfFormatError]. *)
Lemma relocate_rejects_offset (w : nat) (m : list byte) (r : Elf64_Rela) :
  sec_size sec < r_offset r + Z.of_nat w ->
  exists msg, relocate w m sec symtab r = Raise (ElfFormatError msg).
Proof.
  intros Hout. unfold relocate.
  destruct (reloc_sym r >=? num_syms symtab); [eauto|].
  replace (r_offset r + Z.of_nat w >? sec_size sec) with true
    by (symmetry; apply gtb_true_of_lt; lia).
  rewrite orb_true_r. eauto.
Qed.

Lemma loop_rejects_offset (m : list byte) (i : Z) (r : Elf64_Rela) (w : nat) :
  0 <= i < num_relocs rela ->
  reloc_entry m rela i = Ok r ->
  reloc_width (reloc_type r) = Some w ->
  sec_size sec < r_offset r + Z.of_nat w ->
  forall mi,
    apply_relocations_loop (Z.to_nat i) 0 m sec rela symtab = Ok mi ->
    exists msg,
      apply_relocations m sec rela symtab = Raise (ElfFormatError msg).
Proof.
  intros Hi Er Ew Hout mi Hpre. unfold apply_relocations.
  replace (Z.to_nat (num_relocs rela))
    with (Z.to_nat i + S (Z.to_nat (num_relocs rela - i - 1)))%nat by lia.
  rewrite loop_app, Hpre. cbn [mbind result_bind apply_relocations_loop].
  rewrite Z.add_0_l, Z2Nat.id by lia.
  assert (Er' : reloc_entry mi rela i = Ok r).
  { rewrite <- Er. apply reloc_entry_same_outside; [|exact Hi].
    apply (loop_same_outside _ _ _ _ Hpre). }
  rewrite Er'. cbn [mbind result_bind].
  rewrite (apply_relocation_width _ _ _ _ _ Ew).
  destruct (relocate_rejects_offset w mi r Hout) as [msg ->].
  exists msg. reflexivity.
Qed.

End Relocations.

(** ** The claims about [apply_relocations] *)

(** C3 (as the claim states it, refuted).  First, two [R_X86_64_32]
    entries relocate the same four bytes with addends 1 and 2:
    [apply_relocations] succeeds, the symbol's value is [0x11223344], and
    the bytes at the first entry's [r_offset] are those of the second
    entry's value, not of [st_value + r_addend] of the first.  Second, the
    relocated section is the symbol table itself and two entries with
    separate targets relocate the symbol's [st_value] (addend 1) and
    [st_size] (addend 0): the second entry does not hold
    [st_value + r_addend] for the [st_value] the file came with, nor the
    first for the [st_value] the symbol has in the end. *)
Lemma apply_relocations_later_entry_wins :
  (apply_relocations example_map_overlap example_sec (example_rela_sec 2)
     example_symtab
   = Ok (le_encode 8 (0x11223344 + 2) ++ drop 8 example_map_overlap) /\
   reloc_entry example_map_overlap (example_rela_sec 2) 0
   = Ok {| r_offset := 0; r_info := R_X86_64_32; r_addend := 1 |} /\
   sym_st_value example_map_overlap example_symtab 0 = Ok 0x11223344 /\
   bytes_between
     (le_encode 8 (0x11223344 + 2) ++ drop 8 example_map_overlap) 0 4
   <> le_encode 4 (0x11223344 + 1)) /\
  (exists m',
     apply_relocations example_map_alias example_sec_alias (example_rela_sec 2)
       example_symtab = Ok m' /\
     reloc_entry example_map_alias (example_rela_sec 2) 0
     = Ok {| r_offset := 8; r_info := R_X86_64_64; r_addend := 1 |} /\
     reloc_entry example_map_alias (example_rela_sec 2) 1
     = Ok {| r_offset := 16; r_info := R_X86_64_64; r_addend := 0 |} /\
     sym_st_value example_map_alias example_symtab 0 = Ok 0x11223344 /\
     sym_st_value m' example_symtab 0 = Ok 0x11223345 /\
     bytes_between m' (8 + 16) (8 + 16 + 8) <> le_encode 8 (0x11223344 + 0) /\
     bytes_between m' (8 + 8) (8 + 8 + 8) <> le_encode 8 (0x11223345 + 1)).
Proof.
  split.
  - repeat split; try (vm_compute; reflexivity).
    vm_compute. discriminate.
  - eexists. split; [vm_compute; reflexivity|].
    repeat split; try (vm_compute; reflexivity); vm_compute; discriminate.
Qed.

(** C3 (amended): let the relocated section share no byte with its RELA
    section and the symbol table.  When [apply_relocations] succeeds, then
    for every entry of type [R_X86_64_32] (resp. [R_X86_64_64]) whose 4
    (resp. 8) bytes no later entry of type 32 or 64 writes to, these bytes
    at [r_offset] are the little-endian encoding of
    [st_value + r_addend] truncated to that width.  And an entry of type 32
    or 64 whose [r_offset] plus width exceeds the section size makes
    [apply_relocations] fail: it never succeeds, and once the entries
    before it are done it returns an [ElfFormatError]. *)
Theorem apply_relocations_last_writer (m : list byte) (sec rela symtab : section) :
  sections_disjoint sec rela -> sections_disjoint sec symtab ->
  (forall m', apply_relocations m sec rela symtab = Ok m' ->
     forall (i : Z) (r : Elf64_Rela) (w : nat),
       0 <= i < num_relocs rela ->
       reloc_entry m rela i = Ok r ->
       reloc_width (reloc_type r) = Some w ->
       (forall (j : Z) (r' : Elf64_Rela) (w' : nat),
          i < j < num_relocs rela ->
          reloc_entry m rela j = Ok r' ->
          reloc_width (reloc_type r') = Some w' ->
          disjoint_ranges (r_offset r) (Z.of_nat w)
            (r_offset r') (Z.of_nat w')) ->
       exists st_value,
         sym_st_value m symtab (reloc_sym r) = Ok st_value /\
         bytes_between m' (sec_buffer sec + r_offset r)
           (sec_buffer sec + r_offset r + Z.of_nat w)
         = le_encode w (st_value + r_addend r)) /\
  (forall (i : Z) (r : Elf64_Rela) (w : nat),
     0 <= i < num_relocs rela ->
     reloc_entry m rela i = Ok r ->
     reloc_width (reloc_type r) = Some w ->
     sec_size sec < r_offset r + Z.of_nat w ->
     (forall m', apply_relocations m sec rela symtab <> Ok m') /\
     (forall mi,
        apply_relocations_loop (Z.to_nat i) 0 m sec rela symtab = Ok mi ->
        exists msg,
          apply_relocations m sec rela symtab = Raise (ElfFormatError msg))).
Proof.
  intros Hrela Hsym. split.
  - intros m' Happ i r w Hi Er Ew Hlater.
    unfold apply_relocations in Happ.
    apply (loop_writes sec rela symtab Hrela Hsym m
             (Z.to_nat (num_relocs rela)) 0 m m' (same_outside_refl sec m)
             Happ ltac:(lia) ltac:(lia) i r w ltac:(lia) Er Ew).
    intros j a' w' Hj (r' & wn & Er' & Ew' & -> & ->).
    specialize (Hlater j r' wn ltac:(lia) Er' Ew').
    unfold disjoint_ranges in *. lia.
  - intros i r w Hi Er Ew Hout.
    assert (Hreach : forall mi,
              apply_relocations_loop (Z.to_nat i) 0 m sec rela symtab = Ok mi ->
              exists msg,
                apply_relocations m sec rela symtab = Raise (ElfFormatError msg))
      by (apply (loop_rejects_offset sec rela symtab Hrela m i r w); assumption).
    split; [|exact Hreach].
    intros m' Happ.
    assert (Hsplit : Z.to_nat (num_relocs rela)
                     = (Z.to_nat i + S (Z.to_nat (num_relocs rela - i - 1)))%nat)
      by lia.
    pose proof Happ as Happ'. unfold apply_relocations in Happ'.
    rewrite Hsplit, loop_app in Happ'.
    apply bind_Ok in Happ' as (mi & Hpre & _).
    destruct (Hreach mi Hpre) as [msg Hmsg]. congruence.
Qed.

Lemma apply_relocations_last_writer_witness :
  (sections_disjoint example_sec (example_rela_sec 2) /\
   sections_disjoint example_sec example_symtab) /\
  (exists st_value,
     sym_st_value example_map_overlap example_symtab 0 = Ok st_value /\
     bytes_between
       (le_encode 8 (0x11223344 + 2) ++ drop 8 example_map_overlap) 0 4
     = le_encode 4 (st_value + 2)) /\
  (forall m', apply_relocations example_map_past_end example_sec
                (example_rela_sec 1) example_symtab <> Ok m').
Proof.
  assert (D1 : forall n, 0 <= n -> sections_disjoint example_sec (example_rela_sec n))
    by (intros n Hn; left; cbn; lia).
  assert (D2 : sections_disjoint example_sec example_symtab) by (left; cbn; lia).
  split; [split; [apply D1; lia|exact D2]|]. split.
  - destruct (apply_relocations_last_writer example_map_overlap example_sec
                (example_rela_sec 2) example_symtab (D1 2 ltac:(lia)) D2)
      as [HA _].
    apply (HA (le_encode 8 (0x11223344 + 2) ++ drop 8 example_map_overlap)
              ltac:(vm_compute; reflexivity) 1
              {| r_offset := 0; r_info := R_X86_64_32; r_addend := 2 |} 4%nat).
    + vm_compute. split; [discriminate|reflexivity].
    + vm_compute. reflexivity.
    + vm_compute. reflexivity.
    + intros j r' w' Hj. exfalso. change (num_relocs (example_rela_sec 2)) with 2 in Hj. lia.
  - destruct (apply_relocations_last_writer example_map_past_end example_sec
                (example_rela_sec 1) example_symtab (D1 1 ltac:(lia)) D2)
      as [_ HB].
    apply (HB 0 {| r_offset := 7; r_info := R_X86_64_64; r_addend := 0 |} 8%nat).
    + vm_compute. split; [discriminate|reflexivity].
    + vm_compute. reflexivity.
    + vm_compute. reflexivity.
    + vm_compute. reflexivity.
Defined.

Example apply_relocations_past_end_error :
  apply_relocations example_map_past_end example_sec (example_rela_sec 1)
    example_symtab
  = Raise (ElfFormatError INVALID_RELOCATION_OFFSET).
Proof. vm_compute. reflexivity. Qed.

(** C7: for an entry of type [R_X86_64_32] or [R_X86_64_64], the loop body
    rejects it with the "invalid relocation symbol" [ElfFormatError]
    exactly when [r_sym] is at least the number of symbol-table entries,
    [symtab.size / sizeof(Elf64_Sym)] (the source divides by
    [sizeof(Elf64_Rela)], which is the same 24 bytes); the loop then
    returns that error. *)
Theorem invalid_relocation_symbol_iff (m : list byte) (sec symtab : section)
    (r : Elf64_Rela) :
  reloc_type r = R_X86_64_32 \/ reloc_type r = R_X86_64_64 ->
  (apply_relocation m sec symtab r
   = Raise (ElfFormatError INVALID_RELOCATION_SYMBOL)
   <-> sec_size symtab / sizeof_Elf64_Sym <= reloc_sym r) /\
  (sec_size symtab / sizeof_Elf64_Sym <= reloc_sym r ->
   forall (n : nat) (i : Z) (rela : section),
     reloc_entry m rela i = Ok r ->
     apply_relocations_loop (S n) i m sec rela symtab
     = Raise (ElfFormatError INVALID_RELOCATION_SYMBOL)).
Proof.
  intros Ht.
  assert (Hw : exists w, reloc_width (reloc_type r) = Some w).
  { destruct Ht as [-> | ->]; cbn; eauto. }
  destruct Hw as [w Ew].
  assert (Hiff : apply_relocation m sec symtab r
                 = Raise (ElfFormatError INVALID_RELOCATION_SYMBOL)
                 <-> sec_size symtab / sizeof_Elf64_Sym <= reloc_sym r).
  { rewrite (apply_relocation_width _ _ _ _ _ Ew). unfold relocate.
    change (sec_size symtab / sizeof_Elf64_Sym) with (num_syms symtab).
    destruct (reloc_sym r >=? num_syms symtab) eqn:E.
    - rewrite Z.geb_leb in E. apply Z.leb_le in E. tauto.
    - rewrite Z.geb_leb in E. apply Z.leb_gt in E.
      split; [|lia]. intros H. exfalso.
      destruct (_ || _); [discriminate|].
      destruct (sym_st_value m symtab (reloc_sym r)) as [v|e| |] eqn:Ev;
        try discriminate.
      + cbn in H. now apply store_not_Raise in H.
      + now apply load_not_Raise in Ev. }
  split; [exact Hiff|].
  intros Hge n i rela Er. cbn [apply_relocations_loop].
  rewrite Er. cbn [mbind result_bind].
  apply Hiff in Hge. rewrite Hge. reflexivity.
Qed.

Lemma invalid_relocation_symbol_iff_witness :
  (reloc_type {| r_offset := 0; r_info := 2 ^ 32 + R_X86_64_32; r_addend := 0 |}
   = R_X86_64_32 \/
   reloc_type {| r_offset := 0; r_info := 2 ^ 32 + R_X86_64_32; r_addend := 0 |}
   = R_X86_64_64) /\
  apply_relocation example_map_overlap example_sec example_symtab
    {| r_offset := 0; r_info := 2 ^ 32 + R_X86_64_32; r_addend := 0 |}
  = Raise (ElfFormatError INVALID_RELOCATION_SYMBOL).
Proof.
  split; [left; reflexivity|].
  apply (invalid_relocation_symbol_iff example_map_overlap example_sec
           example_symtab
           {| r_offset := 0; r_info := 2 ^ 32 + R_X86_64_32; r_addend := 0 |}
           (or_introl eq_refl)).
  vm_compute. discriminate.
Defined.

(** C10: an entry of type [R_X86_64_NONE] is accepted whatever its [r_sym]
    and [r_offset] are, and the mapping is returned as it was; a RELA
    section of such entries leaves [apply_relocations] succeed with every
    byte unchanged. *)
Theorem none_relocation_is_noop (r : Elf64_Rela) :
  reloc_type r = R_X86_64_NONE ->
  forall (m : list byte) (sec symtab : section),
    apply_relocation m sec symtab r = Ok m /\
    forall (n : nat) (i : Z) (rela : section),
      (forall j, i <= j < i + Z.of_nat n ->
                 exists r', reloc_entry m rela j = Ok r' /\
                            reloc_type r' = R_X86_64_NONE) ->
      apply_relocations_loop n i m sec rela symtab = Ok m.
Proof.
  intros Ht m sec symtab. split.
  - unfold apply_relocation. now rewrite Ht.
  - induction n as [|n IH]; intros i rela Hall; [reflexivity|].
    cbn [apply_relocations_loop].
    destruct (Hall i ltac:(lia)) as (r' & Er' & Ht').
    rewrite Er'. cbn [mbind result_bind].
    unfold apply_relocation at 1. rewrite Ht'. cbn [Z.eqb mbind result_bind].
    apply IH. intros j Hj. apply Hall. lia.
Qed.

Lemma none_relocation_is_noop_witness :
  reloc_type
    {| r_offset := 2 ^ 64 - 1; r_info := (2 ^ 32 - 1) * 2 ^ 32; r_addend := 0 |}
  = R_X86_64_NONE /\
  apply_relocation example_map_overlap example_sec example_symtab
    {| r_offset := 2 ^ 64 - 1; r_info := (2 ^ 32 - 1) * 2 ^ 32; r_addend := 0 |}
  = Ok example_map_overlap.
Proof.
  split; [reflexivity|].
  apply (none_relocation_is_noop
           {| r_offset := 2 ^ 64 - 1; r_info := (2 ^ 32 - 1) * 2 ^ 32;
              r_addend := 0 |} eq_refl).
Defined.


(** ** The probe sequence *)

Lemma DIE_HASH_SIZE_eq : DIE_HASH_SIZE = 131072.
Proof. reflexivity. Qed.

Lemma land_mask (x : Z) : Z.land x DIE_HASH_MASK = x mod DIE_HASH_SIZE.
Proof.
  change DIE_HASH_MASK with (Z.ones 17). rewrite Z.land_ones by lia.
  reflexivity.
Qed.

Lemma probe_slot_range (name : list byte) (k : Z) :
  0 <= probe_slot name k < DIE_HASH_SIZE.
Proof. unfold probe_slot. apply Z.mod_pos_bound. reflexivity. Qed.

Lemma probe_slot_0 (name : list byte) :
  Z.land (name_hash name) DIE_HASH_MASK = probe_slot name 0.
Proof. rewrite land_mask. unfold probe_slot. now rewrite Z.add_0_r. Qed.

Lemma probe_slot_next (name : list byte) (k : Z) :
  Z.land (probe_slot name k + 1) DIE_HASH_MASK = probe_slot name (k + 1).
Proof.
  rewrite land_mask. unfold probe_slot.
  rewrite Z.add_assoc. rewrite DIE_HASH_SIZE_eq.
  rewrite Zplus_mod_idemp_l. reflexivity.
Qed.

Lemma probe_slot_inj (name : list byte) (j k : Z) :
  0 <= j <= DIE_HASH_SIZE -> 0 <= k < DIE_HASH_SIZE ->
  probe_slot name j = probe_slot name k ->
  j = k \/ (j = DIE_HASH_SIZE /\ k = 0).
Proof.
  unfold probe_slot. rewrite DIE_HASH_SIZE_eq. intros Hj Hk E.
  Z.div_mod_to_equations. lia.
Qed.

Lemma entry_matches_true (e : die_hash_entry) (name : list byte) (tag : Z) :
  entry_matches e name tag = true <-> e_tag e = tag /\ e_name e = name.
Proof.
  unfold entry_matches. rewrite andb_true_iff, Z.eqb_eq, bool_decide_eq_true.
  reflexivity.
Qed.

Lemma entry_matches_self (e : die_hash_entry) :
  entry_matches e (e_name e) (e_tag e) = true.
Proof. now apply entry_matches_true. Qed.

Lemma entry_matches_trans (e e' : die_hash_entry) (name : list byte) (tag : Z) :
  entry_matches e (e_name e') (e_tag e') = true ->
  entry_matches e' name tag = entry_matches e name tag.
Proof.
  intros H. apply entry_matches_true in H as [Ht Hn].
  unfold entry_matches. now rewrite Ht, Hn.
Qed.

(** ** The two loops are one walk *)

Lemma find_loop_walk (fuel : nat) (h : die_hash_t) :
  forall (i orig_i : Z) (name : list byte) (tag : Z),
    find_loop fuel h i orig_i name tag =
    match walk fuel h i orig_i name tag with
    | WalkEmpty _ => Ok None
    | WalkMatch _ e => Ok (Some e)
    | WalkFull => Ok None
    | WalkOutOfFuel => OutOfFuel
    end.
Proof.
  induction fuel as [|fuel IH]; intros i orig_i name tag; simpl; [reflexivity|].
  destruct (h !! i) as [e|]; [|reflexivity].
  destruct (entry_matches e name tag); [reflexivity|].
  destruct (Z.land (i + 1) DIE_HASH_MASK =? orig_i); [reflexivity|].
  apply IH.
Qed.

Lemma add_loop_walk (fuel : nat) (h : die_hash_t) (new : die_hash_entry) :
  forall (i orig_i : Z),
    add_die_hash_entry_loop fuel h i orig_i new =
    match walk fuel h i orig_i (e_name new) (e_tag new) with
    | WalkEmpty i => Ok (<[i := new]> h)
    | WalkMatch _ _ => Ok h
    | WalkFull => Raise MemoryError
    | WalkOutOfFuel => OutOfFuel
    end.
Proof.
  induction fuel as [|fuel IH]; intros i orig_i; simpl; [reflexivity|].
  destruct (h !! i) as [e|]; [|reflexivity].
  destruct (entry_matches e (e_name new) (e_tag new)); [reflexivity|].
  destruct (Z.land (i + 1) DIE_HASH_MASK =? orig_i); [reflexivity|].
  apply IH.
Qed.

(** The walk visits the probe sequence in order and always stops within
    [DIE_HASH_SIZE] steps. *)
Lemma walk_from (h : die_hash_t) (name : list byte) (tag : Z) (fuel : nat) :
  forall j, 0 <= j < DIE_HASH_SIZE ->
    fuel = Z.to_nat (DIE_HASH_SIZE - j) ->
    probe_passes h name tag j ->
    walk_spec h name tag
      (walk fuel h (probe_slot name j) (probe_slot name 0) name tag).
Proof.
  induction fuel as [|fuel IH]; intros j Hj Hfuel Hpass; [lia|].
  simpl. destruct (h !! probe_slot name j) as [e|] eqn:Eslot.
  - destruct (entry_matches e name tag) eqn:Em.
    + exists j. auto.
    + rewrite probe_slot_next.
      assert (Hpass' : probe_passes h name tag (j + 1)).
      { intros j' Hj'. destruct (Z.eq_dec j' j) as [->|Hne]; [eauto|].
        apply Hpass. lia. }
      destruct (probe_slot name (j + 1) =? probe_slot name 0) eqn:Ewrap.
      * apply Z.eqb_eq in Ewrap.
        apply probe_slot_inj in Ewrap; [|lia|rewrite DIE_HASH_SIZE_eq; lia].
        simpl. replace DIE_HASH_SIZE with (j + 1) by lia. exact Hpass'.
      * apply Z.eqb_neq in Ewrap.
        assert (j + 1 < DIE_HASH_SIZE).
        { destruct (Z.eq_dec (j + 1) DIE_HASH_SIZE) as [E|]; [|lia].
          exfalso. apply Ewrap. unfold probe_slot. rewrite E.
          rewrite Z.add_0_r, DIE_HASH_SIZE_eq.
          now rewrite <- (Z.mul_1_l 131072) at 1; rewrite Z.mod_add by lia. }
        apply IH; [lia|lia|exact Hpass'].
  - exists j. auto.
Qed.

Lemma walk_total (h : die_hash_t) (name : list byte) (tag : Z) :
  walk_spec h name tag
    (walk (Z.to_nat DIE_HASH_SIZE) h (Z.land (name_hash name) DIE_HASH_MASK)
       (Z.land (name_hash name) DIE_HASH_MASK) name tag).
Proof.
  rewrite probe_slot_0. apply walk_from.
  - rewrite DIE_HASH_SIZE_eq. lia.
  - now rewrite Z.sub_0_r.
  - intros j Hj. lia.
Qed.

(** ** What [DwarfIndex_find] returns *)

Lemma probe_hits_misses (h : die_hash_t) (name : list byte) (tag : Z)
    (e : die_hash_entry) :
  probe_hits h name tag e -> probe_misses h name tag -> False.
Proof.
  intros (k & Hk & Hpass & Hslot & Hm) (k' & Hk' & Hpass' & Hend).
  destruct (Z_lt_le_dec k k') as [Hlt|Hle].
  - destruct (Hpass' k ltac:(lia)) as (e' & He' & Hm'). congruence.
  - destruct Hend as [->|Hnone]; [lia|].
    destruct (Z.eq_dec k' k) as [->|Hne]; [congruence|].
    destruct (Hpass k' ltac:(lia)) as (e' & He' & _). congruence.
Qed.

Lemma probe_hits_unique (h : die_hash_t) (name : list byte) (tag : Z)
    (e e' : die_hash_entry) :
  probe_hits h name tag e -> probe_hits h name tag e' -> e = e'.
Proof.
  intros (k & Hk & Hpass & Hslot & Hm) (k' & Hk' & Hpass' & Hslot' & Hm').
  destruct (Z.lt_trichotomy k k') as [Hlt|[->|Hgt]].
  - destruct (Hpass' k ltac:(lia)) as (x & Hx & Hmx). congruence.
  - congruence.
  - destruct (Hpass k' ltac:(lia)) as (x & Hx & Hmx). congruence.
Qed.

Lemma find_cases (h : die_hash_t) (name : list byte) (tag : Z) :
  (DwarfIndex_find h name tag = Raise (ValueError DIE_NOT_FOUND) /\
   probe_misses h name tag) \/
  (exists e, DwarfIndex_find h name tag = Ok e /\ probe_hits h name tag e).
Proof.
  unfold DwarfIndex_find. rewrite find_loop_walk.
  pose proof (walk_total h name tag) as Hw.
  destruct (walk _ h _ _ name tag) as [i|i e| |]; simpl in Hw.
  - left. split; [reflexivity|].
    destruct Hw as (k & Hk & _ & Hpass & Hnone).
    exists k. split; [lia|]. split; [exact Hpass|now right].
  - right. exists e. split; [reflexivity|].
    destruct Hw as (k & Hk & _ & Hpass & Hslot & Hm). exists k. auto.
  - left. split; [reflexivity|].
    exists DIE_HASH_SIZE. split; [rewrite DIE_HASH_SIZE_eq; lia|].
    split; [exact Hw|now left].
  - contradiction.
Qed.

Lemma find_of_hit (h : die_hash_t) (name : list byte) (tag : Z)
    (e : die_hash_entry) :
  probe_hits h name tag e -> DwarfIndex_find h name tag = Ok e.
Proof.
  intros Hhit. destruct (find_cases h name tag) as [[_ Hmiss]|(e' & -> & Hhit')].
  - exfalso. eapply probe_hits_misses; eassumption.
  - f_equal. eapply probe_hits_unique; eassumption.
Qed.

Lemma add_cases (h : die_hash_t) (new : die_hash_entry) :
  (exists k, 0 <= k < DIE_HASH_SIZE /\
             probe_passes h (e_name new) (e_tag new) k /\
             h !! probe_slot (e_name new) k = None /\
             add_die_hash_entry h new
             = Ok (<[probe_slot (e_name new) k := new]> h)) \/
  (exists e, probe_hits h (e_name new) (e_tag new) e /\
             add_die_hash_entry h new = Ok h) \/
  (probe_passes h (e_name new) (e_tag new) DIE_HASH_SIZE /\
   add_die_hash_entry h new = Raise MemoryError).
Proof.
  unfold add_die_hash_entry. rewrite add_loop_walk.
  pose proof (walk_total h (e_name new) (e_tag new)) as Hw.
  destruct (walk _ h _ _ (e_name new) (e_tag new)) as [i|i e| |]; simpl in Hw.
  - left. destruct Hw as (k & Hk & -> & Hpass & Hnone). exists k. auto.
  - right. left. destruct Hw as (k & Hk & -> & Hpass & Hslot & Hm).
    exists e. split; [|reflexivity]. exists k. auto.
  - right. right. auto.
  - contradiction.
Qed.

(** ** The table invariant *)

Lemma first_inserted_app (l : list die_hash_entry) (x : die_hash_entry)
    (name : list byte) (tag : Z) :
  first_inserted (l ++ [x]) name tag =
  match first_inserted l name tag with
  | Some e => Some e
  | None => if entry_matches x name tag then Some x else None
  end.
Proof.
  unfold first_inserted. induction l as [|y l IH]; simpl; [reflexivity|].
  destruct (entry_matches y name tag); [reflexivity|exact IH].
Qed.

Lemma first_inserted_None (l : list die_hash_entry) (name : list byte) (tag : Z) :
  (forall x, In x l -> entry_matches x name tag = false) ->
  first_inserted l name tag = None.
Proof.
  unfold first_inserted. induction l as [|y l IH]; intros H; simpl; [reflexivity|].
  rewrite (H y) by now left. apply IH. intros x Hx. apply H. now right.
Qed.

Lemma table_inv_empty : table_inv ∅ [].
Proof.
  split; try (intros i e H; now rewrite lookup_empty in H).
  - intros i i' e e' H. now rewrite lookup_empty in H.
  - intros x [].
Qed.

(** An entry the table holds is met by the probe sequence of its name. *)
Lemma hit_of_present (h : die_hash_t) (l : list die_hash_entry)
    (i : Z) (e : die_hash_entry) (name : list byte) (tag : Z) :
  table_inv h l -> h !! i = Some e -> entry_matches e name tag = true ->
  probe_hits h name tag e.
Proof.
  intros Hinv Hslot Hm.
  pose proof Hm as Hm'. apply entry_matches_true in Hm' as [<- <-].
  destruct (inv_reachable h l Hinv i e Hslot) as (k & Hk & -> & Hholes).
  exists k. split; [lia|]. split; [|split; [exact Hslot|exact Hm]].
  intros j Hj. destruct (Hholes j Hj) as [ej Hej].
  exists ej. split; [exact Hej|].
  destruct (entry_matches ej (e_name e) (e_tag e)) eqn:Emj; [|reflexivity].
  exfalso.
  pose proof (inv_unique h l Hinv _ _ ej e Hej Hslot Emj) as Heq.
  apply probe_slot_inj in Heq; [lia|lia|lia].
Qed.

Lemma table_inv_add (h h' : die_hash_t) (l : list die_hash_entry)
    (new : die_hash_entry) :
  table_inv h l -> add_die_hash_entry h new = Ok h' ->
  table_inv h' (l ++ [new]).
Proof.
  intros Hinv Hadd.
  destruct (add_cases h new)
    as [(k & Hk & Hpass & Hnone & E)|[(e0 & Hhit & E)|[_ E]]];
    rewrite E in Hadd; try discriminate; inversion Hadd; subst h'; clear Hadd E.
  - (* an empty slot: the name and tag are new *)
    set (i := probe_slot (e_name new) k) in *.
    assert (Hfresh : forall i' e', h !! i' = Some e' ->
              entry_matches e' (e_name new) (e_tag new) = false).
    { intros i' e' Hslot.
      destruct (entry_matches e' (e_name new) (e_tag new)) eqn:Em; [|reflexivity].
      exfalso.
      apply (probe_hits_misses h (e_name new) (e_tag new) e').
      - eapply hit_of_present; eassumption.
      - exists k. split; [lia|]. split; [exact Hpass|now right]. }
    assert (Hold : forall i' e', h !! i' = Some e' -> <[i := new]> h !! i' = Some e').
    { intros i' e' Hslot. rewrite lookup_insert_ne; [exact Hslot|congruence]. }
    split.
    + intros i' e Hslot. destruct (decide (i = i')) as [<-|Hne].
      * rewrite lookup_insert_eq in Hslot. inversion Hslot; subst e.
        exists k. split; [lia|]. split; [reflexivity|].
        intros j Hj. destruct (Hpass j Hj) as (ej & Hej & _).
        exists ej. now apply Hold.
      * rewrite lookup_insert_ne in Hslot by exact Hne.
        destruct (inv_reachable h l Hinv i' e Hslot) as (k' & Hk' & -> & Hholes).
        exists k'. split; [lia|]. split; [reflexivity|].
        intros j Hj. destruct (Hholes j Hj) as [ej Hej].
        exists ej. now apply Hold.
    + intros i' e Hslot. rewrite first_inserted_app.
      destruct (decide (i = i')) as [<-|Hne].
      * rewrite lookup_insert_eq in Hslot. inversion Hslot; subst e.
        rewrite first_inserted_None, entry_matches_self; [reflexivity|].
        intros x Hx.
        destruct (inv_complete h l Hinv x Hx) as (ix & ex & Hex & Hmx).
        rewrite (entry_matches_trans ex x _ _ Hmx).
        apply (Hfresh ix ex Hex).
      * rewrite lookup_insert_ne in Hslot by exact Hne.
        now rewrite (inv_first h l Hinv i' e Hslot).
    + intros i1 i2 e1 e2 H1 H2 Hm.
      destruct (decide (i = i1)) as [<-|Hne1]; destruct (decide (i = i2)) as [<-|Hne2];
        try reflexivity.
      * rewrite lookup_insert_eq in H1. inversion H1; subst e1.
        rewrite lookup_insert_ne in H2 by exact Hne2.
        pose proof (Hfresh i2 e2 H2) as Hf.
        apply entry_matches_true in Hm as [Ht Hn].
        assert (entry_matches e2 (e_name new) (e_tag new) = true)
          by (apply entry_matches_true; split; congruence).
        congruence.
      * rewrite lookup_insert_eq in H2. inversion H2; subst e2.
        rewrite lookup_insert_ne in H1 by exact Hne1.
        pose proof (Hfresh i1 e1 H1). congruence.
      * rewrite lookup_insert_ne in H1 by exact Hne1.
        rewrite lookup_insert_ne in H2 by exact Hne2.
        eapply (inv_unique h l Hinv); eassumption.
    + intros x Hx. apply in_app_iff in Hx as [Hx|[<-|[]]].
      * destruct (inv_complete h l Hinv x Hx) as (ix & ex & Hex & Hmx).
        exists ix, ex. split; [now apply Hold|exact Hmx].
      * exists i, new. split; [apply lookup_insert_eq|apply entry_matches_self].
  - (* the name and tag are held already: the table is unchanged *)
    destruct Hhit as (k & Hk & Hpass & Hslot & Hm).
    split.
    + apply (inv_reachable h l Hinv).
    + intros i e He. rewrite first_inserted_app.
      now rewrite (inv_first h l Hinv i e He).
    + apply (inv_unique h l Hinv).
    + intros x Hx. apply in_app_iff in Hx as [Hx|[<-|[]]].
      * apply (inv_complete h l Hinv x Hx).
      * eauto.
Qed.

Lemma add_entries_cons (h : die_hash_t) (x : die_hash_entry)
    (l : list die_hash_entry) :
  add_entries h (x :: l) =
  add_die_hash_entry h x ≫= fun h1 => add_entries h1 l.
Proof. reflexivity. Qed.

Lemma table_inv_add_entries (l2 : list die_hash_entry) :
  forall (h h' : die_hash_t) (l1 : list die_hash_entry),
    table_inv h l1 -> add_entries h l2 = Ok h' -> table_inv h' (l1 ++ l2).
Proof.
  induction l2 as [|x l2 IH]; intros h h' l1 Hinv Hadd.
  - inversion Hadd; subst h'. rewrite app_nil_r. exact Hinv.
  - rewrite add_entries_cons in Hadd.
    apply bind_Ok in Hadd as (h1 & Hstep & Hadd).
    replace (l1 ++ x :: l2) with ((l1 ++ [x]) ++ l2)
      by (rewrite <- app_assoc; reflexivity).
    apply (IH h1 h'); [|exact Hadd].
    exact (table_inv_add h h1 l1 x Hinv Hstep).
Qed.

(** ** Construction inserts through [add_die_hash_entry] only *)

Lemma add_entries_app (l1 l2 : list die_hash_entry) :
  forall h : die_hash_t,
    add_entries h (l1 ++ l2) =
    add_entries h l1 ≫= fun h1 => add_entries h1 l2.
Proof.
  induction l1 as [|x l1 IH]; intros h; [reflexivity|].
  cbn [app]. rewrite !add_entries_cons.
  destruct (add_die_hash_entry h x) as [h1| | |]; try reflexivity.
  cbn [mbind result_bind]. apply IH.
Qed.

Lemma inserted_by_refl (self : DwarfIndex) : inserted_by self self [].
Proof. reflexivity. Qed.

Lemma inserted_by_trans (s1 s2 s3 : DwarfIndex) (l1 l2 : list die_hash_entry) :
  inserted_by s1 s2 l1 -> inserted_by s2 s3 l2 -> inserted_by s1 s3 (l1 ++ l2).
Proof.
  unfold inserted_by. intros H1 H2. rewrite add_entries_app, H1. exact H2.
Qed.

Lemma index_entry_inserts (self self' : DwarfIndex) (m : list byte)
    (file_idx cu_idx : nat) (depth : Z) (name : option Z) (tag die_ptr : Z) :
  index_entry self m file_idx cu_idx depth name tag die_ptr = Ok self' ->
  exists l, inserted_by self self' l.
Proof.
  unfold index_entry. destruct name as [name_ptr|].
  - destruct ((depth =? 1) && negb (tag =? 0)).
    + intros H. apply bind_Ok in H as (s & _ & H).
      apply bind_Ok in H as (h & Hadd & H). inversion H; subst self'.
      eexists [_]. unfold inserted_by. rewrite add_entries_cons, Hadd.
      reflexivity.
    + intros [= <-]. exists []. apply inserted_by_refl.
  - intros [= <-]. exists []. apply inserted_by_refl.
Qed.

Lemma index_die_inserts (self self' : DwarfIndex) (m : list byte)
    (file_idx cu_idx : nat) (str : section) (cu : compilation_unit)
    (end_ ptr depth : Z) (ctl : loop_ctl) :
  index_die self m file_idx cu_idx str cu end_ ptr depth = Ok (self', ctl) ->
  exists l, inserted_by self self' l.
Proof.
  unfold index_die. intros H.
  apply bind_Ok in H as ([code p] & _ & H).
  destruct (code =? 0).
  - exists []. destruct (_ =? 0); inversion H; apply inserted_by_refl.
  - destruct ((code <? 1) || (code >? num_abbrev_decls cu)); [discriminate|].
    destruct (abbrev_decls cu !! Z.to_nat (code - 1)) as [decl|]; [|discriminate].
    apply bind_Ok in H as ([st cmdp] & _ & H).
    apply bind_Ok in H as (tag & _ & H).
    apply bind_Ok in H as (self1 & Hentry & H).
    apply bind_Ok in H as (children & _ & H).
    assert (self' = self1) as ->.
    { destruct (negb (children =? 0)).
      - destruct (cur_sibling st); now inversion H.
      - destruct (depth =? 0); now inversion H. }
    exact (index_entry_inserts _ _ _ _ _ _ _ _ _ Hentry).
Qed.

Lemma index_cu_loop_inserts (m : list byte) (file_idx cu_idx : nat)
    (str : section) (cu : compilation_unit) (end_ : Z) (fuel : nat) :
  forall (self self' : DwarfIndex) (ptr depth : Z),
    index_cu_loop fuel self m file_idx cu_idx str cu end_ ptr depth = Ok self' ->
    exists l, inserted_by self self' l.
Proof.
  induction fuel as [|fuel IH]; intros self self' ptr depth H; [discriminate|].
  cbn [index_cu_loop] in H.
  apply bind_Ok in H as ([self1 ctl] & Hdie & H).
  apply index_die_inserts in Hdie as [l1 Hl1].
  destruct ctl as [|ptr' depth'].
  - inversion H; subst self1. eauto.
  - apply IH in H as [l2 Hl2]. exists (l1 ++ l2).
    exact (inserted_by_trans _ _ _ _ _ Hl1 Hl2).
Qed.

Lemma index_cus_inserts (fuel : nat) (map_addr : Z) (m : list byte)
    (file_idx : nat) (str : section) (cus : list compilation_unit) :
  forall (self self' : DwarfIndex) (cu_idx : nat),
    index_cus fuel self map_addr m file_idx cu_idx str cus = Ok self' ->
    exists l, inserted_by self self' l.
Proof.
  induction cus as [|cu cus IH]; intros self self' cu_idx H.
  - inversion H; subst. exists []. apply inserted_by_refl.
  - cbn [index_cus] in H. apply bind_Ok in H as (self1 & Hcu & H).
    unfold index_cu in Hcu. apply index_cu_loop_inserts in Hcu as [l1 Hl1].
    apply IH in H as [l2 Hl2]. exists (l1 ++ l2).
    exact (inserted_by_trans _ _ _ _ _ Hl1 Hl2).
Qed.

Lemma read_cus_loop_keeps_hash (fuel : nat) (m : list byte) (f : file) (n : nat) :
  forall (self self' : DwarfIndex) (ptr : Z) (cus cus' : list compilation_unit),
    read_cus_loop n fuel self m f ptr cus = Ok (self', cus') ->
    die_hash self' = die_hash self.
Proof.
  induction n as [|n IH]; intros self self' ptr cus cus' H; [discriminate|].
  cbn [read_cus_loop] in H.
  destruct (negb (ptr <? section_end (debug_sections f DEBUG_INFO))).
  - now inversion H.
  - apply bind_Ok in H as (cu & _ & H). apply bind_Ok in H as (cu' & _ & H).
    apply IH in H. exact H.
Qed.

Lemma index_file_inserts (fuel : nat) (self self' : DwarfIndex) (file_idx : nat)
    (f : file) :
  index_file fuel self file_idx f = Ok self' ->
  exists l, inserted_by self self' l.
Proof.
  unfold index_file. intros H.
  apply bind_Ok in H as (m & _ & H). apply bind_Ok in H as ([] & _ & H).
  apply bind_Ok in H as ([self1 cus] & Hcus & H).
  apply read_cus_loop_keeps_hash in Hcus.
  apply index_cus_inserts in H as [l Hl]. exists l.
  unfold inserted_by in *. now rewrite <- Hcus.
Qed.

Lemma init_loop_inserts (fuel : nat) (files : list file) :
  forall (self self' : DwarfIndex) (file_idx : nat),
    DwarfIndex_init_loop fuel self file_idx files = Ok self' ->
    exists l, inserted_by self self' l.
Proof.
  induction files as [|f files IH]; intros self self' file_idx H.
  - inversion H; subst. exists []. apply inserted_by_refl.
  - cbn [DwarfIndex_init_loop] in H. apply bind_Ok in H as (self1 & Hf & H).
    apply index_file_inserts in Hf as [l1 Hl1].
    apply IH in H as [l2 Hl2]. exists (l1 ++ l2).
    exact (inserted_by_trans _ _ _ _ _ Hl1 Hl2).
Qed.

Lemma djb2_congr (bs : list byte) :
  forall x y,
    x mod UINT32_MOD = y mod UINT32_MOD ->
    djb2 bs x mod UINT32_MOD = djb2 bs y mod UINT32_MOD.
Proof.
  induction bs as [|b bs IH]; intros x y H; cbn [djb2]; [exact H|].
  apply IH. unfold UINT32_MOD in *.
  rewrite <- (Z.add_mod_idemp_l (x * 33)), <- (Z.add_mod_idemp_l (y * 33)) by lia.
  rewrite <- (Z.mul_mod_idemp_l x), <- (Z.mul_mod_idemp_l y) by lia.
  now rewrite H.
Qed.

Lemma name_hash_loop_djb2 (bs : list byte) :
  forall h, 0 <= h < UINT32_MOD ->
    name_hash_loop bs h = djb2 bs h mod UINT32_MOD.
Proof.
  induction bs as [|b bs IH]; intros h Hh; cbn [name_hash_loop djb2].
  - symmetry. apply Z.mod_small. exact Hh.
  - rewrite IH by (apply Z.mod_pos_bound; unfold UINT32_MOD; lia).
    apply djb2_congr. rewrite Z.mod_mod by (unfold UINT32_MOD; lia).
    f_equal. rewrite Z.shiftl_mul_pow2 by lia. change (2 ^ 5) with 32. lia.
Qed.

Lemma probe_slot_spec (name : list byte) (k : Z) :
  probe_slot name k = spec_probe_slot name k.
Proof.
  unfold probe_slot, spec_probe_slot, DJB2, name_hash.
  rewrite name_hash_loop_djb2 by (unfold UINT32_MOD; lia).
  change (2 ^ 17 - 1) with (Z.ones 17). rewrite Z.land_ones by lia.
  change UINT32_MOD with (2 ^ 32). change DIE_HASH_SIZE with (2 ^ 17).
  now rewrite Z.add_mod_idemp_l by lia.
Qed.

Lemma entry_matches_false (e : die_hash_entry) (name : list byte) (tag : Z) :
  entry_matches e name tag = false <-> ~ (e_tag e = tag /\ e_name e = name).
Proof.
  rewrite <- entry_matches_true. destruct (entry_matches e name tag).
  - split; [discriminate|]. intros H. now contradiction H.
  - split; [discriminate|reflexivity].
Qed.

Lemma probe_passes_spec (h : die_hash_t) (name : list byte) (tag k : Z) :
  (forall j, 0 <= j < k ->
     exists e, h !! probe_slot name j = Some e /\
               entry_matches e name tag = false) <->
  (forall j, 0 <= j < k ->
     exists e, h !! spec_probe_slot name j = Some e /\
               ~ (e_tag e = tag /\ e_name e = name)).
Proof.
  split; intros H j Hj; destruct (H j Hj) as (e & He & Hm); exists e.
  - rewrite <- probe_slot_spec. split; [exact He|]. now apply entry_matches_false.
  - rewrite probe_slot_spec. split; [exact He|]. now apply entry_matches_false.
Qed.

Lemma probe_misses_spec (h : die_hash_t) (name : list byte) (tag : Z) :
  probe_misses h name tag <-> spec_probe_misses h name tag.
Proof.
  unfold probe_misses, spec_probe_misses. change DIE_HASH_SIZE with (2 ^ 17).
  split; intros (k & Hk & Hpass & Hend); exists k;
    (split; [exact Hk|]); (split; [now apply probe_passes_spec|]).
  - now rewrite <- probe_slot_spec.
  - now rewrite probe_slot_spec.
Qed.

Lemma probe_hits_spec (h : die_hash_t) (name : list byte) (tag : Z)
    (e : die_hash_entry) :
  probe_hits h name tag e <-> spec_probe_hits h name tag e.
Proof.
  unfold probe_hits, spec_probe_hits. change DIE_HASH_SIZE with (2 ^ 17).
  split; intros (k & Hk & Hpass & Hslot & Hm); exists k;
    (split; [exact Hk|]); (split; [now apply probe_passes_spec|]).
  - rewrite <- probe_slot_spec. split; [exact Hslot|]. now apply entry_matches_true.
  - rewrite probe_slot_spec. split; [exact Hslot|]. now apply entry_matches_true.
Qed.

Lemma first_inserted_first_with (l : list die_hash_entry) (name : list byte)
    (tag : Z) (e : die_hash_entry) :
  first_inserted l name tag = Some e -> first_with l name tag e.
Proof.
  unfold first_inserted, first_with.
  induction l as [|y l IH]; cbn [List.find]; [discriminate|].
  destruct (entry_matches y name tag) eqn:Ey.
  - intros [= <-]. exists [], l. apply entry_matches_true in Ey as [Ht Hn].
    split; [reflexivity|]. split; [exact Ht|]. split; [exact Hn|].
    intros x [].
  - intros H. destruct (IH H) as (l1 & l2 & -> & Ht & Hn & Hbefore).
    exists (y :: l1), l2. split; [reflexivity|]. split; [exact Ht|].
    split; [exact Hn|]. intros x [<-|Hx].
    + now apply entry_matches_false.
    + now apply Hbefore.
Qed.

(** ** The claim about the hash table *)

(** C1: the table a successful construction leaves is the empty table
    after a sequence [l] of successful [add_die_hash_entry] calls.  After
    such a sequence, [find] on the name and tag of any inserted entry
    returns the first entry of [l] whose tag is that tag and whose name is
    that name, and inserting such a pair again leaves the table as it is.
    On any table, [find] raises the not-found [ValueError] exactly when the
    linear-probe sequence that starts at [DJB2] of the name, masked to 17
    bits, passes occupied slots whose tag or name differ and then reaches
    an empty slot or has walked the whole table; otherwise it returns the
    entry with that tag and name that the sequence meets first. *)
Theorem find_returns_first_inserted :
  (forall (fuel : nat) (files : list file) (self : DwarfIndex),
     DwarfIndex_init fuel files = Ok self ->
     exists l, add_entries ∅ l = Ok (die_hash self)) /\
  (forall (l : list die_hash_entry) (h : die_hash_t),
     add_entries ∅ l = Ok h ->
     forall x, In x l ->
       (exists e, first_with l (e_name x) (e_tag x) e /\
                  DwarfIndex_find h (e_name x) (e_tag x) = Ok e) /\
       add_die_hash_entry h x = Ok h) /\
  (forall (h : die_hash_t) (name : list byte) (tag : Z),
     (DwarfIndex_find h name tag = Raise (ValueError DIE_NOT_FOUND)
      <-> spec_probe_misses h name tag) /\
     (~ spec_probe_misses h name tag ->
      exists e, DwarfIndex_find h name tag = Ok e /\
                spec_probe_hits h name tag e)).
Proof.
  split; [|split].
  - intros fuel files self H. unfold DwarfIndex_init in H.
    exact (init_loop_inserts fuel files empty_index self 0%nat H).
  - intros l h Hadd x Hx.
    pose proof (table_inv_add_entries l ∅ h [] table_inv_empty Hadd) as Hinv.
    rewrite app_nil_l in Hinv.
    destruct (inv_complete h l Hinv x Hx) as (i & e & Hslot & Hm).
    pose proof (hit_of_present h l i e _ _ Hinv Hslot Hm) as Hhit.
    split.
    + exists e. split; [|exact (find_of_hit h _ _ e Hhit)].
      pose proof (inv_first h l Hinv i e Hslot) as Hfirst.
      apply entry_matches_true in Hm as [Ht Hn].
      apply first_inserted_first_with. now rewrite <- Ht, <- Hn.
    + destruct (add_cases h x)
        as [(k & Hk & Hpass & Hnone & _)|[(e0 & _ & E)|[Hpass _]]].
      * exfalso. apply (probe_hits_misses h _ _ e Hhit).
        exists k. split; [lia|]. split; [exact Hpass|now right].
      * exact E.
      * exfalso. apply (probe_hits_misses h _ _ e Hhit).
        exists DIE_HASH_SIZE. split; [rewrite DIE_HASH_SIZE_eq; lia|].
        split; [exact Hpass|now left].
  - intros h name tag. rewrite <- probe_misses_spec.
    destruct (find_cases h name tag) as [[E Hmiss]|(e & E & Hhit)].
    + split; [tauto|]. intros Hn. contradiction.
    + split.
      * split; [rewrite E; discriminate|].
        intros Hmiss. exfalso. exact (probe_hits_misses h name tag e Hhit Hmiss).
      * intros _. exists e. split; [exact E|]. now apply probe_hits_spec.
Qed.

Lemma find_returns_first_inserted_witness :
  add_entries ∅ example_entries = Ok example_table /\
  (exists e,
     first_with example_entries name_foo 0x34 e /\
     DwarfIndex_find example_table name_foo 0x34 = Ok e) /\
  add_die_hash_entry example_table (example_entry name_foo 0x34 1 45)
  = Ok example_table.
Proof.
  assert (H : add_entries ∅ example_entries = Ok example_table)
    by (vm_compute; reflexivity).
  split; [exact H|].
  destruct find_returns_first_inserted as (_ & Hfind & _).
  refine (Hfind example_entries example_table H
            (example_entry name_foo 0x34 1 45) _).
  right; right; left; reflexivity.
Defined.

Example find_first_of_duplicates :
  add_entries ∅ example_entries = Ok example_table /\
  DwarfIndex_find example_table name_foo 0x34
  = Ok (example_entry name_foo 0x34 0 11) /\
  DwarfIndex_find example_table name_bar 0x13
  = Ok (example_entry name_bar 0x13 0 20) /\
  DwarfIndex_find example_table name_foo 0x16
  = Raise (ValueError DIE_NOT_FOUND).
Proof. repeat split; vm_compute; reflexivity. Qed.


(** ** [read_uleb128] advances *)

Lemma read_uleb128_loop_advance (bs : list byte) :
  forall (ptr end_ shift value v p : Z),
    read_uleb128_loop bs ptr end_ shift value = Ok (v, p) ->
    ptr < p <= end_.
Proof.
  induction bs as [|b bs IH]; intros ptr end_ shift value v p H.
  - simpl in H. destruct (ptr >=? end_); discriminate.
  - simpl in H. destruct (ptr >=? end_) eqn:E; [discriminate|].
    rewrite Z.geb_leb in E. apply Z.leb_gt in E.
    destruct ((shift =? 63) && (u8 b >? 1)); [discriminate|].
    destruct (Z.land (u8 b) 128 =? 0).
    + inversion H; subst. lia.
    + apply IH in H. lia.
Qed.

Lemma read_uleb128_advance (m : list byte) (ptr end_ v p : Z) :
  read_uleb128 m ptr end_ = Ok (v, p) -> ptr < p <= end_.
Proof.
  unfold read_uleb128. destruct (ptr <? 0).
  - destruct (ptr >=? end_); discriminate.
  - apply read_uleb128_loop_advance.
Qed.

Lemma read_u_inv (n : nat) (m : list byte) (ptr end_ v p : Z) :
  read_u n m ptr end_ = Ok (v, p) ->
  in_bounds ptr end_ (Z.of_nat n) = true /\ load m ptr n = Ok v /\
  p = ptr + Z.of_nat n.
Proof.
  unfold read_u. destruct (in_bounds ptr end_ (Z.of_nat n)); [|discriminate].
  cbn [negb]. intros H. apply bind_Ok in H as (v' & Hload & H).
  inversion H; subst. auto.
Qed.

Lemma read_u_fuel_free (n : nat) (m : list byte) (ptr end_ : Z) :
  read_u n m ptr end_ <> OutOfFuel.
Proof.
  unfold read_u, load. destruct (negb _); [discriminate|].
  destruct (_ || _); discriminate.
Qed.

Lemma in_bounds_true (ptr end_ size : Z) :
  in_bounds ptr end_ size = true <-> ptr <= end_ /\ size <= end_ - ptr.
Proof.
  unfold in_bounds. rewrite andb_true_iff, Z.leb_le, Z.geb_leb, Z.leb_le.
  reflexivity.
Qed.

(** ** The attribute loop is the fold of [compile_attr] *)

Lemma read_attribs_specs (cu : compilation_unit) (m : list byte) (end_ : Z)
    (fuel : nat) :
  forall (ptr ptr1 tag : Z) (cmds : list Z) (specs : list (Z * Z)),
    attr_specs fuel m ptr end_ = Ok (specs, ptr1) ->
    read_attribs fuel m ptr end_ cu tag cmds =
    compile_attrs cu specs tag cmds ≫= fun '(tag', cmds') =>
    Ok (ptr1, tag', cmds').
Proof.
  induction fuel as [|fuel IH]; intros ptr ptr1 tag cmds specs H;
    [discriminate|].
  cbn [attr_specs] in H. cbn [read_attribs].
  apply bind_Ok in H as ([name p1] & E1 & H). rewrite E1. cbn [mbind result_bind].
  apply bind_Ok in H as ([form p2] & E2 & H). rewrite E2. cbn [mbind result_bind].
  destruct ((name =? 0) && (form =? 0)).
  - inversion H; subst. reflexivity.
  - apply bind_Ok in H as ([specs' p3] & E3 & H). inversion H; subst.
    cbn [compile_attrs]. unfold compile_attr.
    destruct (attr_special name form tag) as [[cmd|] tag'].
    + cbn [mbind result_bind]. now apply IH.
    + destruct (form_cmd cu form); cbn [mbind result_bind];
        try reflexivity; now apply IH.
Qed.

Lemma read_uleb128_loop_fuel_free (bs : list byte) :
  forall (ptr end_ shift value : Z),
    read_uleb128_loop bs ptr end_ shift value <> OutOfFuel.
Proof.
  induction bs as [|b bs IH]; intros ptr end_ shift value; simpl.
  - destruct (ptr >=? end_); discriminate.
  - destruct (ptr >=? end_); [discriminate|].
    destruct ((shift =? 63) && (u8 b >? 1)); [discriminate|].
    destruct (Z.land (u8 b) 128 =? 0); [discriminate|]. apply IH.
Qed.

Lemma read_uleb128_fuel_free (m : list byte) (ptr end_ : Z) :
  read_uleb128 m ptr end_ <> OutOfFuel.
Proof.
  unfold read_uleb128. destruct (ptr <? 0).
  - destruct (ptr >=? end_); discriminate.
  - apply read_uleb128_loop_fuel_free.
Qed.

Lemma read_attribs_advance (cu : compilation_unit) (m : list byte) (end_ : Z)
    (fuel : nat) :
  forall (ptr tag : Z) (cmds : list Z) (p tag' : Z) (cmds' : list Z),
    read_attribs fuel m ptr end_ cu tag cmds = Ok (p, tag', cmds') ->
    ptr < p <= end_.
Proof.
  induction fuel as [|fuel IH]; intros ptr tag cmds p tag' cmds' H;
    [discriminate|].
  cbn [read_attribs] in H.
  apply bind_Ok in H as ([name p1] & E1 & H).
  apply bind_Ok in H as ([form p2] & E2 & H).
  apply read_uleb128_advance in E1. apply read_uleb128_advance in E2.
  destruct ((name =? 0) && (form =? 0)).
  - inversion H; subst. lia.
  - destruct (attr_special name form tag) as [[cmd|] tag1].
    + apply IH in H. lia.
    + destruct (form_cmd cu form); try discriminate; apply IH in H; lia.
Qed.

(** Enough fuel: each pair takes at least two bytes. *)
Lemma read_attribs_terminates (cu : compilation_unit) (m : list byte) (end_ : Z)
    (fuel : nat) :
  forall (ptr tag : Z) (cmds : list Z),
    (0 < fuel)%nat -> end_ - ptr < Z.of_nat fuel ->
    read_attribs fuel m ptr end_ cu tag cmds <> OutOfFuel.
Proof.
  induction fuel as [|fuel IH]; intros ptr tag cmds Hpos Hfuel; [lia|].
  cbn [read_attribs].
  destruct (read_uleb128 m ptr end_) as [[name p1]| | |] eqn:E1;
    cbn [mbind result_bind]; try discriminate.
  - destruct (read_uleb128 m p1 end_) as [[form p2]| | |] eqn:E2;
      cbn [mbind result_bind]; try discriminate.
    + apply read_uleb128_advance in E1. apply read_uleb128_advance in E2.
      destruct ((name =? 0) && (form =? 0)); [discriminate|].
      destruct (attr_special name form tag) as [[cmd|] tag'].
      * apply IH; lia.
      * destruct (form_cmd cu form); try discriminate; apply IH; lia.
    + now apply read_uleb128_fuel_free in E2.
  - now apply read_uleb128_fuel_free in E1.
Qed.

(** ** The abbreviation table *)

Lemma num_abbrev_decls_set (cu : compilation_unit) (ds : list abbrev_decl) :
  num_abbrev_decls (set_abbrev_decls cu ds) = Z.of_nat (length ds).
Proof. reflexivity. Qed.

Lemma set_abbrev_decls_set (cu : compilation_unit) (ds ds' : list abbrev_decl) :
  set_abbrev_decls (set_abbrev_decls cu ds) ds' = set_abbrev_decls cu ds'.
Proof. reflexivity. Qed.

Lemma set_abbrev_decls_same (cu : compilation_unit) :
  set_abbrev_decls cu (abbrev_decls cu) = cu.
Proof. now destruct cu. Qed.

Lemma read_abbrev_decl_inv (fuel : nat) (m : list byte) (ptr end_ : Z)
    (cu cu' : compilation_unit) (ret ptr' : Z) :
  read_abbrev_decl fuel m ptr end_ cu = Ok (ret, ptr', cu') ->
  (ret = 0 /\ cu' = cu /\ read_uleb128 m ptr end_ = Ok (0, ptr')) \/
  (ret = 1 /\
   exists decl p,
     read_uleb128 m ptr end_ = Ok (num_abbrev_decls cu + 1, p) /\
     cu' = set_abbrev_decls cu (abbrev_decls cu ++ [decl])).
Proof.
  unfold read_abbrev_decl. intros H.
  apply bind_Ok in H as ([code p] & Ecode & H).
  destruct (code =? 0) eqn:E0.
  - apply Z.eqb_eq in E0. subst code. inversion H; subst. left. auto.
  - destruct (code =? num_abbrev_decls cu + 1) eqn:Eseq; [|discriminate].
    apply Z.eqb_eq in Eseq. subst code. cbn [negb] in H.
    apply bind_Ok in H as ([tag p1] & _ & H).
    apply bind_Ok in H as ([children p2] & _ & H).
    apply bind_Ok in H as ([[p3 tag'] cmds'] & _ & H).
    inversion H; subst. right. split; [reflexivity|]. eauto.
Qed.

Lemma read_abbrev_table_loop_inv (fuel : nat) (m : list byte) (end_ : Z)
    (n : nat) :
  forall (ptr : Z) (cu cu' : compilation_unit),
    read_abbrev_table_loop n fuel m ptr end_ cu = Ok cu' ->
    exists new,
      cu' = set_abbrev_decls cu (abbrev_decls cu ++ new) /\
      forall (j : nat) (decl : abbrev_decl),
        new !! j = Some decl ->
        stored_from_code fuel m end_ (num_abbrev_decls cu + Z.of_nat j + 1) decl.
Proof.
  induction n as [|n IH]; intros ptr cu cu' H; [discriminate|].
  cbn [read_abbrev_table_loop] in H.
  apply bind_Ok in H as ([[ret p] cu1] & Edecl & H).
  pose proof Edecl as Einv.
  apply read_abbrev_decl_inv in Einv
    as [(-> & -> & _)|(-> & decl & p0 & Ecode & ->)].
  - cbn in H. inversion H; subst. exists [].
    rewrite app_nil_r, set_abbrev_decls_same. split; [reflexivity|].
    intros j decl Hj. now rewrite lookup_nil in Hj.
  - cbn [Z.eqb Pos.eqb] in H.
    apply IH in H as (new & -> & Hnew).
    exists (decl :: new). split.
    + rewrite set_abbrev_decls_set. cbn [abbrev_decls set_abbrev_decls].
      now rewrite <- app_assoc.
    + intros [|j] d Hj.
      * cbn in Hj. inversion Hj; subst d.
        exists ptr, p0, p, cu. rewrite Z.add_0_r.
        split; [exact Ecode|]. split; [lia|exact Edecl].
      * cbn in Hj. specialize (Hnew j d Hj).
        rewrite num_abbrev_decls_set, length_app in Hnew. cbn [length] in Hnew.
        replace (num_abbrev_decls cu + Z.of_nat (S j) + 1)
          with (Z.of_nat (length (abbrev_decls cu) + 1) + Z.of_nat j + 1)
          by (unfold num_abbrev_decls; lia).
        exact Hnew.
Qed.

(** Enough fuel for the table: each declaration takes at least one byte. *)
Lemma read_abbrev_table_loop_terminates (fuel : nat) (m : list byte) (end_ : Z)
    (n : nat) :
  forall (ptr : Z) (cu : compilation_unit),
    (0 < n)%nat -> (0 < fuel)%nat ->
    end_ - ptr < Z.of_nat n -> end_ - ptr < Z.of_nat fuel ->
    read_abbrev_table_loop n fuel m ptr end_ cu <> OutOfFuel.
Proof.
  induction n as [|n IH]; intros ptr cu Hn Hfuel Hlen Hlen'; [lia|].
  cbn [read_abbrev_table_loop]. unfold read_abbrev_decl.
  destruct (read_uleb128 m ptr end_) as [[code p]| | |] eqn:E1;
    cbn [mbind result_bind]; try discriminate;
    [|now apply read_uleb128_fuel_free in E1].
  apply read_uleb128_advance in E1.
  destruct (code =? 0); [discriminate|].
  destruct (negb (code =? num_abbrev_decls cu + 1)); [discriminate|].
  destruct (read_uleb128 m p end_) as [[tag p1]| | |] eqn:E2;
    cbn [mbind result_bind]; try discriminate;
    [|now apply read_uleb128_fuel_free in E2].
  apply read_uleb128_advance in E2.
  destruct (read_u8 m p1 end_) as [[children p2]| | |] eqn:E3;
    cbn [mbind result_bind]; try discriminate.
  - assert (Hp2 : p2 = p1 + 1) by (apply read_u_inv in E3; tauto).
    subst p2.
    destruct (read_attribs fuel m (p1 + 1) end_ cu
                (if indexed_tag tag then tag else 0) [])
      as [[[p3 tag'] cmds']| | |] eqn:E4; cbn [mbind result_bind];
      try discriminate.
    + cbn [Z.eqb Pos.eqb].
      apply read_attribs_advance in E4.
      apply IH; lia.
    + apply read_attribs_terminates in E4; [contradiction|lia|lia].
  - now apply read_u_fuel_free in E3.
Qed.

(** C8: in [read_abbrev_decl], a code of 0 ends the table successfully; a
    non-zero code other than the number of abbreviations read so far plus
    one fails with the "not sequential" [NotImplementedError]; a
    declaration that is read had that code and is appended, so it sits at
    index [code - 1]; and after [read_abbrev_table] succeeded, the
    declaration at index [k - 1] was read from a declaration whose code
    was [k]. *)
Theorem abbrev_codes_sequential (fuel : nat) (m : list byte) (ptr end_ : Z)
    (cu : compilation_unit) :
  (forall p, read_uleb128 m ptr end_ = Ok (0, p) ->
     read_abbrev_decl fuel m ptr end_ cu = Ok (0, p, cu) /\
     forall n, read_abbrev_table_loop (S n) fuel m ptr end_ cu = Ok cu) /\
  (forall code p,
     read_uleb128 m ptr end_ = Ok (code, p) ->
     code <> 0 -> code <> num_abbrev_decls cu + 1 ->
     read_abbrev_decl fuel m ptr end_ cu
     = Raise (NotImplementedError NOT_SEQUENTIAL)) /\
  (forall p cu',
     read_abbrev_decl fuel m ptr end_ cu = Ok (1, p, cu') ->
     exists decl p0,
       read_uleb128 m ptr end_ = Ok (num_abbrev_decls cu + 1, p0) /\
       abbrev_decls cu' = abbrev_decls cu ++ [decl] /\
       abbrev_decls cu' !! Z.to_nat (num_abbrev_decls cu + 1 - 1) = Some decl) /\
  (forall cu',
     read_abbrev_table fuel m ptr end_ cu = Ok cu' ->
     forall k decl,
       1 <= k -> abbrev_decls cu' !! Z.to_nat (k - 1) = Some decl ->
       stored_from_code fuel m end_ k decl).
Proof.
  repeat split.
  - unfold read_abbrev_decl. rewrite H. reflexivity.
  - intros n. cbn [read_abbrev_table_loop]. unfold read_abbrev_decl.
    rewrite H. reflexivity.
  - intros code p Hcode Hnz Hseq. unfold read_abbrev_decl. rewrite Hcode.
    cbn [mbind result_bind].
    replace (code =? 0) with false by (symmetry; now apply Z.eqb_neq).
    replace (code =? num_abbrev_decls cu + 1) with false
      by (symmetry; now apply Z.eqb_neq).
    reflexivity.
  - intros p cu' H.
    apply read_abbrev_decl_inv in H
      as [(Habs & _)|(_ & decl & p0 & Ecode & ->)]; [discriminate|].
    exists decl, p0. split; [exact Ecode|]. split; [reflexivity|].
    cbn [abbrev_decls set_abbrev_decls]. unfold num_abbrev_decls.
    replace (Z.to_nat (Z.of_nat (length (abbrev_decls cu)) + 1 - 1))
      with (length (abbrev_decls cu) + 0)%nat by lia.
    rewrite lookup_app_r by lia.
    now replace (length (abbrev_decls cu) + 0 - length (abbrev_decls cu))%nat
      with 0%nat by lia.
  - intros cu' H k decl Hk Hlook. unfold read_abbrev_table in H.
    apply read_abbrev_table_loop_inv in H as (new & -> & Hnew).
    cbn [abbrev_decls set_abbrev_decls app] in Hlook.
    specialize (Hnew _ _ Hlook). rewrite num_abbrev_decls_set in Hnew.
    cbn [length] in Hnew.
    now replace (Z.of_nat 0 + Z.of_nat (Z.to_nat (k - 1)) + 1) with k in Hnew
      by lia.
Qed.

Lemma abbrev_codes_sequential_witness :
  read_abbrev_table 10 example_abbrev_var 0 10 (example_cu 8)
  = Ok (set_abbrev_decls (example_cu 8)
          [{| cmds := [ATTRIB_NAME_STRP; 4; 0; DW_TAG_variable; 0] |}]) /\
  stored_from_code 10 example_abbrev_var 10 1
    {| cmds := [ATTRIB_NAME_STRP; 4; 0; DW_TAG_variable; 0] |} /\
  read_abbrev_table 10 example_abbrev_gap 0 15 (example_cu 8)
  = Raise (NotImplementedError NOT_SEQUENTIAL).
Proof.
  split; [vm_compute; reflexivity|]. split; [|vm_compute; reflexivity].
  destruct (abbrev_codes_sequential 10 example_abbrev_var 0 10 (example_cu 8))
    as (_ & _ & _ & Htable).
  apply (Htable (set_abbrev_decls (example_cu 8)
           [{| cmds := [ATTRIB_NAME_STRP; 4; 0; DW_TAG_variable; 0] |}])).
  - vm_compute. reflexivity.
  - lia.
  - reflexivity.
Defined.


(** ** Skip coalescing *)

Lemma last_cmd_app (cmds : list Z) (x : Z) : last_cmd (cmds ++ [x]) = Some x.
Proof.
  unfold last_cmd. rewrite length_app. cbn [length].
  replace (length cmds + 1)%nat with (S (length cmds)) by lia.
  rewrite lookup_app_r by lia.
  now replace (length cmds - length cmds)%nat with 0%nat by lia.
Qed.

Lemma set_last_cmd_app (cmds : list Z) (x v : Z) :
  set_last_cmd (cmds ++ [x]) v = cmds ++ [v].
Proof.
  unfold set_last_cmd. rewrite length_app. cbn [length].
  replace (Nat.pred (length cmds + 1)) with (length cmds + 0)%nat by lia.
  now rewrite insert_app_r.
Qed.

Lemma last_cmd_inv (cmds : list Z) (x : Z) :
  last_cmd cmds = Some x -> exists pre, cmds = pre ++ [x].
Proof.
  induction cmds as [|y pre _] using rev_ind; [discriminate|].
  rewrite last_cmd_app. intros [= ->]. eauto.
Qed.

(** The merge of a skip [N] into a preceding literal [M]. *)
Lemma emit_skip_merge (cmds : list Z) (M N : Z) :
  last_cmd cmds = Some M -> 0 <= M < ATTRIB_MIN_CMD -> 0 <= N < ATTRIB_MIN_CMD ->
  emit_skip cmds N =
  if M + N <? ATTRIB_MIN_CMD then set_last_cmd cmds (M + N)
  else append_cmd (set_last_cmd cmds 242) (M + N - 242).
Proof.
  intros Hlast HM HN. unfold emit_skip. rewrite Hlast.
  unfold ATTRIB_MIN_CMD, ATTRIB_BLOCK1, UINT8_MOD in *.
  replace (M <? 243) with true by (symmetry; apply Z.ltb_lt; lia).
  destruct (M + N <? 243) eqn:E.
  - apply Z.ltb_lt in E. rewrite Z.mod_small by lia. reflexivity.
  - apply Z.ltb_ge in E.
    replace (M + N - 243 + 1) with (M + N - 242) by lia.
    rewrite Z.mod_small by lia. reflexivity.
Qed.

Lemma fixed_skip_compile (cu : compilation_unit) (name form n tag : Z)
    (cmds : list Z) :
  fixed_skip cu (name, form) = Some n ->
  exists tag', compile_attr cu name form tag cmds = Ok (tag', emit_skip cmds n).
Proof.
  unfold fixed_skip, compile_attr, attr_special.
  destruct (form_cmd cu form) as [k| | |] eqn:Ef; try discriminate.
  destruct (name =? DW_AT_sibling) eqn:Es.
  - cbn [andb]. destruct (sibling_cmd form) as [c|] eqn:Ec.
    + rewrite bool_decide_eq_true_2 by eauto. discriminate.
    + rewrite bool_decide_eq_false_2 by (intros [? ?]; discriminate).
      assert ((name =? DW_AT_name) = false) as ->.
      { apply Z.eqb_eq in Es. subst name. reflexivity. }
      cbn [andb]. intros [= ->]. eauto.
  - cbn [andb]. destruct (name =? DW_AT_name) eqn:En.
    + cbn [andb]. destruct (name_cmd form) as [c|] eqn:Ec.
      * rewrite bool_decide_eq_true_2 by eauto. discriminate.
      * rewrite bool_decide_eq_false_2 by (intros [? ?]; discriminate).
        intros [= ->].
        destruct (negb (tag =? 0)); [eauto|].
        destruct ((name =? DW_AT_declaration) && negb (tag =? DW_TAG_variable));
          eauto.
    + cbn [andb]. intros [= ->].
      destruct ((name =? DW_AT_declaration) && negb (tag =? DW_TAG_variable));
        eauto.
Qed.

Lemma fixed_skip_nonneg (cu : compilation_unit) (spec : Z * Z) (n : Z) :
  0 <= address_size cu -> fixed_skip cu spec = Some n -> 0 <= n.
Proof.
  intros Ha. destruct spec as [name form]. unfold fixed_skip.
  destruct (form_cmd cu form) as [k| | |] eqn:Ef; try discriminate.
  assert (0 <= k).
  { unfold form_cmd in Ef.
    repeat match type of Ef with
           | (if ?c then _ else _) = _ => destruct c
           end; inversion Ef; subst; try lia.
    destruct (is_64_bit cu); lia. }
  destruct (_ && _); [discriminate|].
  destruct (_ && _); [discriminate|]. intros [= <-]. assumption.
Qed.

Lemma leb128_spec_compile (cu : compilation_unit) (name form tag : Z)
    (cmds : list Z) :
  leb128_spec (name, form) = true ->
  exists tag',
    compile_attr cu name form tag cmds = Ok (tag', cmds ++ [ATTRIB_LEB128]).
Proof.
  unfold leb128_spec. intros H. apply andb_true_iff in H as [Hform Hnot].
  assert (Hcmd : form_cmd cu form = FormAppend ATTRIB_LEB128).
  { apply orb_true_iff in Hform as [Hform|Hform];
      [apply orb_true_iff in Hform as [Hform|Hform]|];
      apply Z.eqb_eq in Hform; subst form; reflexivity. }
  assert (Hname : name_cmd form = None).
  { apply orb_true_iff in Hform as [Hform|Hform];
      [apply orb_true_iff in Hform as [Hform|Hform]|];
      apply Z.eqb_eq in Hform; subst form; reflexivity. }
  assert (Hsib : (name =? DW_AT_sibling) = true -> sibling_cmd form = None).
  { intros Es. rewrite Es in Hnot. cbn [andb] in Hnot.
    apply negb_true_iff in Hnot.
    apply orb_true_iff in Hform as [Hform|Hform];
      [apply orb_true_iff in Hform as [Hform|Hform]|];
      apply Z.eqb_eq in Hform; subst form; try reflexivity.
    discriminate. }
  unfold compile_attr, attr_special.
  destruct (name =? DW_AT_sibling) eqn:Es.
  - rewrite (Hsib eq_refl), Hcmd. eauto.
  - destruct ((name =? DW_AT_name) && negb (tag =? 0)).
    + rewrite Hname, Hcmd. eauto.
    + destruct ((name =? DW_AT_declaration) && negb (tag =? DW_TAG_variable));
        rewrite Hcmd; eauto.
Qed.

(** Skips after a literal that stay below 243 in total are absorbed. *)
Lemma compile_skips_absorbed (cu : compilation_unit) (rest : list (Z * Z)) :
  0 <= address_size cu ->
  forall (specs : list (Z * Z)) (sizes : list Z) (tag acc : Z) (pre : list Z),
    Forall2 (fun spec n => fixed_skip cu spec = Some n) specs sizes ->
    0 <= acc -> acc + sum_Z sizes < ATTRIB_MIN_CMD ->
    exists tag',
      compile_attrs cu (specs ++ rest) tag (pre ++ [acc]) =
      compile_attrs cu rest tag' (pre ++ [acc + sum_Z sizes]).
Proof.
  intros Ha specs sizes tag acc pre Hall. revert tag acc.
  induction Hall as [|[name form] n specs sizes Hn Hall IH]; intros tag acc Hacc Hsum.
  - exists tag. cbn [sum_Z app]. now rewrite Z.add_0_r.
  - cbn [sum_Z] in Hsum. cbn [app compile_attrs].
    pose proof (fixed_skip_nonneg cu _ _ Ha Hn) as Hn0.
    assert (Hrest : 0 <= sum_Z sizes).
    { clear -Ha Hall. induction Hall as [|s k ss ks Hk _ IHs]; cbn [sum_Z]; [lia|].
      pose proof (fixed_skip_nonneg cu _ _ Ha Hk). lia. }
    destruct (fixed_skip_compile cu name form n tag (pre ++ [acc]) Hn)
      as [tag1 ->].
    cbn [mbind result_bind].
    rewrite (emit_skip_merge _ acc n (last_cmd_app pre acc))
      by (unfold ATTRIB_MIN_CMD, ATTRIB_BLOCK1 in *; lia).
    replace (acc + n <? ATTRIB_MIN_CMD) with true
      by (symmetry; apply Z.ltb_lt; lia).
    rewrite set_last_cmd_app.
    destruct (IH tag1 (acc + n) ltac:(lia) ltac:(lia)) as [tag' ->].
    exists tag'. cbn [sum_Z]. now rewrite Z.add_assoc.
Qed.

Lemma compile_skips_then_leb128 (cu : compilation_unit) (specs : list (Z * Z))
    (sizes : list Z) (leb : Z * Z) (tag : Z) :
  0 <= address_size cu -> specs <> [] ->
  Forall2 (fun spec n => fixed_skip cu spec = Some n) specs sizes ->
  sum_Z sizes < ATTRIB_MIN_CMD -> leb128_spec leb = true ->
  exists tag',
    compile_attrs cu (specs ++ [leb]) tag []
    = Ok (tag', [sum_Z sizes; ATTRIB_LEB128]).
Proof.
  intros Ha Hne Hall Hsum Hleb.
  destruct Hall as [|[name form] n specs sizes Hn Hall]; [contradiction|].
  cbn [app compile_attrs sum_Z] in *.
  destruct (fixed_skip_compile cu name form n tag [] Hn) as [tag1 ->].
  cbn [mbind result_bind]. change (emit_skip [] n) with ([] ++ [n]).
  pose proof (fixed_skip_nonneg cu _ _ Ha Hn) as Hn0.
  destruct (compile_skips_absorbed cu [leb] Ha specs sizes tag1 n [] Hall Hn0 Hsum)
    as [tag2 ->].
  destruct leb as [lname lform]. cbn [compile_attrs].
  destruct (leb128_spec_compile cu lname lform tag2 ([] ++ [n + sum_Z sizes]) Hleb)
    as [tag3 ->].
  exists tag3. reflexivity.
Qed.

(** C6: when the attribute loop reads a pair whose form leaves a
    fixed-length skip [N < 243] and the last command is a literal
    [M < 243], the two are merged: the last command becomes [M + N] and
    nothing is appended if [M + N < 243], else it becomes 242 and
    [M + N - 242] is appended.  So fixed-size skips that sum to [S < 243]
    followed by a LEB128-form attribute compile to the two commands
    [S; ATTRIB_LEB128], which [read_abbrev_decl] stores before the
    terminator, the tag and the children byte. *)
Theorem fixed_skips_are_coalesced (fuel : nat) (m : list byte) (end_ : Z)
    (cu : compilation_unit) :
  (forall ptr tag cmds name form p1 p2 tag' M N,
     read_uleb128 m ptr end_ = Ok (name, p1) ->
     read_uleb128 m p1 end_ = Ok (form, p2) ->
     (name =? 0) && (form =? 0) = false ->
     attr_special name form tag = (None, tag') ->
     form_cmd cu form = FormSkip N -> 0 <= N < ATTRIB_MIN_CMD ->
     last_cmd cmds = Some M -> 0 <= M < ATTRIB_MIN_CMD ->
     read_attribs (S fuel) m ptr end_ cu tag cmds =
     read_attribs fuel m p2 end_ cu tag'
       (if M + N <? ATTRIB_MIN_CMD then set_last_cmd cmds (M + N)
        else append_cmd (set_last_cmd cmds 242) (M + N - 242))) /\
  (forall ptr ptr1 tag specs sizes leb,
     0 <= address_size cu ->
     attr_specs fuel m ptr end_ = Ok (specs ++ [leb], ptr1) ->
     specs <> [] ->
     Forall2 (fun spec n => fixed_skip cu spec = Some n) specs sizes ->
     sum_Z sizes < ATTRIB_MIN_CMD -> leb128_spec leb = true ->
     (exists tag',
        read_attribs fuel m ptr end_ cu tag []
        = Ok (ptr1, tag', [sum_Z sizes; ATTRIB_LEB128])) /\
     (forall p0 p1 p2 dtag children,
        read_uleb128 m p0 end_ = Ok (num_abbrev_decls cu + 1, p1) ->
        read_uleb128 m p1 end_ = Ok (dtag, p2) ->
        read_u8 m p2 end_ = Ok (children, ptr) ->
        tag = (if indexed_tag dtag then dtag else 0) ->
        exists tag',
          read_abbrev_decl fuel m p0 end_ cu =
          Ok (1, ptr1,
              set_abbrev_decls cu
                (abbrev_decls cu ++
                 [{| cmds := [sum_Z sizes; ATTRIB_LEB128; 0; tag'; children] |}])))).
Proof.
  split.
  - intros ptr tag cmds name form p1 p2 tag' M N E1 E2 Hnz Hsp Hform HN Hlast HM.
    cbn [read_attribs]. rewrite E1. cbn [mbind result_bind].
    rewrite E2. cbn [mbind result_bind]. rewrite Hnz, Hsp, Hform.
    now rewrite (emit_skip_merge cmds M N Hlast HM HN).
  - intros ptr ptr1 tag specs sizes leb Ha Hspecs Hne Hall Hsum Hleb.
    assert (Hattr : exists tag',
              read_attribs fuel m ptr end_ cu tag []
              = Ok (ptr1, tag', [sum_Z sizes; ATTRIB_LEB128])).
    { rewrite (read_attribs_specs cu m end_ fuel ptr ptr1 tag [] _ Hspecs).
      destruct (compile_skips_then_leb128 cu specs sizes leb tag Ha Hne Hall
                  Hsum Hleb) as [tag' ->].
      exists tag'. reflexivity. }
    split; [exact Hattr|].
    intros p0 p1 p2 dtag children Ecode Etag Echildren Htag.
    destruct Hattr as [tag' Hattr]. exists (tag' mod UINT8_MOD).
    unfold read_abbrev_decl. rewrite Ecode. cbn [mbind result_bind].
    assert (Hpos : num_abbrev_decls cu + 1 <> 0)
      by (unfold num_abbrev_decls; lia).
    apply Z.eqb_neq in Hpos. rewrite Hpos, Z.eqb_refl. cbn [negb].
    rewrite Etag. cbn [mbind result_bind].
    rewrite Echildren. cbn [mbind result_bind].
    rewrite <- Htag, Hattr. reflexivity.
Qed.

Lemma fixed_skips_are_coalesced_witness :
  exists tag',
    read_abbrev_decl 20 example_abbrev_skips 0 28 (example_cu 8) =
    Ok (1, 27,
        set_abbrev_decls (example_cu 8)
          (abbrev_decls (example_cu 8) ++
           [{| cmds := [sum_Z [8; 8; 4; 2; 1; 4; 4; 1; 8; 8]; ATTRIB_LEB128;
                        0; tag'; 0] |}])).
Proof.
  destruct (fixed_skips_are_coalesced 20 example_abbrev_skips 28 (example_cu 8))
    as [_ Hdecl].
  destruct (Hdecl 3 27 DW_TAG_variable example_skip_specs
              [8; 8; 4; 2; 1; 4; 4; 1; 8; 8] (0x1c, DW_FORM_udata))
    as [_ Hd].
  - cbn. lia.
  - vm_compute. reflexivity.
  - discriminate.
  - repeat constructor.
  - reflexivity.
  - reflexivity.
  - apply (Hd 0 1 2 DW_TAG_variable 0); vm_compute; reflexivity.
Defined.

Example read_abbrev_decl_ten_skips :
  read_abbrev_decl 20 example_abbrev_skips 0 28 (example_cu 8) =
  Ok (1, 27,
      set_abbrev_decls (example_cu 8)
        [{| cmds := [48; ATTRIB_LEB128; 0; DW_TAG_variable; 0] |}]).
Proof. vm_compute. reflexivity. Qed.

Example emit_skip_overflowing_literal :
  emit_skip [ATTRIB_STRING; 240] 8 = [ATTRIB_STRING; 242; 6].
Proof. reflexivity. Qed.


(** ** [.debug_str] *)

Lemma u8_zero (b : byte) : u8 b = 0 <-> b = x00.
Proof. destruct b; vm_compute; split; congruence. Qed.

Lemma load_byte (m : list byte) (p : Z) (b : byte) :
  0 <= p -> m !! Z.to_nat p = Some b -> load m p 1 = Ok (u8 b).
Proof.
  intros Hp Hb. unfold load.
  pose proof (lookup_lt_Some _ _ _ Hb) as Hlt.
  replace (p <? 0) with false by (symmetry; apply Z.ltb_ge; lia).
  replace (Z.of_nat (length m) <? p + Z.of_nat 1) with false
    by (symmetry; apply Z.ltb_ge; lia).
  cbn [orb]. unfold bytes_from.
  rewrite (drop_S _ _ _ Hb). cbn [take le_decode]. f_equal.
  rewrite take_0. cbn [le_decode]. lia.
Qed.

Lemma section_last_byte (m : list byte) (s : section) :
  section_in_map m s -> sec_size s <> 0 ->
  exists b, m !! Z.to_nat (sec_buffer s + sec_size s - 1) = Some b.
Proof.
  intros (H1 & H2 & H3) Hnz.
  destruct (lookup_lt_is_Some_2 m (Z.to_nat (sec_buffer s + sec_size s - 1)))
    as [b Hb]; [lia|eauto].
Qed.

Lemma check_debug_str_spec (m : list byte) (s : section) :
  section_in_map m s ->
  (check_debug_str m s = Ok tt /\
   sec_size s <> 0 /\
   m !! Z.to_nat (sec_buffer s + sec_size s - 1) = Some x00) \/
  (check_debug_str m s = Raise (DwarfFormatError DEBUG_STR_NOT_TERMINATED) /\
   ~ (sec_size s <> 0 /\
      m !! Z.to_nat (sec_buffer s + sec_size s - 1) = Some x00)).
Proof.
  intros Hin. unfold check_debug_str.
  destruct (sec_size s =? 0) eqn:E0.
  - apply Z.eqb_eq in E0. right. split; [reflexivity|]. tauto.
  - apply Z.eqb_neq in E0.
    destruct (section_last_byte m s Hin E0) as [b Hb].
    destruct Hin as (H1 & H2 & H3).
    rewrite (load_byte m _ b) by (try lia; exact Hb).
    cbn [mbind result_bind].
    destruct (u8 b =? 0) eqn:Eb.
    + apply Z.eqb_eq, u8_zero in Eb. subst b. left. auto.
    + apply Z.eqb_neq in Eb. right. split; [reflexivity|].
      intros [_ Hx]. rewrite Hb in Hx. inversion Hx; subst b.
      apply Eb. reflexivity.
Qed.

(** A string that meets a NUL at index [k] ends there at the latest. *)
Lemma cstring_from_terminated (bs : list byte) :
  forall k : nat, bs !! k = Some x00 ->
    exists s, cstring_from bs = Ok s /\ (length s <= k)%nat.
Proof.
  induction bs as [|b bs IH]; intros k Hk; [now rewrite lookup_nil in Hk|].
  cbn [cstring_from]. destruct (u8 b =? 0) eqn:Eb.
  - exists []. split; [reflexivity|cbn; lia].
  - destruct k as [|k].
    + cbn in Hk. inversion Hk; subst b. discriminate.
    + cbn in Hk. destruct (IH k Hk) as (s & -> & Hlen).
      exists (b :: s). split; [reflexivity|cbn; lia].
Qed.

Lemma cstring_in_section (m : list byte) (s : section) (tmp : Z) :
  section_in_map m s ->
  m !! Z.to_nat (sec_buffer s + sec_size s - 1) = Some x00 ->
  0 <= tmp < sec_size s ->
  exists str,
    cstring m (sec_buffer s + tmp) = Ok str /\
    sec_buffer s + tmp + Z.of_nat (length str) < sec_buffer s + sec_size s.
Proof.
  intros (H1 & H2 & H3) Hlast Htmp. unfold cstring, bytes_from.
  replace (sec_buffer s + tmp <? 0) with false by (symmetry; apply Z.ltb_ge; lia).
  destruct (cstring_from_terminated (drop (Z.to_nat (sec_buffer s + tmp)) m)
              (Z.to_nat (sec_size s - 1 - tmp))) as (str & Hstr & Hlen).
  - rewrite lookup_drop. rewrite <- Hlast. f_equal. lia.
  - exists str. split; [exact Hstr|lia].
Qed.

Lemma read_u_into_size_t_inv (n : nat) (m : list byte) (ptr end_ v p : Z) :
  read_u_into_size_t n m ptr end_ = Ok (v, p) -> 0 <= v /\ p = ptr + Z.of_nat n.
Proof.
  unfold read_u_into_size_t. intros H.
  apply bind_Ok in H as ([tmp p'] & Hread & H).
  destruct (tmp >? SIZE_MAX); [discriminate|]. inversion H; subst.
  apply read_u_inv in Hread as (_ & Hload & ->).
  apply load_nonneg in Hload. auto.
Qed.

(** What [ATTRIB_NAME_STRP] records. *)
Lemma exec_name_strp (m : list byte) (cu : compilation_unit) (end_ : Z)
    (s : section) (st st' : die_cursor) :
  exec_cmd m cu end_ s ATTRIB_NAME_STRP st = Ok st' ->
  exists tmp,
    0 <= tmp <= sec_size s /\ cur_name st' = Some (sec_buffer s + tmp).
Proof.
  unfold exec_cmd.
  change (ATTRIB_NAME_STRP =? ATTRIB_BLOCK1) with false.
  change (ATTRIB_NAME_STRP =? ATTRIB_BLOCK2) with false.
  change (ATTRIB_NAME_STRP =? ATTRIB_BLOCK4) with false.
  change (ATTRIB_NAME_STRP =? ATTRIB_EXPRLOC) with false.
  change (ATTRIB_NAME_STRP =? ATTRIB_LEB128) with false.
  change (ATTRIB_NAME_STRP =? ATTRIB_NAME_STRING) with false.
  change (ATTRIB_NAME_STRP =? ATTRIB_STRING) with false.
  change (ATTRIB_NAME_STRP =? ATTRIB_SIBLING_REF1) with false.
  change (ATTRIB_NAME_STRP =? ATTRIB_SIBLING_REF2) with false.
  change (ATTRIB_NAME_STRP =? ATTRIB_SIBLING_REF4) with false.
  change (ATTRIB_NAME_STRP =? ATTRIB_SIBLING_REF8) with false.
  change (ATTRIB_NAME_STRP =? ATTRIB_SIBLING_REF_UDATA) with false.
  change (ATTRIB_NAME_STRP =? ATTRIB_NAME_STRP) with true.
  cbv iota. intros H.
  apply bind_Ok in H as ([tmp p] & Hread & H).
  assert (Htmp : 0 <= tmp).
  { destruct (is_64_bit cu); now apply read_u_into_size_t_inv in Hread. }
  destruct (in_bounds (sec_buffer s) (section_end s) tmp) eqn:Eb;
    [|discriminate].
  cbn [negb] in H. inversion H; subst st'. cbn [cur_name].
  apply in_bounds_true in Eb. unfold section_end in Eb.
  exists tmp. split; [lia|reflexivity].
Qed.

(** C9: once the relocations of a file are applied, [index_file] fails
    with the "not null terminated" [DwarfFormatError], whatever
    [.debug_info] holds, unless [.debug_str] is non-empty and its last byte
    is 0; and when that check passes, every name pointer that
    [ATTRIB_NAME_STRP] records with an offset below the section size
    addresses a string whose NUL lies inside [.debug_str]. *)
Theorem debug_str_null_terminated (fuel : nat) (self : DwarfIndex)
    (file_idx : nat) (f : file) (m : list byte) :
  relocate_file f = Ok m ->
  section_in_map m (debug_sections f DEBUG_STR) ->
  let s := debug_sections f DEBUG_STR in
  let terminated :=
    sec_size s <> 0 /\
    m !! Z.to_nat (sec_buffer s + sec_size s - 1) = Some x00 in
  (~ terminated ->
   index_file fuel self file_idx f
   = Raise (DwarfFormatError DEBUG_STR_NOT_TERMINATED)) /\
  (check_debug_str m s = Ok tt <-> terminated) /\
  (terminated ->
   forall cu end_ st st',
     exec_cmd m cu end_ s ATTRIB_NAME_STRP st = Ok st' ->
     exists tmp,
       0 <= tmp <= sec_size s /\
       cur_name st' = Some (sec_buffer s + tmp) /\
       (tmp < sec_size s ->
        exists str,
          cstring m (sec_buffer s + tmp) = Ok str /\
          sec_buffer s + tmp + Z.of_nat (length str)
          < sec_buffer s + sec_size s)).
Proof.
  intros Hrel Hin s terminated.
  destruct (check_debug_str_spec m s Hin) as [(Hok & Hterm)|(Hraise & Hnot)].
  - split; [intros Hn; exfalso; apply Hn; exact Hterm|].
    split; [split; [intros _; exact Hterm|intros _; exact Hok]|].
    intros _ cu end_ st st' Hexec.
    destruct (exec_name_strp m cu end_ s st st' Hexec) as (tmp & Htmp & Hname).
    exists tmp. split; [exact Htmp|]. split; [exact Hname|].
    intros Hlt. apply cstring_in_section; [exact Hin|tauto|lia].
  - split.
    + intros _. unfold index_file. rewrite Hrel. cbn [mbind result_bind].
      fold s. rewrite Hraise. reflexivity.
    + split; [|intros Ht; contradiction].
      split; [intros Hok; rewrite Hok in Hraise; discriminate|].
      intros Ht. contradiction.
Qed.

Lemma debug_str_null_terminated_witness :
  (relocate_file unterminated_str_file = Ok (file_map unterminated_str_file) /\
   section_in_map (file_map unterminated_str_file)
     (debug_sections unterminated_str_file DEBUG_STR)) /\
  index_file 10 empty_index 0 unterminated_str_file
  = Raise (DwarfFormatError DEBUG_STR_NOT_TERMINATED).
Proof.
  assert (Hrel : relocate_file unterminated_str_file
                 = Ok (file_map unterminated_str_file)) by reflexivity.
  assert (Hin : section_in_map (file_map unterminated_str_file)
                  (debug_sections unterminated_str_file DEBUG_STR))
    by (repeat split; cbn; lia).
  split; [split; assumption|].
  apply (debug_str_null_terminated 10 empty_index 0 unterminated_str_file
           (file_map unterminated_str_file) Hrel Hin).
  intros [_ Hlast]. vm_compute in Hlast. discriminate.
Defined.

Example index_variable_foo :
  exists idx,
    index_file 10 empty_index 0 variable_foo_file = Ok idx /\
    DwarfIndex_find (die_hash idx) name_foo DW_TAG_variable
    = Ok {| e_name := name_foo; e_tag := DW_TAG_variable; e_file := 0;
            e_cu := 0; e_ptr := 27 |} /\
    DwarfIndex_find (die_hash idx) name_foo DW_TAG_typedef
    = Raise (ValueError DIE_NOT_FOUND).
Proof.
  eexists. split; [vm_compute; reflexivity|].
  split; vm_compute; reflexivity.
Qed.

(** ** The DIE loop need not end *)

Lemma self_sibling_turn (self : DwarfIndex) :
  index_die self (file_map self_sibling_file) 0 0
    (debug_sections self_sibling_file DEBUG_STR) self_sibling_cu 21 19 0
  = Ok (self, LoopContinue 19 0).
Proof. vm_compute. reflexivity. Qed.

Lemma self_sibling_loop (fuel : nat) :
  forall self : DwarfIndex,
    index_cu_loop fuel self (file_map self_sibling_file) 0 0
      (debug_sections self_sibling_file DEBUG_STR) self_sibling_cu 21 19 0
    = OutOfFuel.
Proof.
  induction fuel as [|fuel IH]; intros self; [reflexivity|].
  cbn [index_cu_loop]. rewrite self_sibling_turn. cbn [mbind result_bind].
  apply IH.
Qed.

(** C4 (the code at a failing input): the unit of [self_sibling_file] is
    read without error; its only DIE has children and a [DW_AT_sibling]
    that passes the bounds check and points at the DIE itself, so a turn
    of the loop of [index_cu] ends in the state it started from, and
    [index_cu], hence the indexing of the file, returns for no amount of
    fuel. *)
Theorem index_cu_self_sibling_never_returns :
  relocate_file self_sibling_file = Ok (file_map self_sibling_file) /\
  check_debug_str (file_map self_sibling_file)
    (debug_sections self_sibling_file DEBUG_STR) = Ok tt /\
  read_cus 2 empty_index (file_map self_sibling_file) self_sibling_file
  = Ok ({| die_hash := ∅; index_address_size := 8 |}, [self_sibling_cu]) /\
  (forall self,
     index_die self (file_map self_sibling_file) 0 0
       (debug_sections self_sibling_file DEBUG_STR) self_sibling_cu 21 19 0
     = Ok (self, LoopContinue 19 0)) /\
  (forall fuel self,
     index_cu fuel self (file_addr self_sibling_file)
       (file_map self_sibling_file) 0 0
       (debug_sections self_sibling_file DEBUG_STR) self_sibling_cu
     = OutOfFuel) /\
  (forall fuel, index_file fuel empty_index 0 self_sibling_file = OutOfFuel).
Proof.
  split; [reflexivity|]. split; [reflexivity|].
  split; [vm_compute; reflexivity|].
  split; [exact self_sibling_turn|].
  split.
  - intros fuel self. unfold index_cu.
    replace (ptr_add _ _ _) with 21 by (vm_compute; reflexivity).
    apply self_sibling_loop.
  - intros [|[|fuel]]; [reflexivity|reflexivity|].
    unfold index_file.
    change (relocate_file self_sibling_file)
      with (Ok (A := list byte) (file_map self_sibling_file)).
    cbn [mbind result_bind].
    change (check_debug_str (file_map self_sibling_file)
              (debug_sections self_sibling_file DEBUG_STR)) with (Ok tt).
    cbn [mbind result_bind].
    assert (Hcus : read_cus (S (S fuel)) empty_index
                     (file_map self_sibling_file) self_sibling_file
                   = Ok ({| die_hash := ∅; index_address_size := 8 |},
                         [self_sibling_cu]))
      by (vm_compute; reflexivity).
    rewrite Hcus. cbn [mbind result_bind index_cus].
    unfold index_cu.
    replace (ptr_add _ _ _) with 21 by (vm_compute; reflexivity).
    rewrite self_sibling_loop. reflexivity.
Qed.

(** ** A unit whose [address_size] is 0 *)

(** C2 (the code at a failing input): with [address_size] 0 the compiler
    emits the literal 0 for a [DW_FORM_addr] skip, which the interpreter
    takes for the terminator.  In [zero_address_size_file] the child of
    the unit DIE is at depth 1, its name is extracted, the filtered tag of
    its abbreviation is [DW_TAG_structure_type], and it is not inserted.
    In [zero_address_size_declaration_file] the child is a declaration,
    the filtered tag of its abbreviation is 0, and it is inserted, under
    the tag 247. *)
Theorem zero_address_size_breaks_indexing_rule :
  (exists self cu decl1 decl2 name,
     read_cus 10 empty_index (file_map zero_address_size_file)
       zero_address_size_file = Ok (self, [cu]) /\
     abbrev_decls cu = [decl1; decl2] /\
     cmds decl2 = [ATTRIB_NAME_STRP; 0; 0; DW_TAG_structure_type; 0] /\
     exec_cmds (file_map zero_address_size_file) cu (cu_ptr cu + 19)
       (debug_sections zero_address_size_file DEBUG_STR) (cmds decl2)
       {| cur_ptr := cu_ptr cu + 13; cur_name := None; cur_sibling := None |}
     = Ok ({| cur_ptr := cu_ptr cu + 17; cur_name := Some name;
              cur_sibling := None |}, [0; DW_TAG_structure_type; 0]) /\
     index_die self (file_map zero_address_size_file) 0 0
       (debug_sections zero_address_size_file DEBUG_STR) cu (cu_ptr cu + 19)
       (cu_ptr cu + 12) 1
     = Ok (self, LoopContinue (cu_ptr cu + 17) 2) /\
     index_file 10 empty_index 0 zero_address_size_file = Ok self /\
     DwarfIndex_find (die_hash self) name_foo DW_TAG_structure_type
     = Raise (ValueError DIE_NOT_FOUND)) /\
  (exists self idx cu decl1 decl2,
     read_cus 10 empty_index (file_map zero_address_size_declaration_file)
       zero_address_size_declaration_file = Ok (self, [cu]) /\
     abbrev_decls cu = [decl1; decl2] /\
     cmds decl2 = [ATTRIB_NAME_STRP; 0; ATTRIB_LEB128; 0; 0; 0] /\
     index_file 10 empty_index 0 zero_address_size_declaration_file = Ok idx /\
     DwarfIndex_find (die_hash idx) name_foo 247
     = Ok {| e_name := name_foo; e_tag := 247; e_file := 0; e_cu := 0;
             e_ptr := 31 |}).
Proof.
  split.
  - do 5 eexists. split; [vm_compute; reflexivity|].
    split; [reflexivity|]. split; [reflexivity|].
    split; [vm_compute; reflexivity|].
    split; [vm_compute; reflexivity|].
    split; [vm_compute; reflexivity|].
    vm_compute; reflexivity.
  - do 5 eexists. split; [vm_compute; reflexivity|].
    split; [reflexivity|]. split; [reflexivity|].
    split; [vm_compute; reflexivity|].
    vm_compute; reflexivity.
Qed.


(** ** The indexing rule when no skip is empty *)

Lemma read_attribs_compile (cu : compilation_unit) (m : list byte) (end_ : Z)
    (fuel : nat) :
  forall (ptr tag : Z) (cmds : list Z) (p tag' : Z) (cmds' : list Z),
    read_attribs fuel m ptr end_ cu tag cmds = Ok (p, tag', cmds') ->
    exists specs,
      attr_specs fuel m ptr end_ = Ok (specs, p) /\
      compile_attrs cu specs tag cmds = Ok (tag', cmds').
Proof.
  induction fuel as [|fuel IH]; intros ptr tag cmds p tag' cmds' H;
    [discriminate|].
  cbn [read_attribs] in H. cbn [attr_specs].
  apply bind_Ok in H as ([name p1] & E1 & H). rewrite E1. cbn [mbind result_bind].
  apply bind_Ok in H as ([form p2] & E2 & H). rewrite E2. cbn [mbind result_bind].
  destruct ((name =? 0) && (form =? 0)).
  - inversion H; subst. exists []. auto.
  - assert (Hstep : exists tag1 cmds1,
              compile_attr cu name form tag cmds = Ok (tag1, cmds1) /\
              read_attribs fuel m p2 end_ cu tag1 cmds1 = Ok (p, tag', cmds')).
    { unfold compile_attr.
      destruct (attr_special name form tag) as [[cmd|] tag1]; [eauto|].
      destruct (form_cmd cu form); try discriminate; eauto. }
    destruct Hstep as (tag1 & cmds1 & Hc & Hrest).
    destruct (IH _ _ _ _ _ _ Hrest) as (specs & Hspecs & Hcomp).
    exists ((name, form) :: specs). rewrite Hspecs. cbn [mbind result_bind].
    split; [reflexivity|]. cbn [compile_attrs]. rewrite Hc. exact Hcomp.
Qed.

Lemma commands_nonzero_app (body : list Z) (c : Z) :
  commands_nonzero body -> 0 < c < UINT8_MOD -> commands_nonzero (body ++ [c]).
Proof. intros Hb Hc. apply Forall_app. split; [exact Hb|]. now constructor. Qed.

Lemma emit_skip_nonzero (body : list Z) (n : Z) :
  commands_nonzero body -> 0 < n < UINT8_MOD -> commands_nonzero (emit_skip body n).
Proof.
  intros Hb Hn. unfold emit_skip.
  destruct (last_cmd body) as [prev|] eqn:Elast;
    [|now apply commands_nonzero_app].
  destruct (last_cmd_inv body prev Elast) as [pre ->].
  apply Forall_app in Hb as [Hpre Hprev].
  inversion Hprev as [|? ? Hp _]; subst.
  unfold ATTRIB_MIN_CMD, ATTRIB_BLOCK1, UINT8_MOD in *.
  destruct (prev <? 243) eqn:E1.
  - apply Z.ltb_lt in E1. destruct (prev + n <? 243) eqn:E2.
    + apply Z.ltb_lt in E2. rewrite set_last_cmd_app.
      apply commands_nonzero_app; [exact Hpre|].
      rewrite Z.mod_small by lia. unfold UINT8_MOD. lia.
    + apply Z.ltb_ge in E2. rewrite set_last_cmd_app. unfold append_cmd.
      apply commands_nonzero_app.
      * apply commands_nonzero_app; [exact Hpre|unfold UINT8_MOD; lia].
      * replace (prev + n - 243 + 1) with (prev + n - 242) by lia.
        assert (1 <= prev + n - 242 < 256) by lia.
        rewrite Z.mod_small by lia. unfold UINT8_MOD. lia.
  - apply commands_nonzero_app; [|unfold UINT8_MOD; lia].
    apply Forall_app. split; [exact Hpre|exact Hprev].
Qed.

Lemma form_skip_positive (cu : compilation_unit) (form n : Z) :
  0 < address_size cu < UINT8_MOD -> form_cmd cu form = FormSkip n ->
  0 < n < UINT8_MOD.
Proof.
  intros Ha Ef. unfold form_cmd in Ef. unfold UINT8_MOD in *.
  repeat match type of Ef with
         | (if ?c then _ else _) = _ => destruct c
         end; inversion Ef; subst; try lia.
  destruct (is_64_bit cu); lia.
Qed.

Lemma form_append_positive (cu : compilation_unit) (form c : Z) :
  form_cmd cu form = FormAppend c -> 0 < c < UINT8_MOD.
Proof.
  intros Ef. unfold form_cmd in Ef. unfold UINT8_MOD.
  repeat match type of Ef with
         | (if ?c then _ else _) = _ => destruct c
         end; inversion Ef; subst; vm_compute; split; reflexivity.
Qed.

Lemma sibling_cmd_positive (form c : Z) :
  sibling_cmd form = Some c -> 0 < c < UINT8_MOD.
Proof.
  unfold sibling_cmd, UINT8_MOD. intros E.
  repeat match type of E with
         | (if ?c then _ else _) = _ => destruct c
         end; inversion E; subst; vm_compute; split; reflexivity.
Qed.

Lemma name_cmd_positive (form c : Z) :
  name_cmd form = Some c -> 0 < c < UINT8_MOD.
Proof.
  unfold name_cmd, UINT8_MOD. intros E.
  repeat match type of E with
         | (if ?c then _ else _) = _ => destruct c
         end; inversion E; subst; vm_compute; split; reflexivity.
Qed.

(** One pair: the commands stay non-zero, and the tag is kept or, for a
    [DW_AT_declaration] on a tag other than [DW_TAG_variable], cleared. *)
Lemma compile_attr_spec (cu : compilation_unit) (name form tag tag' : Z)
    (body body' : list Z) :
  0 < address_size cu < UINT8_MOD ->
  compile_attr cu name form tag body = Ok (tag', body') ->
  (commands_nonzero body -> commands_nonzero body') /\
  (tag' = tag \/ tag' = 0) /\
  (name = DW_AT_declaration -> tag <> DW_TAG_variable -> tag' = 0).
Proof.
  intros Ha H. unfold compile_attr, attr_special in H.
  destruct (name =? DW_AT_sibling) eqn:Es.
  - apply Z.eqb_eq in Es. subst name.
    assert (Hbody : commands_nonzero body -> commands_nonzero body' /\ tag' = tag).
    { intros Hb. destruct (sibling_cmd form) as [c|] eqn:Ec.
      - inversion H; subst. split; [|reflexivity].
        apply commands_nonzero_app; [exact Hb|].
        now apply sibling_cmd_positive in Ec.
      - destruct (form_cmd cu form) as [n|c| |] eqn:Ef; inversion H; subst;
          split; try reflexivity.
        + apply emit_skip_nonzero; [exact Hb|eapply form_skip_positive; eauto].
        + apply commands_nonzero_app; [exact Hb|eapply form_append_positive; eauto].
        + exact Hb. }
    assert (Htag : tag' = tag).
    { destruct (sibling_cmd form); [now inversion H|].
      destruct (form_cmd cu form); now inversion H. }
    split; [intros Hb; now apply Hbody|]. split; [now left|discriminate].
  - destruct ((name =? DW_AT_name) && negb (tag =? 0)) eqn:En.
    + apply andb_true_iff in En as [En _]. apply Z.eqb_eq in En. subst name.
      assert (Htag : tag' = tag).
      { destruct (name_cmd form); [now inversion H|].
        destruct (form_cmd cu form); now inversion H. }
      split; [|split; [now left|discriminate]].
      intros Hb. destruct (name_cmd form) as [c|] eqn:Ec.
      * inversion H; subst.
        apply commands_nonzero_app; [exact Hb|].
        now apply name_cmd_positive in Ec.
      * destruct (form_cmd cu form) as [n|c| |] eqn:Ef; inversion H; subst.
        -- apply emit_skip_nonzero; [exact Hb|eapply form_skip_positive; eauto].
        -- apply commands_nonzero_app; [exact Hb|eapply form_append_positive; eauto].
        -- exact Hb.
    + assert (Hbody : commands_nonzero body -> commands_nonzero body').
      { intros Hb.
        destruct ((name =? DW_AT_declaration) && negb (tag =? DW_TAG_variable));
          destruct (form_cmd cu form) as [n|c| |] eqn:Ef; inversion H; subst;
          try exact Hb;
          try (apply emit_skip_nonzero; [exact Hb|eapply form_skip_positive; eauto]);
          apply commands_nonzero_app; try exact Hb;
          eapply form_append_positive; eauto. }
      split; [exact Hbody|].
      destruct ((name =? DW_AT_declaration) && negb (tag =? DW_TAG_variable))
        eqn:Ed.
      * assert (tag' = 0) by (destruct (form_cmd cu form); now inversion H).
        split; [now right|auto].
      * assert (tag' = tag) by (destruct (form_cmd cu form); now inversion H).
        split; [now left|]. intros Hname Hvar. exfalso.
        apply andb_false_iff in Ed as [Ed|Ed].
        -- apply Z.eqb_neq in Ed. contradiction.
        -- apply negb_false_iff, Z.eqb_eq in Ed. contradiction.
Qed.

Lemma compile_attrs_spec (cu : compilation_unit) (specs : list (Z * Z)) :
  0 < address_size cu < UINT8_MOD ->
  forall (tag tag' : Z) (body body' : list Z),
    compile_attrs cu specs tag body = Ok (tag', body') ->
    (commands_nonzero body -> commands_nonzero body') /\
    (tag' <> 0 ->
     tag' = tag /\ (tag = DW_TAG_variable \/ no_declaration specs)).
Proof.
  intros Ha. induction specs as [|[name form] specs IH];
    intros tag tag' body body' H.
  - inversion H; subst. split; [auto|]. intros _. split; [reflexivity|].
    right. constructor.
  - cbn [compile_attrs] in H.
    apply bind_Ok in H as ([tag1 body1] & Hstep & H).
    destruct (compile_attr_spec cu name form tag tag1 body body1 Ha Hstep)
      as (Hb1 & Htag1 & Hdecl).
    destruct (IH _ _ _ _ H) as (Hb2 & Htag2).
    split; [auto|]. intros Hnz. destruct (Htag2 Hnz) as [Heq Hrest].
    subst tag'. destruct Htag1 as [Heq|Heq]; subst tag1; [|contradiction].
    split; [reflexivity|].
    destruct (Z.eq_dec tag DW_TAG_variable) as [Hv|Hv]; [now left|right].
    destruct Hrest as [Hv'|Hno]; [contradiction|].
    constructor; [|exact Hno]. cbn [fst]. intros Hname.
    apply Hnz. now apply Hdecl.
Qed.

(** The interpreter stops at the terminator the compiler wrote. *)
Lemma exec_cmds_terminator (m : list byte) (cu : compilation_unit) (end_ : Z)
    (str : section) (rest : list Z) (body : list Z) :
  commands_nonzero body ->
  forall (st st' : die_cursor) (cmdp : list Z),
    exec_cmds m cu end_ str (body ++ 0 :: rest) st = Ok (st', cmdp) ->
    cmdp = rest.
Proof.
  intros Hbody. induction Hbody as [|c body Hc _ IH]; intros st st' cmdp H.
  - cbn in H. now inversion H.
  - cbn [app exec_cmds] in H.
    replace (c =? 0) with false in H by (symmetry; apply Z.eqb_neq; lia).
    apply bind_Ok in H as (st1 & _ & H). now apply IH in H.
Qed.

Lemma indexed_tag_range (tag : Z) : indexed_tag tag = true -> 0 < tag < UINT8_MOD.
Proof.
  unfold indexed_tag. intros H.
  repeat (apply orb_true_iff in H as [H|H]);
    apply Z.eqb_eq in H; subst tag; vm_compute; split; reflexivity.
Qed.

(** What [read_abbrev_decl] stores is compiled from the declaration it
    read. *)
Lemma read_abbrev_decl_compiled (fuel : nat) (m : list byte) (ptr end_ : Z)
    (cu cu' : compilation_unit) (ptr' : Z) :
  read_abbrev_decl fuel m ptr end_ cu = Ok (1, ptr', cu') ->
  exists p1 p2 p3 dtag children specs body ftag decl,
    read_uleb128 m p1 end_ = Ok (dtag, p2) /\
    read_u8 m p2 end_ = Ok (children, p3) /\
    attr_specs fuel m p3 end_ = Ok (specs, ptr') /\
    compiled_from cu dtag children specs body ftag decl /\
    cu' = set_abbrev_decls cu (abbrev_decls cu ++ [decl]).
Proof.
  unfold read_abbrev_decl. intros H.
  apply bind_Ok in H as ([code p1] & _ & H).
  destruct (code =? 0); [discriminate|].
  destruct (negb (code =? num_abbrev_decls cu + 1)); [discriminate|].
  apply bind_Ok in H as ([dtag p2] & Etag & H).
  apply bind_Ok in H as ([children p3] & Ech & H).
  apply bind_Ok in H as ([[p4 ftag] body] & Eattr & H).
  inversion H; subst.
  destruct (read_attribs_compile cu m end_ fuel _ _ _ _ _ _ Eattr)
    as (specs & Hspecs & Hcomp).
  exists p1, p2, p3, dtag, children, specs, body, ftag.
  eexists. split; [exact Etag|]. split; [exact Ech|]. split; [exact Hspecs|].
  split; [|reflexivity]. split; [exact Hcomp|reflexivity].
Qed.

(** The indexing rule for a unit whose [address_size] is not 0: the
    filtered tag of a compiled abbreviation is non-zero only for the
    seven indexed tags without a [DW_AT_declaration] pair (or for
    [DW_TAG_variable]); and a turn of the loop on a DIE of that
    abbreviation calls [add_die_hash_entry] exactly when the depth is 1, a
    name was recorded and the filtered tag is not 0. *)
Theorem indexing_rule_nonzero_address_size (self : DwarfIndex) (m : list byte)
    (file_idx cu_idx : nat) (str : section) (cu : compilation_unit)
    (end_ ptr depth code p1 : Z) (decl : abbrev_decl)
    (dtag children : Z) (specs : list (Z * Z)) (body : list Z) (ftag : Z) :
  0 < address_size cu < UINT8_MOD ->
  read_uleb128 m ptr end_ = Ok (code, p1) ->
  1 <= code <= num_abbrev_decls cu ->
  abbrev_decls cu !! Z.to_nat (code - 1) = Some decl ->
  compiled_from cu dtag children specs body ftag decl ->
  (ftag <> 0 ->
   indexed_tag dtag = true /\ ftag = dtag /\
   (dtag = DW_TAG_variable \/ no_declaration specs)) /\
  (forall self' ctl,
     index_die self m file_idx cu_idx str cu end_ ptr depth = Ok (self', ctl) ->
     exists st,
       exec_cmds m cu end_ str (cmds decl)
         {| cur_ptr := p1; cur_name := None; cur_sibling := None |}
       = Ok (st, [ftag; children]) /\
       ((depth = 1 /\ ftag <> 0 /\
         exists name s h,
           cur_name st = Some name /\ cstring m name = Ok s /\
           add_die_hash_entry (die_hash self)
             {| e_name := s; e_tag := ftag; e_file := file_idx;
                e_cu := cu_idx; e_ptr := ptr |} = Ok h /\
           die_hash self' = h) \/
        (~ (depth = 1 /\ ftag <> 0 /\ cur_name st <> None) /\ self' = self))).
Proof.
  intros Ha Ecode Hcode Hdecl [Hcomp Hcmds].
  destruct (compile_attrs_spec cu specs Ha _ _ _ _ Hcomp) as [Hbody Htag].
  specialize (Hbody (List.Forall_nil _)).
  assert (Hftag : ftag <> 0 ->
            indexed_tag dtag = true /\ ftag = dtag /\
            (dtag = DW_TAG_variable \/ no_declaration specs)).
  { intros Hnz. destruct (Htag Hnz) as [Heq Hrest].
    destruct (indexed_tag dtag); [|contradiction]. subst ftag. auto. }
  assert (Hmod : ftag mod UINT8_MOD = ftag).
  { destruct (Z.eq_dec ftag 0) as [->|Hnz]; [reflexivity|].
    destruct (Hftag Hnz) as (Hidx & -> & _).
    apply indexed_tag_range in Hidx. apply Z.mod_small. lia. }
  split; [exact Hftag|].
  intros self' ctl H. unfold index_die in H.
  rewrite Ecode in H. cbn [mbind result_bind] in H.
  replace (code =? 0) with false in H by (symmetry; apply Z.eqb_neq; lia).
  replace (code <? 1) with false in H by (symmetry; apply Z.ltb_ge; lia).
  rewrite gtb_false_of_le in H by lia. cbn [orb] in H.
  rewrite Hdecl in H.
  apply bind_Ok in H as ([st cmdp] & Hexec & H).
  pose proof Hexec as Hcmdp. rewrite Hcmds, Hmod in Hcmdp.
  apply (exec_cmds_terminator m cu end_ str [ftag; children] body Hbody)
    in Hcmdp.
  subst cmdp. cbn [deref_cmdp tail mbind result_bind] in H.
  apply bind_Ok in H as (self1 & Hentry & H).
  assert (Hself : self' = self1).
  { destruct (negb (children =? 0)).
    - destruct (cur_sibling st); now inversion H.
    - destruct (depth =? 0); now inversion H. }
  subst self1. exists st. split; [exact Hexec|].
  unfold index_entry in Hentry.
  destruct (cur_name st) as [name|] eqn:Ename.
  - destruct (depth =? 1) eqn:Ed; destruct (ftag =? 0) eqn:Et;
      cbn [negb andb] in Hentry.
    + right. inversion Hentry; subst. apply Z.eqb_eq in Et. split; [|reflexivity].
      intros (_ & Hnz & _). contradiction.
    + left. apply Z.eqb_eq in Ed. apply Z.eqb_neq in Et.
      split; [exact Ed|]. split; [exact Et|].
      apply bind_Ok in Hentry as (s & Hs & Hentry).
      apply bind_Ok in Hentry as (h & Hh & Hentry).
      inversion Hentry; subst. exists name, s, h. auto.
    + right. inversion Hentry; subst. apply Z.eqb_neq in Ed. split; [|reflexivity].
      intros (Hd & _). contradiction.
    + right. inversion Hentry; subst. apply Z.eqb_neq in Ed. split; [|reflexivity].
      intros (Hd & _). contradiction.
  - right. inversion Hentry; subst. split; [|reflexivity].
    intros (_ & _ & Hn). contradiction.
Qed.

Example index_die_variable_foo :
  exists self cu decl1 decl2 body specs self',
    read_cus 10 empty_index (file_map variable_foo_file) variable_foo_file
    = Ok (self, [cu]) /\
    abbrev_decls cu = [decl1; decl2] /\
    compiled_from cu DW_TAG_variable 0 specs body DW_TAG_variable decl2 /\
    index_die self (file_map variable_foo_file) 0 0
      (debug_sections variable_foo_file DEBUG_STR) cu (cu_ptr cu + 22)
      (cu_ptr cu + 12) 1 = Ok (self', LoopContinue (cu_ptr cu + 21) 1) /\
    DwarfIndex_find (die_hash self') name_foo DW_TAG_variable
    = Ok {| e_name := name_foo; e_tag := DW_TAG_variable; e_file := 0;
            e_cu := 0; e_ptr := cu_ptr cu + 12 |}.
Proof.
  do 4 eexists. exists [ATTRIB_NAME_STRP; 4].
  exists [(DW_AT_name, DW_FORM_strp); (0x49, DW_FORM_ref4)]. eexists.
  split; [vm_compute; reflexivity|].
  split; [reflexivity|].
  split; [split; vm_compute; reflexivity|].
  split; [vm_compute; reflexivity|].
  vm_compute; reflexivity.
Qed.


(* ===================================================================== *)
(** * Part III: further properties of the code *)
(* ===================================================================== *)

(** ** The bounded readers *)

Lemma le_decode_range (bs : list byte) :
  0 <= le_decode bs < 2 ^ (8 * Z.of_nat (length bs)).
Proof.
  induction bs as [|b bs IH].
  - simpl. lia.
  - cbn [le_decode length]. pose proof (u8_range b).
    replace (8 * Z.of_nat (S (length bs))) with (8 + 8 * Z.of_nat (length bs)) by lia.
    rewrite Z.pow_add_r by lia. change (2 ^ 8) with 256. lia.
Qed.

Lemma load_between (m : list byte) (p : Z) (n : nat) :
  0 <= p -> p + Z.of_nat n <= Z.of_nat (length m) ->
  load m p n = Ok (le_decode (bytes_between m p (p + Z.of_nat n))) /\
  length (bytes_between m p (p + Z.of_nat n)) = n.
Proof.
  intros Hp Hn. unfold load, bytes_between.
  replace (p <? 0) with false by (symmetry; apply Z.ltb_ge; lia).
  replace (Z.of_nat (length m) <? p + Z.of_nat n) with false
    by (symmetry; apply Z.ltb_ge; lia).
  replace (Z.to_nat (p + Z.of_nat n - p)) with n by lia.
  split; [reflexivity|].
  unfold bytes_from. rewrite length_take, length_drop. lia.
Qed.

(** X1: between [0] and the end of the mapping, [read_uN] raises
    [EOFError] exactly when fewer than [N/8] bytes are left before [end_]
    (or the pointer is past [end_]); otherwise it returns the little-endian
    value of the next [N/8] bytes, which is below [2^N], and advances the
    pointer by [N/8].  It never reads outside the mapping. *)
Theorem read_u_within_bounds (n : nat) (m : list byte) (ptr end_ : Z) :
  0 <= ptr -> end_ <= Z.of_nat (length m) ->
  (ptr <= end_ /\ Z.of_nat n <= end_ - ptr ->
   exists v,
     read_u n m ptr end_ = Ok (v, ptr + Z.of_nat n) /\
     v = le_decode (bytes_between m ptr (ptr + Z.of_nat n)) /\
     0 <= v < 2 ^ (8 * Z.of_nat n)) /\
  (~ (ptr <= end_ /\ Z.of_nat n <= end_ - ptr) ->
   read_u n m ptr end_ = Raise EOFError).
Proof.
  intros Hp He. unfold read_u. split.
  - intros Hin. apply in_bounds_true in Hin as Hb. rewrite Hb. cbn [negb].
    destruct (load_between m ptr n) as [-> Hlen]; [lia|lia|].
    eexists. split; [reflexivity|]. split; [reflexivity|].
    pose proof (le_decode_range (bytes_between m ptr (ptr + Z.of_nat n))) as Hr.
    now rewrite Hlen in Hr.
  - intros Hout. destruct (in_bounds ptr end_ (Z.of_nat n)) eqn:E; [|reflexivity].
    apply in_bounds_true in E. tauto.
Qed.

Lemma read_u_within_bounds_witness :
  read_u 2 [x34; x12; xff] 0 2 = Ok (0x1234, 2) /\
  read_u 4 [x34; x12; xff] 0 3 = Raise EOFError.
Proof.
  destruct (read_u_within_bounds 2 [x34; x12; xff] 0 2) as [Hok _];
    [lia|simpl; lia|].
  destruct (read_u_within_bounds 4 [x34; x12; xff] 0 3) as [_ Heof];
    [lia|simpl; lia|].
  split.
  - destruct Hok as (v & -> & -> & _); [simpl; lia|]. reflexivity.
  - apply Heof. simpl. lia.
Defined.

(** The loop of [read_uleb128] from its [k]-th byte on. *)
Lemma read_uleb128_loop_bound (j : nat) :
  forall (bs : list byte) (ptr end_ value v p : Z),
    (j <= 9)%nat ->
    0 <= value < 2 ^ (63 - 7 * Z.of_nat j) ->
    read_uleb128_loop bs ptr end_ (63 - 7 * Z.of_nat j) value = Ok (v, p) ->
    0 <= v < UINT64_MOD /\ ptr < p <= ptr + Z.of_nat j + 1.
Proof.
  induction j as [|j IH]; intros bs ptr end_ value v p Hj Hval H.
  - change (63 - 7 * Z.of_nat 0) with 63 in *.
    destruct bs as [|b bs]; simpl in H.
    { destruct (ptr >=? end_); discriminate. }
    destruct (ptr >=? end_); [discriminate|].
    pose proof (u8_range b) as Hb.
    destruct (u8 b >? 1) eqn:Egt; [discriminate|].
    assert (Hle : u8 b <= 1)
      by (rewrite Z.gtb_ltb in Egt; apply Z.ltb_ge in Egt; lia).
    assert (Hclr : Z.land (u8 b) 0x80 = 0) by (apply high_bit_clear; lia).
    simpl in H. rewrite Hclr in H. simpl in H.
    assert (Hlow : Z.land (u8 b) 0x7f = u8 b).
    { rewrite low7_spec. apply Z.mod_small. lia. }
    rewrite Hlow in H.
    assert (Hlor : Z.lor value (Z.shiftl (u8 b) 63 mod UINT64_MOD)
                   = value + 2 ^ 63 * u8 b).
    { rewrite Z.mod_small.
      - rewrite lor_shiftl_add by lia. lia.
      - rewrite Z.shiftl_mul_pow2 by lia. unfold UINT64_MOD. lia. }
    rewrite Hlor in H. inversion H; subst. unfold UINT64_MOD. lia.
  - set (shift := 63 - 7 * Z.of_nat (S j)) in *.
    assert (Hshift : 0 <= shift <= 56) by (subst shift; lia).
    assert (Hnext : shift + 7 = 63 - 7 * Z.of_nat j) by (subst shift; lia).
    destruct bs as [|b bs]; simpl in H.
    { destruct (ptr >=? end_); discriminate. }
    destruct (ptr >=? end_); [discriminate|].
    replace (shift =? 63) with false in H by (symmetry; apply Z.eqb_neq; lia).
    simpl in H.
    pose proof (u8_range b) as Hb.
    assert (Hlow : 0 <= Z.land (u8 b) 0x7f < 128).
    { rewrite low7_spec. apply Z.mod_pos_bound. lia. }
    set (low := Z.land (u8 b) 0x7f) in *.
    assert (Hpow : 2 ^ (shift + 7) = 2 ^ shift * 128).
    { rewrite Z.pow_add_r by lia. reflexivity. }
    assert (Hpos : 0 < 2 ^ shift) by (apply Z.pow_pos_nonneg; lia).
    assert (Hp63 : 2 ^ (shift + 7) <= 2 ^ 63).
    { apply Z.pow_le_mono_r; lia. }
    assert (Hlor : Z.lor value (Z.shiftl low shift mod UINT64_MOD)
                   = value + 2 ^ shift * low).
    { rewrite Z.mod_small.
      - rewrite lor_shiftl_add by lia. lia.
      - rewrite Z.shiftl_mul_pow2 by lia. unfold UINT64_MOD.
        split; [lia|]. nia. }
    fold low in H. rewrite Hlor in H.
    assert (Hnew : 0 <= value + 2 ^ shift * low < 2 ^ (shift + 7)) by nia.
    destruct (Z.land (u8 b) 0x80 =? 0).
    + inversion H; subst. unfold UINT64_MOD. lia.
    + rewrite Hnext in H. apply IH in H; [|lia|now rewrite <- Hnext]. lia.
Qed.

Lemma read_uleb128_loop_no_fault (bs : list byte) :
  forall (ptr end_ shift value : Z),
    end_ - ptr <= Z.of_nat (length bs) ->
    read_uleb128_loop bs ptr end_ shift value <> Fault.
Proof.
  induction bs as [|b bs IH]; intros ptr end_ shift value Hlen; simpl in *.
  - rewrite geb_true_of_le by lia. discriminate.
  - destruct (ptr >=? end_) eqn:E; [discriminate|].
    rewrite Z.geb_leb in E. apply Z.leb_gt in E.
    destruct ((shift =? 63) && (u8 b >? 1)); [discriminate|].
    destruct (Z.land (u8 b) 128 =? 0); [discriminate|].
    apply IH. lia.
Qed.

Lemma read_uleb128_value_bound (m : list byte) (ptr end_ v p : Z) :
  read_uleb128 m ptr end_ = Ok (v, p) ->
  0 <= v < UINT64_MOD /\ ptr < p <= end_ /\ p - ptr <= 10.
Proof.
  intros H. pose proof (read_uleb128_advance _ _ _ _ _ H) as Hadv.
  unfold read_uleb128 in H. destruct (ptr <? 0).
  { destruct (ptr >=? end_); discriminate. }
  change 0 with (63 - 7 * Z.of_nat 9) in H at 1.
  apply read_uleb128_loop_bound in H; [|lia|simpl; lia]. lia.
Qed.

Lemma read_uleb128_no_fault (m : list byte) (ptr end_ : Z) :
  0 <= ptr -> end_ <= Z.of_nat (length m) ->
  read_uleb128 m ptr end_ <> Fault.
Proof.
  intros Hp He. unfold read_uleb128.
  replace (ptr <? 0) with false by (symmetry; apply Z.ltb_ge; lia).
  apply read_uleb128_loop_no_fault. unfold bytes_from. rewrite length_drop. lia.
Qed.

(** X2: whatever the bytes are, a successful [read_uleb128] has consumed
    between one and ten bytes, all of them before [end_], and its value is
    below [2^64]; and with [end_] inside the mapping it never reads outside
    the mapping. *)
Theorem read_uleb128_at_most_ten_bytes (m : list byte) (ptr end_ : Z) :
  (forall v p,
     read_uleb128 m ptr end_ = Ok (v, p) ->
     0 <= v < UINT64_MOD /\ ptr < p <= end_ /\ p - ptr <= 10) /\
  (0 <= ptr -> end_ <= Z.of_nat (length m) ->
   read_uleb128 m ptr end_ <> Fault).
Proof.
  split.
  - intros v p. apply read_uleb128_value_bound.
  - apply read_uleb128_no_fault.
Qed.

Lemma read_uleb128_at_most_ten_bytes_witness :
  (0 <= 624485 < UINT64_MOD /\ 0 < 3 <= 3 /\ 3 - 0 <= 10) /\
  read_uleb128 [xe5; x8e; x26] 0 3 <> Fault.
Proof.
  destruct (read_uleb128_at_most_ten_bytes [xe5; x8e; x26] 0 3) as [Hok Hnf].
  split.
  - apply Hok. reflexivity.
  - apply Hnf; simpl; lia.
Defined.

(** X3: on a 64-bit [size_t] the [tmp > SIZE_MAX] branch of the
    [..._into_size_t] readers is never taken: each of them behaves exactly
    as the reader it wraps. *)
Theorem into_size_t_check_is_dead (m : list byte) (ptr end_ : Z) :
  read_uleb128_into_size_t m ptr end_ = read_uleb128 m ptr end_ /\
  read_u_into_size_t 1 m ptr end_ = read_u8 m ptr end_ /\
  read_u_into_size_t 2 m ptr end_ = read_u16 m ptr end_ /\
  read_u_into_size_t 4 m ptr end_ = read_u32 m ptr end_ /\
  read_u_into_size_t 8 m ptr end_ = read_u64 m ptr end_.
Proof.
  assert (Hu : forall n : nat, (n <= 8)%nat ->
            read_u_into_size_t n m ptr end_ = read_u n m ptr end_).
  { intros n Hn. unfold read_u_into_size_t.
    destruct (read_u n m ptr end_) as [[v p]| | |] eqn:E; try reflexivity.
    cbn [mbind result_bind]. apply read_u_inv in E as (_ & Hload & _).
    unfold load in Hload.
    destruct ((ptr <? 0) || (Z.of_nat (length m) <? ptr + Z.of_nat n));
      [discriminate|].
    inversion Hload as [Hv].
    pose proof (le_decode_range (take n (bytes_from m ptr))) as Hr.
    rewrite length_take in Hr.
    assert (Hpow : 2 ^ (8 * Z.of_nat (n `min` length (bytes_from m ptr))) <= 2 ^ 64)
      by (apply Z.pow_le_mono_r; lia).
    rewrite gtb_false_of_le; [reflexivity|]. unfold SIZE_MAX. lia. }
  split.
  - unfold read_uleb128_into_size_t.
    destruct (read_uleb128 m ptr end_) as [[v p]| | |] eqn:E; try reflexivity.
    cbn [mbind result_bind]. apply read_uleb128_value_bound in E as (Hv & _).
    rewrite gtb_false_of_le; [reflexivity|].
    unfold SIZE_MAX, UINT64_MOD in *. lia.
  - repeat split; apply Hu; lia.
Qed.

(** ** ULEB128: decoding an encoding *)

Lemma uleb128_encode_length (fuel : nat) :
  forall v, (1 <= length (uleb128_encode (S fuel) v) <= S fuel)%nat.
Proof.
  induction fuel as [|fuel IH]; intros v.
  - cbn [uleb128_encode]. destruct (v <? 128); simpl; lia.
  - change (uleb128_encode (S (S fuel)) v)
      with (if v <? 128 then [byte_of_Z v]
            else byte_of_Z (v mod 128 + 128) :: uleb128_encode (S fuel) (v / 128)).
    destruct (v <? 128); [simpl; lia|].
    specialize (IH (v / 128)). cbn [length]. lia.
Qed.

Lemma read_uleb128_loop_encode (j : nat) :
  forall (v : Z) (rest : list byte) (ptr end_ value : Z),
    (j <= 9)%nat ->
    0 <= value < 2 ^ (63 - 7 * Z.of_nat j) ->
    0 <= v < 2 ^ (1 + 7 * Z.of_nat j) ->
    ptr + Z.of_nat (length (uleb128_encode (S j) v)) <= end_ ->
    read_uleb128_loop (uleb128_encode (S j) v ++ rest) ptr end_
      (63 - 7 * Z.of_nat j) value
    = Ok (value + 2 ^ (63 - 7 * Z.of_nat j) * v,
          ptr + Z.of_nat (length (uleb128_encode (S j) v))).
Proof.
  induction j as [|j IH]; intros v rest ptr end_ value Hj Hval Hv Hend.
  - change (63 - 7 * Z.of_nat 0) with 63 in *.
    change (1 + 7 * Z.of_nat 0) with 1 in Hv. change (2 ^ 1) with 2 in Hv.
    cbn [uleb128_encode] in *.
    replace (v <? 128) with true in * by (symmetry; apply Z.ltb_lt; lia).
    cbn [length app] in *. cbn [read_uleb128_loop].
    rewrite geb_false_of_lt by lia.
    assert (Hb : u8 (byte_of_Z v) = v).
    { rewrite u8_byte_of_Z. apply Z.mod_small. lia. }
    rewrite Hb. rewrite gtb_false_of_le by lia.
    rewrite andb_false_r.
    assert (Hclr : Z.land v 0x80 = 0).
    { rewrite <- Hb. apply high_bit_clear. lia. }
    rewrite Hclr. cbn [Z.eqb].
    assert (Hlow : Z.land v 0x7f = v).
    { rewrite <- Hb at 1. rewrite low7_spec, Hb. apply Z.mod_small. lia. }
    rewrite Hlow.
    rewrite Z.mod_small.
    + rewrite lor_shiftl_add by lia. do 2 f_equal. lia.
    + rewrite Z.shiftl_mul_pow2 by lia. unfold UINT64_MOD. lia.
  - set (shift := 63 - 7 * Z.of_nat (S j)) in *.
    assert (Hshift : 0 <= shift <= 56) by (subst shift; lia).
    assert (Hnext : shift + 7 = 63 - 7 * Z.of_nat j) by (subst shift; lia).
    assert (Hpow : 2 ^ (shift + 7) = 2 ^ shift * 128).
    { rewrite Z.pow_add_r by lia. reflexivity. }
    assert (Hpos : 0 < 2 ^ shift) by (apply Z.pow_pos_nonneg; lia).
    assert (Hp63 : 2 ^ (shift + 7) <= 2 ^ 63).
    { apply Z.pow_le_mono_r; lia. }
    change (uleb128_encode (S (S j)) v)
      with (if v <? 128 then [byte_of_Z v]
            else byte_of_Z (v mod 128 + 128) :: uleb128_encode (S j) (v / 128)) in *.
    destruct (v <? 128) eqn:Esmall.
    + apply Z.ltb_lt in Esmall. cbn [length app] in *. cbn [read_uleb128_loop].
      rewrite geb_false_of_lt by lia.
      replace (shift =? 63) with false by (symmetry; apply Z.eqb_neq; lia).
      cbn [andb].
      assert (Hb : u8 (byte_of_Z v) = v).
      { rewrite u8_byte_of_Z. apply Z.mod_small. lia. }
      rewrite Hb.
      assert (Hclr : Z.land v 0x80 = 0).
      { rewrite <- Hb. apply high_bit_clear. lia. }
      rewrite Hclr. cbn [Z.eqb].
      assert (Hlow : Z.land v 0x7f = v).
      { rewrite <- Hb at 1. rewrite low7_spec, Hb. apply Z.mod_small. lia. }
      rewrite Hlow.
      rewrite Z.mod_small.
      * rewrite lor_shiftl_add by lia. do 2 f_equal. lia.
      * rewrite Z.shiftl_mul_pow2 by lia. unfold UINT64_MOD. split; [lia|]. nia.
    + apply Z.ltb_ge in Esmall. cbn [length app] in *. cbn [read_uleb128_loop].
      rewrite geb_false_of_lt by lia.
      replace (shift =? 63) with false by (symmetry; apply Z.eqb_neq; lia).
      cbn [andb].
      pose proof (Z.mod_pos_bound v 128 ltac:(lia)) as Hmod.
      assert (Hb : u8 (byte_of_Z (v mod 128 + 128)) = v mod 128 + 128).
      { rewrite u8_byte_of_Z. apply Z.mod_small. lia. }
      rewrite Hb.
      assert (Hset : Z.land (v mod 128 + 128) 0x80 <> 0).
      { rewrite <- Hb. intros Hc. apply high_bit_clear in Hc. lia. }
      replace (Z.land (v mod 128 + 128) 128 =? 0) with false
        by (symmetry; now apply Z.eqb_neq).
      assert (Hlow : Z.land (v mod 128 + 128) 0x7f = v mod 128).
      { rewrite <- Hb at 1. rewrite low7_spec, Hb.
        rewrite <- Z.add_mod_idemp_r by lia. change (128 mod 128) with 0.
        rewrite Z.add_0_r. apply Z.mod_mod. lia. }
      rewrite Hlow.
      assert (Hlor : Z.lor value (Z.shiftl (v mod 128) shift mod UINT64_MOD)
                     = value + 2 ^ shift * (v mod 128)).
      { rewrite Z.mod_small.
        - rewrite lor_shiftl_add by lia. lia.
        - rewrite Z.shiftl_mul_pow2 by lia. unfold UINT64_MOD.
          split; [lia|]. nia. }
      rewrite Hlor, Hnext.
      assert (Hdiv : 0 <= v / 128 < 2 ^ (1 + 7 * Z.of_nat j)).
      { split; [apply Z.div_pos; lia|].
        apply Z.div_lt_upper_bound; [lia|].
        replace (1 + 7 * Z.of_nat (S j)) with (7 + (1 + 7 * Z.of_nat j)) in Hv by lia.
        rewrite Z.pow_add_r in Hv by lia. change (2 ^ 7) with 128 in Hv. lia. }
      rewrite IH; [|lia| |exact Hdiv|lia].
      * rewrite <- Hnext, Hpow. do 2 f_equal; [|lia].
        pose proof (Z.div_mod v 128 ltac:(lia)) as Hdm. nia.
      * rewrite <- Hnext. nia.
Qed.

(** X4: [read_uleb128] decodes the shortest ULEB128 encoding of every
    64-bit value [v]: when the bytes at [ptr] are that encoding (whatever
    follows it) and it ends at or before [end_], the result is [v] and the
    pointer is just past the encoding, which is between one and ten bytes
    long. *)
Theorem read_uleb128_decodes_encoding (m : list byte) (ptr end_ v : Z)
    (rest : list byte) :
  0 <= v < UINT64_MOD -> 0 <= ptr ->
  bytes_from m ptr = uleb128_encode 10 v ++ rest ->
  ptr + Z.of_nat (length (uleb128_encode 10 v)) <= end_ ->
  read_uleb128 m ptr end_
  = Ok (v, ptr + Z.of_nat (length (uleb128_encode 10 v))) /\
  (1 <= length (uleb128_encode 10 v) <= 10)%nat.
Proof.
  intros Hv Hp Hbs Hend. split; [|apply uleb128_encode_length].
  unfold read_uleb128.
  replace (ptr <? 0) with false by (symmetry; apply Z.ltb_ge; lia).
  rewrite Hbs.
  pose proof (read_uleb128_loop_encode 9 v rest ptr end_ 0) as H.
  change (63 - 7 * Z.of_nat 9) with 0 in H.
  change (1 + 7 * Z.of_nat 9) with 64 in H.
  rewrite H; [|lia|simpl; lia|exact Hv|exact Hend].
  do 2 f_equal. change (2 ^ 0) with 1. lia.
Qed.

Lemma read_uleb128_decodes_encoding_witness :
  read_uleb128 (x00 :: uleb128_encode 10 (2 ^ 64 - 1) ++ [xff]) 1 11
  = Ok (2 ^ 64 - 1, 1 + Z.of_nat (length (uleb128_encode 10 (2 ^ 64 - 1)))) /\
  (1 <= length (uleb128_encode 10 (2 ^ 64 - 1)) <= 10)%nat.
Proof.
  apply (read_uleb128_decodes_encoding
           (x00 :: uleb128_encode 10 (2 ^ 64 - 1) ++ [xff]) 1 11 (2 ^ 64 - 1) [xff]).
  - unfold UINT64_MOD. lia.
  - lia.
  - reflexivity.
  - vm_compute. discriminate.
Defined.

(** ** SLEB128 *)

Lemma sign_bits_spec (k : Z) :
  0 <= k <= 63 -> sign_bits k = Z.shiftl (2 ^ (64 - k) - 1) k.
Proof.
  intros Hk. unfold sign_bits, UINT64_MOD.
  rewrite Z.lnot_eq_pred_opp, !Z.shiftl_mul_pow2 by lia.
  assert (Hpow : 2 ^ 64 = 2 ^ (64 - k) * 2 ^ k).
  { rewrite <- Z.pow_add_r by lia. f_equal. lia. }
  assert (Hk0 : 0 < 2 ^ k) by (apply Z.pow_pos_nonneg; lia).
  assert (Hk1 : 2 ^ k <= 2 ^ 63) by (apply Z.pow_le_mono_r; lia).
  assert (H64 : 2 ^ 64 = 2 * 2 ^ 63) by reflexivity.
  replace ((- (1 * 2 ^ k) - 1) mod 2 ^ 64) with (2 ^ 64 - 2 ^ k - 1).
  - rewrite Z.mod_small by lia. rewrite Hpow. ring.
  - apply Z.mod_unique with (q := -1); lia.
Qed.

Lemma bit6_clear (b : byte) : Z.land (u8 b) 0x40 = 0 <-> u8 b mod 128 < 64.
Proof. destruct b; vm_compute; split; congruence. Qed.


Lemma to_int64_small (x : Z) : 0 <= x < 2 ^ 63 -> to_int64 x = x.
Proof.
  intros H. unfold to_int64.
  replace (x <? 2 ^ 63) with true by (symmetry; apply Z.ltb_lt; lia).
  reflexivity.
Qed.

Lemma to_int64_large (x : Z) : 2 ^ 63 <= x -> to_int64 x = x - 2 ^ 64.
Proof.
  intros H. unfold to_int64, UINT64_MOD.
  replace (x <? 2 ^ 63) with false by (symmetry; apply Z.ltb_ge; lia).
  reflexivity.
Qed.

Lemma read_sleb128_loop_spec (j : nat) :
  forall (bs : list byte) (ptr end_ value value' p shift' byte : Z),
    (j <= 9)%nat ->
    0 <= value < 2 ^ (63 - 7 * Z.of_nat j) ->
    read_sleb128_loop bs ptr end_ (63 - 7 * Z.of_nat j) value
    = Ok (value', p, shift', byte) ->
    exists sv n,
      sleb128_value bs = Some (sv, n) /\
      p = ptr + n /\ 1 <= n <= Z.of_nat j + 1 /\ p <= end_ /\
      sleb128_finish value' shift' byte
      = value + 2 ^ (63 - 7 * Z.of_nat j) * sv /\
      - 2 ^ 63 <= value + 2 ^ (63 - 7 * Z.of_nat j) * sv < 2 ^ 63.
Proof.
  induction j as [|j IH]; intros bs ptr end_ value value' p shift' byte Hj Hval H.
  - change (63 - 7 * Z.of_nat 0) with 63 in *.
    destruct bs as [|b bs]; cbn [read_sleb128_loop] in H.
    { destruct (ptr >=? end_); discriminate. }
    destruct (ptr >=? end_) eqn:Eend; [discriminate|].
    rewrite Z.geb_leb in Eend. apply Z.leb_gt in Eend.
    cbn [Z.eqb Pos.eqb andb] in H. cbn [sleb128_value].
    destruct (u8 b =? 0) eqn:E0.
    + apply Z.eqb_eq in E0. rewrite E0 in *. cbn in H.
      rewrite Z.lor_0_r in H. inversion H; subst.
      exists 0, 1. cbn.
      split; [reflexivity|]. split; [reflexivity|]. split; [lia|]. split; [lia|].
      unfold sleb128_finish. change (63 + 7 <? 64) with false. cbn [andb].
      rewrite to_int64_small by lia. lia.
    + cbn [negb andb] in H.
      destruct (u8 b =? 127) eqn:E127; [|discriminate].
      apply Z.eqb_eq in E127. rewrite E127 in *. cbn [negb] in H.
      change (Z.land 127 127) with 127 in H.
      change (Z.shiftl 127 63 mod UINT64_MOD) with (Z.shiftl 1 63) in H.
      rewrite lor_shiftl_add in H by lia.
      change (Z.land 127 128 =? 0) with true in H. cbv iota in H.
      inversion H; subst.
      exists (-1), 1.
      split; [reflexivity|]. split; [reflexivity|]. split; [lia|]. split; [lia|].
      unfold sleb128_finish.
      change (63 + 7 <? 64) with false. cbn [andb].
      rewrite to_int64_large by lia. lia.
  - set (shift := 63 - 7 * Z.of_nat (S j)) in *.
    assert (Hshift : 0 <= shift <= 56) by (subst shift; lia).
    assert (Hnext : shift + 7 = 63 - 7 * Z.of_nat j) by (subst shift; lia).
    assert (Hpow : 2 ^ (shift + 7) = 2 ^ shift * 128).
    { rewrite Z.pow_add_r by lia. reflexivity. }
    assert (Hpos : 0 < 2 ^ shift) by (apply Z.pow_pos_nonneg; lia).
    assert (Hp63 : 2 ^ (shift + 7) <= 2 ^ 63).
    { apply Z.pow_le_mono_r; lia. }
    assert (H64 : 2 ^ 64 = 2 * 2 ^ 63) by reflexivity.
    destruct bs as [|b bs]; cbn [read_sleb128_loop] in H.
    { destruct (ptr >=? end_); discriminate. }
    destruct (ptr >=? end_) eqn:Eend; [discriminate|].
    rewrite Z.geb_leb in Eend. apply Z.leb_gt in Eend.
    replace (shift =? 63) with false in H by (symmetry; apply Z.eqb_neq; lia).
    cbn [andb] in H.
    pose proof (u8_range b) as Hb.
    assert (Hlow : 0 <= Z.land (u8 b) 0x7f < 128).
    { rewrite low7_spec. apply Z.mod_pos_bound. lia. }
    pose proof (low7_spec b) as Hlow7.
    set (low := Z.land (u8 b) 0x7f) in *.
    assert (Hlor : Z.lor value (Z.shiftl low shift mod UINT64_MOD)
                   = value + 2 ^ shift * low).
    { rewrite Z.mod_small.
      - rewrite lor_shiftl_add by lia. lia.
      - rewrite Z.shiftl_mul_pow2 by lia. unfold UINT64_MOD.
        split; [lia|]. nia. }
    rewrite Hlor in H.
    assert (Hnew : 0 <= value + 2 ^ shift * low < 2 ^ (shift + 7)) by nia.
    cbn [sleb128_value]. fold low.
    destruct (Z.land (u8 b) 0x80 =? 0) eqn:Ehigh.
    + apply Z.eqb_eq in Ehigh. apply high_bit_clear in Ehigh.
      assert (Heq : low = u8 b) by (rewrite Hlow7; apply Z.mod_small; lia).
      inversion H; subst value' p shift' byte. clear H.
      pose proof (bit6_clear b) as H6. rewrite <- Hlow7, Heq in H6.
      unfold sleb128_finish.
      replace (shift + 7 <? 64) with true by (symmetry; apply Z.ltb_lt; lia).
      cbn [andb].
      destruct (Z.land (u8 b) 0x40 =? 0) eqn:E6.
      * apply Z.eqb_eq in E6. apply H6 in E6.
        exists (u8 b), 1.
        split; [reflexivity|]. split; [reflexivity|]. split; [lia|]. split; [lia|].
        cbn [negb]. rewrite Heq in *.
        assert (Hb62 : 2 ^ shift * 64 <= 2 ^ 62).
        { replace (2 ^ shift * 64) with (2 ^ (shift + 6))
            by (rewrite Z.pow_add_r by lia; reflexivity).
          apply Z.pow_le_mono_r; lia. }
        assert (H63 : 2 ^ 63 = 2 * 2 ^ 62) by reflexivity.
        rewrite to_int64_small by nia. split; [reflexivity|]. nia.
      * apply Z.eqb_neq in E6.
        assert (Hge : 64 <= u8 b) by (destruct (Z_lt_le_dec (u8 b) 64); tauto).
        exists (u8 b - 128), 1.
        split; [reflexivity|]. split; [reflexivity|]. split; [lia|]. split; [lia|].
        cbn [negb]. rewrite Heq in *.
        rewrite sign_bits_spec by lia.
        assert (Hbig : 0 < 2 ^ (64 - (shift + 7))) by (apply Z.pow_pos_nonneg; lia).
        rewrite lor_shiftl_add by lia.
        assert (Hsplit : 2 ^ 64 = 2 ^ (64 - (shift + 7)) * 2 ^ (shift + 7)).
        { rewrite <- Z.pow_add_r by lia. f_equal. lia. }
        rewrite Z.mul_sub_distr_r, <- Hsplit.
        assert (Hb62 : 2 ^ shift * 64 <= 2 ^ 62).
        { replace (2 ^ shift * 64) with (2 ^ (shift + 6))
            by (rewrite Z.pow_add_r by lia; reflexivity).
          apply Z.pow_le_mono_r; lia. }
        assert (H63 : 2 ^ 63 = 2 * 2 ^ 62) by reflexivity.
        rewrite to_int64_large by nia. split; [nia|]. nia.
    + rewrite Hnext in H. apply IH in H; [|lia|now rewrite <- Hnext].
      destruct H as (sv & n & Esv & -> & Hn & Hend & Hfin & Hrange).
      rewrite Esv. exists (low + 128 * sv), (n + 1).
      split; [reflexivity|]. split; [lia|]. split; [lia|]. split; [lia|].
      rewrite <- Hnext, Hpow in Hfin, Hrange.
      split; [rewrite Hfin; ring|]. nia.
Qed.

(** X5: a successful [read_sleb128] returns the value the SLEB128 encoding
    at [ptr] denotes (base 128, little endian, two's complement with the
    sign in bit 6 of the last byte); that value fits a signed 64-bit
    integer, and between one and ten bytes, all before [end_], were
    consumed. *)
Theorem read_sleb128_value (m : list byte) (ptr end_ v p : Z) :
  read_sleb128 m ptr end_ = Ok (v, p) ->
  sleb128_value (bytes_from m ptr) = Some (v, p - ptr) /\
  - 2 ^ 63 <= v < 2 ^ 63 /\ ptr < p <= end_ /\ p - ptr <= 10.
Proof.
  unfold read_sleb128. intros H.
  destruct (ptr <? 0); [destruct (ptr >=? end_); discriminate|].
  apply bind_Ok in H as ([[[value p'] shift] byte] & Hloop & H).
  inversion H; subst p'.
  change 0 with (63 - 7 * Z.of_nat 9) in Hloop at 1.
  apply read_sleb128_loop_spec in Hloop; [|lia|simpl; lia].
  destruct Hloop as (sv & n & Esv & -> & Hn & Hend & Hfin & Hrange).
  unfold sleb128_finish in Hfin. rewrite Hfin.
  change (63 - 7 * Z.of_nat 9) with 0 in *. change (2 ^ 0) with 1 in *.
  rewrite Esv. split; [do 2 f_equal; lia|]. lia.
Qed.

Lemma read_sleb128_value_witness :
  sleb128_value (bytes_from [x80; x7f] 0) = Some (-128, 2 - 0) /\
  - 2 ^ 63 <= -128 < 2 ^ 63 /\ 0 < 2 <= 2 /\ 2 - 0 <= 10.
Proof. apply (read_sleb128_value [x80; x7f] 0 2 (-128) 2). reflexivity. Defined.


(** ** The hash function and the table *)

(** X6: [name_hash] is the DJB2 polynomial (start 5381, multiply by 33 and
    add each byte) reduced modulo [2^32], and the slot where both probe
    loops start is that polynomial modulo the table size [2^17]. *)
Theorem name_hash_is_djb2 (name : list byte) :
  name_hash name = djb2 name 5381 mod 2 ^ 32 /\
  Z.land (name_hash name) DIE_HASH_MASK = djb2 name 5381 mod 2 ^ 17 /\
  0 <= Z.land (name_hash name) DIE_HASH_MASK < DIE_HASH_SIZE.
Proof.
  assert (H : name_hash name = djb2 name 5381 mod 2 ^ 32).
  { unfold name_hash. rewrite name_hash_loop_djb2; [reflexivity|].
    unfold UINT32_MOD. lia. }
  split; [exact H|].
  rewrite land_mask, DIE_HASH_SIZE_eq. split.
  - rewrite H. change 131072 with (2 ^ 17).
    change (2 ^ 32) with (2 ^ 17 * 2 ^ 15).
    rewrite Z.rem_mul_r by lia.
    rewrite Z.mul_comm, Z.mod_add by lia. apply Z.mod_mod. lia.
  - apply Z.mod_pos_bound. lia.
Qed.

Lemma first_inserted_In (l : list die_hash_entry) (name : list byte) (tag : Z)
    (e : die_hash_entry) :
  first_inserted l name tag = Some e ->
  In e l /\ e_name e = name /\ e_tag e = tag.
Proof.
  unfold first_inserted. intros H. apply List.find_some in H as [Hin Hm].
  apply entry_matches_true in Hm. tauto.
Qed.

Lemma find_sound (l : list die_hash_entry) (h : die_hash_t) (name : list byte)
    (tag : Z) (e : die_hash_entry) :
  table_inv h l -> DwarfIndex_find h name tag = Ok e ->
  first_inserted l name tag = Some e.
Proof.
  intros Hinv Hfind.
  destruct (find_cases h name tag) as [[E _]|(e' & E & Hhit)].
  - rewrite E in Hfind. discriminate.
  - rewrite E in Hfind. inversion Hfind; subst e'.
    destruct Hhit as (k & _ & _ & Hslot & Hm).
    pose proof (inv_first h l Hinv _ _ Hslot) as Hfirst.
    apply entry_matches_true in Hm as [<- <-]. exact Hfirst.
Qed.

(** X7: in a table built by successful insertions [l] from the empty
    table, [find] has no false positives: an entry it returns is the first
    entry of [l] with the queried name and tag (so it was inserted and it
    carries that name and tag), and a name and tag that no inserted entry
    carries is reported as not found. *)
Theorem find_only_returns_inserted (l : list die_hash_entry) (h : die_hash_t)
    (name : list byte) (tag : Z) :
  add_entries ∅ l = Ok h ->
  (forall e,
     DwarfIndex_find h name tag = Ok e ->
     first_inserted l name tag = Some e /\
     In e l /\ e_name e = name /\ e_tag e = tag) /\
  ((forall x, In x l -> ~ (e_name x = name /\ e_tag x = tag)) ->
   DwarfIndex_find h name tag = Raise (ValueError DIE_NOT_FOUND)).
Proof.
  intros Hadd.
  pose proof (table_inv_add_entries l ∅ h [] table_inv_empty Hadd) as Hinv.
  rewrite app_nil_l in Hinv.
  split.
  - intros e He. pose proof (find_sound l h name tag e Hinv He) as Hf.
    split; [exact Hf|]. exact (first_inserted_In _ _ _ _ Hf).
  - intros Hnone.
    destruct (find_cases h name tag) as [[E _]|(e & E & _)]; [exact E|].
    apply (find_sound l h name tag e Hinv) in E.
    apply first_inserted_In in E as (Hin & Hn & Ht).
    exfalso. apply (Hnone e Hin). tauto.
Qed.

Lemma find_only_returns_inserted_witness :
  (first_inserted example_entries name_bar 0x13
   = Some (example_entry name_bar 0x13 0 20) /\
   In (example_entry name_bar 0x13 0 20) example_entries /\
   e_name (example_entry name_bar 0x13 0 20) = name_bar /\
   e_tag (example_entry name_bar 0x13 0 20) = 0x13) /\
  DwarfIndex_find example_table name_bar 0x34
  = Raise (ValueError DIE_NOT_FOUND).
Proof.
  assert (H : add_entries ∅ example_entries = Ok example_table)
    by (vm_compute; reflexivity).
  split.
  - destruct (find_only_returns_inserted example_entries example_table
                name_bar 0x13 H) as [Hsound _].
    apply Hsound. vm_compute. reflexivity.
  - destruct (find_only_returns_inserted example_entries example_table
                name_bar 0x34 H) as [_ Hnone].
    apply Hnone. intros x Hx [Hn Ht]. cbn in Hx.
    repeat (destruct Hx as [<-|Hx]; [discriminate|]). exact Hx.
Defined.

(** ** Entries are never replaced *)

Lemma add_keeps_entries (h h' : die_hash_t) (new : die_hash_entry) :
  add_die_hash_entry h new = Ok h' ->
  forall k e, h !! k = Some e -> h' !! k = Some e.
Proof.
  intros Hadd k e Hk.
  destruct (add_cases h new) as [(j & _ & _ & Hnone & E)|[(e0 & _ & E)|[_ E]]];
    rewrite E in Hadd; inversion Hadd; subst h'.
  - rewrite lookup_insert_ne; [exact Hk|]. intros Heq. subst k. congruence.
  - exact Hk.
Qed.

Lemma add_entries_keep_entries (l : list die_hash_entry) :
  forall h h' : die_hash_t,
    add_entries h l = Ok h' ->
    forall k e, h !! k = Some e -> h' !! k = Some e.
Proof.
  induction l as [|x l IH]; intros h h' Hadd k e Hk.
  - inversion Hadd; subst. exact Hk.
  - rewrite add_entries_cons in Hadd. apply bind_Ok in Hadd as (h1 & H1 & H2).
    apply (IH h1 h' H2). exact (add_keeps_entries h h1 x H1 k e Hk).
Qed.

Lemma probe_hits_mono (h h' : die_hash_t) (name : list byte) (tag : Z)
    (e : die_hash_entry) :
  (forall k e, h !! k = Some e -> h' !! k = Some e) ->
  probe_hits h name tag e -> probe_hits h' name tag e.
Proof.
  intros Hkeep (k & Hk & Hpass & Hslot & Hm).
  exists k. split; [exact Hk|]. split; [|split; [auto|exact Hm]].
  intros j Hj. destruct (Hpass j Hj) as (e' & He' & Hm'). exists e'. auto.
Qed.

(** X8: construction never replaces or removes an entry: after indexing
    any further files, every slot that was occupied holds the same entry,
    and every [find] that succeeded returns the same entry as before. *)
Theorem construction_keeps_entries (fuel : nat) (files : list file)
    (self self' : DwarfIndex) (file_idx : nat) :
  DwarfIndex_init_loop fuel self file_idx files = Ok self' ->
  (forall k e, die_hash self !! k = Some e -> die_hash self' !! k = Some e) /\
  (forall name tag e,
     DwarfIndex_find (die_hash self) name tag = Ok e ->
     DwarfIndex_find (die_hash self') name tag = Ok e).
Proof.
  intros H. apply init_loop_inserts in H as [l Hl]. unfold inserted_by in Hl.
  pose proof (add_entries_keep_entries l _ _ Hl) as Hkeep.
  split; [exact Hkeep|].
  intros name tag e Hfind.
  destruct (find_cases (die_hash self) name tag) as [[E _]|(e' & E & Hhit)];
    rewrite E in Hfind; inversion Hfind; subst e'.
  apply find_of_hit. exact (probe_hits_mono _ _ _ _ _ Hkeep Hhit).
Qed.

Lemma construction_keeps_entries_witness :
  exists self',
    DwarfIndex_init_loop 10
      {| die_hash := example_table; index_address_size := 0 |} 1
      [variable_foo_file] = Ok self' /\
    DwarfIndex_find (die_hash self') name_bar 0x13
    = Ok (example_entry name_bar 0x13 0 20).
Proof.
  destruct (DwarfIndex_init_loop 10
              {| die_hash := example_table; index_address_size := 0 |} 1
              [variable_foo_file]) as [self'| | |] eqn:E;
    [|exfalso; vm_compute in E; discriminate ..].
  exists self'. split; [reflexivity|].
  destruct (construction_keeps_entries _ _ _ _ _ E) as [_ Hfind].
  apply Hfind. vm_compute. reflexivity.
Defined.

(** ** The capacity of the table *)

Lemma add_size (h h' : die_hash_t) (new : die_hash_entry) :
  add_die_hash_entry h new = Ok h' -> (size h' <= S (size h))%nat.
Proof.
  intros Hadd.
  destruct (add_cases h new) as [(j & _ & _ & Hnone & E)|[(e0 & _ & E)|[_ E]]];
    rewrite E in Hadd; inversion Hadd; subst h'.
  - rewrite map_size_insert_None by exact Hnone. lia.
  - lia.
Qed.

Lemma probe_slot_onto (name : list byte) (k : Z) :
  0 <= k < DIE_HASH_SIZE ->
  exists j, 0 <= j < DIE_HASH_SIZE /\ probe_slot name j = k.
Proof.
  intros Hk. pose proof DIE_HASH_SIZE_eq as HN.
  exists ((k - name_hash name) mod DIE_HASH_SIZE).
  split; [apply Z.mod_pos_bound; lia|].
  unfold probe_slot. rewrite Z.add_mod_idemp_r by lia.
  replace (name_hash name + (k - name_hash name)) with k by lia.
  apply Z.mod_small. exact Hk.
Qed.

Lemma full_table_size (h : die_hash_t) (name : list byte) (tag : Z) :
  probe_passes h name tag DIE_HASH_SIZE -> DIE_HASH_SIZE <= Z.of_nat (size h).
Proof.
  intros Hpass. pose proof DIE_HASH_SIZE_eq as HN.
  assert (Hsub : (list_to_set (seqZ 0 DIE_HASH_SIZE) : gset Z) ⊆ dom h).
  { intros k Hk. apply elem_of_list_to_set, elem_of_seqZ in Hk.
    destruct (probe_slot_onto name k) as (j & Hj & <-); [lia|].
    destruct (Hpass j Hj) as (e & He & _).
    apply elem_of_dom. now exists e. }
  apply subseteq_size in Hsub.
  rewrite size_dom, size_list_to_set in Hsub by apply NoDup_seqZ.
  rewrite length_seqZ in Hsub. lia.
Qed.

Lemma add_entries_room (l : list die_hash_entry) :
  forall h : die_hash_t,
    Z.of_nat (size h) + Z.of_nat (length l) <= DIE_HASH_SIZE ->
    exists h', add_entries h l = Ok h'.
Proof.
  induction l as [|x l IH]; intros h Hroom.
  - exists h. reflexivity.
  - rewrite add_entries_cons. cbn [length] in Hroom.
    destruct (add_cases h x) as [(j & _ & _ & Hnone & E)|[(e0 & _ & E)|[Hfull E]]].
    + rewrite E. cbn [mbind result_bind]. apply IH.
      rewrite map_size_insert_None by exact Hnone. lia.
    + rewrite E. cbn [mbind result_bind]. apply IH. lia.
    + apply full_table_size in Hfull. lia.
Qed.

(** X9: the probe loops of [add_die_hash_entry] and [DwarfIndex_find] end
    within one pass over the table, whatever it holds.  An insertion
    raises [MemoryError] only when all [2^17] slots are occupied, so a
    sequence of insertions that cannot bring the table beyond [2^17]
    entries always succeeds. *)
Theorem die_hash_capacity (h : die_hash_t) :
  (forall new, add_die_hash_entry h new <> OutOfFuel) /\
  (forall name tag, DwarfIndex_find h name tag <> OutOfFuel) /\
  (forall new,
     add_die_hash_entry h new = Raise MemoryError ->
     DIE_HASH_SIZE <= Z.of_nat (size h)) /\
  (forall l,
     Z.of_nat (size h) + Z.of_nat (length l) <= DIE_HASH_SIZE ->
     exists h', add_entries h l = Ok h').
Proof.
  split; [|split; [|split]].
  - intros new.
    destruct (add_cases h new) as [(j & _ & _ & _ & E)|[(e0 & _ & E)|[_ E]]];
      rewrite E; discriminate.
  - intros name tag.
    destruct (find_cases h name tag) as [[E _]|(e & E & _)]; rewrite E; discriminate.
  - intros new Hmem.
    destruct (add_cases h new) as [(j & _ & _ & _ & E)|[(e0 & _ & E)|[Hfull _]]].
    + rewrite E in Hmem. discriminate.
    + rewrite E in Hmem. discriminate.
    + exact (full_table_size _ _ _ Hfull).
  - intros l. apply add_entries_room.
Qed.

Lemma die_hash_capacity_witness :
  exists h', add_entries example_table example_entries = Ok h'.
Proof.
  destruct (die_hash_capacity example_table) as (_ & _ & _ & Hroom).
  apply Hroom.
  replace (size example_table) with 2%nat by (vm_compute; reflexivity).
  rewrite DIE_HASH_SIZE_eq. cbn [length example_entries]. lia.
Defined.


(** ** Relocation stays inside the mapping and inside the section *)

Lemma section_in_map_length (m m' : list byte) (s : section) :
  length m' = length m -> section_in_map m s -> section_in_map m' s.
Proof. unfold section_in_map. intros ->. tauto. Qed.

Lemma bind_no_fault {A B : Type} (x : result A) (k : A -> result B) :
  x <> Fault -> (forall a, x = Ok a -> k a <> Fault) -> x ≫= k <> Fault.
Proof.
  intros Hx Hk. destruct x as [a| | |]; cbn [mbind result_bind];
    [now apply Hk|discriminate|contradiction|discriminate].
Qed.

Lemma reloc_entry_in_map (m : list byte) (rela : section) (i : Z) :
  section_in_map m rela -> 0 <= i < num_relocs rela ->
  exists r, reloc_entry m rela i = Ok r.
Proof.
  intros (Hb & Hs & He) Hi. pose proof (entry_in_rela rela i Hi) as Hin.
  unfold reloc_entry.
  destruct (load_ok_in_map m (sec_buffer rela + i * sizeof_Elf64_Rela) 8)
    as [off ->]; [lia|change (Z.of_nat 8) with 8; lia|].
  destruct (load_ok_in_map m (sec_buffer rela + i * sizeof_Elf64_Rela + 8) 8)
    as [info ->]; [lia|change (Z.of_nat 8) with 8; lia|].
  destruct (load_ok_in_map m (sec_buffer rela + i * sizeof_Elf64_Rela + 16) 8)
    as [addend ->]; [lia|change (Z.of_nat 8) with 8; lia|].
  cbn [mbind result_bind]. eauto.
Qed.

Lemma relocate_no_fault (w : nat) (m : list byte) (sec symtab : section)
    (r : Elf64_Rela) :
  (w <= 8)%nat -> section_in_map m sec -> section_in_map m symtab ->
  0 <= r_offset r -> 0 <= r_info r ->
  relocate w m sec symtab r <> Fault.
Proof.
  intros Hw (Hsb & Hss & Hse) (Hyb & Hys & Hye) Hoff Hinfo. unfold relocate.
  destruct (reloc_sym r >=? num_syms symtab) eqn:E1; [discriminate|].
  destruct ((r_offset r >? SIZE_MAX - Z.of_nat w)
            || (r_offset r + Z.of_nat w >? sec_size sec)) eqn:E2; [discriminate|].
  rewrite Z.geb_leb in E1. apply Z.leb_gt in E1.
  apply orb_false_iff in E2 as [_ E2].
  rewrite Z.gtb_ltb in E2. apply Z.ltb_ge in E2.
  pose proof (reloc_sym_nonneg r Hinfo) as Hsym.
  unfold num_syms, sizeof_Elf64_Rela in E1.
  pose proof (Z.mul_div_le (sec_size symtab) 24 ltac:(lia)) as Hdiv.
  unfold sym_st_value, sizeof_Elf64_Sym, offsetof_st_value.
  destruct (load_ok_in_map m (sec_buffer symtab + reloc_sym r * 24 + 8) 8)
    as [v ->]; [lia|change (Z.of_nat 8) with 8; lia|].
  cbn [mbind result_bind]. unfold store.
  replace (sec_buffer sec + r_offset r <? 0) with false
    by (symmetry; apply Z.ltb_ge; lia).
  replace (Z.of_nat (length m) <? sec_buffer sec + r_offset r + Z.of_nat w)
    with false by (symmetry; apply Z.ltb_ge; lia).
  discriminate.
Qed.

Lemma apply_relocation_no_fault (m : list byte) (sec symtab : section)
    (r : Elf64_Rela) :
  section_in_map m sec -> section_in_map m symtab ->
  0 <= r_offset r -> 0 <= r_info r ->
  apply_relocation m sec symtab r <> Fault.
Proof.
  intros Hsec Hsym Hoff Hinfo. unfold apply_relocation.
  destruct (reloc_type r =? R_X86_64_NONE); [discriminate|].
  destruct (reloc_type r =? R_X86_64_32);
    [apply relocate_no_fault; auto; lia|].
  destruct (reloc_type r =? R_X86_64_64);
    [apply relocate_no_fault; auto; lia|].
  discriminate.
Qed.

Lemma loop_no_fault (sec rela symtab : section) (m0 : list byte) (n : nat) :
  section_in_map m0 sec -> section_in_map m0 rela -> section_in_map m0 symtab ->
  forall (i : Z) (m : list byte),
    length m = length m0 -> 0 <= i -> i + Z.of_nat n <= num_relocs rela ->
    apply_relocations_loop n i m sec rela symtab <> Fault.
Proof.
  intros Hsec Hrela Hsym.
  induction n as [|n IH]; intros i m Hlen Hi Hn; cbn [apply_relocations_loop].
  - discriminate.
  - destruct (reloc_entry_in_map m rela i) as [r Er];
      [now apply (section_in_map_length m0)|lia|].
    rewrite Er. cbn [mbind result_bind].
    pose proof (reloc_entry_nonneg _ _ _ _ Er) as [Hoff Hinfo].
    apply bind_no_fault.
    + apply apply_relocation_no_fault; auto;
        now apply (section_in_map_length m0).
    + intros m1 E1. apply IH; [|lia|lia].
      apply apply_relocation_same_outside in E1 as [Hl _]; [|exact Hoff].
      congruence.
Qed.

Lemma apply_relocations_safe (m : list byte) (sec rela symtab : section) :
  section_in_map m sec -> section_in_map m rela -> section_in_map m symtab ->
  apply_relocations m sec rela symtab <> Fault /\
  (forall m', apply_relocations m sec rela symtab = Ok m' -> same_outside sec m m').
Proof.
  intros Hsec Hrela Hsym. unfold apply_relocations. split.
  - apply (loop_no_fault sec rela symtab m); auto.
    + lia.
    + destruct Hrela as (_ & Hs & _).
      assert (0 <= num_relocs rela)
        by (unfold num_relocs, sizeof_Elf64_Rela; apply Z.div_pos; lia).
      lia.
  - intros m'. apply loop_same_outside.
Qed.

(** X10: when the relocated section, its RELA section and the symbol table
    lie inside the mapping (as [validate_shdr] checked), [apply_relocations]
    never reads or writes outside the mapping, whatever the relocation
    entries hold; and when it succeeds, the mapping has kept its length and
    every byte outside the relocated section. *)
Theorem apply_relocations_memory_safe (m : list byte) (sec rela symtab : section) :
  section_in_map m sec -> section_in_map m rela -> section_in_map m symtab ->
  apply_relocations m sec rela symtab <> Fault /\
  (forall m', apply_relocations m sec rela symtab = Ok m' -> same_outside sec m m').
Proof.
  intros Hsec Hrela Hsym. unfold apply_relocations. split.
  - assert (0 <= num_relocs rela).
    { destruct Hrela as (_ & Hs & _).
      unfold num_relocs, sizeof_Elf64_Rela. apply Z.div_pos; lia. }
    apply (loop_no_fault sec rela symtab m); auto; lia.
  - intros m' Hm'. exact (loop_same_outside _ _ _ _ _ _ _ Hm').
Qed.

Lemma apply_relocations_memory_safe_witness :
  apply_relocations example_map_overlap example_sec (example_rela_sec 2)
    example_symtab <> Fault /\
  same_outside example_sec example_map_overlap
    (le_encode 8 (0x11223344 + 2) ++ drop 8 example_map_overlap).
Proof.
  destruct (apply_relocations_memory_safe example_map_overlap example_sec
              (example_rela_sec 2) example_symtab) as [Hnf Hsame];
    [vm_compute; repeat split; discriminate ..|].
  split; [exact Hnf|]. apply Hsame. vm_compute. reflexivity.
Defined.

(** ** Relocating twice *)

Section Replay.

Variables sec rela symtab : section.
Hypothesis sec_rela : sections_disjoint sec rela.
Hypothesis sec_symtab : sections_disjoint sec symtab.

(** Run from two mappings that hold the same entries and symbols, the loop
    ends in mappings that agree on every byte it wrote. *)
Lemma loop_replay (m0 : list byte) (n : nat) :
  forall (i : Z) (m1 m1' m2 : list byte),
    same_outside sec m0 m1 -> same_outside sec m0 m2 ->
    0 <= i -> i + Z.of_nat n <= num_relocs rela ->
    apply_relocations_loop n i m1 sec rela symtab = Ok m1' ->
    exists m2',
      apply_relocations_loop n i m2 sec rela symtab = Ok m2' /\
      forall k : nat,
        m2' !! k = m1' !! k \/ (m2' !! k = m2 !! k /\ m1' !! k = m1 !! k).
Proof.
  induction n as [|n IH]; intros i m1 m1' m2 H1 H2 Hi Hn Hloop;
    cbn [apply_relocations_loop] in *.
  - inversion Hloop; subst m1'. exists m2. split; [reflexivity|]. intros k. now right.
  - apply bind_Ok in Hloop as (r & Er & Hloop).
    apply bind_Ok in Hloop as (m1a & Ea & Hloop).
    assert (Er2 : reloc_entry m2 rela i = Ok r).
    { rewrite (reloc_entry_same_outside sec rela sec_rela m0 m2) by (auto; lia).
      rewrite <- (reloc_entry_same_outside sec rela sec_rela m0 m1) by (auto; lia).
      exact Er. }
    rewrite Er2. cbn [mbind result_bind].
    pose proof (reloc_entry_nonneg _ _ _ _ Er) as [Hoff Hinfo].
    assert (Hlen : length m2 = length m1)
      by (destruct H1 as [-> _]; destruct H2 as [-> _]; reflexivity).
    assert (Hstep : exists m2a,
              apply_relocation m2 sec symtab r = Ok m2a /\
              same_outside sec m2 m2a /\
              forall k : nat,
                m2a !! k = m1a !! k \/ (m2a !! k = m2 !! k /\ m1a !! k = m1 !! k)).
    { destruct (reloc_width (reloc_type r)) as [w|] eqn:Ew.
      - assert (Hw : (w <= 8)%nat)
          by (destruct (reloc_width_cases _ _ Ew) as [[_ ->]|[_ ->]]; lia).
        rewrite (apply_relocation_width m1 _ _ _ _ Ew) in Ea.
        rewrite (apply_relocation_width m2 _ _ _ _ Ew).
        pose proof (relocate_inv _ _ _ _ _ _ Hw Ea)
          as (v & Hsym & Hin & Hv & Hp & Hq & Hm1a).
        assert (Hv2 : sym_st_value m2 symtab (reloc_sym r) = Ok v).
        { pose proof (reloc_sym_nonneg r Hinfo).
          rewrite (sym_st_value_same_outside sec symtab sec_symtab m0 m2)
            by (auto; lia).
          rewrite <- (sym_st_value_same_outside sec symtab sec_symtab m0 m1)
            by (auto; lia).
          exact Hv. }
        unfold relocate in Ea |- *.
        destruct (reloc_sym r >=? num_syms symtab); [discriminate|].
        destruct ((r_offset r >? SIZE_MAX - Z.of_nat w)
                  || (r_offset r + Z.of_nat w >? sec_size sec)); [discriminate|].
        rewrite Hv2. cbn [mbind result_bind]. unfold store.
        replace (sec_buffer sec + r_offset r <? 0) with false
          by (symmetry; apply Z.ltb_ge; lia).
        replace (Z.of_nat (length m2) <? sec_buffer sec + r_offset r + Z.of_nat w)
          with false by (symmetry; apply Z.ltb_ge; lia).
        cbn [orb]. eexists. split; [reflexivity|].
        set (p := Z.to_nat (sec_buffer sec + r_offset r)) in *.
        set (enc := le_encode w ((v + r_addend r) mod UINT64_MOD)).
        assert (Hm1a' : m1a = store_bytes m1 p enc).
        { rewrite Hm1a. subst enc. unfold UINT64_MOD.
          change 64 with (8 * Z.of_nat 8). now rewrite le_encode_mod. }
        assert (Henc : length enc = w) by apply le_encode_length.
        split.
        + split; [apply store_bytes_length|].
          intros k Hk. apply store_bytes_lookup_outside. lia.
        + intros k. destruct (decide (p <= k < p + w)%nat) as [Hk|Hk].
          * left. replace k with (p + (k - p))%nat by lia. rewrite Hm1a'.
            rewrite !store_bytes_lookup_inside by lia. reflexivity.
          * right. rewrite Hm1a'.
            rewrite !store_bytes_lookup_outside by lia. auto.
      - pose proof (apply_relocation_no_width _ _ _ _ _ Ew Ea) as ->.
        exists m2. split; [|split; [apply same_outside_refl|intros k; now right]].
        unfold apply_relocation in Ea |- *. unfold reloc_width in Ew.
        destruct (reloc_type r =? R_X86_64_NONE); [reflexivity|].
        destruct (reloc_type r =? R_X86_64_32); [discriminate|].
        destruct (reloc_type r =? R_X86_64_64); discriminate. }
    destruct Hstep as (m2a & E2a & Hsame2 & Hagree). rewrite E2a.
    pose proof (apply_relocation_same_outside sec symtab m1 m1a r Hoff Ea) as Hsame1.
    destruct (IH (i + 1) m1a m1' m2a) as (m2' & E2' & Hfin);
      [apply same_outside_trans with m1; [exact H1|exact Hsame1]
      |apply same_outside_trans with m2; [exact H2|exact Hsame2]
      |lia|lia|exact Hloop|].
    exists m2'. split; [exact E2'|].
    intros k. destruct (Hfin k) as [Heq|[Hk2 Hk1]]; [now left|].
    destruct (Hagree k) as [Heq|[Hk2' Hk1']].
    + left. congruence.
    + right. split; congruence.
Qed.

End Replay.

(** X11: relocation is idempotent: when the relocated section shares no
    byte with its RELA section and the symbol table, applying the same
    relocations to the relocated mapping succeeds again and changes
    nothing (the addends are in the entries, not in the section). *)
Theorem apply_relocations_idempotent (m m' : list byte) (sec rela symtab : section) :
  sections_disjoint sec rela -> sections_disjoint sec symtab ->
  apply_relocations m sec rela symtab = Ok m' ->
  apply_relocations m' sec rela symtab = Ok m'.
Proof.
  intros Hrela Hsym H. unfold apply_relocations in *.
  pose proof (loop_same_outside _ _ _ _ _ _ _ H) as Hsame.
  destruct (Z_lt_le_dec (num_relocs rela) 0) as [Hneg|Hpos].
  { replace (Z.to_nat (num_relocs rela)) with 0%nat in * by lia. reflexivity. }
  assert (Hbound : 0 + Z.of_nat (Z.to_nat (num_relocs rela)) <= num_relocs rela)
    by lia.
  destruct (loop_replay sec rela symtab Hrela Hsym m _ 0 m m' m'
              (same_outside_refl sec m) Hsame ltac:(lia) Hbound H)
    as (m2' & E & Hagree).
  rewrite E. f_equal. apply list_eq. intros k.
  destruct (Hagree k) as [Heq|[Heq _]]; exact Heq.
Qed.

Lemma apply_relocations_idempotent_witness :
  apply_relocations (le_encode 8 (0x11223344 + 2) ++ drop 8 example_map_overlap)
    example_sec (example_rela_sec 2) example_symtab
  = Ok (le_encode 8 (0x11223344 + 2) ++ drop 8 example_map_overlap).
Proof.
  apply (apply_relocations_idempotent example_map_overlap).
  - vm_compute. left. discriminate.
  - vm_compute. left. discriminate.
  - vm_compute. reflexivity.
Defined.


(** ** Reading the ELF sections *)

Lemma load_in_file (m : list byte) (p : Z) (n : nat) :
  0 <= p -> p + Z.of_nat n <= file_size m ->
  exists v, load m p n = Ok v /\ 0 <= v.
Proof.
  intros Hp Hn. destruct (load_ok_in_map m p n Hp Hn) as [v Hv].
  exists v. split; [exact Hv|]. exact (load_nonneg _ _ _ _ Hv).
Qed.

Lemma load_not_fuel (m : list byte) (p : Z) (n : nat) : load m p n <> OutOfFuel.
Proof. unfold load. destruct (_ || _); discriminate. Qed.

Lemma has_elf_magic_spec (m : list byte) :
  (exists b, has_elf_magic m = Ok b) /\
  (has_elf_magic m = Ok true ->
   EI_NIDENT <= file_size m /\
   e_ident m 0 = Ok ELFMAG0 /\ e_ident m 1 = Ok ELFMAG1 /\
   e_ident m 2 = Ok ELFMAG2 /\ e_ident m 3 = Ok ELFMAG3).
Proof.
  unfold has_elf_magic, EI_NIDENT.
  destruct (file_size m <? 16) eqn:Esz.
  { split; [eauto|discriminate]. }
  apply Z.ltb_ge in Esz. unfold e_ident.
  destruct (load_in_file m 0 1) as (b0 & E0 & _); [lia|simpl; lia|].
  destruct (load_in_file m 1 1) as (b1 & E1 & _); [lia|simpl; lia|].
  destruct (load_in_file m 2 1) as (b2 & E2 & _); [lia|simpl; lia|].
  destruct (load_in_file m 3 1) as (b3 & E3 & _); [lia|simpl; lia|].
  rewrite E0. cbn [mbind result_bind].
  destruct (b0 =? ELFMAG0) eqn:C0; cbn [negb]; [|split; [eauto|discriminate]].
  rewrite E1. cbn [mbind result_bind].
  destruct (b1 =? ELFMAG1) eqn:C1; cbn [negb]; [|split; [eauto|discriminate]].
  rewrite E2. cbn [mbind result_bind].
  destruct (b2 =? ELFMAG2) eqn:C2; cbn [negb]; [|split; [eauto|discriminate]].
  rewrite E3. cbn [mbind result_bind].
  split; [eauto|]. intros [= C3].
  apply Z.eqb_eq in C0. apply Z.eqb_eq in C1. apply Z.eqb_eq in C2.
  apply Z.eqb_eq in C3. subst. auto.
Qed.

Lemma validate_ehdr_spec (m : list byte) :
  validate_ehdr m <> Fault /\ validate_ehdr m <> OutOfFuel /\
  (validate_ehdr m = Ok tt -> exists e_shoff e_shnum, valid_ehdr m e_shoff e_shnum).
Proof.
  unfold validate_ehdr.
  destruct (has_elf_magic_spec m) as [[magic Emagic] Hmagic]. rewrite Emagic.
  cbn [mbind result_bind].
  destruct magic; cbn [negb]; [|repeat split; discriminate].
  destruct (Hmagic Emagic) as (Hsz & M0 & M1 & M2 & M3). unfold EI_NIDENT in Hsz.
  unfold e_ident, EI_VERSION, EI_DATA, EI_CLASS in *.
  destruct (load_in_file m 6 1) as (ver & Ever & _); [lia|simpl; lia|].
  destruct (load_in_file m 5 1) as (data & Edata & _); [lia|simpl; lia|].
  destruct (load_in_file m 4 1) as (class & Eclass & _); [lia|simpl; lia|].
  rewrite Ever. cbn [mbind result_bind].
  destruct (ver =? EV_CURRENT) eqn:Cv; cbn [negb]; [|repeat split; discriminate].
  rewrite Edata. cbn [mbind result_bind].
  destruct (data =? ELFDATA2LSB) eqn:Cd; cbn [negb]; [|repeat split; discriminate].
  rewrite Eclass. cbn [mbind result_bind].
  destruct (class =? ELFCLASS32); [repeat split; discriminate|].
  destruct (class =? ELFCLASS64) eqn:Cc; cbn [negb]; [|repeat split; discriminate].
  unfold sizeof_Elf64_Ehdr, offsetof_e_shnum, offsetof_e_shoff.
  destruct (file_size m <? 64) eqn:Esz; [repeat split; discriminate|].
  apply Z.ltb_ge in Esz.
  destruct (load_in_file m 60 2) as (shnum & Eshnum & Hshnum); [lia|simpl; lia|].
  destruct (load_in_file m 40 8) as (shoff & Eshoff & Hshoff); [lia|simpl; lia|].
  rewrite Eshnum. cbn [mbind result_bind].
  destruct (shnum =? 0) eqn:C0; [repeat split; discriminate|].
  rewrite Eshoff. cbn [mbind result_bind].
  destruct ((shoff >? SIZE_MAX - sizeof_Elf64_Shdr * shnum)
            || (shoff + sizeof_Elf64_Shdr * shnum >? file_size m)) eqn:Cs;
    [repeat split; discriminate|].
  split; [discriminate|]. split; [discriminate|]. intros _.
  apply orb_false_iff in Cs as [_ Cs]. rewrite Z.gtb_ltb in Cs. apply Z.ltb_ge in Cs.
  apply Z.eqb_eq in Cv. apply Z.eqb_eq in Cd. apply Z.eqb_eq in Cc.
  apply Z.eqb_neq in C0. subst.
  assert (Hlt : shnum < 2 ^ 16).
  { unfold load in Eshnum. destruct (_ || _); [discriminate|].
    inversion Eshnum.
    pose proof (le_decode_range (take 2 (bytes_from m 60))) as Hr.
    rewrite length_take in Hr.
    assert (2 ^ (8 * Z.of_nat (2 `min` length (bytes_from m 60))) <= 2 ^ 16)
      by (apply Z.pow_le_mono_r; lia).
    lia. }
  exists shoff, shnum. split; auto. lia.
Qed.

Lemma shdr_entry_in_file (m : list byte) (e_shoff e_shnum i : Z) :
  0 <= e_shoff -> e_shoff + sizeof_Elf64_Shdr * e_shnum <= file_size m ->
  0 <= i < e_shnum ->
  exists shdr,
    shdr_entry m e_shoff i = Ok shdr /\
    0 <= sh_name shdr /\ 0 <= sh_offset shdr /\ 0 <= sh_size shdr.
Proof.
  unfold sizeof_Elf64_Shdr. intros Hoff Htab Hi. unfold shdr_entry, sizeof_Elf64_Shdr.
  destruct (load_in_file m (e_shoff + i * 64) 4) as (name & -> & Hname);
    [lia|simpl; lia|].
  destruct (load_in_file m (e_shoff + i * 64 + 4) 4) as (type & -> & _);
    [lia|simpl; lia|].
  destruct (load_in_file m (e_shoff + i * 64 + 24) 8) as (offset & -> & Hoffset);
    [lia|simpl; lia|].
  destruct (load_in_file m (e_shoff + i * 64 + 32) 8) as (size & -> & Hsize);
    [lia|simpl; lia|].
  destruct (load_in_file m (e_shoff + i * 64 + 40) 4) as (link & -> & _);
    [lia|simpl; lia|].
  destruct (load_in_file m (e_shoff + i * 64 + 44) 4) as (info & -> & _);
    [lia|simpl; lia|].
  cbn [mbind result_bind]. eexists. split; [reflexivity|]. cbn. auto.
Qed.

Lemma validate_shdr_spec (m : list byte) (shdr : Elf64_Shdr) :
  validate_shdr m shdr <> Fault /\ validate_shdr m shdr <> OutOfFuel /\
  (validate_shdr m shdr = Ok tt ->
   sh_offset shdr + sh_size shdr <= file_size m).
Proof.
  unfold validate_shdr.
  destruct ((sh_offset shdr >? SIZE_MAX - sh_size shdr)
            || (sh_offset shdr + sh_size shdr >? file_size m)) eqn:C;
    [repeat split; discriminate|].
  split; [discriminate|]. split; [discriminate|]. intros _.
  apply orb_false_iff in C as [_ C]. rewrite Z.gtb_ltb in C. now apply Z.ltb_ge in C.
Qed.

Lemma strcmp_eq_total (lit : list byte) :
  forall bs : list byte,
    (length lit < length bs)%nat -> exists b, strcmp_eq bs lit = Ok b.
Proof.
  induction lit as [|c lit IH]; intros bs Hlen.
  - destruct bs as [|b bs]; [simpl in Hlen; lia|]. cbn. eauto.
  - destruct bs as [|b bs]; [simpl in Hlen; lia|]. cbn [strcmp_eq].
    destruct (u8 b =? u8 c); [|eauto]. apply IH. simpl in Hlen. lia.
Qed.

Lemma name_is_total (m : list byte) (name max_name_len : Z) (lit : list byte) :
  0 <= name -> name + max_name_len <= file_size m ->
  exists b, name_is m name max_name_len lit = Ok b.
Proof.
  intros Hname Hmax. unfold name_is.
  destruct (max_name_len >? Z.of_nat (length lit)) eqn:C; [|eauto].
  rewrite Z.gtb_ltb in C. apply Z.ltb_lt in C.
  replace (name <? 0) with false by (symmetry; apply Z.ltb_ge; lia).
  apply strcmp_eq_total. unfold bytes_from, file_size in *.
  rewrite length_drop. lia.
Qed.

Lemma debug_section_of_name_total (m : list byte) (name max_name_len : Z) :
  0 <= name -> name + max_name_len <= file_size m ->
  exists id, debug_section_of_name m name max_name_len = Ok id.
Proof.
  intros Hname Hmax. unfold debug_section_of_name.
  destruct (name_is_total m name max_name_len (section_names DEBUG_ABBREV))
    as [[] ->]; auto; cbn [mbind result_bind]; [eauto|].
  destruct (name_is_total m name max_name_len (section_names DEBUG_INFO))
    as [[] ->]; auto; cbn [mbind result_bind]; [eauto|].
  destruct (name_is_total m name max_name_len (section_names DEBUG_STR))
    as [[] ->]; auto; cbn [mbind result_bind]; eauto.
Qed.

Lemma select_slot_total (m : list byte) (shstrtab_shdr shdr : Elf64_Shdr) :
  0 <= sh_offset shstrtab_shdr ->
  sh_offset shstrtab_shdr + sh_size shstrtab_shdr <= file_size m ->
  0 <= sh_name shdr ->
  exists slot, select_slot m shstrtab_shdr shdr = Ok slot.
Proof.
  intros Hoff Hend Hname. unfold select_slot.
  destruct (sh_type shdr =? SHT_PROGBITS).
  - destruct ((sh_name shdr =? 0) || (sh_name shdr >=? sh_size shstrtab_shdr));
      [eauto|].
    destruct (debug_section_of_name_total m
                (sh_offset shstrtab_shdr + sh_name shdr)
                (sh_size shstrtab_shdr - sh_name shdr)) as [id ->]; [lia|lia|].
    cbn [mbind result_bind]. eauto.
  - destruct (sh_type shdr =? SHT_SYMTAB); eauto.
Qed.

Lemma section_of_shdr_in_map (m : list byte) (i : Z) (shdr : Elf64_Shdr) :
  0 <= sh_offset shdr -> 0 <= sh_size shdr ->
  validate_shdr m shdr = Ok tt ->
  section_in_map m (section_of_shdr i shdr).
Proof.
  intros Hoff Hsize Hv. apply validate_shdr_spec in Hv.
  unfold section_in_map, section_of_shdr, file_size in *. cbn. lia.
Qed.

Lemma update_slot_in_map (m : list byte) (slots : debug_section_id -> option section)
    (id : debug_section_id) (s : section) :
  slots_in_map m slots -> section_in_map m s ->
  slots_in_map m (update_slot slots id s).
Proof.
  intros Hslots Hs id' s'. unfold update_slot.
  destruct (decide (id' = id)); [intros [= <-]; exact Hs|apply Hslots].
Qed.

Section Headers.

Variables (m : list byte) (e_shoff e_shnum : Z).
Hypothesis shoff_nonneg : 0 <= e_shoff.
Hypothesis table_in_file : e_shoff + sizeof_Elf64_Shdr * e_shnum <= file_size m.

Lemma read_section_spec (shstrtab_shdr : Elf64_Shdr) (i : Z) (t : section_table) :
  0 <= sh_offset shstrtab_shdr ->
  sh_offset shstrtab_shdr + sh_size shstrtab_shdr <= file_size m ->
  0 <= i < e_shnum -> table_in_map m t ->
  read_section m e_shoff shstrtab_shdr i t <> Fault /\
  read_section m e_shoff shstrtab_shdr i t <> OutOfFuel /\
  (forall t', read_section m e_shoff shstrtab_shdr i t = Ok t' ->
              table_in_map m t' /\ t_rela t' = t_rela t).
Proof.
  intros Hoff Hend Hi Ht. unfold read_section.
  destruct (shdr_entry_in_file m e_shoff e_shnum i shoff_nonneg table_in_file Hi)
    as (shdr & -> & Hname & Hso & Hss).
  cbn [mbind result_bind].
  destruct (select_slot_total m shstrtab_shdr shdr Hoff Hend Hname) as [slot ->].
  cbn [mbind result_bind].
  destruct slot as [slot|];
    [|split; [discriminate|]; split; [discriminate|]; intros t' [= <-]; auto].
  destruct (validate_shdr_spec m shdr) as (Hnf & Hfuel & Hok).
  destruct (validate_shdr m shdr) as [[]| | |] eqn:Ev;
    cbn [mbind result_bind]; try (repeat split; discriminate); try contradiction.
  split; [discriminate|]. split; [discriminate|]. intros t' [= <-].
  pose proof (section_of_shdr_in_map m i shdr Hso Hss Ev) as Hin.
  destruct Ht as (Hsym & Hdebug & Hrela).
  destruct slot as [|id]; cbn [set_slot]; (split; [|reflexivity]); split; cbn.
  - intros s [= <-]. exact Hin.
  - auto.
  - exact Hsym.
  - split; [now apply update_slot_in_map|exact Hrela].
Qed.

Lemma read_sections_loop_spec (shstrtab_shdr : Elf64_Shdr) (n : nat) :
  0 <= sh_offset shstrtab_shdr ->
  sh_offset shstrtab_shdr + sh_size shstrtab_shdr <= file_size m ->
  forall (i : Z) (t : section_table),
    0 <= i -> i + Z.of_nat n <= e_shnum -> table_in_map m t ->
    read_sections_loop n m e_shoff shstrtab_shdr i t <> Fault /\
    read_sections_loop n m e_shoff shstrtab_shdr i t <> OutOfFuel /\
    (forall t', read_sections_loop n m e_shoff shstrtab_shdr i t = Ok t' ->
                table_in_map m t' /\ t_rela t' = t_rela t).
Proof.
  intros Hoff Hend. induction n as [|n IH]; intros i t Hi Hn Ht;
    cbn [read_sections_loop].
  - split; [discriminate|]. split; [discriminate|]. intros t' [= <-]. auto.
  - destruct (read_section_spec shstrtab_shdr i t Hoff Hend ltac:(lia) Ht)
      as (Hnf & Hfuel & Hok).
    destruct (read_section m e_shoff shstrtab_shdr i t) as [t1| | |];
      cbn [mbind result_bind]; try (repeat split; discriminate); try contradiction.
    destruct (Hok t1 eq_refl) as [Ht1 Hr1].
    destruct (IH (i + 1) t1 ltac:(lia) ltac:(lia) Ht1) as (Hnf' & Hfuel' & Hok').
    split; [exact Hnf'|]. split; [exact Hfuel'|].
    intros t' Ht'. destruct (Hok' t' Ht') as [Hin Hr]. split; [exact Hin|congruence].
Qed.

Lemma read_rela_section_spec (symtab : section)
    (debug : debug_section_id -> section) (i : Z)
    (rela : debug_section_id -> option section) :
  0 <= i < e_shnum -> slots_in_map m rela ->
  read_rela_section m e_shoff symtab debug i rela <> Fault /\
  read_rela_section m e_shoff symtab debug i rela <> OutOfFuel /\
  (forall rela', read_rela_section m e_shoff symtab debug i rela = Ok rela' ->
                 slots_in_map m rela').
Proof.
  intros Hi Hrela. unfold read_rela_section.
  destruct (shdr_entry_in_file m e_shoff e_shnum i shoff_nonneg table_in_file Hi)
    as (shdr & -> & Hname & Hso & Hss).
  cbn [mbind result_bind].
  destruct (sh_type shdr =? SHT_RELA); cbn [negb];
    [|split; [discriminate|]; split; [discriminate|]; now intros rela' [= <-]].
  destruct (rela_target debug (sh_info shdr)) as [j|];
    [|split; [discriminate|]; split; [discriminate|]; now intros rela' [= <-]].
  destruct (sh_link shdr =? shdr_index symtab); cbn [negb];
    [|repeat split; discriminate].
  destruct (validate_shdr_spec m shdr) as (Hnf & Hfuel & Hok).
  destruct (validate_shdr m shdr) as [[]| | |] eqn:Ev;
    cbn [mbind result_bind]; try (repeat split; discriminate); try contradiction.
  split; [discriminate|]. split; [discriminate|]. intros rela' [= <-].
  apply update_slot_in_map; [exact Hrela|].
  exact (section_of_shdr_in_map m i shdr Hso Hss Ev).
Qed.

Lemma read_rela_sections_loop_spec (symtab : section)
    (debug : debug_section_id -> section) (n : nat) :
  forall (i : Z) (rela : debug_section_id -> option section),
    0 <= i -> i + Z.of_nat n <= e_shnum -> slots_in_map m rela ->
    read_rela_sections_loop n m e_shoff symtab debug i rela <> Fault /\
    read_rela_sections_loop n m e_shoff symtab debug i rela <> OutOfFuel /\
    (forall rela',
       read_rela_sections_loop n m e_shoff symtab debug i rela = Ok rela' ->
       slots_in_map m rela').
Proof.
  induction n as [|n IH]; intros i rela Hi Hn Hrela;
    cbn [read_rela_sections_loop].
  - split; [discriminate|]. split; [discriminate|]. now intros rela' [= <-].
  - destruct (read_rela_section_spec symtab debug i rela ltac:(lia) Hrela)
      as (Hnf & Hfuel & Hok).
    destruct (read_rela_section m e_shoff symtab debug i rela) as [rela1| | |];
      cbn [mbind result_bind]; try (repeat split; discriminate); try contradiction.
    apply IH; [lia|lia|now apply Hok].
Qed.

End Headers.

Lemma require_sections_spec (m : list byte) (t : section_table) :
  table_in_map m t ->
  require_sections t <> Fault /\ require_sections t <> OutOfFuel /\
  (forall symtab debug,
     require_sections t = Ok (symtab, debug) ->
     section_in_map m symtab /\ forall id, section_in_map m (debug id)).
Proof.
  intros (Hsym & Hdebug & _). unfold require_sections.
  destruct (t_symtab t) as [symtab|] eqn:Es; [|repeat split; discriminate].
  destruct (t_debug t DEBUG_ABBREV) as [a|] eqn:Ea; [|repeat split; discriminate].
  destruct (t_debug t DEBUG_INFO) as [i|] eqn:Ei; [|repeat split; discriminate].
  destruct (t_debug t DEBUG_STR) as [s|] eqn:Est; [|repeat split; discriminate].
  split; [discriminate|]. split; [discriminate|]. intros symtab' debug [= <- <-].
  split; [now apply Hsym|]. intros []; eauto.
Qed.

Lemma read_sections_spec (map_addr : Z) (m : list byte) :
  read_sections map_addr m <> Fault /\ read_sections map_addr m <> OutOfFuel /\
  (forall f, read_sections map_addr m = Ok f ->
     file_map f = m /\ file_in_map f m /\
     exists e_shoff e_shnum, valid_ehdr m e_shoff e_shnum).
Proof.
  unfold read_sections.
  destruct (validate_ehdr_spec m) as (Hnf & Hfuel & Hok).
  destruct (validate_ehdr m) as [[]| | |];
    cbn [mbind result_bind]; try (repeat split; discriminate); try contradiction.
  destruct (Hok eq_refl) as (e_shoff & e_shnum & Hv).
  pose proof (ehdr_size _ _ _ Hv) as Hsz. unfold sizeof_Elf64_Ehdr in Hsz.
  rewrite (ehdr_shoff _ _ _ Hv), (ehdr_shnum _ _ _ Hv). cbn [mbind result_bind].
  pose proof (ehdr_shnum_pos _ _ _ Hv) as Hnum.
  pose proof (ehdr_shoff_nonneg _ _ _ Hv) as Hoff.
  pose proof (ehdr_table _ _ _ Hv) as Htab.
  destruct (load_in_file m offsetof_e_shstrndx 2) as (e_shstrndx & -> & Hndx);
    [unfold offsetof_e_shstrndx; lia|unfold offsetof_e_shstrndx; simpl; lia|].
  cbn [mbind result_bind].
  assert (Hx : exists shstrndx,
            (if e_shstrndx =? SHN_XINDEX
             then shdr_entry m e_shoff 0 ≫= fun shdr0 => Ok (sh_link shdr0 mod 2 ^ 16)
             else Ok e_shstrndx) = Ok shstrndx /\ 0 <= shstrndx).
  { destruct (e_shstrndx =? SHN_XINDEX); [|eauto].
    destruct (shdr_entry_in_file m e_shoff e_shnum 0 Hoff Htab ltac:(lia))
      as (shdr0 & -> & _).
    cbn [mbind result_bind]. eexists. split; [reflexivity|].
    apply Z.mod_pos_bound. lia. }
  destruct Hx as (shstrndx & -> & Hstr). cbn [mbind result_bind].
  destruct ((shstrndx =? SHN_UNDEF) || (shstrndx >=? e_shnum)) eqn:Cx;
    [repeat split; discriminate|].
  apply orb_false_iff in Cx as [_ Cx]. rewrite Z.geb_leb in Cx. apply Z.leb_gt in Cx.
  destruct (shdr_entry_in_file m e_shoff e_shnum shstrndx Hoff Htab ltac:(lia))
    as (shstrtab & -> & _ & Hso & Hss).
  cbn [mbind result_bind].
  destruct (validate_shdr_spec m shstrtab) as (Hnf1 & Hfuel1 & Hok1).
  destruct (validate_shdr m shstrtab) as [[]| | |];
    cbn [mbind result_bind]; try (repeat split; discriminate); try contradiction.
  specialize (Hok1 eq_refl).
  assert (Hempty : table_in_map m empty_table).
  { repeat split; intros; discriminate. }
  destruct (read_sections_loop_spec m e_shoff e_shnum Hoff Htab shstrtab
              (Z.to_nat e_shnum) Hso Hok1 0 empty_table ltac:(lia) ltac:(lia) Hempty)
    as (Hnf2 & Hfuel2 & Hok2).
  destruct (read_sections_loop (Z.to_nat e_shnum) m e_shoff shstrtab 0 empty_table)
    as [t| | |]; cbn [mbind result_bind];
    try (repeat split; discriminate); try contradiction.
  destruct (Hok2 t eq_refl) as [Ht Hrela_t].
  destruct (require_sections_spec m t Ht) as (Hnf3 & Hfuel3 & Hok3).
  destruct (require_sections t) as [[symtab debug]| | |];
    cbn [mbind result_bind]; try (repeat split; discriminate); try contradiction.
  destruct (Hok3 symtab debug eq_refl) as [Hsym Hdebug].
  destruct (read_rela_sections_loop_spec m e_shoff e_shnum Hoff Htab symtab debug
              (Z.to_nat e_shnum) 0 (t_rela t) ltac:(lia) ltac:(lia)
              (proj2 (proj2 Ht)))
    as (Hnf4 & Hfuel4 & Hok4).
  destruct (read_rela_sections_loop (Z.to_nat e_shnum) m e_shoff symtab debug 0
              (t_rela t)) as [rela| | |];
    cbn [mbind result_bind]; try (repeat split; discriminate); try contradiction.
  specialize (Hok4 rela eq_refl).
  split; [discriminate|]. split; [discriminate|]. intros f [= <-]. cbn.
  split; [reflexivity|]. split; [|eauto].
  split; [exact Hsym|]. intros id. split; [apply Hdebug|]. cbn.
  destruct (rela id) as [s|] eqn:Er; cbn [section_or_zero].
  - exact (Hok4 id s Er).
  - unfold section_in_map, no_section. cbn. lia.
Qed.

(** X12: whatever bytes a mapping holds, [read_sections] never reads
    outside it; and when it succeeds, the symbol table, the three debug
    sections and their RELA sections (those that were found) all lie
    inside the mapping. *)
Theorem read_sections_in_map (map_addr : Z) (m : list byte) :
  read_sections map_addr m <> Fault /\
  (forall f, read_sections map_addr m = Ok f -> file_map f = m /\ file_in_map f m).
Proof.
  destruct (read_sections_spec map_addr m) as (Hnf & _ & Hok).
  split; [exact Hnf|]. intros f Hf. destruct (Hok f Hf) as (Hm & Hin & _). auto.
Qed.

Lemma read_sections_in_map_witness :
  exists f,
    read_sections EXAMPLE_MAP_ADDR example_elf = Ok f /\
    file_map f = example_elf /\ file_in_map f example_elf.
Proof.
  destruct (read_sections EXAMPLE_MAP_ADDR example_elf) as [f| | |] eqn:E;
    [|exfalso; vm_compute in E; discriminate ..].
  exists f. split; [reflexivity|].
  destruct (read_sections_in_map EXAMPLE_MAP_ADDR example_elf) as [_ Hok]. exact (Hok f E).
Defined.

(** X13: [read_sections] accepts only a mapping of at least 64 bytes that
    starts with the ELF magic, is of class ELF-64, little endian and of
    version [EV_CURRENT], and whose section header table, of at least one
    header, lies inside the mapping.  A mapping shorter than [EI_NIDENT]
    bytes is reported as not an ELF file. *)
Theorem read_sections_accepts_elf64 (map_addr : Z) (m : list byte) :
  (forall f,
     read_sections map_addr m = Ok f ->
     sizeof_Elf64_Ehdr <= file_size m /\
     e_ident m 0 = Ok ELFMAG0 /\ e_ident m 1 = Ok ELFMAG1 /\
     e_ident m 2 = Ok ELFMAG2 /\ e_ident m 3 = Ok ELFMAG3 /\
     e_ident m EI_CLASS = Ok ELFCLASS64 /\
     e_ident m EI_DATA = Ok ELFDATA2LSB /\
     e_ident m EI_VERSION = Ok EV_CURRENT /\
     exists e_shoff e_shnum,
       load m offsetof_e_shoff 8 = Ok e_shoff /\
       load m offsetof_e_shnum 2 = Ok e_shnum /\
       0 < e_shnum /\
       e_shoff + sizeof_Elf64_Shdr * e_shnum <= file_size m) /\
  (file_size m < EI_NIDENT ->
   read_sections map_addr m = Raise (ElfFormatError NOT_AN_ELF_FILE)).
Proof.
  split.
  - intros f Hf. destruct (read_sections_spec map_addr m) as (_ & _ & Hok).
    destruct (Hok f Hf) as (_ & _ & e_shoff & e_shnum & Hv).
    destruct Hv. repeat (split; [assumption|]).
    exists e_shoff, e_shnum. repeat (split; [assumption || lia|]). assumption.
  - intros Hshort. unfold read_sections, validate_ehdr, has_elf_magic.
    replace (file_size m <? EI_NIDENT) with true by (symmetry; now apply Z.ltb_lt).
    reflexivity.
Qed.

Lemma read_sections_accepts_elf64_witness :
  e_ident example_elf EI_CLASS = Ok ELFCLASS64 /\
  read_sections EXAMPLE_MAP_ADDR [x7f; x45; x4c; x46] = Raise (ElfFormatError NOT_AN_ELF_FILE).
Proof.
  split.
  - destruct (read_sections EXAMPLE_MAP_ADDR example_elf) as [f| | |] eqn:E;
      [|exfalso; vm_compute in E; discriminate ..].
    destruct (read_sections_accepts_elf64 EXAMPLE_MAP_ADDR example_elf) as [Hok _].
    destruct (Hok f E) as (_ & _ & _ & _ & _ & Hclass & _). exact Hclass.
  - destruct (read_sections_accepts_elf64 EXAMPLE_MAP_ADDR [x7f; x45; x4c; x46]) as [_ Hshort].
    apply Hshort. vm_compute. reflexivity.
Defined.

(** ** Relocating a file that [read_sections] accepted *)

Lemma file_in_map_length (f : file) (m m' : list byte) :
  length m' = length m -> file_in_map f m -> file_in_map f m'.
Proof.
  intros Hlen [Hsym Hsecs]. split; [now apply (section_in_map_length m)|].
  intros id. destruct (Hsecs id).
  split; now apply (section_in_map_length m).
Qed.

Lemma relocate_file_safe (f : file) :
  file_in_map f (file_map f) ->
  relocate_file f <> Fault /\
  (forall m',
     relocate_file f = Ok m' ->
     length m' = length (file_map f) /\
     forall k : nat,
       (forall id, ~ (sec_buffer (debug_sections f id) <= Z.of_nat k
                      < sec_buffer (debug_sections f id)
                        + sec_size (debug_sections f id))) ->
       m' !! k = file_map f !! k).
Proof.
  intros Hin. unfold relocate_file.
  assert (Hstep : forall m id,
            length m = length (file_map f) ->
            apply_relocations m (debug_sections f id) (rela_sections f id)
              (symtab f) <> Fault /\
            forall m', apply_relocations m (debug_sections f id)
                         (rela_sections f id) (symtab f) = Ok m' ->
                       same_outside (debug_sections f id) m m').
  { intros m id Hlen.
    destruct (file_in_map_length f _ m Hlen Hin) as [Hsym Hsecs].
    destruct (Hsecs id). now apply apply_relocations_safe. }
  destruct (Hstep (file_map f) DEBUG_ABBREV eq_refl) as [Hnf1 Hok1].
  destruct (apply_relocations (file_map f) _ _ _) as [m1| | |];
    cbn [mbind result_bind];
    try (split; [discriminate|intros ? ?; discriminate]); try contradiction.
  destruct (Hok1 m1 eq_refl) as [Hl1 Hs1].
  destruct (Hstep m1 DEBUG_INFO Hl1) as [Hnf2 Hok2].
  destruct (apply_relocations m1 _ _ _) as [m2| | |];
    cbn [mbind result_bind];
    try (split; [discriminate|intros ? ?; discriminate]); try contradiction.
  destruct (Hok2 m2 eq_refl) as [Hl2 Hs2].
  destruct (Hstep m2 DEBUG_STR ltac:(congruence)) as [Hnf3 Hok3].
  split; [exact Hnf3|]. intros m' Hm'.
  destruct (Hok3 m' Hm') as [Hl3 Hs3].
  split; [congruence|]. intros k Hk.
  rewrite Hs3, Hs2, Hs1 by apply Hk. reflexivity.
Qed.

(** X14: for a file that [read_sections] accepted, the three calls of
    [apply_relocations] never read or write outside the mapping; when they
    succeed the mapping has kept its length, the sections still lie inside
    it, and every byte outside the three debug sections is unchanged. *)
Theorem relocate_file_memory_safe (map_addr : Z) (m : list byte) (f : file) :
  read_sections map_addr m = Ok f ->
  relocate_file f <> Fault /\
  (forall m',
     relocate_file f = Ok m' ->
     length m' = length m /\ file_in_map f m' /\
     forall k : nat,
       (forall id, ~ (sec_buffer (debug_sections f id) <= Z.of_nat k
                      < sec_buffer (debug_sections f id)
                        + sec_size (debug_sections f id))) ->
       m' !! k = m !! k).
Proof.
  intros Hf. destruct (read_sections_spec map_addr m) as (_ & _ & Hok).
  destruct (Hok f Hf) as (Hm & Hin & _). rewrite <- Hm in Hin.
  destruct (relocate_file_safe f Hin) as [Hnf Hsafe].
  split; [exact Hnf|]. intros m' Hm'. destruct (Hsafe m' Hm') as [Hlen Hout].
  rewrite Hm in *. split; [exact Hlen|]. split; [|exact Hout].
  now apply (file_in_map_length f m).
Qed.

Lemma relocate_file_memory_safe_witness :
  exists f m',
    read_sections EXAMPLE_MAP_ADDR example_elf = Ok f /\ relocate_file f = Ok m' /\
    length m' = length example_elf /\ file_in_map f m'.
Proof.
  destruct (read_sections EXAMPLE_MAP_ADDR example_elf) as [f| | |] eqn:E;
    [|exfalso; vm_compute in E; discriminate ..].
  destruct (relocate_file_memory_safe EXAMPLE_MAP_ADDR example_elf f E) as [Hnf Hok].
  destruct (relocate_file f) as [m'| | |] eqn:Er.
  - exists f, m'. destruct (Hok m' eq_refl) as (Hlen & Hin & _). auto.
  - exfalso. vm_compute in E. inversion E; subst f. vm_compute in Er. discriminate.
  - contradiction.
  - exfalso. vm_compute in E. inversion E; subst f. vm_compute in Er. discriminate.
Defined.

(** ** Which header a section comes from *)

Lemma slot_of_set_slot (t : section_table) (slot0 slot : section_slot)
    (s : section) :
  slot_of (set_slot t slot0 s) slot
  = if decide (slot = slot0) then Some s else slot_of t slot.
Proof.
  destruct (decide (slot = slot0)) as [->|Hne].
  - destruct slot0 as [|id0]; cbn; [reflexivity|].
    unfold update_slot. destruct (decide (id0 = id0)); [reflexivity|contradiction].
  - destruct slot0 as [|id0], slot as [|id]; cbn; try reflexivity; try contradiction.
    unfold update_slot. destruct (decide (id = id0)) as [->|_]; [contradiction|reflexivity].
Qed.

Lemma read_section_tracks (m : list byte) (e_shoff : Z) (shstrtab_shdr : Elf64_Shdr)
    (i : Z) (t t' : section_table) :
  0 <= i ->
  read_section m e_shoff shstrtab_shdr i t = Ok t' ->
  table_tracks m e_shoff shstrtab_shdr i t ->
  table_tracks m e_shoff shstrtab_shdr (i + 1) t'.
Proof.
  intros Hi H Ht. unfold read_section in H.
  apply bind_Ok in H as (shdr & Eshdr & H).
  apply bind_Ok in H as (sel & Esel & H).
  assert (Hext : forall slot,
            sel <> Some slot ->
            match slot_of t slot with
            | Some s => last_selected m e_shoff shstrtab_shdr (i + 1) slot s
            | None => none_selected m e_shoff shstrtab_shdr (i + 1) slot
            end).
  { intros slot Hne. specialize (Ht slot).
    destruct (slot_of t slot) as [s|].
    - destruct Ht as (i0 & shdr0 & Hi0 & E0 & S0 & -> & Hlast).
      exists i0, shdr0. split; [lia|]. split; [exact E0|]. split; [exact S0|].
      split; [reflexivity|]. intros j shdr' Hj Ej.
      destruct (Z.eq_dec j i) as [->|Hji].
      + rewrite Eshdr in Ej. inversion Ej; subst shdr'. rewrite Esel. congruence.
      + apply (Hlast j); [lia|exact Ej].
    - intros j shdr' Hj Ej.
      destruct (Z.eq_dec j i) as [->|Hji].
      + rewrite Eshdr in Ej. inversion Ej; subst shdr'. rewrite Esel. congruence.
      + apply (Ht j); [lia|exact Ej]. }
  destruct sel as [slot0|].
  - apply bind_Ok in H as ([] & _ & H). inversion H; subst t'.
    intros slot. rewrite slot_of_set_slot.
    destruct (decide (slot = slot0)) as [->|Hne].
    + exists i, shdr. split; [lia|]. split; [exact Eshdr|]. split; [exact Esel|].
      split; [reflexivity|]. intros j shdr' Hj. lia.
    + apply Hext. congruence.
  - inversion H; subst t'. intros slot. apply Hext. discriminate.
Qed.

Lemma read_sections_loop_tracks (m : list byte) (e_shoff : Z)
    (shstrtab_shdr : Elf64_Shdr) (n : nat) :
  forall (i : Z) (t t' : section_table),
    0 <= i ->
    read_sections_loop n m e_shoff shstrtab_shdr i t = Ok t' ->
    table_tracks m e_shoff shstrtab_shdr i t ->
    table_tracks m e_shoff shstrtab_shdr (i + Z.of_nat n) t'.
Proof.
  induction n as [|n IH]; intros i t t' Hi H Ht; cbn [read_sections_loop] in H.
  - inversion H; subst. now rewrite Z.add_0_r.
  - apply bind_Ok in H as (t1 & H1 & H).
    apply (read_section_tracks _ _ _ _ _ _ Hi H1) in Ht.
    apply (IH (i + 1)) in H; [|lia|exact Ht].
    now replace (i + Z.of_nat (S n)) with (i + 1 + Z.of_nat n) by lia.
Qed.

Lemma select_symtab_iff (m : list byte) (shstrtab_shdr shdr : Elf64_Shdr) :
  select_slot m shstrtab_shdr shdr = Ok (Some SlotSymtab)
  <-> sh_type shdr = SHT_SYMTAB.
Proof.
  unfold select_slot. destruct (sh_type shdr =? SHT_PROGBITS) eqn:Ep.
  - apply Z.eqb_eq in Ep. split; [|rewrite Ep; discriminate].
    destruct (_ || _); [discriminate|].
    intros H. apply bind_Ok in H as ([id|] & _ & H); discriminate.
  - destruct (sh_type shdr =? SHT_SYMTAB) eqn:Es.
    + apply Z.eqb_eq in Es. tauto.
    + apply Z.eqb_neq in Es. split; [discriminate|contradiction].
Qed.




(** ** Reading the compilation units *)

Lemma returns_bind {A B : Type} (x : result A) (k : A -> result B) :
  returns x -> (forall a, x = Ok a -> returns (k a)) -> returns (x ≫= k).
Proof.
  intros Hx Hk. destruct x as [a|e| |]; cbn [mbind result_bind] in *;
    [now apply Hk|exact I|contradiction|contradiction].
Qed.

Lemma returns_spec {A : Type} (r : result A) :
  returns r <-> r <> Fault /\ r <> OutOfFuel.
Proof.
  destruct r; cbn; split; try tauto; try (intros; split; discriminate);
    intros [H1 H2]; congruence.
Qed.

Lemma read_u_returns (n : nat) (m : list byte) (ptr end_ : Z) :
  0 <= ptr -> end_ <= Z.of_nat (length m) -> returns (read_u n m ptr end_).
Proof.
  intros Hp He. unfold read_u.
  destruct (in_bounds ptr end_ (Z.of_nat n)) eqn:E; cbn [negb]; [|exact I].
  apply in_bounds_true in E.
  destruct (load_ok_in_map m ptr n) as [v ->]; [lia|lia|]. exact I.
Qed.

Lemma read_u_value (n : nat) (m : list byte) (ptr end_ v p : Z) :
  read_u n m ptr end_ = Ok (v, p) ->
  0 <= v < 2 ^ (8 * Z.of_nat n) /\ p = ptr + Z.of_nat n /\ p <= end_.
Proof.
  intros H. apply read_u_inv in H as (Hb & Hload & ->).
  apply in_bounds_true in Hb. split; [|lia].
  unfold load in Hload. destruct (_ || _) eqn:E; [discriminate|].
  apply orb_false_iff in E as [E1 E2].
  apply Z.ltb_ge in E1. apply Z.ltb_ge in E2.
  inversion Hload.
  pose proof (le_decode_range (take n (bytes_from m ptr))) as Hr.
  rewrite length_take in Hr. unfold bytes_from in Hr. rewrite length_drop in Hr.
  replace (n `min` (length m - Z.to_nat ptr))%nat with n in Hr by lia. exact Hr.
Qed.

Lemma read_uleb128_returns (m : list byte) (ptr end_ : Z) :
  0 <= ptr -> end_ <= Z.of_nat (length m) -> returns (read_uleb128 m ptr end_).
Proof.
  intros Hp He. apply returns_spec. split.
  - now apply read_uleb128_no_fault.
  - apply read_uleb128_fuel_free.
Qed.

(** What an accepted unit header looks like. *)
Lemma read_compilation_unit_header_inv (m : list byte) (ptr end_ : Z)
    (cu : compilation_unit) :
  read_compilation_unit_header m ptr end_ = Ok cu ->
  cu_ptr cu = ptr /\ abbrev_decls cu = [] /\
  (version cu = 2 \/ version cu = 3 \/ version cu = 4) /\
  0 <= unit_length cu < 2 ^ 64 /\
  0 <= debug_abbrev_offset cu < 2 ^ 64 /\
  0 <= address_size cu < 2 ^ 8 /\
  ptr + (if is_64_bit cu then 23 else 11) <= end_ /\
  (if is_64_bit cu
   then read_u32 m ptr end_ = Ok (0xffffffff, ptr + 4) /\
        read_u64 m (ptr + 4) end_ = Ok (unit_length cu, ptr + 12) /\
        unit_length cu < 2 ^ 64
   else read_u32 m ptr end_ = Ok (unit_length cu, ptr + 4) /\
        unit_length cu < 0xffffffff).
Proof.
  unfold read_compilation_unit_header. intros H.
  apply bind_Ok in H as ([tmp p1] & E1 & H).
  pose proof (read_u_value _ _ _ _ _ _ E1) as (Htmp & -> & _).
  change (Z.of_nat 4) with 4 in *. change (2 ^ (8 * 4)) with (2 ^ 32) in Htmp.
  destruct (tmp =? 0xffffffff) eqn:E64.
  - apply Z.eqb_eq in E64. subst tmp.
    apply bind_Ok in H as ([len p2] & E2 & H).
    pose proof (read_u_value _ _ _ _ _ _ E2) as (Hlen & -> & _).
    apply bind_Ok in H as ([ver p3] & E3 & H).
    pose proof (read_u_value _ _ _ _ _ _ E3) as (_ & -> & _).
    destruct ((ver =? 2) || (ver =? 3) || (ver =? 4)) eqn:Ev; [|discriminate].
    cbn [negb] in H.
    apply bind_Ok in H as ([off p4] & E4 & H).
    pose proof (read_u_value _ _ _ _ _ _ E4) as (Hoff & -> & _).
    apply bind_Ok in H as ([asize p5] & E5 & H).
    pose proof (read_u_value _ _ _ _ _ _ E5) as (Hasize & -> & Hend).
    inversion H; subst cu. cbn.
    change (Z.of_nat 8) with 8 in *. change (Z.of_nat 2) with 2 in *.
    change (Z.of_nat 1) with 1 in *.
    change (2 ^ (8 * 8)) with (2 ^ 64) in *. change (2 ^ (8 * 1)) with (2 ^ 8) in *.
    assert (Hver : ver = 2 \/ ver = 3 \/ ver = 4).
    { apply orb_true_iff in Ev as [Ev|Ev]; [apply orb_true_iff in Ev as [Ev|Ev]|];
        apply Z.eqb_eq in Ev; auto. }
    replace (ptr + 12) with (ptr + 4 + 8) by lia.
    repeat split; try lia; assumption.
  - apply Z.eqb_neq in E64.
    apply bind_Ok in H as ([len p2] & E2 & H). inversion E2; subst len p2.
    apply bind_Ok in H as ([ver p3] & E3 & H).
    pose proof (read_u_value _ _ _ _ _ _ E3) as (_ & -> & _).
    destruct ((ver =? 2) || (ver =? 3) || (ver =? 4)) eqn:Ev; [|discriminate].
    cbn [negb] in H.
    apply bind_Ok in H as ([off p4] & E4 & H).
    pose proof (read_u_value _ _ _ _ _ _ E4) as (Hoff & -> & _).
    apply bind_Ok in H as ([asize p5] & E5 & H).
    pose proof (read_u_value _ _ _ _ _ _ E5) as (Hasize & -> & Hend).
    inversion H; subst cu. cbn.
    change (Z.of_nat 4) with 4 in *. change (Z.of_nat 2) with 2 in *.
    change (Z.of_nat 1) with 1 in *.
    change (2 ^ (8 * 4)) with (2 ^ 32) in *. change (2 ^ (8 * 1)) with (2 ^ 8) in *.
    assert (Hver : ver = 2 \/ ver = 3 \/ ver = 4).
    { apply orb_true_iff in Ev as [Ev|Ev]; [apply orb_true_iff in Ev as [Ev|Ev]|];
        apply Z.eqb_eq in Ev; auto. }
    change (2 ^ 32) with 4294967296 in *.
    change (2 ^ 64) with 18446744073709551616.
    split; [reflexivity|]. split; [reflexivity|]. split; [exact Hver|].
    split; [lia|]. split; [lia|]. split; [exact Hasize|]. split; [lia|].
    split; [exact E1|lia].
Qed.

Lemma read_compilation_unit_header_returns (m : list byte) (ptr end_ : Z) :
  0 <= ptr -> end_ <= Z.of_nat (length m) ->
  returns (read_compilation_unit_header m ptr end_).
Proof.
  intros Hp He. unfold read_compilation_unit_header.
  apply returns_bind; [now apply read_u_returns|]. intros [tmp p1] E1.
  pose proof (read_u_value _ _ _ _ _ _ E1) as (_ & -> & _).
  apply returns_bind.
  { destruct (tmp =? 0xffffffff); [apply read_u_returns; lia|exact I]. }
  intros [len p2] E2.
  assert (Hp2 : 0 <= p2).
  { destruct (tmp =? 0xffffffff).
    - pose proof (read_u_value _ _ _ _ _ _ E2) as (_ & -> & _). lia.
    - inversion E2. lia. }
  apply returns_bind; [now apply read_u_returns|]. intros [ver p3] E3.
  pose proof (read_u_value _ _ _ _ _ _ E3) as (_ & -> & _).
  destruct (negb _); [exact I|].
  apply returns_bind.
  { destruct (tmp =? 0xffffffff); apply read_u_returns; lia. }
  intros [off p4] E4.
  assert (Hp4 : 0 <= p4).
  { destruct (tmp =? 0xffffffff);
      pose proof (read_u_value _ _ _ _ _ _ E4) as (_ & -> & _); lia. }
  apply returns_bind; [now apply read_u_returns|]. intros [asize p5] E5. exact I.
Qed.

Lemma read_compilation_unit_header_fields (m : list byte) (ptr end_ : Z)
    (cu : compilation_unit) :
  read_compilation_unit_header m ptr end_ = Ok cu ->
  if is_64_bit cu
  then load m ptr 4 = Ok 0xffffffff /\
       load m (ptr + 4) 8 = Ok (unit_length cu) /\
       load m (ptr + 14) 8 = Ok (debug_abbrev_offset cu)
  else debug_abbrev_offset cu < 2 ^ 32.
Proof.
  unfold read_compilation_unit_header. intros H.
  apply bind_Ok in H as ([tmp p1] & E1 & H).
  apply read_u_inv in E1 as (_ & L1 & ->).
  destruct (tmp =? 0xffffffff) eqn:E64.
  - apply Z.eqb_eq in E64. subst tmp.
    apply bind_Ok in H as ([len p2] & E2 & H).
    apply read_u_inv in E2 as (_ & L2 & ->).
    apply bind_Ok in H as ([ver p3] & E3 & H).
    apply read_u_inv in E3 as (_ & _ & ->).
    destruct (negb _); [discriminate|].
    apply bind_Ok in H as ([off p4] & E4 & H).
    apply read_u_inv in E4 as (_ & L4 & ->).
    apply bind_Ok in H as ([asize p5] & E5 & H).
    inversion H; subst cu. cbn.
    change (Z.of_nat 4) with 4 in *. change (Z.of_nat 8) with 8 in *.
    change (Z.of_nat 2) with 2 in *.
    replace (ptr + 14) with (ptr + 4 + 8 + 2) by lia. auto.
  - apply bind_Ok in H as ([len p2] & E2 & H).
    apply bind_Ok in H as ([ver p3] & E3 & H).
    destruct (negb _); [discriminate|].
    apply bind_Ok in H as ([off p4] & E4 & H).
    apply bind_Ok in H as ([asize p5] & E5 & H).
    inversion H; subst cu. cbn.
    apply read_u_value in E4 as (Hoff & _). exact (proj2 Hoff).
Qed.

(** X15: [read_compilation_unit_header] accepts a header only if its
    version is 2, 3 or 4 and all of it lies before [end_]: 11 bytes in the
    32-bit format and 23 bytes in the 64-bit format, which a first word of
    [0xffffffff] selects.  In the 32-bit format the sum [4 + unit_length]
    of lines 851 and 896 does not wrap.  [index_cu] starts to read the DIEs
    just past the header and ends the unit where that sum, taken modulo
    [2^64], lands from the start of the unit. *)
Theorem unit_header_accepted (m : list byte) (ptr end_ : Z) (cu : compilation_unit) :
  read_compilation_unit_header m ptr end_ = Ok cu ->
  cu_ptr cu = ptr /\
  (version cu = 2 \/ version cu = 3 \/ version cu = 4) /\
  ptr + (if is_64_bit cu then 23 else 11) <= end_ /\
  (if is_64_bit cu
   then read_u32 m ptr end_ = Ok (0xffffffff, ptr + 4) /\
        read_u64 m (ptr + 4) end_ = Ok (unit_length cu, ptr + 12) /\
        unit_length cu < 2 ^ 64
   else read_u32 m ptr end_ = Ok (unit_length cu, ptr + 4) /\
        unit_length cu < 0xffffffff) /\
  0 <= address_size cu < 2 ^ 8 /\
  (is_64_bit cu = false -> unit_size cu = 4 + unit_length cu) /\
  (forall fuel self map_addr file_idx cu_idx str,
     index_cu fuel self map_addr m file_idx cu_idx str cu =
     index_cu_loop fuel self m file_idx cu_idx str cu
       (ptr_add map_addr ptr (((if is_64_bit cu then 12 else 4) + unit_length cu)
                                mod 2 ^ 64))
       (ptr + (if is_64_bit cu then 23 else 11)) 0).
Proof.
  intros H. apply read_compilation_unit_header_inv in H
    as (Hptr & _ & Hver & Hul & _ & Hasize & Hend & Hfmt).
  repeat (split; [assumption|]). split.
  - intros H32. rewrite H32 in Hfmt. destruct Hfmt as [_ Hlt].
    rewrite unit_size_small; rewrite ?H32; unfold UINT64_MOD; lia.
  - intros. unfold index_cu. now rewrite Hptr.
Qed.

Lemma unit_header_accepted_witness :
  exists cu,
    read_compilation_unit_header (example_unit 8 [x00]) 0 12 = Ok cu /\
    cu_ptr cu = 0 /\ (version cu = 2 \/ version cu = 3 \/ version cu = 4) /\
    0 + (if is_64_bit cu then 23 else 11) <= 12.
Proof.
  destruct (read_compilation_unit_header (example_unit 8 [x00]) 0 12)
    as [cu| | |] eqn:E; [|exfalso; vm_compute in E; discriminate ..].
  exists cu. split; [reflexivity|].
  destruct (unit_header_accepted _ _ _ _ E) as (H1 & H2 & H3 & _). auto.
Defined.

(** ** [read_cus] ends, inside the mapping *)

Lemma read_attribs_returns (cu : compilation_unit) (m : list byte) (end_ : Z)
    (fuel : nat) :
  end_ <= Z.of_nat (length m) ->
  forall (ptr tag : Z) (cmds : list Z),
    0 <= ptr -> (0 < fuel)%nat -> end_ - ptr < Z.of_nat fuel ->
    returns (read_attribs fuel m ptr end_ cu tag cmds).
Proof.
  intros He. induction fuel as [|fuel IH]; intros ptr tag cmds Hp Hpos Hfuel; [lia|].
  cbn [read_attribs].
  apply returns_bind; [now apply read_uleb128_returns|]. intros [name p1] E1.
  apply read_uleb128_advance in E1.
  apply returns_bind; [apply read_uleb128_returns; lia|]. intros [form p2] E2.
  apply read_uleb128_advance in E2.
  destruct ((name =? 0) && (form =? 0)); [exact I|].
  destruct (attr_special name form tag) as [[cmd|] tag'].
  - apply IH; lia.
  - destruct (form_cmd cu form); try exact I; apply IH; lia.
Qed.

Lemma read_abbrev_table_loop_returns (fuel : nat) (m : list byte) (end_ : Z)
    (n : nat) :
  end_ <= Z.of_nat (length m) ->
  forall (ptr : Z) (cu : compilation_unit),
    0 <= ptr -> (0 < n)%nat -> (0 < fuel)%nat ->
    end_ - ptr < Z.of_nat n -> end_ - ptr < Z.of_nat fuel ->
    returns (read_abbrev_table_loop n fuel m ptr end_ cu).
Proof.
  intros He. induction n as [|n IH]; intros ptr cu Hp Hn Hfuel Hlen Hlen'; [lia|].
  cbn [read_abbrev_table_loop]. unfold read_abbrev_decl.
  destruct (read_uleb128 m ptr end_) as [[code p]| | |] eqn:E1;
    cbn [mbind result_bind]; try exact I;
    [|now apply read_uleb128_no_fault in E1
     |now apply read_uleb128_fuel_free in E1].
  apply read_uleb128_advance in E1.
  destruct (code =? 0); [exact I|].
  destruct (negb (code =? num_abbrev_decls cu + 1)); [exact I|].
  destruct (read_uleb128 m p end_) as [[tag p1]| | |] eqn:E2;
    cbn [mbind result_bind]; try exact I;
    [|apply read_uleb128_no_fault in E2; [contradiction|lia|lia]
     |now apply read_uleb128_fuel_free in E2].
  apply read_uleb128_advance in E2.
  pose proof (read_u_returns 1 m p1 end_ ltac:(lia) He) as H3.
  unfold read_u8.
  destruct (read_u 1 m p1 end_) as [[children p2]| | |] eqn:E3;
    cbn [mbind result_bind]; try exact I; try contradiction.
  assert (Hp2 : p2 = p1 + 1) by (apply read_u_inv in E3; tauto).
  subst p2.
  pose proof (read_attribs_returns cu m end_ fuel He (p1 + 1)
                (if indexed_tag tag then tag else 0) [] ltac:(lia) Hfuel
                ltac:(lia)) as H4.
  destruct (read_attribs fuel m (p1 + 1) end_ cu
              (if indexed_tag tag then tag else 0) [])
    as [[[p3 tag'] cmds']| | |] eqn:E4; cbn [mbind result_bind];
    try exact I; try contradiction.
  cbn [Z.eqb Pos.eqb].
  apply read_attribs_advance in E4.
  apply IH; lia.
Qed.

Lemma read_abbrev_table_keeps (fuel : nat) (m : list byte) (ptr end_ : Z)
    (cu cu' : compilation_unit) :
  read_abbrev_table fuel m ptr end_ cu = Ok cu' ->
  is_64_bit cu' = is_64_bit cu /\ unit_length cu' = unit_length cu /\
  cu_ptr cu' = cu_ptr cu /\ address_size cu' = address_size cu.
Proof.
  unfold read_abbrev_table. intros H.
  apply read_abbrev_table_loop_inv in H as (new & -> & _). cbn. auto.
Qed.

Lemma read_cus_loop_returns (fuel : nat) (m : list byte) (f : file) (n : nat) :
  section_in_map m (debug_sections f DEBUG_INFO) ->
  section_in_map m (debug_sections f DEBUG_ABBREV) ->
  0 <= file_addr f ->
  file_addr f + Z.of_nat (length m) + 12 <= 2 ^ 63 ->
  dwarf64_fields_sane m (debug_sections f DEBUG_INFO) ->
  sec_size (debug_sections f DEBUG_ABBREV) < Z.of_nat fuel ->
  forall (self : DwarfIndex) (ptr : Z) (cus : list compilation_unit),
    sec_buffer (debug_sections f DEBUG_INFO) <= ptr -> (0 < n)%nat ->
    section_end (debug_sections f DEBUG_INFO) - ptr < Z.of_nat n ->
    returns (read_cus_loop n fuel self m f ptr cus).
Proof.
  intros (Hib & His & Hie) (Hab & Has & Hae) Haddr Hroom Hsane Hfuel.
  change (2 ^ 63) with 9223372036854775808 in Hroom.
  induction n as [|n IH]; intros self ptr cus Hp Hn Hlen; [lia|].
  cbn [read_cus_loop].
  destruct (ptr <? _) eqn:Elt; cbn [negb]; [|exact I].
  apply Z.ltb_lt in Elt. unfold section_end in Elt, Hlen.
  apply returns_bind;
    [apply read_compilation_unit_header_returns; unfold section_end; lia|].
  intros cu Ecu.
  pose proof (read_compilation_unit_header_fields _ _ _ _ Ecu) as Hfields.
  apply read_compilation_unit_header_inv in Ecu
    as (Hptr & _ & _ & Hul & Hoff & _ & Hend & Hfmt).
  assert (Hbound : unit_length cu < 2 ^ 63 /\ debug_abbrev_offset cu < 2 ^ 63).
  { destruct (is_64_bit cu).
    - destruct Hfields as (L1 & L2 & L4).
      exact (Hsane ptr _ _ Hp Hend L1 L2 L4).
    - destruct Hfmt as [_ Hul32]. change (2 ^ 32) with 4294967296 in Hfields.
      change (2 ^ 63) with 9223372036854775808. lia. }
  destruct Hbound as [Hul63 Hoff63].
  change (2 ^ 63) with 9223372036854775808 in *.
  change (2 ^ 64) with 18446744073709551616 in *.
  rewrite ptr_add_small by (unfold UINT64_MOD; lia).
  apply returns_bind.
  - unfold read_abbrev_table, section_end.
    apply read_abbrev_table_loop_returns; lia.
  - intros cu' Ecu'. apply read_abbrev_table_keeps in Ecu' as (H64 & Hlen' & _).
    assert (Hsize : unit_size cu'
                    = (if is_64_bit cu then 12 else 4) + unit_length cu).
    { rewrite unit_size_small; rewrite ?H64, ?Hlen'; unfold UINT64_MOD;
        destruct (is_64_bit cu); lia. }
    rewrite Hsize.
    rewrite ptr_add_small by (unfold UINT64_MOD; destruct (is_64_bit cu); lia).
    apply IH; unfold section_end; destruct (is_64_bit cu); lia.
Qed.




(** ** The interpreter of the skip programs *)

Lemma skip_leb128_loop_advance (bs : list byte) :
  forall ptr end_ p, skip_leb128_loop bs ptr end_ = Ok p -> ptr < p <= end_.
Proof.
  induction bs as [|b bs IH]; intros ptr end_ p H; cbn [skip_leb128_loop] in H.
  - destruct (ptr >=? end_); discriminate.
  - destruct (ptr >=? end_) eqn:E; [discriminate|].
    rewrite Z.geb_leb in E. apply Z.leb_gt in E.
    destruct (Z.land (u8 b) 128 =? 0).
    + inversion H. lia.
    + apply IH in H. lia.
Qed.

Lemma skip_leb128_advance (m : list byte) (ptr end_ p : Z) :
  skip_leb128 m ptr end_ = Ok p -> ptr < p <= end_.
Proof.
  unfold skip_leb128. destruct (ptr >=? end_); [discriminate|].
  destruct (ptr <? 0); [discriminate|]. apply skip_leb128_loop_advance.
Qed.

Lemma memchr_nul_cstring (bs : list byte) :
  forall ptr end_ p,
    memchr_nul bs ptr end_ = Ok (Some p) ->
    exists s,
      cstring_from bs = Ok s /\ p = ptr + Z.of_nat (length s) /\ p < end_.
Proof.
  induction bs as [|b bs IH]; intros ptr end_ p H; cbn [memchr_nul] in H.
  - destruct (ptr >=? end_); discriminate.
  - destruct (ptr >=? end_) eqn:E; [discriminate|].
    rewrite Z.geb_leb in E. apply Z.leb_gt in E. cbn [cstring_from].
    destruct (u8 b =? 0).
    + inversion H; subst. exists []. cbn. split; [reflexivity|]. lia.
    + apply IH in H as (s & -> & -> & Hlt). exists (b :: s).
      cbn [mbind result_bind length]. split; [reflexivity|]. lia.
Qed.

Lemma skip_string_cstring (m : list byte) (ptr end_ p : Z) :
  skip_string m ptr end_ = Ok p ->
  exists s,
    cstring m ptr = Ok s /\ p = ptr + Z.of_nat (length s) + 1 /\ p <= end_.
Proof.
  unfold skip_string, cstring. destruct (ptr >=? end_); [discriminate|].
  destruct (ptr <? 0); [discriminate|]. intros H.
  apply bind_Ok in H as ([q|] & Hnul & H); [|discriminate].
  inversion H; subst p.
  apply memchr_nul_cstring in Hnul as (s & Hs & -> & Hlt).
  exists s. split; [exact Hs|]. lia.
Qed.

Lemma read_uleb128_into_size_t_inv (m : list byte) (ptr end_ v p : Z) :
  read_uleb128_into_size_t m ptr end_ = Ok (v, p) -> 0 <= v /\ ptr < p <= end_.
Proof.
  unfold read_uleb128_into_size_t. intros H.
  apply bind_Ok in H as ([tmp p'] & Hread & H).
  destruct (tmp >? SIZE_MAX); [discriminate|]. inversion H; subst.
  pose proof (read_uleb128_value_bound _ _ _ _ _ Hread). lia.
Qed.

Lemma do_skip_inv (end_ skip : Z) (st st' : die_cursor) :
  do_skip end_ skip st = Ok st' ->
  cur_ptr st' = cur_ptr st + skip /\ cur_ptr st' <= end_ /\
  cur_name st' = cur_name st /\ cur_sibling st' = cur_sibling st.
Proof.
  unfold do_skip. destruct (in_bounds (cur_ptr st) end_ skip) eqn:E; [|discriminate].
  cbn [negb]. intros [= <-]. cbn. apply in_bounds_true in E. repeat split; lia.
Qed.

Lemma do_sibling_ref_inv (cu : compilation_unit) (end_ tmp ptr : Z)
    (st st' : die_cursor) :
  do_sibling_ref cu end_ tmp ptr st = Ok st' ->
  cur_ptr st' = ptr /\ cur_name st' = cur_name st /\
  cur_sibling st' = Some (cu_ptr cu + tmp) /\ tmp <= end_ - cu_ptr cu.
Proof.
  unfold do_sibling_ref.
  destruct (in_bounds (cu_ptr cu) end_ tmp) eqn:E; [|discriminate].
  cbn [negb]. intros [= <-]. cbn. apply in_bounds_true in E. repeat split; lia.
Qed.

(** What one command does to the cursor. *)
Lemma exec_cmd_effect (m : list byte) (cu : compilation_unit) (end_ : Z)
    (str : section) (cmd : Z) (st st' : die_cursor) :
  0 <= cmd ->
  exec_cmd m cu end_ str cmd st = Ok st' ->
  cur_ptr st <= cur_ptr st' /\
  (cmd <> ATTRIB_NAME_STRP -> cmd <> ATTRIB_NAME_STRING ->
   cur_name st' = cur_name st) /\
  (~ (ATTRIB_SIBLING_REF1 <= cmd <= ATTRIB_SIBLING_REF_UDATA) ->
   cur_sibling st' = cur_sibling st).
Proof.
  intros Hc H. unfold exec_cmd in H.
  assert (Hblock : forall n skip p,
            read_u_into_size_t n m (cur_ptr st) end_ = Ok (skip, p) ->
            do_skip end_ skip (set_ptr st p) = Ok st' ->
            cur_ptr st <= cur_ptr st' /\ cur_name st' = cur_name st /\
            cur_sibling st' = cur_sibling st).
  { intros n skip p Hr Hs. apply read_u_into_size_t_inv in Hr as [Hskip ->].
    apply do_skip_inv in Hs as (Hp & _ & Hn & Hsib). cbn in *.
    split; [lia|]. split; assumption. }
  assert (Hsib : forall n tmp p,
            read_u_into_size_t n m (cur_ptr st) end_ = Ok (tmp, p) ->
            do_sibling_ref cu end_ tmp p st = Ok st' ->
            cur_ptr st <= cur_ptr st' /\ cur_name st' = cur_name st).
  { intros n tmp p Hr Hs. apply read_u_into_size_t_inv in Hr as [Htmp ->].
    apply do_sibling_ref_inv in Hs as (Hp & Hn & _).
    split; [lia|assumption]. }
  destruct (cmd =? ATTRIB_BLOCK1) eqn:E1.
  { apply bind_Ok in H as ([skip p] & Hr & H).
    destruct (Hblock _ _ _ Hr H) as (? & ? & ?). auto. }
  destruct (cmd =? ATTRIB_BLOCK2) eqn:E2.
  { apply bind_Ok in H as ([skip p] & Hr & H).
    destruct (Hblock _ _ _ Hr H) as (? & ? & ?). auto. }
  destruct (cmd =? ATTRIB_BLOCK4) eqn:E3.
  { apply bind_Ok in H as ([skip p] & Hr & H).
    destruct (Hblock _ _ _ Hr H) as (? & ? & ?). auto. }
  destruct (cmd =? ATTRIB_EXPRLOC) eqn:E4.
  { apply bind_Ok in H as ([skip p] & Hr & H).
    apply read_uleb128_into_size_t_inv in Hr as [Hskip Hp].
    apply do_skip_inv in H as (Hq & _ & Hn & Hs). cbn in *.
    split; [lia|]. auto. }
  destruct (cmd =? ATTRIB_LEB128) eqn:E5.
  { apply bind_Ok in H as (p & Hr & H). inversion H; subst st'. cbn.
    apply skip_leb128_advance in Hr. split; [lia|]. auto. }
  destruct (cmd =? ATTRIB_NAME_STRING) eqn:E6.
  { apply Z.eqb_eq in E6.
    apply bind_Ok in H as (p & Hr & H). inversion H; subst st'. cbn.
    apply skip_string_cstring in Hr as (s & _ & -> & _).
    split; [lia|]. split; [intros _ Hne; contradiction|auto]. }
  destruct (cmd =? ATTRIB_STRING) eqn:E7.
  { apply bind_Ok in H as (p & Hr & H). inversion H; subst st'. cbn.
    apply skip_string_cstring in Hr as (s & _ & -> & _).
    split; [lia|]. auto. }
  destruct (cmd =? ATTRIB_SIBLING_REF1) eqn:E8.
  { apply Z.eqb_eq in E8. apply bind_Ok in H as ([tmp p] & Hr & H).
    destruct (Hsib _ _ _ Hr H) as (? & ?).
    split; [assumption|]. split; [auto|].
    intros Hn. exfalso. apply Hn. subst cmd. vm_compute. split; discriminate. }
  destruct (cmd =? ATTRIB_SIBLING_REF2) eqn:E9.
  { apply Z.eqb_eq in E9. apply bind_Ok in H as ([tmp p] & Hr & H).
    destruct (Hsib _ _ _ Hr H) as (? & ?).
    split; [assumption|]. split; [auto|].
    intros Hn. exfalso. apply Hn. subst cmd. vm_compute. split; discriminate. }
  destruct (cmd =? ATTRIB_SIBLING_REF4) eqn:E10.
  { apply Z.eqb_eq in E10. apply bind_Ok in H as ([tmp p] & Hr & H).
    destruct (Hsib _ _ _ Hr H) as (? & ?).
    split; [assumption|]. split; [auto|].
    intros Hn. exfalso. apply Hn. subst cmd. vm_compute. split; discriminate. }
  destruct (cmd =? ATTRIB_SIBLING_REF8) eqn:E11.
  { apply Z.eqb_eq in E11. apply bind_Ok in H as ([tmp p] & Hr & H).
    destruct (Hsib _ _ _ Hr H) as (? & ?).
    split; [assumption|]. split; [auto|].
    intros Hn. exfalso. apply Hn. subst cmd. vm_compute. split; discriminate. }
  destruct (cmd =? ATTRIB_SIBLING_REF_UDATA) eqn:E12.
  { apply Z.eqb_eq in E12. apply bind_Ok in H as ([tmp p] & Hr & H).
    apply read_uleb128_into_size_t_inv in Hr as [Htmp Hp].
    apply do_sibling_ref_inv in H as (Hq & Hn & _).
    split; [lia|]. split; [auto|].
    intros Hx. exfalso. apply Hx. subst cmd. vm_compute. split; discriminate. }
  destruct (cmd =? ATTRIB_NAME_STRP) eqn:E13.
  { apply Z.eqb_eq in E13. apply bind_Ok in H as ([tmp p] & Hr & H).
    assert (Hp : cur_ptr st <= p).
    { destruct (is_64_bit cu); apply read_u_into_size_t_inv in Hr as [_ ->]; lia. }
    destruct (negb _); [discriminate|]. inversion H; subst st'. cbn.
    split; [exact Hp|]. split; [intros Hne; contradiction|auto]. }
  apply do_skip_inv in H as (Hp & _ & Hn & Hs). split; [lia|]. auto.
Qed.

(** A program without name commands leaves [name] as it was. *)
Lemma exec_cmds_keeps_name (m : list byte) (cu : compilation_unit) (end_ : Z)
    (str : section) (rest : list Z) (body : list Z) :
  Forall (fun c => 0 <= c < ATTRIB_NAME_STRP) body ->
  forall st st' cmdp',
    exec_cmds m cu end_ str (body ++ 0 :: rest) st = Ok (st', cmdp') ->
    cur_name st' = cur_name st.
Proof.
  intros Hall. induction Hall as [|c body Hc _ IH]; intros st st' cmdp' H;
    cbn [app exec_cmds] in H.
  - cbn in H. now inversion H.
  - destruct (c =? 0); [now inversion H|].
    apply bind_Ok in H as (st1 & H1 & H).
    apply IH in H. rewrite H.
    apply exec_cmd_effect in H1 as (_ & Hname & _); [|lia].
    apply Hname; unfold ATTRIB_NAME_STRP, ATTRIB_NAME_STRING in *; lia.
Qed.

(** ** DIEs whose tag is not indexed *)

Lemma emit_skip_below_name (cmds : list Z) (n : Z) :
  Forall (fun c => 0 <= c < ATTRIB_NAME_STRP) cmds ->
  0 <= n < ATTRIB_NAME_STRP ->
  Forall (fun c => 0 <= c < ATTRIB_NAME_STRP) (emit_skip cmds n).
Proof.
  unfold ATTRIB_NAME_STRP. intros Hall Hn. unfold emit_skip.
  destruct (last_cmd cmds) as [prev|] eqn:El.
  - apply last_cmd_inv in El as [pre ->].
    apply Forall_app in Hall as [Hpre Hprev].
    rewrite Forall_singleton in Hprev.
    unfold ATTRIB_MIN_CMD, ATTRIB_BLOCK1, UINT8_MOD, append_cmd.
    destruct (prev <? 243) eqn:E1.
    + apply Z.ltb_lt in E1. destruct (prev + n <? 243) eqn:E2.
      * apply Z.ltb_lt in E2. rewrite set_last_cmd_app.
        apply Forall_app. split; [exact Hpre|]. apply Forall_singleton.
        change (2 ^ 8) with 256. rewrite Z.mod_small by lia. lia.
      * apply Z.ltb_ge in E2. rewrite set_last_cmd_app.
        apply Forall_app. split.
        -- apply Forall_app. split; [exact Hpre|]. apply Forall_singleton. lia.
        -- apply Forall_singleton. change (2 ^ 8) with 256.
           rewrite Z.mod_small by lia. lia.
    + apply Forall_app. split.
      * apply Forall_app. split; [exact Hpre|]. now apply Forall_singleton.
      * now apply Forall_singleton.
  - apply Forall_app. split; [exact Hall|]. now apply Forall_singleton.
Qed.

Lemma compile_attr_tag0 (cu : compilation_unit) (name form tag' : Z)
    (body body' : list Z) :
  0 <= address_size cu < ATTRIB_NAME_STRP ->
  compile_attr cu name form 0 body = Ok (tag', body') ->
  Forall (fun c => 0 <= c < ATTRIB_NAME_STRP) body ->
  tag' = 0 /\ Forall (fun c => 0 <= c < ATTRIB_NAME_STRP) body'.
Proof.
  intros Ha H Hbody. unfold compile_attr, attr_special in H.
  assert (Happ : forall c, 0 <= c < ATTRIB_NAME_STRP ->
            Forall (fun c => 0 <= c < ATTRIB_NAME_STRP) (append_cmd body c)).
  { intros c Hc. apply Forall_app. split; [exact Hbody|]. now apply Forall_singleton. }
  assert (Hform : forall body'',
            match form_cmd cu form with
            | FormSkip cmd => Ok (0, emit_skip body cmd)
            | FormAppend cmd => Ok (0, append_cmd body cmd)
            | FormContinue => Ok (0, body)
            | FormRaise e => Raise e
            end = Ok (tag', body'') ->
            tag' = 0 /\ Forall (fun c => 0 <= c < ATTRIB_NAME_STRP) body'').
  { intros body'' Hf. unfold form_cmd in Hf.
    repeat match type of Hf with
           | context [if ?b then _ else _] => destruct b
           end;
      inversion Hf; subst; (split; [reflexivity|]);
      try (apply emit_skip_below_name; [exact Hbody|]);
      try (apply Happ); try exact Hbody;
      unfold ATTRIB_NAME_STRP, ATTRIB_BLOCK1, ATTRIB_BLOCK2, ATTRIB_BLOCK4,
        ATTRIB_EXPRLOC, ATTRIB_LEB128, ATTRIB_STRING in *; lia. }
  destruct (name =? DW_AT_sibling).
  - destruct (sibling_cmd form) as [cmd|] eqn:Es; [|now apply Hform].
    inversion H; subst. split; [reflexivity|]. apply Happ.
    unfold sibling_cmd in Es.
    repeat match type of Es with
           | context [if ?b then _ else _] => destruct b
           end; inversion Es; vm_compute; split; discriminate || reflexivity.
  - change (0 =? 0) with true in H. rewrite andb_false_r in H.
    destruct ((name =? DW_AT_declaration) && negb (0 =? DW_TAG_variable));
      now apply Hform.
Qed.

Lemma compile_attrs_tag0 (cu : compilation_unit) (specs : list (Z * Z)) :
  0 <= address_size cu < ATTRIB_NAME_STRP ->
  forall (tag' : Z) (body body' : list Z),
    compile_attrs cu specs 0 body = Ok (tag', body') ->
    Forall (fun c => 0 <= c < ATTRIB_NAME_STRP) body ->
    tag' = 0 /\ Forall (fun c => 0 <= c < ATTRIB_NAME_STRP) body'.
Proof.
  intros Ha. induction specs as [|[name form] specs IH];
    intros tag' body body' H Hbody; cbn [compile_attrs] in H.
  - inversion H; subst. auto.
  - apply bind_Ok in H as ([tag1 body1] & H1 & H).
    apply compile_attr_tag0 in H1 as [-> Hbody1]; auto.
    now apply (IH tag' body1 body').
Qed.

(** X17: a DIE whose abbreviation declares a tag other than the seven
    indexed ones is never inserted into the hash, whatever its attributes
    are and whatever the [address_size] of the unit is: one turn of the
    loop of [index_cu] on such a DIE leaves the index as it was. *)
Theorem unindexed_tags_are_never_inserted (self self' : DwarfIndex)
    (m : list byte) (file_idx cu_idx : nat) (str : section)
    (cu : compilation_unit) (end_ ptr depth code p1 : Z) (decl : abbrev_decl)
    (dtag children : Z) (specs : list (Z * Z)) (body : list Z) (ftag : Z)
    (ctl : loop_ctl) :
  0 <= address_size cu < UINT8_MOD ->
  indexed_tag dtag = false ->
  compiled_from cu dtag children specs body ftag decl ->
  read_uleb128 m ptr end_ = Ok (code, p1) ->
  abbrev_decls cu !! Z.to_nat (code - 1) = Some decl ->
  index_die self m file_idx cu_idx str cu end_ ptr depth = Ok (self', ctl) ->
  self' = self.
Proof.
  intros Ha Hidx [Hcomp Hcmds] Ecode Hdecl H. rewrite Hidx in Hcomp.
  unfold index_die in H. rewrite Ecode in H. cbn [mbind result_bind] in H.
  destruct (code =? 0).
  { destruct (_ =? 0); now inversion H. }
  destruct ((code <? 1) || (code >? num_abbrev_decls cu)); [discriminate|].
  rewrite Hdecl in H.
  apply bind_Ok in H as ([st cmdp] & Hexec & H).
  apply bind_Ok in H as (tag & Htag & H).
  apply bind_Ok in H as (self1 & Hentry & H).
  apply bind_Ok in H as (ch & _ & H).
  assert (Hself : self' = self1).
  { destruct (negb (ch =? 0)).
    - destruct (cur_sibling st); now inversion H.
    - destruct (depth =? 0); now inversion H. }
  subst self1. rewrite Hcmds in Hexec.
  change (body ++ [0; ftag mod UINT8_MOD; children])
    with (body ++ 0 :: [ftag mod UINT8_MOD; children]) in Hexec.
  destruct (Z_lt_le_dec (address_size cu) ATTRIB_NAME_STRP) as [Hlow|Hhigh].
  - (* no name command is compiled: [name] stays [NULL] *)
    apply compile_attrs_tag0 in Hcomp as [_ Hbody]; [|lia|constructor].
    apply (exec_cmds_keeps_name m cu end_ str _ body Hbody) in Hexec.
    cbn [cur_name] in Hexec. unfold index_entry in Hentry.
    rewrite Hexec in Hentry. now inversion Hentry.
  - (* no command is 0: the tag that is read is the filtered tag, 0 *)
    assert (Ha' : 0 < address_size cu < UINT8_MOD)
      by (unfold ATTRIB_NAME_STRP in Hhigh; lia).
    destruct (compile_attrs_spec cu specs Ha' _ _ _ _ Hcomp) as [Hbody Hftag].
    specialize (Hbody (List.Forall_nil _)).
    assert (ftag = 0) as ->.
    { destruct (Z.eq_dec ftag 0) as [E|E]; [exact E|].
      destruct (Hftag E) as [E' _]. congruence. }
    apply (exec_cmds_terminator m cu end_ str _ body Hbody) in Hexec.
    subst cmdp. cbn in Htag. inversion Htag; subst tag.
    unfold index_entry in Hentry.
    destruct (cur_name st); [|now inversion Hentry].
    change (0 =? 0) with true in Hentry. rewrite andb_false_r in Hentry.
    now inversion Hentry.
Qed.

Lemma unindexed_tags_are_never_inserted_witness :
  exists self' ctl,
    index_die empty_index subprogram_die 0 0 no_section subprogram_cu 5 0 1
    = Ok (self', ctl) /\
    self' = empty_index.
Proof.
  destruct (index_die empty_index subprogram_die 0 0 no_section subprogram_cu
              5 0 1) as [[self' ctl]| | |] eqn:E;
    [|exfalso; vm_compute in E; discriminate ..].
  exists self', ctl. split; [reflexivity|].
  apply (unindexed_tags_are_never_inserted empty_index self' subprogram_die
           0 0 no_section subprogram_cu 5 0 1 1 1
           {| cmds := [ATTRIB_STRING; 0; 0; 0] |} 0x2e 0
           [(DW_AT_name, DW_FORM_string)] [ATTRIB_STRING] 0 ctl).
  - vm_compute. split; [discriminate|reflexivity].
  - reflexivity.
  - split; reflexivity.
  - reflexivity.
  - reflexivity.
  - exact E.
Defined.

(** ** Names given in place *)

(** X18: the name that [ATTRIB_NAME_STRING] records is the address of the
    attribute itself, and the string there is NUL-terminated before the
    end of the unit: the pointer moves just past its NUL and not beyond
    [end_].  ([ATTRIB_STRING] moves the pointer in the same way and
    records nothing.) *)
Theorem name_string_is_terminated (m : list byte) (cu : compilation_unit)
    (end_ : Z) (str : section) (st st' : die_cursor) :
  exec_cmd m cu end_ str ATTRIB_NAME_STRING st = Ok st' ->
  cur_name st' = Some (cur_ptr st) /\
  cur_sibling st' = cur_sibling st /\
  (exists s,
     cstring m (cur_ptr st) = Ok s /\
     cur_ptr st' = cur_ptr st + Z.of_nat (length s) + 1 /\
     cur_ptr st' <= end_) /\
  (forall st2,
     exec_cmd m cu end_ str ATTRIB_STRING st = Ok st2 ->
     cur_ptr st2 = cur_ptr st' /\ cur_name st2 = cur_name st).
Proof.
  intros H. vm_compute (ATTRIB_NAME_STRING) in H.
  unfold exec_cmd in H. cbn [Z.eqb Pos.eqb] in H.
  change (255 =? ATTRIB_BLOCK1) with false in H.
  change (255 =? ATTRIB_BLOCK2) with false in H.
  change (255 =? ATTRIB_BLOCK4) with false in H.
  change (255 =? ATTRIB_EXPRLOC) with false in H.
  change (255 =? ATTRIB_LEB128) with false in H.
  change (255 =? ATTRIB_NAME_STRING) with true in H. cbv iota in H.
  apply bind_Ok in H as (p & Hskip & H). inversion H; subst st'. cbn.
  split; [reflexivity|]. split; [reflexivity|].
  pose proof (skip_string_cstring _ _ _ _ Hskip) as (s & Hs & Hp & Hend).
  split; [eauto|].
  intros st2 H2. unfold exec_cmd in H2.
  change (ATTRIB_STRING =? ATTRIB_BLOCK1) with false in H2.
  change (ATTRIB_STRING =? ATTRIB_BLOCK2) with false in H2.
  change (ATTRIB_STRING =? ATTRIB_BLOCK4) with false in H2.
  change (ATTRIB_STRING =? ATTRIB_EXPRLOC) with false in H2.
  change (ATTRIB_STRING =? ATTRIB_LEB128) with false in H2.
  change (ATTRIB_STRING =? ATTRIB_NAME_STRING) with false in H2.
  change (ATTRIB_STRING =? ATTRIB_STRING) with true in H2. cbv iota in H2.
  rewrite Hskip in H2. cbn [mbind result_bind] in H2.
  inversion H2; subst st2. cbn. auto.
Qed.

Lemma name_string_is_terminated_witness :
  exists s,
    cstring subprogram_die 1 = Ok s /\
    4 + 1 = 1 + Z.of_nat (length s) + 1 /\ 4 + 1 <= 5.
Proof.
  destruct (name_string_is_terminated subprogram_die subprogram_cu 5 no_section
              {| cur_ptr := 1; cur_name := None; cur_sibling := None |}
              {| cur_ptr := 4 + 1; cur_name := Some 1; cur_sibling := None |})
    as (_ & _ & Hs & _); [reflexivity|exact Hs].
Defined.

(** ** The walk ends when no abbreviation has a sibling command *)

Lemma bind_no_fuel {A B : Type} (x : result A) (k : A -> result B) :
  x <> OutOfFuel -> (forall a, x = Ok a -> k a <> OutOfFuel) ->
  x ≫= k <> OutOfFuel.
Proof.
  intros Hx Hk. destruct x as [a| | |]; cbn [mbind result_bind];
    [now apply Hk|discriminate|discriminate|contradiction].
Qed.

Lemma read_u_into_size_t_no_fuel (n : nat) (m : list byte) (ptr end_ : Z) :
  read_u_into_size_t n m ptr end_ <> OutOfFuel.
Proof.
  unfold read_u_into_size_t. apply bind_no_fuel; [apply read_u_fuel_free|].
  intros [tmp p] _. destruct (tmp >? SIZE_MAX); discriminate.
Qed.

Lemma read_uleb128_into_size_t_no_fuel (m : list byte) (ptr end_ : Z) :
  read_uleb128_into_size_t m ptr end_ <> OutOfFuel.
Proof.
  unfold read_uleb128_into_size_t.
  apply bind_no_fuel; [apply read_uleb128_fuel_free|].
  intros [tmp p] _. destruct (tmp >? SIZE_MAX); discriminate.
Qed.

Lemma skip_leb128_no_fuel (m : list byte) (ptr end_ : Z) :
  skip_leb128 m ptr end_ <> OutOfFuel.
Proof.
  unfold skip_leb128. destruct (ptr >=? end_); [discriminate|].
  destruct (ptr <? 0); [discriminate|].
  generalize (bytes_from m ptr). intros bs. revert ptr.
  induction bs as [|b bs IH]; intros p; cbn [skip_leb128_loop];
    destruct (p >=? end_); try discriminate.
  destruct (Z.land (u8 b) 128 =? 0); [discriminate|apply IH].
Qed.

Lemma skip_string_no_fuel (m : list byte) (ptr end_ : Z) :
  skip_string m ptr end_ <> OutOfFuel.
Proof.
  unfold skip_string. destruct (ptr >=? end_); [discriminate|].
  destruct (ptr <? 0); [discriminate|].
  apply bind_no_fuel.
  - generalize (bytes_from m ptr). intros bs. revert ptr.
    induction bs as [|b bs IH]; intros p; cbn [memchr_nul];
      destruct (p >=? end_); try discriminate.
    destruct (u8 b =? 0); [discriminate|apply IH].
  - intros [q|] _; discriminate.
Qed.

Lemma cstring_no_fuel (m : list byte) (p : Z) : cstring m p <> OutOfFuel.
Proof.
  unfold cstring. destruct (p <? 0); [discriminate|].
  generalize (bytes_from m p). intros bs.
  induction bs as [|b bs IH]; cbn [cstring_from]; [discriminate|].
  destruct (u8 b =? 0); [discriminate|].
  apply bind_no_fuel; [exact IH|discriminate].
Qed.

Lemma do_skip_no_fuel (end_ skip : Z) (st : die_cursor) :
  do_skip end_ skip st <> OutOfFuel.
Proof. unfold do_skip. destruct (negb _); discriminate. Qed.

Lemma do_sibling_ref_no_fuel (cu : compilation_unit) (end_ tmp ptr : Z)
    (st : die_cursor) :
  do_sibling_ref cu end_ tmp ptr st <> OutOfFuel.
Proof. unfold do_sibling_ref. destruct (negb _); discriminate. Qed.

Lemma exec_cmd_no_fuel (m : list byte) (cu : compilation_unit) (end_ : Z)
    (str : section) (cmd : Z) (st : die_cursor) :
  exec_cmd m cu end_ str cmd st <> OutOfFuel.
Proof.
  unfold exec_cmd.
  repeat match goal with
         | |- (if ?b then _ else _) <> _ => destruct b
         end;
    try apply do_skip_no_fuel;
    try (apply bind_no_fuel;
         [first [apply read_u_into_size_t_no_fuel
                |apply read_uleb128_into_size_t_no_fuel
                |apply skip_leb128_no_fuel
                |apply skip_string_no_fuel]
         |first [intros [v p] _; first [apply do_skip_no_fuel
                                       |apply do_sibling_ref_no_fuel]
                |intros p _; discriminate]]).
  apply bind_no_fuel.
  - destruct (is_64_bit cu); apply read_u_into_size_t_no_fuel.
  - intros [tmp p] _. destruct (negb _); discriminate.
Qed.

Lemma exec_cmds_no_fuel (m : list byte) (cu : compilation_unit) (end_ : Z)
    (str : section) (cmdp : list Z) :
  forall st, exec_cmds m cu end_ str cmdp st <> OutOfFuel.
Proof.
  induction cmdp as [|c cmdp IH]; intros st; cbn [exec_cmds]; [discriminate|].
  destruct (c =? 0); [discriminate|].
  apply bind_no_fuel; [apply exec_cmd_no_fuel|]. intros st1 _. apply IH.
Qed.

Lemma index_entry_no_fuel (self : DwarfIndex) (m : list byte)
    (file_idx cu_idx : nat) (depth : Z) (name : option Z) (tag die_ptr : Z) :
  index_entry self m file_idx cu_idx depth name tag die_ptr <> OutOfFuel.
Proof.
  unfold index_entry. destruct name as [name|]; [|discriminate].
  destruct ((depth =? 1) && negb (tag =? 0)); [|discriminate].
  apply bind_no_fuel; [apply cstring_no_fuel|]. intros s _.
  apply bind_no_fuel; [|discriminate].
  destruct (add_cases (die_hash self)
              {| e_name := s; e_tag := tag; e_file := file_idx;
                 e_cu := cu_idx; e_ptr := die_ptr |})
    as [(j & _ & _ & _ & E)|[(e0 & _ & E)|[_ E]]]; rewrite E; discriminate.
Qed.

Lemma exec_cmds_no_sibling (m : list byte) (cu : compilation_unit) (end_ : Z)
    (str : section) (cmdp : list Z) :
  Forall (fun c => 0 <= c /\
                   ~ (ATTRIB_SIBLING_REF1 <= c <= ATTRIB_SIBLING_REF_UDATA)) cmdp ->
  forall st st' cmdp',
    exec_cmds m cu end_ str cmdp st = Ok (st', cmdp') ->
    cur_ptr st <= cur_ptr st' /\ cur_sibling st' = cur_sibling st.
Proof.
  intros Hall. induction Hall as [|c cmdp [Hc Hns] _ IH]; intros st st' cmdp' H;
    cbn [exec_cmds] in H; [discriminate|].
  destruct (c =? 0); [inversion H; subst; split; [lia|reflexivity]|].
  apply bind_Ok in H as (st1 & H1 & H).
  apply IH in H as [Hp Hs].
  apply exec_cmd_effect in H1 as (Hp1 & _ & Hs1); [|exact Hc].
  split; [lia|]. rewrite Hs. now apply Hs1.
Qed.

Lemma index_die_advances (self self' : DwarfIndex) (m : list byte)
    (file_idx cu_idx : nat) (str : section) (cu : compilation_unit)
    (end_ ptr depth ptr' depth' : Z) :
  no_sibling_commands cu ->
  index_die self m file_idx cu_idx str cu end_ ptr depth
  = Ok (self', LoopContinue ptr' depth') ->
  ptr < ptr' /\ ptr < end_.
Proof.
  intros Hns H. unfold index_die in H.
  apply bind_Ok in H as ([code p1] & Ecode & H).
  apply read_uleb128_advance in Ecode.
  destruct (code =? 0).
  { destruct (_ =? 0); inversion H; subst. lia. }
  destruct ((code <? 1) || (code >? num_abbrev_decls cu)); [discriminate|].
  destruct (abbrev_decls cu !! Z.to_nat (code - 1)) as [decl|] eqn:Ed;
    [|discriminate].
  apply bind_Ok in H as ([st cmdp] & Hexec & H).
  apply bind_Ok in H as (tag & _ & H).
  apply bind_Ok in H as (self1 & _ & H).
  apply bind_Ok in H as (ch & _ & H).
  apply exec_cmds_no_sibling in Hexec as [Hp Hs];
    [|exact (Hns _ _ Ed)].
  cbn in Hp, Hs. rewrite Hs in H.
  destruct (negb (ch =? 0)).
  - inversion H; subst. lia.
  - destruct (depth =? 0); inversion H; subst. lia.
Qed.

Lemma index_die_no_fuel (self : DwarfIndex) (m : list byte)
    (file_idx cu_idx : nat) (str : section) (cu : compilation_unit)
    (end_ ptr depth : Z) :
  index_die self m file_idx cu_idx str cu end_ ptr depth <> OutOfFuel.
Proof.
  unfold index_die. apply bind_no_fuel; [apply read_uleb128_fuel_free|].
  intros [code p1] _.
  destruct (code =? 0); [destruct (_ =? 0); discriminate|].
  destruct ((code <? 1) || (code >? num_abbrev_decls cu)); [discriminate|].
  destruct (abbrev_decls cu !! Z.to_nat (code - 1)) as [decl|]; [|discriminate].
  apply bind_no_fuel; [apply exec_cmds_no_fuel|]. intros [st cmdp] _.
  apply bind_no_fuel; [destruct cmdp; discriminate|]. intros tag _.
  apply bind_no_fuel; [apply index_entry_no_fuel|]. intros self1 _.
  apply bind_no_fuel; [destruct (tail cmdp); discriminate|]. intros ch _.
  destruct (negb (ch =? 0)).
  - destruct (cur_sibling st); discriminate.
  - destruct (depth =? 0); discriminate.
Qed.

Lemma index_cu_loop_ends (m : list byte) (file_idx cu_idx : nat)
    (str : section) (cu : compilation_unit) (end_ : Z) (fuel : nat) :
  no_sibling_commands cu ->
  forall (self : DwarfIndex) (ptr depth : Z),
    (0 < fuel)%nat -> end_ - ptr < Z.of_nat fuel ->
    index_cu_loop fuel self m file_idx cu_idx str cu end_ ptr depth <> OutOfFuel.
Proof.
  intros Hns. induction fuel as [|fuel IH]; intros self ptr depth Hpos Hfuel; [lia|].
  cbn [index_cu_loop].
  apply bind_no_fuel; [apply index_die_no_fuel|].
  intros [self1 ctl] Hdie. destruct ctl as [|ptr' depth']; [discriminate|].
  apply index_die_advances in Hdie as [Hadv Hlt]; [|exact Hns].
  apply IH; lia.
Qed.

(** X19: when no abbreviation of the unit has a sibling command, [index_cu]
    ends for every content of the unit: every turn of its loop moves the
    pointer forward by at least one byte, and a pointer at or past the end
    of the unit raises [EOFError].  (A number of turns above the unit
    length is never reached.) *)
Theorem index_cu_ends_without_siblings (fuel : nat) (self : DwarfIndex)
    (map_addr : Z) (m : list byte) (file_idx cu_idx : nat) (str : section)
    (cu : compilation_unit) :
  no_sibling_commands cu ->
  0 <= unit_length cu < Z.of_nat fuel ->
  index_cu fuel self map_addr m file_idx cu_idx str cu <> OutOfFuel /\
  (forall self0 self1 end_ ptr depth ptr' depth',
     index_die self0 m file_idx cu_idx str cu end_ ptr depth
     = Ok (self1, LoopContinue ptr' depth') -> ptr < ptr' /\ ptr < end_).
Proof.
  intros Hns Hlen. split.
  - unfold index_cu. apply index_cu_loop_ends; [exact Hns|lia|].
    pose proof (ptr_add_le map_addr (cu_ptr cu) (unit_size cu)) as Hend.
    pose proof (unit_size_le cu (proj1 Hlen)) as Hsize.
    destruct (is_64_bit cu); lia.
  - intros self0 self1 end_ ptr depth ptr' depth'.
    now apply index_die_advances.
Qed.

Lemma index_cu_ends_without_siblings_witness :
  exists self cu,
    read_cus 10 empty_index (file_map variable_foo_file) variable_foo_file
    = Ok (self, [cu]) /\
    index_cu 30 self (file_addr variable_foo_file)
      (file_map variable_foo_file) 0 0
      (debug_sections variable_foo_file DEBUG_STR) cu <> OutOfFuel.
Proof.
  destruct (read_cus 10 empty_index (file_map variable_foo_file) variable_foo_file)
    as [[self cus]| | |] eqn:E; [|exfalso; vm_compute in E; discriminate ..].
  vm_compute in E. inversion E; subst self cus; clear E.
  do 2 eexists. split; [reflexivity|].
  match goal with |- index_cu ?fuel ?self ?a ?m ?fi ?ci ?str ?cu <> _ =>
    destruct (index_cu_ends_without_siblings fuel self a m fi ci str cu)
      as [H _]; [| |exact H] end.
  - intros i decl Hd.
    destruct i as [|[|i]]; cbn in Hd; inversion Hd; subst decl; cbn;
      repeat constructor; try discriminate;
      vm_compute; intros [H1 H2]; congruence.
  - cbn. lia.
Defined.

(** ** The interpreter against the compiler: fixed-length skips *)

Lemma sum_Z_app (l1 l2 : list Z) : sum_Z (l1 ++ l2) = sum_Z l1 + sum_Z l2.
Proof. induction l1 as [|x l1 IH]; cbn [app sum_Z]; lia. Qed.

Lemma emit_skip_literals (cmds : list Z) (n : Z) :
  literals cmds -> 0 < n < ATTRIB_MIN_CMD ->
  literals (emit_skip cmds n) /\ sum_Z (emit_skip cmds n) = sum_Z cmds + n.
Proof.
  unfold literals, ATTRIB_MIN_CMD, ATTRIB_BLOCK1. intros Hall Hn. unfold emit_skip.
  destruct (last_cmd cmds) as [prev|] eqn:El.
  - apply last_cmd_inv in El as [pre ->].
    apply Forall_app in Hall as [Hpre Hprev].
    rewrite Forall_singleton in Hprev.
    unfold ATTRIB_MIN_CMD, ATTRIB_BLOCK1, UINT8_MOD, append_cmd.
    change (2 ^ 8) with 256.
    replace (prev <? 243) with true by (symmetry; apply Z.ltb_lt; lia).
    destruct (prev + n <? 243) eqn:E2.
    + apply Z.ltb_lt in E2. rewrite set_last_cmd_app, Z.mod_small by lia.
      split.
      * apply Forall_app. split; [exact Hpre|]. apply Forall_singleton. lia.
      * rewrite !sum_Z_app. cbn [sum_Z]. lia.
    + apply Z.ltb_ge in E2. rewrite set_last_cmd_app, Z.mod_small by lia.
      split.
      * apply Forall_app. split.
        -- apply Forall_app. split; [exact Hpre|]. apply Forall_singleton. lia.
        -- apply Forall_singleton. lia.
      * rewrite !sum_Z_app. cbn [sum_Z]. lia.
  - unfold append_cmd. split.
    + apply Forall_app. split; [exact Hall|]. now apply Forall_singleton.
    + rewrite sum_Z_app. cbn [sum_Z]. lia.
Qed.

Lemma fixed_skip_size (cu : compilation_unit) (spec : Z * Z) (n : Z) :
  0 < address_size cu < ATTRIB_MIN_CMD -> fixed_skip cu spec = Some n ->
  0 < n < ATTRIB_MIN_CMD.
Proof.
  unfold ATTRIB_MIN_CMD, ATTRIB_BLOCK1. intros Ha. destruct spec as [name form].
  unfold fixed_skip.
  destruct (form_cmd cu form) as [k| | |] eqn:Ef; try discriminate.
  intros H.
  assert (Hk : 0 < k < 243).
  { unfold form_cmd in Ef.
    repeat match type of Ef with
           | context [if ?b then _ else _] => destruct b
           end; inversion Ef; subst; lia. }
  destruct (_ && _); [discriminate|]. destruct (_ && _); [discriminate|].
  now inversion H; subst.
Qed.

Lemma compile_fixed_skips (cu : compilation_unit) :
  0 < address_size cu < ATTRIB_MIN_CMD ->
  forall (specs : list (Z * Z)) (sizes : list Z) (tag tag' : Z)
         (body body' : list Z),
    Forall2 (fun spec n => fixed_skip cu spec = Some n) specs sizes ->
    literals body ->
    compile_attrs cu specs tag body = Ok (tag', body') ->
    literals body' /\ sum_Z body' = sum_Z body + sum_Z sizes.
Proof.
  intros Ha specs sizes tag tag' body body' Hall. revert tag tag' body body'.
  induction Hall as [|[name form] n specs sizes Hfix _ IH];
    intros tag tag' body body' Hbody H; cbn [compile_attrs] in H.
  - inversion H; subst. cbn [sum_Z]. split; [exact Hbody|lia].
  - destruct (fixed_skip_compile cu name form n tag body Hfix) as [tag1 E].
    rewrite E in H. cbn [mbind result_bind] in H.
    pose proof (fixed_skip_size cu _ _ Ha Hfix) as Hn.
    destruct (emit_skip_literals body n Hbody Hn) as [Hlit Hsum].
    apply IH in H as [Hlit' Hsum']; [|exact Hlit].
    split; [exact Hlit'|]. cbn [sum_Z]. lia.
Qed.

Lemma exec_literals (m : list byte) (cu : compilation_unit) (end_ : Z)
    (str : section) (rest : list Z) (body : list Z) :
  literals body ->
  forall st,
    cur_ptr st <= end_ ->
    exec_cmds m cu end_ str (body ++ 0 :: rest) st =
    if in_bounds (cur_ptr st) end_ (sum_Z body)
    then Ok (set_ptr st (cur_ptr st + sum_Z body), rest)
    else Raise EOFError.
Proof.
  unfold literals, ATTRIB_MIN_CMD, ATTRIB_BLOCK1.
  intros Hall. induction Hall as [|c body Hc Hbody IH]; intros st Hst.
  - cbn [app exec_cmds sum_Z]. change (0 =? 0) with true. cbv iota.
    replace (in_bounds (cur_ptr st) end_ 0) with true
      by (symmetry; apply in_bounds_true; lia).
    rewrite Z.add_0_r. now destruct st.
  - cbn [app exec_cmds sum_Z].
    replace (c =? 0) with false by (symmetry; apply Z.eqb_neq; lia).
    assert (Hexec : exec_cmd m cu end_ str c st = do_skip end_ c st).
    { unfold exec_cmd, ATTRIB_BLOCK1, ATTRIB_BLOCK2, ATTRIB_BLOCK4,
        ATTRIB_EXPRLOC, ATTRIB_LEB128, ATTRIB_NAME_STRING, ATTRIB_STRING,
        ATTRIB_SIBLING_REF1, ATTRIB_SIBLING_REF2, ATTRIB_SIBLING_REF4,
        ATTRIB_SIBLING_REF8, ATTRIB_SIBLING_REF_UDATA, ATTRIB_NAME_STRP.
      repeat match goal with
             | |- context [c =? ?k] =>
                 replace (c =? k) with false by (symmetry; apply Z.eqb_neq; lia)
             end.
      reflexivity. }
    rewrite Hexec. unfold do_skip.
    assert (Hsum : 0 <= sum_Z body).
    { clear -Hbody. induction Hbody as [|x l Hx _ IHl]; cbn [sum_Z]; lia. }
    destruct (in_bounds (cur_ptr st) end_ c) eqn:E1; cbn [negb mbind result_bind].
    + apply in_bounds_true in E1. rewrite IH by (cbn; lia). cbn [cur_ptr].
      destruct (in_bounds (cur_ptr st + c) end_ (sum_Z body)) eqn:E2.
      * apply in_bounds_true in E2.
        replace (in_bounds (cur_ptr st) end_ (c + sum_Z body)) with true
          by (symmetry; apply in_bounds_true; lia).
        unfold set_ptr. cbn. do 3 f_equal. lia.
      * replace (in_bounds (cur_ptr st) end_ (c + sum_Z body)) with false;
          [reflexivity|].
        symmetry. apply not_true_iff_false. intros E3.
        apply in_bounds_true in E3.
        assert (in_bounds (cur_ptr st + c) end_ (sum_Z body) = true)
          by (apply in_bounds_true; lia).
        congruence.
    + replace (in_bounds (cur_ptr st) end_ (c + sum_Z body)) with false;
        [reflexivity|].
      symmetry. apply not_true_iff_false. intros E3.
      apply in_bounds_true in E3.
      assert (in_bounds (cur_ptr st) end_ c = true)
        by (apply in_bounds_true; lia).
      congruence.
Qed.

(** X20: coalescing does not change what is skipped.  For an abbreviation
    whose attributes are all of fixed size (in a unit whose [address_size]
    is between 1 and 242), the commands [read_abbrev_decl] compiles are
    literal skips that add up to the total size of the attributes, and the
    interpreter of [index_cu] moves the pointer by exactly that total, or
    raises [EOFError] when fewer bytes are left in the unit. *)
Theorem fixed_skips_skip_their_total (m : list byte) (cu : compilation_unit)
    (end_ : Z) (str : section) (specs : list (Z * Z)) (sizes : list Z)
    (tag tag' : Z) (body rest : list Z) (st : die_cursor) :
  0 < address_size cu < ATTRIB_MIN_CMD ->
  Forall2 (fun spec n => fixed_skip cu spec = Some n) specs sizes ->
  compile_attrs cu specs tag [] = Ok (tag', body) ->
  cur_ptr st <= end_ ->
  literals body /\ sum_Z body = sum_Z sizes /\
  exec_cmds m cu end_ str (body ++ 0 :: rest) st =
  if in_bounds (cur_ptr st) end_ (sum_Z sizes)
  then Ok (set_ptr st (cur_ptr st + sum_Z sizes), rest)
  else Raise EOFError.
Proof.
  intros Ha Hfix Hcomp Hst.
  destruct (compile_fixed_skips cu Ha specs sizes tag tag' [] body Hfix
              (List.Forall_nil _) Hcomp) as [Hlit Hsum].
  cbn [sum_Z] in Hsum. split; [exact Hlit|]. split; [lia|].
  rewrite (exec_literals m cu end_ str rest body Hlit st Hst).
  now replace (sum_Z body) with (sum_Z sizes) by lia.
Qed.

Lemma fixed_skips_skip_their_total_witness :
  exec_cmds [] (example_cu 8) 300 no_section ([242; 8] ++ 0 :: [0; 0])
    {| cur_ptr := 0; cur_name := None; cur_sibling := None |} =
  Ok ({| cur_ptr := 250; cur_name := None; cur_sibling := None |}, [0; 0]).
Proof.
  destruct (fixed_skips_skip_their_total [] (example_cu 8) 300 no_section
              (repeat (DW_AT_low_pc, DW_FORM_addr) 31 ++ [(0x3a, DW_FORM_data2)])
              (repeat 8 31 ++ [2]) 0 0 [242; 8] [0; 0]
              {| cur_ptr := 0; cur_name := None; cur_sibling := None |})
    as (_ & _ & H).
  - vm_compute. split; reflexivity.
  - cbn [repeat app]. repeat constructor.
  - vm_compute. reflexivity.
  - cbn. lia.
  - rewrite H. vm_compute. reflexivity.
Defined.

(** ** Skipping a LEB128 number and reading it *)

Lemma read_uleb128_loop_skip (bs : list byte) :
  forall ptr end_ shift value v p,
    read_uleb128_loop bs ptr end_ shift value = Ok (v, p) ->
    skip_leb128_loop bs ptr end_ = Ok p.
Proof.
  induction bs as [|b bs IH]; intros ptr end_ shift value v p H;
    cbn [read_uleb128_loop skip_leb128_loop] in *;
    destruct (ptr >=? end_); try discriminate.
  cbv zeta in H.
  destruct ((shift =? 63) && (u8 b >? 1)); [discriminate|].
  destruct (Z.land (u8 b) 128 =? 0).
  - now inversion H.
  - exact (IH _ _ _ _ _ _ H).
Qed.

Lemma read_sleb128_loop_skip (bs : list byte) :
  forall ptr end_ shift value v p s b,
    read_sleb128_loop bs ptr end_ shift value = Ok (v, p, s, b) ->
    skip_leb128_loop bs ptr end_ = Ok p.
Proof.
  induction bs as [|b0 bs IH]; intros ptr end_ shift value v p s b H;
    cbn [read_sleb128_loop skip_leb128_loop] in *;
    destruct (ptr >=? end_); try discriminate.
  cbv zeta in H.
  destruct ((shift =? 63) && negb (u8 b0 =? 0) && negb (u8 b0 =? 127));
    [discriminate|].
  destruct (Z.land (u8 b0) 128 =? 0).
  - now inversion H.
  - exact (IH _ _ _ _ _ _ _ _ H).
Qed.

(** X24: the command [ATTRIB_LEB128], which skips the attributes of form
    [DW_FORM_udata], [DW_FORM_sdata] and [DW_FORM_ref_udata], moves the
    pointer to where the readers stop: whenever [read_uleb128] or
    [read_sleb128] accepts the number at the pointer, the command succeeds
    and leaves the pointer just past that number, the name and the sibling
    untouched. *)
Theorem leb128_skip_agrees_with_readers (m : list byte) (cu : compilation_unit)
    (end_ : Z) (str : section) (st : die_cursor) :
  (forall v p,
     read_uleb128 m (cur_ptr st) end_ = Ok (v, p) ->
     exec_cmd m cu end_ str ATTRIB_LEB128 st = Ok (set_ptr st p)) /\
  (forall v p,
     read_sleb128 m (cur_ptr st) end_ = Ok (v, p) ->
     exec_cmd m cu end_ str ATTRIB_LEB128 st = Ok (set_ptr st p)).
Proof.
  assert (Hskip : forall p,
            skip_leb128 m (cur_ptr st) end_ = Ok p ->
            exec_cmd m cu end_ str ATTRIB_LEB128 st = Ok (set_ptr st p)).
  { intros p Hp. unfold exec_cmd. cbn [Z.eqb ATTRIB_LEB128 ATTRIB_BLOCK1
      ATTRIB_BLOCK2 ATTRIB_BLOCK4 ATTRIB_EXPRLOC Pos.eqb].
    rewrite Hp. reflexivity. }
  assert (Hloop : forall p,
            (cur_ptr st <? 0) = false ->
            skip_leb128_loop (bytes_from m (cur_ptr st)) (cur_ptr st) end_ = Ok p ->
            skip_leb128 m (cur_ptr st) end_ = Ok p).
  { intros p Hneg Hp. unfold skip_leb128. rewrite Hneg.
    destruct (cur_ptr st >=? end_) eqn:E; [|exact Hp].
    destruct (bytes_from m (cur_ptr st)); cbn [skip_leb128_loop] in Hp;
      rewrite E in Hp; discriminate. }
  split; intros v p H; apply Hskip.
  - unfold read_uleb128 in H.
    destruct (cur_ptr st <? 0) eqn:Hneg;
      [destruct (cur_ptr st >=? end_); discriminate|].
    apply Hloop; [reflexivity|]. exact (read_uleb128_loop_skip _ _ _ _ _ _ _ H).
  - unfold read_sleb128 in H.
    destruct (cur_ptr st <? 0) eqn:Hneg;
      [destruct (cur_ptr st >=? end_); discriminate|].
    apply bind_Ok in H as ([[[v0 p0] s0] b0] & Hl & H). inversion H; subst p0.
    apply Hloop; [reflexivity|].
    exact (read_sleb128_loop_skip _ _ _ _ _ _ _ _ _ Hl).
Qed.

Lemma leb128_skip_agrees_with_readers_witness :
  exec_cmd [xe5; x8e; x26; x00] (example_cu 8) 4 no_section ATTRIB_LEB128
    {| cur_ptr := 0; cur_name := None; cur_sibling := None |}
  = Ok {| cur_ptr := 3; cur_name := None; cur_sibling := None |}.
Proof.
  destruct (leb128_skip_agrees_with_readers [xe5; x8e; x26; x00] (example_cu 8)
              4 no_section
              {| cur_ptr := 0; cur_name := None; cur_sibling := None |})
    as [Hu _].
  apply (Hu 624485 3). vm_compute. reflexivity.
Defined.


(** ** The compiled abbreviations are well formed *)

Lemma emit_skip_bytes (cmds : list Z) (n : Z) :
  Forall (fun c => 0 <= c < UINT8_MOD) cmds -> 0 <= n < UINT8_MOD ->
  Forall (fun c => 0 <= c < UINT8_MOD) (emit_skip cmds n).
Proof.
  unfold UINT8_MOD. change (2 ^ 8) with 256. intros Hall Hn. unfold emit_skip.
  destruct (last_cmd cmds) as [prev|] eqn:El.
  - apply last_cmd_inv in El as [pre ->].
    apply Forall_app in Hall as [Hpre Hprev].
    rewrite Forall_singleton in Hprev.
    unfold ATTRIB_MIN_CMD, ATTRIB_BLOCK1, UINT8_MOD, append_cmd.
    change (2 ^ 8) with 256.
    destruct (prev <? 243) eqn:E1.
    + apply Z.ltb_lt in E1. destruct (prev + n <? 243) eqn:E2.
      * apply Z.ltb_lt in E2. rewrite set_last_cmd_app.
        apply Forall_app. split; [exact Hpre|]. apply Forall_singleton.
        rewrite Z.mod_small by lia. lia.
      * apply Z.ltb_ge in E2. rewrite set_last_cmd_app.
        apply Forall_app. split.
        -- apply Forall_app. split; [exact Hpre|]. apply Forall_singleton. lia.
        -- apply Forall_singleton. rewrite Z.mod_small by lia. lia.
    + apply Forall_app. split.
      * apply Forall_app. split; [exact Hpre|]. now apply Forall_singleton.
      * now apply Forall_singleton.
  - apply Forall_app. split; [exact Hall|]. now apply Forall_singleton.
Qed.

Lemma compile_attr_bytes (cu : compilation_unit) (name form tag tag' : Z)
    (body body' : list Z) :
  0 <= address_size cu < UINT8_MOD ->
  compile_attr cu name form tag body = Ok (tag', body') ->
  Forall (fun c => 0 <= c < UINT8_MOD) body ->
  (tag' = tag \/ tag' = 0) /\ Forall (fun c => 0 <= c < UINT8_MOD) body'.
Proof.
  intros Ha H Hbody. unfold compile_attr, attr_special in H.
  assert (Happ : forall c, 0 <= c < UINT8_MOD ->
            Forall (fun c => 0 <= c < UINT8_MOD) (append_cmd body c)).
  { intros c Hc. apply Forall_app. split; [exact Hbody|]. now apply Forall_singleton. }
  assert (Hform : forall t body'',
            match form_cmd cu form with
            | FormSkip cmd => Ok (t, emit_skip body cmd)
            | FormAppend cmd => Ok (t, append_cmd body cmd)
            | FormContinue => Ok (t, body)
            | FormRaise e => Raise e
            end = Ok (tag', body'') ->
            tag' = t /\ Forall (fun c => 0 <= c < UINT8_MOD) body'').
  { intros t body'' Hf. unfold form_cmd in Hf.
    repeat match type of Hf with
           | context [if ?b then _ else _] => destruct b
           end;
      inversion Hf; subst; (split; [reflexivity|]);
      try (apply emit_skip_bytes; [exact Hbody|]);
      try (apply Happ); try exact Hbody;
      unfold UINT8_MOD, ATTRIB_BLOCK1, ATTRIB_BLOCK2, ATTRIB_BLOCK4,
        ATTRIB_EXPRLOC, ATTRIB_LEB128, ATTRIB_STRING in *; lia. }
  destruct (name =? DW_AT_sibling).
  - destruct (sibling_cmd form) as [cmd|] eqn:Es.
    + inversion H; subst. split; [now left|]. apply Happ.
      apply sibling_cmd_positive in Es. lia.
    + apply Hform in H as [-> Hb]. auto.
  - destruct ((name =? DW_AT_name) && negb (tag =? 0)).
    + destruct (name_cmd form) as [cmd|] eqn:En.
      * inversion H; subst. split; [now left|]. apply Happ.
        apply name_cmd_positive in En. lia.
      * apply Hform in H as [-> Hb]. auto.
    + destruct ((name =? DW_AT_declaration) && negb (tag =? DW_TAG_variable));
        apply Hform in H as [-> Hb]; auto.
Qed.

Lemma compile_attrs_bytes (cu : compilation_unit) (specs : list (Z * Z)) :
  0 <= address_size cu < UINT8_MOD ->
  forall (tag tag' : Z) (body body' : list Z),
    compile_attrs cu specs tag body = Ok (tag', body') ->
    Forall (fun c => 0 <= c < UINT8_MOD) body ->
    (tag' = tag \/ tag' = 0) /\ Forall (fun c => 0 <= c < UINT8_MOD) body'.
Proof.
  intros Ha. induction specs as [|[name form] specs IH];
    intros tag tag' body body' H Hbody; cbn [compile_attrs] in H.
  - inversion H; subst. auto.
  - apply bind_Ok in H as ([tag1 body1] & H1 & H).
    apply compile_attr_bytes in H1 as [Ht1 Hbody1]; auto.
    apply IH in H as [Ht Hb]; [|exact Hbody1].
    split; [|exact Hb]. destruct Ht as [->| ->]; auto.
Qed.

Lemma compiled_wellformed (cu : compilation_unit) (dtag children : Z)
    (specs : list (Z * Z)) (body : list Z) (ftag : Z) (decl : abbrev_decl) :
  0 <= address_size cu < UINT8_MOD -> 0 <= children < UINT8_MOD ->
  compiled_from cu dtag children specs body ftag decl ->
  wellformed_decl decl.
Proof.
  intros Ha Hch [Hcomp Hcmds].
  apply compile_attrs_bytes in Hcomp as [Ht Hb]; [|exact Ha|constructor].
  exists body, (ftag mod UINT8_MOD), children.
  split; [exact Hcmds|]. split; [exact Hb|]. split; [|exact Hch].
  destruct (indexed_tag dtag) eqn:Ei.
  - destruct Ht as [->| ->]; [|now left].
    right. apply indexed_tag_range in Ei as Hr. rewrite Z.mod_small by lia.
    exact Ei.
  - left. destruct Ht as [->| ->]; reflexivity.
Qed.

Lemma read_abbrev_table_loop_wellformed (fuel : nat) (m : list byte) (end_ : Z)
    (n : nat) :
  forall (ptr : Z) (cu cu' : compilation_unit),
    0 <= address_size cu < UINT8_MOD ->
    Forall wellformed_decl (abbrev_decls cu) ->
    read_abbrev_table_loop n fuel m ptr end_ cu = Ok cu' ->
    Forall wellformed_decl (abbrev_decls cu').
Proof.
  induction n as [|n IH]; intros ptr cu cu' Ha Hwf H; [discriminate|].
  cbn [read_abbrev_table_loop] in H.
  apply bind_Ok in H as ([[ret p] cu1] & Hdecl & H).
  destruct (ret =? 1) eqn:Er.
  - apply Z.eqb_eq in Er. subst ret.
    pose proof (read_abbrev_decl_compiled _ _ _ _ _ _ _ Hdecl)
      as (p1 & p2 & p3 & dtag & children & specs & body & ftag & decl
          & _ & Hch & _ & Hcomp & ->).
    apply (IH p (set_abbrev_decls cu (abbrev_decls cu ++ [decl])) cu');
      [exact Ha| |exact H].
    cbn. apply Forall_app. split; [exact Hwf|]. apply Forall_singleton.
    apply (compiled_wellformed cu dtag children specs body ftag); auto.
    apply read_u_value in Hch as (Hr & _). exact Hr.
  - inversion H; subst cu'.
    apply read_abbrev_decl_inv in Hdecl as [(_ & -> & _)|(-> & _)];
      [exact Hwf|discriminate].
Qed.

Lemma read_cus_loop_wellformed (fuel : nat) (m : list byte) (f : file) (n : nat) :
  forall (self self' : DwarfIndex) (ptr : Z) (cus cus' : list compilation_unit),
    Forall (fun cu => Forall wellformed_decl (abbrev_decls cu)) cus ->
    read_cus_loop n fuel self m f ptr cus = Ok (self', cus') ->
    Forall (fun cu => Forall wellformed_decl (abbrev_decls cu)) cus'.
Proof.
  induction n as [|n IH]; intros self self' ptr cus cus' Hwf H; [discriminate|].
  cbn [read_cus_loop] in H.
  destruct (negb (ptr <? section_end (debug_sections f DEBUG_INFO))).
  - inversion H; subst. exact Hwf.
  - apply bind_Ok in H as (cu & Hcu & H). apply bind_Ok in H as (cu' & Htab & H).
    refine (IH _ _ _ _ _ _ H).
    apply Forall_app. split; [exact Hwf|]. apply Forall_singleton.
    apply read_compilation_unit_header_inv in Hcu
      as (_ & Hnil & _ & _ & _ & Hasize & _).
    unfold read_abbrev_table in Htab.
    eapply read_abbrev_table_loop_wellformed; [| |exact Htab];
      [exact Hasize|constructor].
Qed.

(** X21: every abbreviation that [read_cus] stores is a program that
    [index_cu] can run: its commands are bytes, followed by the terminator
    0, the filtered tag, which is 0 or one of the seven indexed tags, and
    the children flag.  Reading the units leaves the hash table as it
    was. *)
Theorem stored_abbreviations_are_wellformed (fuel : nat) (self self' : DwarfIndex)
    (m : list byte) (f : file) (cus : list compilation_unit) :
  read_cus fuel self m f = Ok (self', cus) ->
  Forall (fun cu => Forall wellformed_decl (abbrev_decls cu)) cus /\
  die_hash self' = die_hash self.
Proof.
  unfold read_cus. intros H. split.
  - apply read_cus_loop_wellformed in H; [exact H|constructor].
  - now apply read_cus_loop_keeps_hash in H.
Qed.

Lemma stored_abbreviations_are_wellformed_witness :
  exists self' cus,
    read_cus 10 empty_index (file_map variable_foo_file) variable_foo_file
    = Ok (self', cus) /\
    Forall (fun cu => Forall wellformed_decl (abbrev_decls cu)) cus.
Proof.
  destruct (read_cus 10 empty_index (file_map variable_foo_file)
              variable_foo_file) as [[self' cus]| | |] eqn:E;
    [|exfalso; vm_compute in E; discriminate ..].
  exists self', cus. split; [reflexivity|].
  exact (proj1 (stored_abbreviations_are_wellformed _ _ _ _ _ _ E)).
Defined.

(** ** The units follow one another in [.debug_info] *)

Lemma read_cus_loop_units (fuel : nat) (m : list byte) (f : file) (n : nat) :
  forall (self self' : DwarfIndex) (ptr : Z) (acc cus : list compilation_unit),
    read_cus_loop n fuel self m f ptr acc = Ok (self', cus) ->
    exists new,
      cus = acc ++ new /\
      units_from (file_addr f) ptr new
        (section_end (debug_sections f DEBUG_INFO)) /\
      Forall (fun cu => (version cu = 2 \/ version cu = 3 \/ version cu = 4) /\
                        0 <= unit_length cu) new /\
      index_address_size self'
      = match last new with
        | Some cu => address_size cu
        | None => index_address_size self
        end.
Proof.
  induction n as [|n IH]; intros self self' ptr acc cus H; [discriminate|].
  cbn [read_cus_loop] in H.
  destruct (ptr <? section_end (debug_sections f DEBUG_INFO)) eqn:Elt;
    cbn [negb] in H.
  - apply Z.ltb_lt in Elt.
    apply bind_Ok in H as (cu & Hcu & H). apply bind_Ok in H as (cu' & Htab & H).
    apply read_compilation_unit_header_inv in Hcu
      as (Hptr & _ & Hver & Hul & _ & _ & _ & _).
    pose proof Htab as Hkeep.
    apply read_abbrev_table_keeps in Hkeep as (H64 & Hlen & Hcp & Has).
    assert (Hv : version cu' = version cu).
    { unfold read_abbrev_table in Htab.
      apply read_abbrev_table_loop_inv in Htab as (new & -> & _). reflexivity. }
    apply IH in H as (new & -> & Hunits & Hall & Haddr).
    exists (cu' :: new). split; [now rewrite <- app_assoc|].
    split; [|split].
    + cbn [units_from]. split; [exact Elt|]. split; [congruence|]. exact Hunits.
    + constructor; [|exact Hall]. rewrite Hv, Hlen. split; [exact Hver|lia].
    + rewrite Haddr. cbn [index_address_size].
      destruct new as [|cu2 new]; [cbn; congruence|].
      rewrite last_cons_cons.
      destruct (last (cu2 :: new)) eqn:El; [reflexivity|].
      apply last_None in El. discriminate.
  - apply Z.ltb_ge in Elt. inversion H; subst. exists [].
    split; [now rewrite app_nil_r|]. split; [exact Elt|]. split; [constructor|].
    reflexivity.
Qed.

Lemma units_from_tile (map_addr end_ : Z) (cus : list compilation_unit) :
  forall ptr,
    units_from map_addr ptr cus end_ ->
    Forall (fun cu => 0 <= unit_length cu) cus ->
    Forall (unit_fits map_addr) cus ->
    units_tile ptr cus end_.
Proof.
  induction cus as [|cu cus IH]; intros ptr Hunits Hlen Hfit; [exact Hunits|].
  cbn [units_from units_tile] in *. destruct Hunits as (Hlt & Hptr & Hunits).
  inversion Hlen as [|? ? Hul Hlen']; subst.
  inversion Hfit as [|? ? [Hlo Hhi] Hfit']; subst.
  split; [exact Hlt|]. split; [reflexivity|]. apply IH; [|exact Hlen'|exact Hfit'].
  rewrite unit_size_small in Hunits
    by (try exact Hul; destruct (is_64_bit cu); lia).
  rewrite ptr_add_small in Hunits by lia.
  now rewrite Z.add_assoc in Hunits.
Qed.

(** X22: the units [read_cus] returns follow one another in [.debug_info]
    as the loop steps: the first starts at the start of the section, every
    unit starts before the end of the section, the next one starts where
    the 64-bit sum of the header size and [unit_length] lands from the
    start of the unit, and the last step lands at or after the end of the
    section.  When no unit has a length that wraps the address, the units
    tile the section: each starts where the one before it ends according
    to its header.  Every unit has version 2, 3 or 4, and the
    [address_size] of the index is that of the last unit read (it is left
    as it was when the section is empty). *)
Theorem units_follow_in_debug_info (fuel : nat) (self self' : DwarfIndex)
    (m : list byte) (f : file) (cus : list compilation_unit) :
  read_cus fuel self m f = Ok (self', cus) ->
  units_from (file_addr f) (sec_buffer (debug_sections f DEBUG_INFO)) cus
    (section_end (debug_sections f DEBUG_INFO)) /\
  (Forall (unit_fits (file_addr f)) cus ->
   units_tile (sec_buffer (debug_sections f DEBUG_INFO)) cus
     (section_end (debug_sections f DEBUG_INFO))) /\
  Forall (fun cu => (version cu = 2 \/ version cu = 3 \/ version cu = 4) /\
                    0 <= unit_length cu) cus /\
  index_address_size self'
  = match last cus with
    | Some cu => address_size cu
    | None => index_address_size self
    end.
Proof.
  unfold read_cus. intros H.
  apply read_cus_loop_units in H as (new & -> & Hunits & Hall & Haddr).
  rewrite app_nil_l. split; [exact Hunits|]. split; [|auto].
  intros Hfit. apply (units_from_tile (file_addr f)); [exact Hunits| |exact Hfit].
  apply (Forall_impl _ _ _ Hall). intros cu [_ Hul]. exact Hul.
Qed.

Lemma units_follow_in_debug_info_witness :
  exists self' cus,
    read_cus 10 empty_index (file_map variable_foo_file) variable_foo_file
    = Ok (self', cus) /\
    units_tile (sec_buffer (debug_sections variable_foo_file DEBUG_INFO)) cus
      (section_end (debug_sections variable_foo_file DEBUG_INFO)).
Proof.
  destruct (read_cus 10 empty_index (file_map variable_foo_file)
              variable_foo_file) as [[self' cus]| | |] eqn:E;
    [|exfalso; vm_compute in E; discriminate ..].
  exists self', cus. split; [reflexivity|].
  destruct (units_follow_in_debug_info _ _ _ _ _ _ E) as (_ & Htile & _).
  apply Htile. vm_compute in E. inversion E; subst self' cus.
  repeat constructor; vm_compute; congruence.
Defined.
